(** * iqk_mul_mat: k-quant and IQ4_XS matrix multiplication kernels (AVX2)

    A shallow embedding of [llamafile/iqk_mul_mat.cpp].

    - Machine integers are [Z] with the wrap-around of their C type written
      out ([u8], [s8], [u16], ..., [to_int]).
    - A [__m256i] / [__m128i] register is the list of its bytes, lowest
      address first; intrinsics that work on 16- or 32-bit lanes regroup the
      bytes little-endian ([lanes16], [lanes32]) and split their result
      again ([bytes16], [bytes32]).
    - A [__m256] / [__m128] register is the list of its float lanes.  The
      float type and its operations are an interface ([FloatOps]); an
      IEEE-754 binary32 instance is built on the Standard Library's
      [SpecFloat].
    - The quantized operands live in typed read-only heaps (byte address to
      array of super-blocks); the result matrix [C] is a store that the
      kernels write through [store_at].
    - [assert] is modelled as checked: a failed assertion is the outcome
      [None]. *)

From Stdlib Require Import ZArith List Lia Bool Ring.
From Stdlib Require Import SpecFloat.
From Stdlib Require QArith Qcanon.
From coqutil Require Import Z.bitblast.
Import ListNotations.
Open Scope Z_scope.

(** ** Machine integers *)

Definition u8 (x : Z) : Z := x mod 256.
Definition u16 (x : Z) : Z := x mod 65536.
Definition u32 (x : Z) : Z := x mod 4294967296.
Definition s8 (x : Z) : Z := if x mod 256 <? 128 then x mod 256 else x mod 256 - 256.
Definition s16 (x : Z) : Z :=
  if x mod 65536 <? 32768 then x mod 65536 else x mod 65536 - 65536.
Definition s32 (x : Z) : Z :=
  if x mod 4294967296 <? 2147483648 then x mod 4294967296
  else x mod 4294967296 - 4294967296.
(** [long] arithmetic: two's complement on 64 bits. *)
Definition to_long (x : Z) : Z :=
  if x mod 18446744073709551616 <? 9223372036854775808
  then x mod 18446744073709551616
  else x mod 18446744073709551616 - 18446744073709551616.
(** Conversion to [int] (of a [long] or a [size_t] argument). *)
Definition to_int (x : Z) : Z := s32 x.

Definition INT_MAX : Z := 2147483647.
Definition LONG_MAX : Z := 9223372036854775807.

(** Signed saturation to 16 bits, as done by [vpmaddubsw]. *)
Definition sat16 (x : Z) : Z :=
  if x <? -32768 then -32768 else if 32767 <? x then 32767 else x.

(** ** Loops and arrays *)

(** [for (int k = 0; k < n; ++k) body]: no iteration when [n <= 0]. *)
Definition for_loop {S : Type} (n : Z) (body : Z -> S -> S) (s : S) : S :=
  fold_left (fun s k => body (Z.of_nat k) s) (seq 0 (Z.to_nat n)) s.

Fixpoint upd {A : Type} (k : nat) (v : A) (l : list A) : list A :=
  match l, k with
  | [], _ => []
  | _ :: t, O => v :: t
  | h :: t, S k' => h :: upd k' v t
  end.

Definition aget {A : Type} (d : A) (l : list A) (k : Z) : A := nth (Z.to_nat k) l d.
Definition aset {A : Type} (l : list A) (k : Z) (v : A) : list A := upd (Z.to_nat k) v l.

Fixpoint map2 {A B C : Type} (f : A -> B -> C) (l1 : list A) (l2 : list B) : list C :=
  match l1, l2 with
  | a :: t1, b :: t2 => f a b :: map2 f t1 t2
  | _, _ => []
  end.

Fixpoint map3 {A B C D : Type} (f : A -> B -> C -> D)
  (l1 : list A) (l2 : list B) (l3 : list C) : list D :=
  match l1, l2, l3 with
  | a :: t1, b :: t2, c :: t3 => f a b c :: map3 f t1 t2 t3
  | _, _, _ => []
  end.

(** ** Integer vector registers *)

Definition vec := list Z.

Fixpoint lanes16 (v : vec) : list Z :=
  match v with
  | b0 :: b1 :: t => (b0 + 256 * b1) :: lanes16 t
  | _ => []
  end.

Definition bytes16 (l : list Z) : vec :=
  flat_map (fun x => [x mod 256; (x / 256) mod 256]) l.

Fixpoint lanes32 (v : vec) : list Z :=
  match v with
  | b0 :: b1 :: b2 :: b3 :: t =>
      (b0 + 256 * b1 + 65536 * b2 + 16777216 * b3) :: lanes32 t
  | _ => []
  end.

Definition bytes32 (l : list Z) : vec :=
  flat_map (fun x => [x mod 256; (x / 256) mod 256;
                      (x / 65536) mod 256; (x / 16777216) mod 256]) l.

(** Loads.  A [uint8_t] or [int8_t] array is a list of integers, each read
    as the byte it is stored in; an [int16_t] array is read as two bytes per
    element. *)
Definition load_bytes (arr : list Z) (off : Z) (len : nat) : vec :=
  map (fun k => u8 (nth (Z.to_nat off + k) arr 0)) (seq 0 len).

Definition _mm256_loadu_si256 (arr : list Z) (off : Z) : vec := load_bytes arr off 32.
Definition _mm_loadu_si128 (arr : list Z) (off : Z) : vec := load_bytes arr off 16.
(** A 256-bit load from an [int16_t] array of 16 elements. *)
Definition _mm256_loadu_epi16 (arr : list Z) : vec :=
  bytes16 (map (fun k => u16 (nth k arr 0)) (seq 0 16)).

Definition _mm256_setzero_si256 : vec := repeat 0 32.
Definition _mm256_set1_epi8 (x : Z) : vec := repeat (u8 x) 32.
Definition _mm_set1_epi8 (x : Z) : vec := repeat (u8 x) 16.
Definition _mm256_set1_epi16 (x : Z) : vec := bytes16 (repeat (u16 x) 16).
Definition _mm_set1_epi16 (x : Z) : vec := bytes16 (repeat (u16 x) 8).
Definition _mm_set1_epi32 (x : Z) : vec := bytes32 (repeat (u32 x) 4).
Definition _mm_set_epi32 (e3 e2 e1 e0 : Z) : vec := bytes32 [u32 e0; u32 e1; u32 e2; u32 e3].

Definition vand (a b : vec) : vec := map2 Z.land a b.
Definition vor (a b : vec) : vec := map2 Z.lor a b.
Definition _mm256_and_si256 := vand.
Definition _mm_and_si128 := vand.
Definition _mm256_or_si256 := vor.
Definition _mm_or_si128 := vor.

Definition vsrli_epi16 (a : vec) (n : Z) : vec :=
  bytes16 (map (fun x => Z.shiftr x n) (lanes16 a)).
Definition vslli_epi16 (a : vec) (n : Z) : vec :=
  bytes16 (map (fun x => u16 (Z.shiftl x n)) (lanes16 a)).
Definition _mm256_srli_epi16 := vsrli_epi16.
Definition _mm_srli_epi16 := vsrli_epi16.
Definition _mm256_slli_epi16 := vslli_epi16.
Definition _mm_slli_epi16 := vslli_epi16.

Definition _mm256_add_epi8 (a b : vec) : vec := map2 (fun x y => u8 (x + y)) a b.
Definition _mm_sub_epi8 (a b : vec) : vec := map2 (fun x y => u8 (x - y)) a b.
Definition _mm_add_epi16 (a b : vec) : vec :=
  bytes16 (map2 (fun x y => u16 (x + y)) (lanes16 a) (lanes16 b)).
Definition _mm256_add_epi32 (a b : vec) : vec :=
  bytes32 (map2 (fun x y => u32 (x + y)) (lanes32 a) (lanes32 b)).

(** [vpmaddubsw]: unsigned bytes of [a] times signed bytes of [b], adjacent
    products added with signed saturation to 16 bits. *)
Fixpoint maddubs_lanes (a b : vec) : list Z :=
  match a, b with
  | a0 :: a1 :: ta, b0 :: b1 :: tb =>
      sat16 (a0 * s8 b0 + a1 * s8 b1) :: maddubs_lanes ta tb
  | _, _ => []
  end.
Definition _mm256_maddubs_epi16 (a b : vec) : vec := bytes16 (map u16 (maddubs_lanes a b)).

(** [vpmaddwd]: signed 16-bit lanes multiplied, adjacent products added into
    a 32-bit lane (wrapping). *)
Fixpoint madd_lanes (a b : list Z) : list Z :=
  match a, b with
  | a0 :: a1 :: ta, b0 :: b1 :: tb =>
      (s16 a0 * s16 b0 + s16 a1 * s16 b1) :: madd_lanes ta tb
  | _, _ => []
  end.
Definition vmadd_epi16 (a b : vec) : vec :=
  bytes32 (map u32 (madd_lanes (lanes16 a) (lanes16 b))).
Definition _mm256_madd_epi16 := vmadd_epi16.
Definition _mm_madd_epi16 := vmadd_epi16.

(** [pshufb] on one 128-bit lane. *)
Definition _mm_shuffle_epi8 (a b : vec) : vec :=
  map (fun c => if Z.testbit c 7 then 0 else nth (Z.to_nat (Z.land c 15)) a 0) b.
(** [vpshufb] shuffles within each 128-bit half. *)
Definition _mm256_shuffle_epi8 (a b : vec) : vec :=
  _mm_shuffle_epi8 (firstn 16 a) (firstn 16 b) ++
  _mm_shuffle_epi8 (skipn 16 a) (skipn 16 b).

Definition _mm256_cvtepi8_epi16 (a : vec) : vec := bytes16 (map (fun x => u16 (s8 x)) a).
Definition _mm256_cvtepu8_epi16 (a : vec) : vec := bytes16 a.
Definition _mm_cvtepi8_epi16 (a : vec) : vec := bytes16 (map (fun x => u16 (s8 x)) (firstn 8 a)).

Definition _mm256_extracti128_si256 (a : vec) (k : Z) : vec :=
  firstn 16 (skipn (Z.to_nat (16 * k)) a).
Definition _mm256_extractf128_si256 := _mm256_extracti128_si256.
Definition _mm256_castsi256_si128 (a : vec) : vec := firstn 16 a.
(** [MM256_SET_M128I(a, b)]: [b] is the low half, [a] the high half. *)
Definition MM256_SET_M128I (a b : vec) : vec := b ++ a.

(** [vpsignb]: negate, keep or zero each byte of [a] by the sign of [b]. *)
Definition _mm256_sign_epi8 (a b : vec) : vec :=
  map2 (fun x y => if s8 y <? 0 then u8 (- s8 x) else if s8 y =? 0 then 0 else x) a b.

Definition _mm_hadd_epi16 (a b : vec) : vec :=
  let h := fix h (l : list Z) : list Z :=
             match l with
             | x0 :: x1 :: t => u16 (x0 + x1) :: h t
             | _ => []
             end in
  bytes16 (h (lanes16 a) ++ h (lanes16 b)).

(** [vpsrlvd]: each 32-bit lane shifted right by its own count. *)
Definition _mm_srlv_epi32 (a count : vec) : vec :=
  bytes32 (map2 (fun x c => if c <? 32 then Z.shiftr x c else 0) (lanes32 a) (lanes32 count)).

(** ** Scale shuffles *)

Definition get_scale_shuffle_8 (i : Z) : vec :=
  _mm256_set1_epi16 (Z.lor (2 * i) (Z.shiftl (2 * i + 1) 8)).

Definition k_shuffle : list Z :=
  [ 0; 1; 0; 1; 0; 1; 0; 1; 0; 1; 0; 1; 0; 1; 0; 1;     2; 3; 2; 3; 2; 3; 2; 3; 2; 3; 2; 3; 2; 3; 2; 3;
    4; 5; 4; 5; 4; 5; 4; 5; 4; 5; 4; 5; 4; 5; 4; 5;     6; 7; 6; 7; 6; 7; 6; 7; 6; 7; 6; 7; 6; 7; 6; 7;
    8; 9; 8; 9; 8; 9; 8; 9; 8; 9; 8; 9; 8; 9; 8; 9;    10;11;10;11;10;11;10;11;10;11;10;11;10;11;10;11;
   12;13;12;13;12;13;12;13;12;13;12;13;12;13;12;13;    14;15;14;15;14;15;14;15;14;15;14;15;14;15;14;15 ].

Definition get_scale_shuffle_16 (i : Z) : vec := _mm256_loadu_si256 k_shuffle (32 * i).

(** ** Q4_K / Q5_K scale unpacking *)

(** The [k]-th little-endian 16-bit word of a byte array, as read through
    a [uint16_t] pointer. *)
Definition read_u16 (bytes : list Z) (k : nat) : Z :=
  u8 (nth (2 * k) bytes 0) + 256 * u8 (nth (2 * k + 1) bytes 0).

(** The four words written to [aux32], in index order. *)
Definition make_q4_scales (scales8 : list Z) : list Z :=
  let scales := read_u16 scales8 in
  let a0 := u32 (Z.lor (scales 0%nat) (Z.shiftl (scales 1%nat) 16)) in
  let a1 := u32 (Z.lor (scales 2%nat) (Z.shiftl (scales 3%nat) 16)) in
  let a2 := u32 (Z.lor (scales 4%nat) (Z.shiftl (scales 5%nat) 16)) in
  let aux3 := Z.lor (Z.land (Z.shiftr a2 4) 0x0f0f0f0f) (Z.land (Z.shiftr a1 2) 0x30303030) in
  let aux1 := Z.lor (Z.land (Z.shiftr a2 0) 0x0f0f0f0f) (Z.land (Z.shiftr a0 2) 0x30303030) in
  let aux2 := Z.land a1 0x3f3f3f3f in
  let aux0 := Z.land a0 0x3f3f3f3f in
  [aux0; aux1; aux2; aux3].

(** The scales and mins registers that the Q4_K and Q5_K kernels build from
    [utmp]: [sc128] is the low half of the zero-extended bytes, [mins] the
    high half. *)
Definition q4_mins_and_scales (utmp : list Z) : vec :=
  _mm256_cvtepu8_epi16
    (_mm_set_epi32 (nth 3 utmp 0) (nth 2 utmp 0) (nth 1 utmp 0) (nth 0 utmp 0)).
Definition q4_mins (utmp : list Z) : vec := _mm256_extracti128_si256 (q4_mins_and_scales utmp) 1.
Definition q4_sc128 (utmp : list Z) : vec := _mm256_extracti128_si256 (q4_mins_and_scales utmp) 0.

(** ** Floats *)

(** The [float] operations the kernels use.  [ffma a b c] is the fused
    [a * b + c] of [vfmadd]; [i32_to_f] is the lane conversion of
    [vcvtdq2ps]; [fp16_to_fp32] is [GGML_FP16_TO_FP32] applied to the 16 raw
    bits of a [ggml_half]. *)
Class FloatOps (F : Type) := {
  fzero : F;
  fadd : F -> F -> F;
  fsub : F -> F -> F;
  fmul : F -> F -> F;
  fneg : F -> F;
  ffma : F -> F -> F -> F;
  i32_to_f : Z -> F;
  fp16_to_fp32 : Z -> F;
  f_0_25 : F;
  f_0_0625 : F;
  f_4 : F;
  f_32 : F
}.

(** IEEE-754 binary32 with round-to-nearest-even. *)
Module B32.
Definition prec : Z := 24.
Definition emax : Z := 128.

Definition of_Z (z : Z) : spec_float := binary_normalize prec emax z 0 false.
Definition dyadic (m e : Z) : spec_float := binary_normalize prec emax m e false.
Definition add : spec_float -> spec_float -> spec_float := SFadd prec emax.
Definition sub : spec_float -> spec_float -> spec_float := SFsub prec emax.
Definition mul : spec_float -> spec_float -> spec_float := SFmul prec emax.
Definition neg : spec_float -> spec_float := SFopp.

(** Fused multiply-add: the exact product is aligned with the addend and
    the sum is rounded once. *)
Definition fma (x y z : spec_float) : spec_float :=
  match x, y with
  | S754_nan, _ | _, S754_nan => S754_nan
  | S754_infinity _, S754_zero _ | S754_zero _, S754_infinity _ => S754_nan
  | S754_infinity sx, S754_infinity sy
  | S754_infinity sx, S754_finite sy _ _
  | S754_finite sx _ _, S754_infinity sy => add (S754_infinity (xorb sx sy)) z
  | S754_zero sx, S754_zero sy
  | S754_zero sx, S754_finite sy _ _
  | S754_finite sx _ _, S754_zero sy => add (S754_zero (xorb sx sy)) z
  | S754_finite sx mx ex, S754_finite sy my ey =>
      match z with
      | S754_nan => S754_nan
      | S754_infinity _ => z
      | S754_zero _ => mul x y
      | S754_finite sz mz ez =>
          let sp := xorb sx sy in
          let mp := Pos.mul mx my in
          let ep := ex + ey in
          let e := Z.min ep ez in
          binary_normalize prec emax
            (cond_Zopp sp (Zpos (fst (shl_align mp ep e))) +
             cond_Zopp sz (Zpos (fst (shl_align mz ez e)))) e false
      end
  end.

(** Modelled from the spec: [GGML_FP16_TO_FP32] (declared in
    [llama.cpp/ggml-impl.h]) expands IEEE-754 binary16 to binary32 exactly. *)
Definition of_half (h : Z) : spec_float :=
  let h := h mod 65536 in
  let s := Z.testbit h 15 in
  let e := Z.land (Z.shiftr h 10) 31 in
  let m := Z.land h 1023 in
  if e =? 31 then (if m =? 0 then S754_infinity s else S754_nan)
  else if e =? 0 then
    (if m =? 0 then S754_zero s else binary_normalize prec emax (cond_Zopp s m) (-24) s)
  else binary_normalize prec emax (cond_Zopp s (1024 + m)) (e - 25) s.
End B32.

#[export] Instance binary32 : FloatOps spec_float := {
  fzero := S754_zero false;
  fadd := B32.add;
  fsub := B32.sub;
  fmul := B32.mul;
  fneg := B32.neg;
  ffma := B32.fma;
  i32_to_f := B32.of_Z;
  fp16_to_fp32 := B32.of_half;
  f_0_25 := B32.dyadic 1 (-2);
  f_0_0625 := B32.dyadic 1 (-4);
  f_4 := B32.of_Z 4;
  f_32 := B32.of_Z 32
}.

(** ** Float vector registers *)

Section FloatVectors.
Context {F : Type} `{FloatOps F}.

Definition fvec := list F.

Definition _mm256_setzero_ps : fvec := repeat fzero 8.
Definition _mm_setzero_ps : fvec := repeat fzero 4.
Definition _mm256_set1_ps (x : F) : fvec := repeat x 8.
Definition _mm_set1_ps (x : F) : fvec := repeat x 4.
Definition vfmadd_ps (a b c : fvec) : fvec := map3 ffma a b c.
Definition _mm256_fmadd_ps := vfmadd_ps.
Definition _mm_fmadd_ps := vfmadd_ps.
Definition vcvtepi32_ps (a : vec) : fvec := map (fun x => i32_to_f (s32 x)) (lanes32 a).
Definition _mm256_cvtepi32_ps := vcvtepi32_ps.
Definition _mm_cvtepi32_ps := vcvtepi32_ps.
Definition _mm_add_ps (a b : fvec) : fvec := map2 fadd a b.
Definition _mm_movehl_ps (a b : fvec) : fvec :=
  [nth 2 b fzero; nth 3 b fzero; nth 2 a fzero; nth 3 a fzero].
Definition _mm_movehdup_ps (a : fvec) : fvec :=
  [nth 1 a fzero; nth 1 a fzero; nth 3 a fzero; nth 3 a fzero].
Definition _mm_add_ss (a b : fvec) : fvec :=
  [fadd (nth 0 a fzero) (nth 0 b fzero); nth 1 a fzero; nth 2 a fzero; nth 3 a fzero].
Definition _mm_cvtss_f32 (a : fvec) : F := nth 0 a fzero.
Definition _mm256_castps256_ps128 (a : fvec) : fvec := firstn 4 a.
Definition _mm256_extractf128_ps (a : fvec) (k : Z) : fvec :=
  firstn 4 (skipn (Z.to_nat (4 * k)) a).

Definition hsum_float_4 (x : fvec) : F :=
  let x := _mm_add_ps x (_mm_movehl_ps x x) in
  let x := _mm_add_ss x (_mm_movehdup_ps x) in
  _mm_cvtss_f32 x.

Definition hsum_float_8 (x : fvec) : F :=
  hsum_float_4 (_mm_add_ps (_mm256_castps256_ps128 x) (_mm256_extractf128_ps x 1)).
End FloatVectors.

(** ** Super-blocks *)

Definition QK_K : Z := 256.

(** Modelled from the spec: the block structures are declared in
    [llama.cpp/ggml-quants.h]; their fields are those of the data model.
    A [ggml_half] field holds its 16 raw bits. *)
Record block_q2_K := {
  q2_scales : list Z;   (* uint8_t[16] *)
  q2_qs : list Z;       (* uint8_t[64] *)
  q2_d : Z;             (* ggml_half *)
  q2_dmin : Z           (* ggml_half *)
}.

Record block_q3_K := {
  q3_hmask : list Z;    (* uint8_t[32] *)
  q3_qs : list Z;       (* uint8_t[64] *)
  q3_scales : list Z;   (* uint8_t[12] *)
  q3_d : Z              (* ggml_half *)
}.

Record block_q4_K := {
  q4_d : Z;             (* ggml_half *)
  q4_dmin : Z;          (* ggml_half *)
  q4_scales : list Z;   (* uint8_t[12] *)
  q4_qs : list Z        (* uint8_t[128] *)
}.

Record block_q5_K := {
  q5_d : Z;             (* ggml_half *)
  q5_dmin : Z;          (* ggml_half *)
  q5_scales : list Z;   (* uint8_t[12] *)
  q5_qh : list Z;       (* uint8_t[32] *)
  q5_qs : list Z        (* uint8_t[128] *)
}.

Record block_q6_K := {
  q6_ql : list Z;       (* uint8_t[128] *)
  q6_qh : list Z;       (* uint8_t[64] *)
  q6_scales : list Z;   (* int8_t[16] *)
  q6_d : Z              (* ggml_half *)
}.

Record block_iq4_xs := {
  iq4_d : Z;            (* ggml_half *)
  iq4_scales_h : Z;     (* uint16_t *)
  iq4_scales_l : list Z; (* uint8_t[4] *)
  iq4_qs : list Z       (* uint8_t[128] *)
}.

Record block_q8_K (F : Type) := {
  q8_d : F;             (* float *)
  q8_qs : list Z;       (* int8_t[256] *)
  q8_bsums : list Z     (* int16_t[16] *)
}.
Arguments q8_d {F} _.
Arguments q8_qs {F} _.
Arguments q8_bsums {F} _.

(** A typed view of read-only memory: the array of super-blocks that starts
    at a byte address. *)
Definition heap (B : Type) := Z -> Z -> B.

Record Heaps (F : Type) := {
  h_q2 : heap block_q2_K;
  h_q3 : heap block_q3_K;
  h_q4 : heap block_q4_K;
  h_q5 : heap block_q5_K;
  h_q6 : heap block_q6_K;
  h_iq4 : heap block_iq4_xs;
  h_q8 : heap (block_q8_K F)
}.
Arguments h_q2 {F} _.
Arguments h_q3 {F} _.
Arguments h_q4 {F} _.
Arguments h_q5 {F} _.
Arguments h_q6 {F} _.
Arguments h_iq4 {F} _.
Arguments h_q8 {F} _.

(** ** Micro-kernels *)

Section Kernels.
Context {F : Type} `{FloatOps F}.
(** The store holding [C], written one float at a time at an element
    offset. *)
Context {St : Type} (store_at : Z -> F -> St -> St).
Context (hp : Heaps F).

(** [struct Q8<nrc_y>]: the constructor takes the stride as an [int] and
    records the [nrc_y] column pointers [y[iy]]. *)
Definition Q8 (nrc_y : Z) (vy by_ : Z) : list Z :=
  map (fun iy => vy + to_int (Z.of_nat iy * to_int by_)) (seq 0 (Z.to_nat nrc_y)).

Definition q8_block (q8 : list Z) (iy i : Z) : block_q8_K F := h_q8 hp (aget 0 q8 iy) i.
Definition load_quants (q8 : list Z) (iy i j : Z) : vec :=
  _mm256_loadu_si256 (q8_qs (q8_block q8 iy i)) (32 * j).
Definition load_bsums (q8 : list Z) (iy i : Z) : vec :=
  _mm256_loadu_epi16 (q8_bsums (q8_block q8 iy i)).
Definition scale (q8 : list Z) (iy i : Z) : F := q8_d (q8_block q8 iy i).

Definition k_nrc_of (nrc_y : Z) : Z := if nrc_y <=? 2 then 2 * nrc_y else nrc_y.

(** *** Q2_K *)

(** The min correction of one super-block, accumulated into [accd]. *)
Definition q2_K_mins (nrc_y : Z) (q8 : list Z) (x : block_q2_K) (i : Z)
  (accd : list fvec) : list fvec :=
  let m4 := _mm_set1_epi8 0xF in
  let c2 := fneg (fp16_to_fp32 (q2_dmin x)) in
  let mins_and_scales := _mm_loadu_si128 (q2_scales x) 0 in
  let mins8 := _mm_and_si128 (_mm_srli_epi16 mins_and_scales 4) m4 in
  let mins := _mm256_cvtepi8_epi16 mins8 in
  for_loop nrc_y (fun iy accd =>
    let prod := _mm256_madd_epi16 mins (load_bsums q8 iy i) in
    if nrc_y <=? 2 then
      aset accd (2 * iy + 0)
        (_mm256_fmadd_ps (_mm256_set1_ps (fmul c2 (scale q8 iy i)))
           (_mm256_cvtepi32_ps prod) (aget [] accd (2 * iy + 0)))
    else
      aset accd iy
        (_mm256_fmadd_ps (_mm256_set1_ps (fmul c2 (scale q8 iy i)))
           (_mm256_cvtepi32_ps prod) (aget [] accd iy))) accd.

(** The two broadcast scale registers [scales[0]], [scales[1]]. *)
Definition q2_K_scales (x : block_q2_K) : list vec :=
  let m4 := _mm_set1_epi8 0xF in
  let mins_and_scales := _mm_loadu_si128 (q2_scales x) 0 in
  let scales8 := _mm_and_si128 mins_and_scales m4 in
  let all_scales := _mm256_cvtepi8_epi16 scales8 in
  let l_scales := _mm256_extracti128_si256 all_scales 0 in
  let h_scales := _mm256_extracti128_si256 all_scales 1 in
  [MM256_SET_M128I l_scales l_scales; MM256_SET_M128I h_scales h_scales].

(** The integer accumulators [sumi] of one super-block. *)
Definition q2_K_sumi (nrc_y : Z) (q8 : list Z) (x : block_q2_K) (i : Z) : list vec :=
  let m3 := _mm256_set1_epi8 3 in
  let mc := _mm256_set1_epi8 12 in
  let scales := q2_K_scales x in
  let sumi := repeat _mm256_setzero_si256 (Z.to_nat (k_nrc_of nrc_y)) in
  snd (for_loop (QK_K / 128) (fun j '(q2, sumi) =>
    let q2bits := _mm256_loadu_si256 (q2_qs x) q2 in
    let q2 := q2 + 32 in
    (q2, snd (for_loop 2 (fun l '(q2bits, sumi) =>
      let scales_0 := _mm256_shuffle_epi8 (aget [] scales j) (get_scale_shuffle_16 (2 * l + 0)) in
      let scales_1 := _mm256_shuffle_epi8 (aget [] scales j) (get_scale_shuffle_16 (2 * l + 1)) in
      let q2_0 := _mm256_and_si256 q2bits m3 in
      let q2_1 := if nrc_y <=? 2 then _mm256_and_si256 q2bits mc
                  else _mm256_and_si256 (_mm256_srli_epi16 q2bits 2) m3 in
      let sumi := for_loop nrc_y (fun iy sumi =>
        let p0 := _mm256_maddubs_epi16 q2_0 (load_quants q8 iy i (4 * j + 2 * l + 0)) in
        let p1 := _mm256_maddubs_epi16 q2_1 (load_quants q8 iy i (4 * j + 2 * l + 1)) in
        if nrc_y <=? 2 then
          let sumi := aset sumi (2 * iy + 0)
            (_mm256_add_epi32 (aget [] sumi (2 * iy + 0)) (_mm256_madd_epi16 scales_0 p0)) in
          aset sumi (2 * iy + 1)
            (_mm256_add_epi32 (aget [] sumi (2 * iy + 1)) (_mm256_madd_epi16 scales_1 p1))
        else
          aset sumi iy
            (_mm256_add_epi32 (aget [] sumi iy)
               (_mm256_add_epi32 (_mm256_madd_epi16 scales_0 p0)
                                 (_mm256_madd_epi16 scales_1 p1)))) sumi in
      (_mm256_srli_epi16 q2bits 4, sumi)) (q2bits, sumi)))) (0, sumi)).

(** One super-block: min correction, integer dot products, then the
    multiplication by the block scale. *)
Definition q2_K_block (nrc_y : Z) (q8 : list Z) (x : block_q2_K) (i : Z)
  (accd : list fvec) : list fvec :=
  let d2 := fp16_to_fp32 (q2_d x) in
  let accd := q2_K_mins nrc_y q8 x i accd in
  let sumi := q2_K_sumi nrc_y q8 x i in
  for_loop nrc_y (fun iy accd =>
    let vd := _mm256_set1_ps (fmul d2 (scale q8 iy i)) in
    if nrc_y <=? 2 then
      let accd := aset accd (2 * iy + 0)
        (_mm256_fmadd_ps vd (_mm256_cvtepi32_ps (aget [] sumi (2 * iy + 0)))
           (aget [] accd (2 * iy + 0))) in
      aset accd (2 * iy + 1)
        (_mm256_fmadd_ps vd (_mm256_cvtepi32_ps (aget [] sumi (2 * iy + 1)))
           (aget [] accd (2 * iy + 1)))
    else
      aset accd iy
        (_mm256_fmadd_ps vd (_mm256_cvtepi32_ps (aget [] sumi iy)) (aget [] accd iy))) accd.

(** The float accumulators of row [ix] after all [nb] super-blocks. *)
Definition q2_K_row (nrc_y nb : Z) (q8 : list Z) (vx bx ix : Z) : list fvec :=
  for_loop nb (fun i accd =>
    let x := h_q2 hp (vx + ix * bx) in
    q2_K_block nrc_y q8 (x i) i accd)
    (repeat _mm256_setzero_ps (Z.to_nat (k_nrc_of nrc_y))).

Definition mul_mat_q2_K_q8_K_T (nrc_y : Z) (n : Z) (s : Z) (bs : Z)
  (vx : Z) (bx : Z) (vy : Z) (by_ : Z) (nrc_x : Z) (st : St) : option St :=
  if negb (Z.rem n QK_K =? 0) then None else
  let nb := Z.quot n QK_K in
  let q8 := Q8 nrc_y vy by_ in
  Some (for_loop nrc_x (fun ix st =>
    let accd := q2_K_row nrc_y nb q8 vx bx ix in
    for_loop nrc_y (fun iy st =>
      if nrc_y <=? 2 then
        store_at (s + (ix + iy * bs))
          (fadd (hsum_float_8 (aget [] accd (2 * iy + 0)))
                (fmul f_0_25 (hsum_float_8 (aget [] accd (2 * iy + 1))))) st
      else
        store_at (s + (ix + iy * bs)) (hsum_float_8 (aget [] accd iy)) st) st) st).

(** *** Q3_K *)

(** The four 32-bit words of the scale set-up, in lane order (the arguments
    of [_mm_set_epi32] from last to first). *)
Definition q3_K_scale_words (scales : list Z) : list Z :=
  let scales16 := read_u16 scales in
  let aux0 := u32 (Z.lor (scales16 0%nat) (Z.shiftl (scales16 1%nat) 16)) in
  let aux1 := u32 (Z.lor (scales16 2%nat) (Z.shiftl (scales16 3%nat) 16)) in
  let aux2 := u32 (Z.lor (scales16 4%nat) (Z.shiftl (scales16 5%nat) 16)) in
  [ Z.lor (Z.land aux0 0x0f0f0f0f) (Z.land (u32 (Z.shiftl aux2 4)) 0x30303030);
    Z.lor (Z.land aux1 0x0f0f0f0f) (Z.land (u32 (Z.shiftl aux2 2)) 0x30303030);
    Z.lor (Z.land (Z.shiftr aux0 4) 0x0f0f0f0f) (Z.land (Z.shiftr aux2 0) 0x30303030);
    Z.lor (Z.land (Z.shiftr aux1 4) 0x0f0f0f0f) (Z.land (Z.shiftr aux2 2) 0x30303030) ].

(** [all_scales]: the sixteen scales, biased by -32, as 16-bit lanes. *)
Definition q3_K_all_scales (x : block_q3_K) : vec :=
  let m32 := _mm_set1_epi8 32 in
  let w := q3_K_scale_words (q3_scales x) in
  let scales128 := _mm_set_epi32 (nth 3 w 0) (nth 2 w 0) (nth 1 w 0) (nth 0 w 0) in
  let scales128 := _mm_sub_epi8 scales128 m32 in
  _mm256_cvtepi8_epi16 scales128.

(** The scale-times-bsum products of one super-block, accumulated into
    [accm]. *)
Definition q3_K_mins (nrc_y : Z) (q8 : list Z) (x : block_q3_K) (i : Z)
  (accm : list fvec) : list fvec :=
  let d3 := fp16_to_fp32 (q3_d x) in
  let all_scales := q3_K_all_scales x in
  for_loop nrc_y (fun iy accm =>
    let vd := _mm256_set1_ps (fmul d3 (scale q8 iy i)) in
    let prod := _mm256_madd_epi16 all_scales (load_bsums q8 iy i) in
    aset accm iy (_mm256_fmadd_ps vd (_mm256_cvtepi32_ps prod) (aget [] accm iy))) accm.

Definition q3_K_scales (x : block_q3_K) : list vec :=
  let all_scales := q3_K_all_scales x in
  let l_scales := _mm256_extracti128_si256 all_scales 0 in
  let h_scales := _mm256_extracti128_si256 all_scales 1 in
  [MM256_SET_M128I l_scales l_scales; MM256_SET_M128I h_scales h_scales].

Definition q3_K_sumi (nrc_y : Z) (q8 : list Z) (x : block_q3_K) (i : Z) : list vec :=
  let m3l := _mm256_set1_epi8 0x03 in
  let hml := _mm256_set1_epi8 0x04 in
  let scales := q3_K_scales x in
  let hbits0 := _mm256_loadu_si256 (q3_hmask x) 0 in
  let hbits := [hbits0; _mm256_srli_epi16 hbits0 4] in
  let sumi := repeat _mm256_setzero_si256 (Z.to_nat nrc_y) in
  snd (for_loop (QK_K / 128) (fun j '(q3, sumi) =>
    let scales_0 := _mm256_shuffle_epi8 (aget [] scales j) (get_scale_shuffle_16 0) in
    let scales_1 := _mm256_shuffle_epi8 (aget [] scales j) (get_scale_shuffle_16 1) in
    let scales_2 := _mm256_shuffle_epi8 (aget [] scales j) (get_scale_shuffle_16 2) in
    let scales_3 := _mm256_shuffle_epi8 (aget [] scales j) (get_scale_shuffle_16 3) in
    let q3bits := _mm256_loadu_si256 (q3_qs x) q3 in
    let q3 := q3 + 32 in
    let q3h_0 := _mm256_and_si256 (_mm256_slli_epi16 (aget [] hbits j) 2) hml in
    let q3h_1 := _mm256_and_si256 (_mm256_slli_epi16 (aget [] hbits j) 1) hml in
    let q3h_2 := _mm256_and_si256 (aget [] hbits j) hml in
    let q3h_3 := _mm256_and_si256 (_mm256_srli_epi16 (aget [] hbits j) 1) hml in
    let q3_0 := _mm256_or_si256 (_mm256_and_si256 q3bits m3l) q3h_0 in
    let q3_1 := _mm256_or_si256 (_mm256_and_si256 (_mm256_srli_epi16 q3bits 2) m3l) q3h_1 in
    let q3_2 := _mm256_or_si256 (_mm256_and_si256 (_mm256_srli_epi16 q3bits 4) m3l) q3h_2 in
    let q3_3 := _mm256_or_si256 (_mm256_and_si256 (_mm256_srli_epi16 q3bits 6) m3l) q3h_3 in
    (q3, for_loop nrc_y (fun iy sumi =>
      let p16_0 := _mm256_maddubs_epi16 q3_0 (load_quants q8 iy i (4 * j + 0)) in
      let p16_1 := _mm256_maddubs_epi16 q3_1 (load_quants q8 iy i (4 * j + 1)) in
      let p16_2 := _mm256_maddubs_epi16 q3_2 (load_quants q8 iy i (4 * j + 2)) in
      let p16_3 := _mm256_maddubs_epi16 q3_3 (load_quants q8 iy i (4 * j + 3)) in
      let p16_0 := _mm256_madd_epi16 scales_0 p16_0 in
      let p16_1 := _mm256_madd_epi16 scales_1 p16_1 in
      let p16_2 := _mm256_madd_epi16 scales_2 p16_2 in
      let p16_3 := _mm256_madd_epi16 scales_3 p16_3 in
      let sumi := aset sumi iy
        (_mm256_add_epi32 (aget [] sumi iy) (_mm256_add_epi32 p16_0 p16_1)) in
      aset sumi iy
        (_mm256_add_epi32 (aget [] sumi iy) (_mm256_add_epi32 p16_2 p16_3))) sumi))
    (0, sumi)).

(** One super-block, on the pair [(accd, accm)]. *)
Definition q3_K_block (nrc_y : Z) (q8 : list Z) (x : block_q3_K) (i : Z)
  (acc : list fvec * list fvec) : list fvec * list fvec :=
  let '(accd, accm) := acc in
  let d3 := fp16_to_fp32 (q3_d x) in
  let accm := q3_K_mins nrc_y q8 x i accm in
  let sumi := q3_K_sumi nrc_y q8 x i in
  let accd := for_loop nrc_y (fun iy accd =>
    let vd := _mm256_set1_ps (fmul d3 (scale q8 iy i)) in
    aset accd iy
      (_mm256_fmadd_ps vd (_mm256_cvtepi32_ps (aget [] sumi iy)) (aget [] accd iy))) accd in
  (accd, accm).

Definition q3_K_row (nrc_y nb : Z) (q8 : list Z) (vx bx ix : Z) : list fvec * list fvec :=
  let x := h_q3 hp (vx + ix * bx) in
  for_loop nb (fun i acc => q3_K_block nrc_y q8 (x i) i acc)
    (repeat _mm256_setzero_ps (Z.to_nat nrc_y), repeat _mm256_setzero_ps (Z.to_nat nrc_y)).

Definition mul_mat_q3_K_q8_K_T (nrc_y : Z) (n : Z) (s : Z) (bs : Z)
  (vx : Z) (bx : Z) (vy : Z) (by_ : Z) (nrc_x : Z) (st : St) : option St :=
  if negb (Z.rem n QK_K =? 0) then None else
  let nb := Z.quot n QK_K in
  let q8 := Q8 nrc_y vy by_ in
  Some (for_loop nrc_x (fun ix st =>
    let '(accd, accm) := q3_K_row nrc_y nb q8 vx bx ix in
    for_loop nrc_y (fun iy st =>
      store_at (s + (ix + iy * bs))
        (fsub (hsum_float_8 (aget [] accd iy))
              (fmul f_4 (hsum_float_8 (aget [] accm iy)))) st) st) st).

(** *** Q4_K *)

(** The min correction shared by Q4_K and Q5_K: [accm[iy]] gains
    [c * d8 * (mins . hadd(bsums))]. *)
Definition q4_K_mins (nrc_y : Z) (q8 : list Z) (c : F) (utmp : list Z) (i : Z)
  (accm : list fvec) : list fvec :=
  let mins := q4_mins utmp in
  for_loop nrc_y (fun iy accm =>
    let q8sums := load_bsums q8 iy i in
    let q8s := _mm_hadd_epi16 (_mm256_extracti128_si256 q8sums 0)
                              (_mm256_extracti128_si256 q8sums 1) in
    let prod := _mm_madd_epi16 mins q8s in
    aset accm iy
      (_mm_fmadd_ps (_mm_set1_ps (fmul c (scale q8 iy i))) (_mm_cvtepi32_ps prod)
         (aget [] accm iy))) accm.

Definition q4_K_sumi (nrc_y : Z) (q8 : list Z) (x : block_q4_K) (i : Z) : list vec :=
  let ml := _mm256_set1_epi8 0x0F in
  let mh := _mm256_set1_epi8 (-16) in
  let utmp := make_q4_scales (q4_scales x) in
  let sc128 := q4_sc128 utmp in
  let scales := MM256_SET_M128I sc128 sc128 in
  let sumi := repeat _mm256_setzero_si256 (Z.to_nat (k_nrc_of nrc_y)) in
  snd (for_loop (QK_K / 64) (fun j '(q4, sumi) =>
    let scales_l := _mm256_shuffle_epi8 scales (get_scale_shuffle_8 (2 * j + 0)) in
    let scales_h := _mm256_shuffle_epi8 scales (get_scale_shuffle_8 (2 * j + 1)) in
    let q4bits := _mm256_loadu_si256 (q4_qs x) q4 in
    let q4 := q4 + 32 in
    let q4l := _mm256_and_si256 q4bits ml in
    let q4h := if nrc_y <=? 2 then _mm256_and_si256 q4bits mh
               else _mm256_and_si256 (_mm256_srli_epi16 q4bits 4) ml in
    (q4, for_loop nrc_y (fun iy sumi =>
      let q8l := load_quants q8 iy i (2 * j + 0) in
      let q8h := load_quants q8 iy i (2 * j + 1) in
      if nrc_y <=? 2 then
        let sumi := aset sumi (2 * iy + 0)
          (_mm256_add_epi32 (aget [] sumi (2 * iy + 0))
             (_mm256_madd_epi16 scales_l (_mm256_maddubs_epi16 q4l q8l))) in
        aset sumi (2 * iy + 1)
          (_mm256_add_epi32 (aget [] sumi (2 * iy + 1))
             (_mm256_madd_epi16 scales_h (_mm256_maddubs_epi16 q4h q8h)))
      else
        let pl := _mm256_madd_epi16 scales_l (_mm256_maddubs_epi16 q4l q8l) in
        let ph := _mm256_madd_epi16 scales_h (_mm256_maddubs_epi16 q4h q8h) in
        aset sumi iy (_mm256_add_epi32 (aget [] sumi iy) (_mm256_add_epi32 pl ph))) sumi))
    (0, sumi)).

(** One super-block, on the pair [(accd, accm)]. *)
Definition q4_K_block (nrc_y : Z) (q8 : list Z) (x : block_q4_K) (i : Z)
  (acc : list fvec * list fvec) : list fvec * list fvec :=
  let '(accd, accm) := acc in
  let d := fp16_to_fp32 (q4_d x) in
  let c := fneg (fp16_to_fp32 (q4_dmin x)) in
  let accm := q4_K_mins nrc_y q8 c (make_q4_scales (q4_scales x)) i accm in
  let sumi := q4_K_sumi nrc_y q8 x i in
  let accd :=
    if nrc_y <=? 2 then
      for_loop nrc_y (fun iy accd =>
        let vd := _mm256_set1_ps (fmul d (scale q8 iy i)) in
        let accd := aset accd (2 * iy + 0)
          (_mm256_fmadd_ps vd (_mm256_cvtepi32_ps (aget [] sumi (2 * iy + 0)))
             (aget [] accd (2 * iy + 0))) in
        aset accd (2 * iy + 1)
          (_mm256_fmadd_ps vd (_mm256_cvtepi32_ps (aget [] sumi (2 * iy + 1)))
             (aget [] accd (2 * iy + 1)))) accd
    else
      for_loop nrc_y (fun iy accd =>
        let vd := _mm256_set1_ps (fmul d (scale q8 iy i)) in
        aset accd iy
          (_mm256_fmadd_ps vd (_mm256_cvtepi32_ps (aget [] sumi iy)) (aget [] accd iy))) accd in
  (accd, accm).

Definition q4_K_row (nrc_y nb : Z) (q8 : list Z) (vx bx ix : Z) : list fvec * list fvec :=
  let x := h_q4 hp (vx + bx * ix) in
  for_loop nb (fun i acc => q4_K_block nrc_y q8 (x i) i acc)
    (repeat _mm256_setzero_ps (Z.to_nat (k_nrc_of nrc_y)),
     repeat _mm_setzero_ps (Z.to_nat nrc_y)).

Definition mul_mat_q4_K_q8_K_T (nrc_y : Z) (n : Z) (s : Z) (bs : Z)
  (vx : Z) (bx : Z) (vy : Z) (by_ : Z) (nrc_x : Z) (st : St) : option St :=
  if negb (Z.rem n QK_K =? 0) then None else
  let nb := Z.quot n QK_K in
  let q8 := Q8 nrc_y vy by_ in
  Some (for_loop nrc_x (fun ix st =>
    let '(accd, accm) := q4_K_row nrc_y nb q8 vx bx ix in
    for_loop nrc_y (fun iy st =>
      if nrc_y <=? 2 then
        store_at (s + (ix + iy * bs))
          (fadd (fadd (hsum_float_8 (aget [] accd (2 * iy + 0)))
                      (fmul f_0_0625 (hsum_float_8 (aget [] accd (2 * iy + 1)))))
                (hsum_float_4 (aget [] accm iy))) st
      else
        let d := _mm_add_ps (_mm256_castps256_ps128 (aget [] accd iy))
                            (_mm256_extractf128_ps (aget [] accd iy) 1) in
        store_at (s + (ix + iy * bs))
          (hsum_float_4 (_mm_add_ps d (aget [] accm iy))) st) st) st).

(** *** Q5_K *)

Definition q5_K_sumi (nrc_y : Z) (q8 : list Z) (x : block_q5_K) (i : Z) : list vec :=
  let ml := _mm256_set1_epi8 0x0F in
  let mh := _mm256_set1_epi8 0x10 in
  let utmp := make_q4_scales (q5_scales x) in
  let sc128 := q4_sc128 utmp in
  let scales := MM256_SET_M128I sc128 sc128 in
  let hbits0 := _mm256_loadu_si256 (q5_qh x) 0 in
  let hbits := [hbits0; _mm256_srli_epi16 hbits0 4] in
  let sumi := repeat _mm256_setzero_si256 (Z.to_nat nrc_y) in
  snd (for_loop (QK_K / 128) (fun j '(q5, sumi) =>
    let scales_1 := _mm256_shuffle_epi8 scales (get_scale_shuffle_8 (4 * j + 0)) in
    let scales_2 := _mm256_shuffle_epi8 scales (get_scale_shuffle_8 (4 * j + 1)) in
    let scales_3 := _mm256_shuffle_epi8 scales (get_scale_shuffle_8 (4 * j + 2)) in
    let scales_4 := _mm256_shuffle_epi8 scales (get_scale_shuffle_8 (4 * j + 3)) in
    let q5h_1 := _mm256_and_si256 (_mm256_slli_epi16 (aget [] hbits j) 4) mh in
    let q5h_2 := _mm256_and_si256 (_mm256_slli_epi16 (aget [] hbits j) 3) mh in
    let q5h_3 := _mm256_and_si256 (_mm256_slli_epi16 (aget [] hbits j) 2) mh in
    let q5h_4 := _mm256_and_si256 (_mm256_slli_epi16 (aget [] hbits j) 1) mh in
    let q5bits := _mm256_loadu_si256 (q5_qs x) q5 in
    let q5 := q5 + 32 in
    let q5_1 := _mm256_add_epi8 (_mm256_and_si256 q5bits ml) q5h_1 in
    let q5_2 := _mm256_add_epi8 (_mm256_and_si256 (_mm256_srli_epi16 q5bits 4) ml) q5h_2 in
    let q5bits := _mm256_loadu_si256 (q5_qs x) q5 in
    let q5 := q5 + 32 in
    let q5_3 := _mm256_add_epi8 (_mm256_and_si256 q5bits ml) q5h_3 in
    let q5_4 := _mm256_add_epi8 (_mm256_and_si256 (_mm256_srli_epi16 q5bits 4) ml) q5h_4 in
    (q5, for_loop nrc_y (fun iy sumi =>
      let p1 := _mm256_madd_epi16 scales_1
                  (_mm256_maddubs_epi16 q5_1 (load_quants q8 iy i (4 * j + 0))) in
      let p2 := _mm256_madd_epi16 scales_2
                  (_mm256_maddubs_epi16 q5_2 (load_quants q8 iy i (4 * j + 1))) in
      let p3 := _mm256_madd_epi16 scales_3
                  (_mm256_maddubs_epi16 q5_3 (load_quants q8 iy i (4 * j + 2))) in
      let p4 := _mm256_madd_epi16 scales_4
                  (_mm256_maddubs_epi16 q5_4 (load_quants q8 iy i (4 * j + 3))) in
      let sumi := aset sumi iy
        (_mm256_add_epi32 (aget [] sumi iy) (_mm256_add_epi32 p1 p3)) in
      aset sumi iy
        (_mm256_add_epi32 (aget [] sumi iy) (_mm256_add_epi32 p2 p4))) sumi))
    (0, sumi)).

(** One super-block, on the pair [(accd, accm)]. *)
Definition q5_K_block (nrc_y : Z) (q8 : list Z) (x : block_q5_K) (i : Z)
  (acc : list fvec * list fvec) : list fvec * list fvec :=
  let '(accd, accm) := acc in
  let d := fp16_to_fp32 (q5_d x) in
  let c := fneg (fp16_to_fp32 (q5_dmin x)) in
  let accm := q4_K_mins nrc_y q8 c (make_q4_scales (q5_scales x)) i accm in
  let sumi := q5_K_sumi nrc_y q8 x i in
  let accd := for_loop nrc_y (fun iy accd =>
    let vd := _mm256_set1_ps (fmul d (scale q8 iy i)) in
    aset accd iy
      (_mm256_fmadd_ps vd (_mm256_cvtepi32_ps (aget [] sumi iy)) (aget [] accd iy))) accd in
  (accd, accm).

Definition q5_K_row (nrc_y nb : Z) (q8 : list Z) (vx bx ix : Z) : list fvec * list fvec :=
  let x := h_q5 hp (vx + bx * ix) in
  for_loop nb (fun i acc => q5_K_block nrc_y q8 (x i) i acc)
    (repeat _mm256_setzero_ps (Z.to_nat nrc_y), repeat _mm_setzero_ps (Z.to_nat nrc_y)).

Definition mul_mat_q5_K_q8_K_T (nrc_y : Z) (n : Z) (s : Z) (bs : Z)
  (vx : Z) (bx : Z) (vy : Z) (by_ : Z) (nrc_x : Z) (st : St) : option St :=
  if negb (Z.rem n QK_K =? 0) then None else
  let nb := Z.quot n QK_K in
  let q8 := Q8 nrc_y vy by_ in
  Some (for_loop nrc_x (fun ix st =>
    let '(accd, accm) := q5_K_row nrc_y nb q8 vx bx ix in
    for_loop nrc_y (fun iy st =>
      let d := _mm_add_ps (_mm256_castps256_ps128 (aget [] accd iy))
                          (_mm256_extractf128_ps (aget [] accd iy) 1) in
      store_at (s + (ix + iy * bs)) (hsum_float_4 (_mm_add_ps d (aget [] accm iy))) st)
      st) st).

(** *** Q6_K *)

Definition q6_K_scales16 (x : block_q6_K) : vec :=
  _mm256_cvtepi8_epi16 (_mm_loadu_si128 (q6_scales x) 0).

Definition q6_K_scales (x : block_q6_K) : list vec :=
  let scales16 := q6_K_scales16 x in
  [ MM256_SET_M128I (_mm256_castsi256_si128 scales16) (_mm256_castsi256_si128 scales16);
    MM256_SET_M128I (_mm256_extractf128_si256 scales16 1)
                    (_mm256_extractf128_si256 scales16 1) ].

(** The scale-times-bsum products of one super-block, accumulated into
    [accm]. *)
Definition q6_K_mins (nrc_y : Z) (q8 : list Z) (x : block_q6_K) (i : Z)
  (accm : list fvec) : list fvec :=
  let d6 := fp16_to_fp32 (q6_d x) in
  let scales16 := q6_K_scales16 x in
  for_loop nrc_y (fun iy accm =>
    let vd := _mm256_set1_ps (fmul d6 (scale q8 iy i)) in
    let prod := _mm256_madd_epi16 scales16 (load_bsums q8 iy i) in
    aset accm iy (_mm256_fmadd_ps vd (_mm256_cvtepi32_ps prod) (aget [] accm iy))) accm.

Definition q6_K_sumi (nrc_y : Z) (q8 : list Z) (x : block_q6_K) (i : Z) : list vec :=
  let m4 := _mm256_set1_epi8 0xF in
  let mh := _mm256_set1_epi8 0x30 in
  let scales := q6_K_scales x in
  let sumi := repeat _mm256_setzero_si256 (Z.to_nat nrc_y) in
  snd (for_loop (QK_K / 128) (fun j '(q4, qh, sumi) =>
    let scale_0 := _mm256_shuffle_epi8 (aget [] scales j) (get_scale_shuffle_16 0) in
    let scale_1 := _mm256_shuffle_epi8 (aget [] scales j) (get_scale_shuffle_16 1) in
    let scale_2 := _mm256_shuffle_epi8 (aget [] scales j) (get_scale_shuffle_16 2) in
    let scale_3 := _mm256_shuffle_epi8 (aget [] scales j) (get_scale_shuffle_16 3) in
    let q4bits1 := _mm256_loadu_si256 (q6_ql x) q4 in
    let q4 := q4 + 32 in
    let q4bits2 := _mm256_loadu_si256 (q6_ql x) q4 in
    let q4 := q4 + 32 in
    let q4bitsH := _mm256_loadu_si256 (q6_qh x) qh in
    let qh := qh + 32 in
    let q4h_0 := _mm256_and_si256 (_mm256_slli_epi16 q4bitsH 4) mh in
    let q4h_1 := _mm256_and_si256 (_mm256_slli_epi16 q4bitsH 2) mh in
    let q4h_2 := _mm256_and_si256 q4bitsH mh in
    let q4h_3 := _mm256_and_si256 (_mm256_srli_epi16 q4bitsH 2) mh in
    let q6_0 := _mm256_or_si256 (_mm256_and_si256 q4bits1 m4) q4h_0 in
    let q6_1 := _mm256_or_si256 (_mm256_and_si256 q4bits2 m4) q4h_1 in
    let q6_2 := _mm256_or_si256 (_mm256_and_si256 (_mm256_srli_epi16 q4bits1 4) m4) q4h_2 in
    let q6_3 := _mm256_or_si256 (_mm256_and_si256 (_mm256_srli_epi16 q4bits2 4) m4) q4h_3 in
    (q4, qh, for_loop nrc_y (fun iy sumi =>
      let p16_0 := _mm256_maddubs_epi16 q6_0 (load_quants q8 iy i (4 * j + 0)) in
      let p16_1 := _mm256_maddubs_epi16 q6_1 (load_quants q8 iy i (4 * j + 1)) in
      let p16_2 := _mm256_maddubs_epi16 q6_2 (load_quants q8 iy i (4 * j + 2)) in
      let p16_3 := _mm256_maddubs_epi16 q6_3 (load_quants q8 iy i (4 * j + 3)) in
      let p16_0 := _mm256_madd_epi16 scale_0 p16_0 in
      let p16_1 := _mm256_madd_epi16 scale_1 p16_1 in
      let p16_2 := _mm256_madd_epi16 scale_2 p16_2 in
      let p16_3 := _mm256_madd_epi16 scale_3 p16_3 in
      aset sumi iy
        (_mm256_add_epi32 (aget [] sumi iy)
           (_mm256_add_epi32 (_mm256_add_epi32 p16_0 p16_1)
                             (_mm256_add_epi32 p16_2 p16_3)))) sumi))
    (0, 0, sumi)).

(** One super-block, on the pair [(accd, accm)]. *)
Definition q6_K_block (nrc_y : Z) (q8 : list Z) (x : block_q6_K) (i : Z)
  (acc : list fvec * list fvec) : list fvec * list fvec :=
  let '(accd, accm) := acc in
  let d6 := fp16_to_fp32 (q6_d x) in
  let accm := q6_K_mins nrc_y q8 x i accm in
  let sumi := q6_K_sumi nrc_y q8 x i in
  let accd := for_loop nrc_y (fun iy accd =>
    let vd := _mm256_set1_ps (fmul d6 (scale q8 iy i)) in
    aset accd iy
      (_mm256_fmadd_ps vd (_mm256_cvtepi32_ps (aget [] sumi iy)) (aget [] accd iy))) accd in
  (accd, accm).

Definition q6_K_row (nrc_y nb : Z) (q8 : list Z) (vx bx ix : Z) : list fvec * list fvec :=
  let x := h_q6 hp (vx + ix * bx) in
  for_loop nb (fun i acc => q6_K_block nrc_y q8 (x i) i acc)
    (repeat _mm256_setzero_ps (Z.to_nat nrc_y), repeat _mm256_setzero_ps (Z.to_nat nrc_y)).

Definition mul_mat_q6_K_q8_K_T (nrc_y : Z) (n : Z) (s : Z) (bs : Z)
  (vx : Z) (bx : Z) (vy : Z) (by_ : Z) (nrc_x : Z) (st : St) : option St :=
  if negb (Z.rem n QK_K =? 0) then None else
  let nb := Z.quot n QK_K in
  let q8 := Q8 nrc_y vy by_ in
  Some (for_loop nrc_x (fun ix st =>
    let '(accd, accm) := q6_K_row nrc_y nb q8 vx bx ix in
    for_loop nrc_y (fun iy st =>
      store_at (s + (ix + iy * bs))
        (fsub (hsum_float_8 (aget [] accd iy))
              (fmul f_32 (hsum_float_8 (aget [] accm iy)))) st) st) st).

(** *** IQ4_XS *)

Definition kvalues_iq4nl : list Z :=
  [-127; -104; -83; -65; -49; -35; -22; -10; 1; 13; 25; 38; 53; 69; 89; 113].

Definition iq4_k_shuffle : list Z := [0; 4; 1; 5; 2; 6; 3; 7; 0; 4; 1; 5; 2; 6; 3; 7].

(** The [dequant] lambda: low nibbles of 16 bytes, then their high nibbles. *)
Definition dequant (qs : list Z) (off : Z) : vec :=
  let m4 := _mm256_set1_epi8 0xf in
  let aux128 := _mm_loadu_si128 qs off in
  let aux256 := MM256_SET_M128I (_mm_srli_epi16 aux128 4) aux128 in
  _mm256_and_si256 m4 aux256.

(** The [mul_signed] lambda. *)
Definition mul_signed (x y : vec) : vec :=
  let ux := _mm256_sign_epi8 x x in
  let sy := _mm256_sign_epi8 y x in
  _mm256_maddubs_epi16 ux sy.

(** The little-endian 32-bit word at the start of a byte array. *)
Definition read_u32 (bytes : list Z) : Z :=
  u8 (nth 0 bytes 0) + 256 * u8 (nth 1 bytes 0) +
  65536 * u8 (nth 2 bytes 0) + 16777216 * u8 (nth 3 bytes 0).

Definition iq4_xs_scales (x : block_iq4_xs) : vec :=
  let hshift := _mm_set_epi32 12 8 4 0 in
  let lshift := _mm_set_epi32 4 0 4 0 in
  let hmask := _mm_set1_epi16 0x03 in
  let lmask := _mm_set1_epi8 0xf in
  let lshuffle := _mm_loadu_si128 iq4_k_shuffle 0 in
  let m32 := _mm_set1_epi16 (-32) in
  let tmp32 := u32 (Z.lor (u16 (iq4_scales_h x)) (Z.shiftl (u16 (iq4_scales_h x)) 14)) in
  let sh := _mm_slli_epi16
              (_mm_and_si128 (_mm_srlv_epi32 (_mm_set1_epi32 tmp32) hshift) hmask) 4 in
  let sl := _mm_and_si128
              (_mm_srlv_epi32 (_mm_set1_epi32 (read_u32 (iq4_scales_l x))) lshift) lmask in
  let scales128 :=
    _mm_add_epi16 (_mm_or_si128 sh (_mm_cvtepi8_epi16 (_mm_shuffle_epi8 sl lshuffle))) m32 in
  MM256_SET_M128I scales128 scales128.

Definition iq4_xs_sumi (nrc_y : Z) (q8 : list Z) (x : block_iq4_xs) (ibl : Z) : list vec :=
  let values128 := _mm_loadu_si128 kvalues_iq4nl 0 in
  let values := MM256_SET_M128I values128 values128 in
  let scales := iq4_xs_scales x in
  let sumi := repeat _mm256_setzero_si256 (Z.to_nat nrc_y) in
  snd (for_loop (QK_K / 64) (fun j '(qs, sumi) =>
    let q4b_1 := _mm256_shuffle_epi8 values (dequant (iq4_qs x) qs) in
    let qs := qs + 16 in
    let q4b_2 := _mm256_shuffle_epi8 values (dequant (iq4_qs x) qs) in
    let qs := qs + 16 in
    let scales_1 := _mm256_shuffle_epi8 scales (get_scale_shuffle_8 (2 * j + 0)) in
    let scales_2 := _mm256_shuffle_epi8 scales (get_scale_shuffle_8 (2 * j + 1)) in
    (qs, for_loop nrc_y (fun iy sumi =>
      let p16_1 := mul_signed q4b_1 (load_quants q8 iy ibl (2 * j + 0)) in
      let p16_2 := mul_signed q4b_2 (load_quants q8 iy ibl (2 * j + 1)) in
      let p_1 := _mm256_madd_epi16 p16_1 scales_1 in
      let p_2 := _mm256_madd_epi16 p16_2 scales_2 in
      aset sumi iy (_mm256_add_epi32 (_mm256_add_epi32 p_1 p_2) (aget [] sumi iy))) sumi))
    (0, sumi)).

Definition iq4_xs_block (nrc_y : Z) (q8 : list Z) (x : block_iq4_xs) (ibl : Z)
  (accum : list fvec) : list fvec :=
  let sumi := iq4_xs_sumi nrc_y q8 x ibl in
  for_loop nrc_y (fun iy accum =>
    let vd := _mm256_set1_ps (fmul (fp16_to_fp32 (iq4_d x)) (scale q8 iy ibl)) in
    aset accum iy
      (_mm256_fmadd_ps vd (_mm256_cvtepi32_ps (aget [] sumi iy)) (aget [] accum iy))) accum.

Definition iq4_xs_row (nrc_y nb : Z) (q8 : list Z) (vx bx ix : Z) : list fvec :=
  let x := h_iq4 hp (vx + ix * bx) in
  for_loop nb (fun ibl accum => iq4_xs_block nrc_y q8 (x ibl) ibl accum)
    (repeat _mm256_setzero_ps (Z.to_nat nrc_y)).

Definition mul_mat_iq4_xs_q8_K_T (nrc_y : Z) (n : Z) (s : Z) (bs : Z)
  (vx : Z) (bx : Z) (vy : Z) (by_ : Z) (nrc_x : Z) (st : St) : option St :=
  if negb (Z.rem n QK_K =? 0) then None else
  let nb := Z.quot n QK_K in
  let q8 := Q8 nrc_y vy by_ in
  Some (for_loop nrc_x (fun ix st =>
    let accum := iq4_xs_row nrc_y nb q8 vx bx ix in
    for_loop nrc_y (fun iy st =>
      store_at (s + (ix + iy * bs)) (hsum_float_8 (aget [] accum iy)) st) st) st).

(** ** Tiling shim and entry point *)

(** [mul_mat_t]: a kernel entry, called as
    [mul_mat n s bs vx bx vy by nrc_x]. *)
Definition mul_mat_t := Z -> Z -> Z -> Z -> Z -> Z -> Z -> Z -> St -> option St.

(** The variables that the [process] lambda of [mul_mat_NxM] captures by
    reference. *)
Record tiling := {
  t_s : Z;        (* float * s *)
  t_char_y : Z;   (* const char * char_y *)
  t_nrc_y : Z     (* int nrc_y *)
}.

(** The [process] lambda: a null kernel or too few columns leave everything
    as it is. *)
Definition process (n bs vx bx by_ nrc_x : Z) (mul_mat : option mul_mat_t) (step : Z)
  (t : tiling) (st : St) : option (bool * tiling * St) :=
  match mul_mat with
  | None => Some (true, t, st)
  | Some mm =>
      if t_nrc_y t <? step then Some (true, t, st) else
      let n_step := Z.quot (t_nrc_y t) step in
      match for_loop n_step (fun iy ost =>
              match ost with
              | None => None
              | Some st => mm n (t_s t + step * iy * bs) bs vx bx
                              (t_char_y t + step * iy * by_) by_ nrc_x st
              end) (Some st) with
      | None => None
      | Some st' =>
          let nrc_y := t_nrc_y t - step * n_step in
          if nrc_y =? 0 then
            Some (false, {| t_s := t_s t; t_char_y := t_char_y t; t_nrc_y := nrc_y |}, st')
          else
            Some (true, {| t_s := t_s t + step * n_step * bs;
                           t_char_y := t_char_y t + step * n_step * by_;
                           t_nrc_y := nrc_y |}, st')
      end
  end.

(** [a && b] on [process] calls: [b] runs only when [a] returned true. *)
Definition and_then (a : option (bool * tiling * St))
  (b : tiling -> St -> option (bool * tiling * St)) : option (bool * tiling * St) :=
  match a with
  | None => None
  | Some (true, t, st) => b t st
  | Some (false, t, st) => Some (false, t, st)
  end.

Definition mul_mat_NxM (n s bs vx bx vy by_ nrc_x nrc_y : Z)
  (mm_nx1 mm_nx2 mm_nx4 mm_nx8 : option mul_mat_t) (st : St) : option St :=
  let p := process n bs vx bx by_ nrc_x in
  match and_then (and_then (and_then
          (p mm_nx8 8 {| t_s := s; t_char_y := vy; t_nrc_y := nrc_y |} st)
          (p mm_nx4 4)) (p mm_nx2 2)) (p mm_nx1 1) with
  | None => None
  | Some (_, _, st') => Some st'
  end.

(** The tags of the tensor type registry and the row size query, both
    declared outside this file ([ggml.h]). *)
Record ggml_env := {
  GGML_TYPE_Q2_K : Z;
  GGML_TYPE_Q3_K : Z;
  GGML_TYPE_Q4_K : Z;
  GGML_TYPE_Q5_K : Z;
  GGML_TYPE_Q6_K : Z;
  GGML_TYPE_IQ4_XS : Z;
  GGML_TYPE_Q8_K : Z;
  ggml_row_size : Z -> Z -> Z
}.

Context (env : ggml_env).

(** The [switch (typeA)]: the four kernels [mm_nx1, mm_nx2, mm_nx4, mm_nx8]
    of a supported type, none for the [default] case. *)
Definition select_kernels (typeA : Z)
  : option (mul_mat_t * mul_mat_t * mul_mat_t * mul_mat_t) :=
  if typeA =? GGML_TYPE_Q2_K env then
    Some (mul_mat_q2_K_q8_K_T 1, mul_mat_q2_K_q8_K_T 2,
          mul_mat_q2_K_q8_K_T 4, mul_mat_q2_K_q8_K_T 8)
  else if typeA =? GGML_TYPE_Q3_K env then
    Some (mul_mat_q3_K_q8_K_T 1, mul_mat_q3_K_q8_K_T 2,
          mul_mat_q3_K_q8_K_T 4, mul_mat_q3_K_q8_K_T 8)
  else if typeA =? GGML_TYPE_Q4_K env then
    Some (mul_mat_q4_K_q8_K_T 1, mul_mat_q4_K_q8_K_T 2,
          mul_mat_q4_K_q8_K_T 4, mul_mat_q4_K_q8_K_T 8)
  else if typeA =? GGML_TYPE_Q5_K env then
    Some (mul_mat_q5_K_q8_K_T 1, mul_mat_q5_K_q8_K_T 2,
          mul_mat_q5_K_q8_K_T 4, mul_mat_q5_K_q8_K_T 8)
  else if typeA =? GGML_TYPE_Q6_K env then
    Some (mul_mat_q6_K_q8_K_T 1, mul_mat_q6_K_q8_K_T 2,
          mul_mat_q6_K_q8_K_T 4, mul_mat_q6_K_q8_K_T 8)
  else if typeA =? GGML_TYPE_IQ4_XS env then
    Some (mul_mat_iq4_xs_q8_K_T 1, mul_mat_iq4_xs_q8_K_T 2,
          mul_mat_iq4_xs_q8_K_T 4, mul_mat_iq4_xs_q8_K_T 8)
  else None.

(** The row slice of worker [ith]: [first_x] and the row count [nrc_x], both
    [long]. *)
Definition row_slice (Nx ith nth : Z) : Z * Z :=
  let nrc_x := to_long (Z.quot (to_long (to_long (Nx + nth) - 1)) nth) in
  let first_x := to_long (ith * nrc_x) in
  let nrc_x := if to_long (first_x + nrc_x) >? Nx then to_long (Nx - first_x) else nrc_x in
  (first_x, nrc_x).

(** The entry point.  [None] is a failed assertion or the division trap of
    [nth = 0]; otherwise the returned flag and the store. *)
Definition iqk_mul_mat (Nx Ny ne00 typeA A B C stride_C ith nth : Z) (st : St)
  : option (bool * St) :=
  if negb (Z.rem ne00 QK_K =? 0) then None else
  match select_kernels typeA with
  | None => Some (false, st)
  | Some (mm_nx1, mm_nx2, mm_nx4, mm_nx8) =>
      let row_size_qx := ggml_row_size env typeA ne00 in
      let row_size_q8 := ggml_row_size env (GGML_TYPE_Q8_K env) ne00 in
      if nth =? 0 then None else
      let '(first_x, nrc_x) := row_slice Nx ith nth in
      match mul_mat_NxM (to_int ne00) (C + first_x) stride_C
              (A + row_size_qx * first_x) row_size_qx
              B row_size_q8
              (to_int nrc_x) (to_int Ny)
              (Some mm_nx1) (Some mm_nx2) (Some mm_nx4) (Some mm_nx8) st with
      | None => None
      | Some st' => Some (true, st')
      end
  end.

End Kernels.

(** ** Reference definitions used in the statements *)

(** The [k]-th little-endian 32-bit word of a byte array. *)
Definition le32 (bytes : list Z) (k : nat) : Z :=
  u8 (nth (4 * k) bytes 0) + 256 * u8 (nth (4 * k + 1) bytes 0) +
  65536 * u8 (nth (4 * k + 2) bytes 0) + 16777216 * u8 (nth (4 * k + 3) bytes 0).

(** The four bytes of a 32-bit word, lowest first. *)
Definition bytes_of32 (x : Z) : list Z :=
  [x mod 256; (x / 256) mod 256; (x / 65536) mod 256; (x / 16777216) mod 256].

(** The sums of adjacent products [x0*y0 + x1*y1; x2*y2 + x3*y3; ...]. *)
Fixpoint pair_dot (x y : list Z) : list Z :=
  match x, y with
  | x0 :: x1 :: tx, y0 :: y1 :: ty => (x0 * y0 + x1 * y1) :: pair_dot tx ty
  | _, _ => []
  end.

(** Two lanes for which the sign trick of [mul_signed] is exact: both are
    [int8_t], and the right one is not -128 under a negative left one. *)
Definition sign_safe (a b : Z) : Prop :=
  -128 <= a <= 127 /\ -128 <= b <= 127 /\ ~ (a < 0 /\ b = -128).

(** ** Example environment and data *)

(** Modelled from the spec: [ggml_row_size] (declared in [ggml.h]) is the
    number of super-blocks of a row times the super-block size of the format;
    the sizes follow from the fields of the data model.  The tag values are
    those of [enum ggml_type]. *)
Definition ggml_h : ggml_env := {|
  GGML_TYPE_Q2_K := 10;
  GGML_TYPE_Q3_K := 11;
  GGML_TYPE_Q4_K := 12;
  GGML_TYPE_Q5_K := 13;
  GGML_TYPE_Q6_K := 14;
  GGML_TYPE_IQ4_XS := 23;
  GGML_TYPE_Q8_K := 15;
  ggml_row_size := fun t ne00 =>
    (ne00 / QK_K) *
    (if t =? 10 then 84 else if t =? 11 then 110 else if t =? 12 then 144
     else if t =? 13 then 176 else if t =? 14 then 210 else if t =? 23 then 136
     else if t =? 15 then 292 else 0)
|}.

(** A store that records every write to [C], oldest first. *)
Definition write_log (F : Type) := list (Z * F).
Definition log_store {F : Type} (a : Z) (v : F) (l : write_log F) : write_log F :=
  l ++ [(a, v)].

(** A store that is the memory itself. *)
Definition mem_store {F : Type} (a : Z) (v : F) (m : Z -> F) : Z -> F :=
  fun a' => if a' =? a then v else m a'.

Definition zero_q8 : block_q8_K spec_float :=
  {| q8_d := S754_zero false; q8_qs := repeat 0 256; q8_bsums := repeat 0 16 |}.

(** Memory in which every super-block is all zeros. *)
Definition zero_heaps : Heaps spec_float := {|
  h_q2 := fun _ _ => {| q2_scales := repeat 0 16; q2_qs := repeat 0 64; q2_d := 0; q2_dmin := 0 |};
  h_q3 := fun _ _ => {| q3_hmask := repeat 0 32; q3_qs := repeat 0 64;
                        q3_scales := repeat 0 12; q3_d := 0 |};
  h_q4 := fun _ _ => {| q4_d := 0; q4_dmin := 0; q4_scales := repeat 0 12;
                        q4_qs := repeat 0 128 |};
  h_q5 := fun _ _ => {| q5_d := 0; q5_dmin := 0; q5_scales := repeat 0 12;
                        q5_qh := repeat 0 32; q5_qs := repeat 0 128 |};
  h_q6 := fun _ _ => {| q6_ql := repeat 0 128; q6_qh := repeat 0 64;
                        q6_scales := repeat 0 16; q6_d := 0 |};
  h_iq4 := fun _ _ => {| iq4_d := 0; iq4_scales_h := 0; iq4_scales_l := repeat 0 4;
                         iq4_qs := repeat 0 128 |};
  h_q8 := fun _ _ => zero_q8
|}.

(** The tags the [switch] of the entry point has a case for. *)
Definition supported_type (env : ggml_env) (t : Z) : Prop :=
  t = GGML_TYPE_Q2_K env \/ t = GGML_TYPE_Q3_K env \/ t = GGML_TYPE_Q4_K env \/
  t = GGML_TYPE_Q5_K env \/ t = GGML_TYPE_Q6_K env \/ t = GGML_TYPE_IQ4_XS env.

(** A kernel that has nothing to do on [nrc_x] rows of length [n]: it
    returns the store as it got it. *)
Definition idle {St : Type} (mm : @mul_mat_t St) (n nrc_x : Z) : Prop :=
  forall s bs vx bx vy by_ st, mm n s bs vx bx vy by_ nrc_x st = Some st.

(** [0; 1; ...; n - 1]. *)
Definition zrange (n : Z) : list Z := map Z.of_nat (seq 0 (Z.to_nat n)).

(** A kernel call as the tiling shim makes it: the kernel width [M] and the
    eight arguments. *)
Record kcall := {
  k_M : Z;
  k_n : Z;
  k_s : Z;
  k_bs : Z;
  k_vx : Z;
  k_bx : Z;
  k_vy : Z;
  k_by : Z;
  k_nrc_x : Z
}.

(** A kernel of width [M] that only records its call. *)
Definition trace_kernel (M : Z) : @mul_mat_t (list kcall) :=
  fun n s bs vx bx vy by_ nrc_x log =>
    Some (log ++ [{| k_M := M; k_n := n; k_s := s; k_bs := bs; k_vx := vx; k_bx := bx;
                     k_vy := vy; k_by := by_; k_nrc_x := nrc_x |}]).

(** Greedy peeling of [Ny] columns: the kernel widths with the first column
    each call handles. *)
Definition peel (Ny : Z) : list (Z * Z) :=
  map (fun k => (8, 8 * k)) (zrange (Ny / 8)) ++
  (if 4 <=? Ny mod 8 then [(4, 8 * (Ny / 8))] else []) ++
  (if 2 <=? Ny mod 4 then [(2, 4 * (Ny / 4))] else []) ++
  (if 1 <=? Ny mod 2 then [(1, 2 * (Ny / 2))] else []).

(** The columns a call of width [fst p] at first column [snd p] handles. *)
Definition columns_of (p : Z * Z) : list Z := map (fun k => snd p + k) (zrange (fst p)).

(** How many calls of width [M] a peeling has. *)
Definition calls_of (M : Z) (l : list (Z * Z)) : nat :=
  length (filter (fun p => fst p =? M) l).

(** The call of width [M] that starts at column [c]: [C] and [B] are
    advanced by [c] columns; every other argument is passed on. *)
Definition mk_call (M n s bs vx bx vy by_ nrc_x c : Z) : kcall :=
  {| k_M := M; k_n := n; k_s := s + c * bs; k_bs := bs; k_vx := vx; k_bx := bx;
     k_vy := vy + c * by_; k_by := by_; k_nrc_x := nrc_x |}.

(** The rows of [A] (and of [C]) that worker [ith] of [nth] processes: the
    entry point hands [C + first_x], [A + row_size * first_x] and the row
    count, converted to [int], to the kernels, whose row loop runs
    [ix = 0, ..., nrc_x - 1]. *)
Definition worker_rows (Nx ith nth : Z) : list Z :=
  let '(first_x, nrc_x) := row_slice Nx ith nth in
  map (fun ix => first_x + ix) (zrange (to_int nrc_x)).

(** Every Q8_K super-block of a memory with its [bsums] replaced. *)
Definition with_bsums {F : Type} (g : list Z) (hp : Heaps F) : Heaps F := {|
  h_q2 := h_q2 hp;
  h_q3 := h_q3 hp;
  h_q4 := h_q4 hp;
  h_q5 := h_q5 hp;
  h_q6 := h_q6 hp;
  h_iq4 := h_iq4 hp;
  h_q8 := fun a i => {| q8_d := q8_d (h_q8 hp a i);
                        q8_qs := q8_qs (h_q8 hp a i);
                        q8_bsums := g |}
|}.

(** Example data: one IQ4_XS super-block pattern against one Q8_K
    super-block pattern with block scales 1.0 (half [0x3C00]). *)
Definition iq4_demo : Heaps spec_float := {|
  h_q2 := h_q2 zero_heaps;
  h_q3 := h_q3 zero_heaps;
  h_q4 := h_q4 zero_heaps;
  h_q5 := h_q5 zero_heaps;
  h_q6 := h_q6 zero_heaps;
  h_iq4 := fun _ _ => {| iq4_d := 0x3C00; iq4_scales_h := 0x1234;
                         iq4_scales_l := [0x21; 0x43; 0x65; 0x87];
                         iq4_qs := map (fun k => (37 * Z.of_nat k + 11) mod 256) (seq 0 128) |};
  h_q8 := fun _ _ => {| q8_d := B32.of_Z 1;
                        q8_qs := map (fun k => (Z.of_nat k * 29) mod 255 - 127) (seq 0 256);
                        q8_bsums := repeat 16 16 |}
|}.

(** Example data for the Q4_K kernels: one super-block with [d = 1.0],
    [dmin = 0], scale 1 for sub-block 1 and its first two quants equal to 15
    (high nibbles of [qs[0]] and [qs[1]]), against Q8_K quants 127 at the
    matching positions 32 and 33, with [d = 1.0]. *)
Definition q4_sat_demo : Heaps spec_float := {|
  h_q2 := h_q2 zero_heaps;
  h_q3 := h_q3 zero_heaps;
  h_q4 := fun _ _ => {| q4_d := 0x3C00; q4_dmin := 0;
                        q4_scales := [0; 1; 0; 0; 0; 0; 0; 0; 0; 0; 0; 0];
                        q4_qs := [0xF0; 0xF0] ++ repeat 0 126 |};
  h_q5 := h_q5 zero_heaps;
  h_q6 := h_q6 zero_heaps;
  h_iq4 := h_iq4 zero_heaps;
  h_q8 := fun _ _ => {| q8_d := B32.of_Z 1;
                        q8_qs := repeat 0 32 ++ [127; 127] ++ repeat 0 222;
                        q8_bsums := [0; 0; 254] ++ repeat 0 13 |}
|}.

(** Example data for the Q2_K kernels: one super-block with [d = 1.0],
    [dmin = 0], scales 1 for sub-blocks 0 and 2, first quants 3 (plane 0) and
    1 (plane 1), against Q8_K quants 1 and 7 at positions 0 and 32, with
    [d = 1 + 2^-23]. *)
Definition q2_round_demo : Heaps spec_float := {|
  h_q2 := fun _ _ => {| q2_scales := [1; 0; 1] ++ repeat 0 13;
                        q2_qs := [7] ++ repeat 0 63;
                        q2_d := 0x3C00; q2_dmin := 0 |};
  h_q3 := h_q3 zero_heaps;
  h_q4 := h_q4 zero_heaps;
  h_q5 := h_q5 zero_heaps;
  h_q6 := h_q6 zero_heaps;
  h_iq4 := h_iq4 zero_heaps;
  h_q8 := fun _ _ => {| q8_d := S754_finite false 8388609 (-23);
                        q8_qs := [1] ++ repeat 0 31 ++ [7] ++ repeat 0 223;
                        q8_bsums := [1; 0; 7] ++ repeat 0 13 |}
|}.

(** Sum of a list of integers. *)
Definition zsum (l : list Z) : Z := fold_right Z.add 0 l.

(** The Q4_K data model: element [e] of a super-block is the low nibble of
    byte [32 * (e / 64) + e mod 32] of [qs] when [e mod 64 < 32] and the high
    nibble otherwise; sub-block [j] (32 elements) has the scale that the
    unpacking leaves in byte [j] of [o0, o1]. *)
Definition q4_K_quant (qs : list Z) (e : nat) : Z :=
  let b := u8 (nth (32 * (e / 64) + e mod 32) qs 0) in
  if (e mod 64 <? 32)%nat then Z.land b 15 else Z.shiftr b 4.

Definition q4_K_scale (scales : list Z) (j : nat) : Z :=
  let utmp := make_q4_scales scales in
  nth j (bytes_of32 (nth 0 utmp 0) ++ bytes_of32 (nth 1 utmp 0)) 0.

(** The exact integer dot product of a Q4_K super-block with a Q8_K
    super-block: the sum over the sub-blocks [j] of
    [sc[j] * sum_k q_A[k] * q_B[k]]. *)
Definition q4_K_intdot (x : block_q4_K) (yqs : list Z) : Z :=
  zsum (map (fun j =>
    q4_K_scale (q4_scales x) j *
    zsum (map (fun k => q4_K_quant (q4_qs x) (32 * j + k) * s8 (nth (32 * j + k) yqs 0))
              (seq 0 32))) (seq 0 8)).

(** ** Lane views and the correction terms of Q3_K and Q6_K *)

(** The signed lanes of an integer register. *)
Definition i16s (v : vec) : list Z := map s16 (lanes16 v).
Definition i32s (v : vec) : list Z := map s32 (lanes32 v).

(** Scale [j] of a Q6_K super-block: [scales[j]] read as [int8_t]. *)
Definition q6_sc (x : block_q6_K) (j : nat) : Z := s8 (nth j (q6_scales x) 0).

(** Sub-block sum [j] of a Q8_K super-block: [bsums[j]] read as
    [int16_t]. *)
Definition q8_bsum {F : Type} (y : block_q8_K F) (j : nat) : Z := s16 (nth j (q8_bsums y) 0).

(** Scale [j] of a Q3_K super-block by the bit-stealing layout of the data
    model, [(low4 | (extra2 << 4)) - 32]: the low four bits are a nibble of
    [scales[j mod 8]], the two extra bits are bits [2 * (j / 4)] and
    [2 * (j / 4) + 1] of [scales[8 + j mod 4]]. *)
Definition q3_sc_signed (x : block_q3_K) (j : nat) : Z :=
  let sc := fun k => u8 (nth k (q3_scales x) 0) in
  let low4 := if (j <? 8)%nat then Z.land (sc j) 15 else Z.shiftr (sc (j - 8)%nat) 4 in
  let extra2 := Z.land (Z.shiftr (sc (8 + j mod 4)%nat) (2 * Z.of_nat (j / 4))) 3 in
  Z.lor low4 (Z.shiftl extra2 4) - 32.

(** The eight 32-bit lanes of the scale-times-bsum products: lane [l] holds
    sub-blocks [2 l] and [2 l + 1]. *)
Definition corr_lanes (sc bsum : nat -> Z) : list Z :=
  map (fun l => sc (2 * l)%nat * bsum (2 * l)%nat + sc (2 * l + 1)%nat * bsum (2 * l + 1)%nat)
      (seq 0 8).

(** The correction accumulator of one column after [nb] super-blocks:
    super-block [i] adds [vd i * lanes i], lane by lane, with one fused
    multiply-add per lane. *)
Definition corr_acc {F : Type} `{FloatOps F} (nb : Z) (vd : Z -> F) (lanes : Z -> list Z)
  : fvec :=
  for_loop nb (fun i acc =>
    vfmadd_ps (_mm256_set1_ps (vd i)) (map i32_to_f (lanes i)) acc) _mm256_setzero_ps.

(** The value the Q6_K kernel of width [M] writes for row [ix] and column
    [iy]: the horizontal sum of the integer-path accumulator minus 32 times
    the horizontal sum of the accumulated scale-times-bsum products. *)
Definition q6_K_value {F : Type} `{FloatOps F} (hp : Heaps F)
  (M nb : Z) (q8 : list Z) (vx bx ix iy : Z) : F :=
  let x := h_q6 hp (vx + ix * bx) in
  let y := h_q8 hp (aget 0 q8 iy) in
  fsub (hsum_float_8 (aget [] (fst (q6_K_row hp M nb q8 vx bx ix)) iy))
       (fmul f_32
          (hsum_float_8
             (corr_acc nb (fun i => fmul (fp16_to_fp32 (q6_d (x i))) (q8_d (y i)))
                          (fun i => corr_lanes (q6_sc (x i)) (q8_bsum (y i)))))).

(** The same for Q3_K, with the factor 4 and the biased 6-bit scales. *)
Definition q3_K_value {F : Type} `{FloatOps F} (hp : Heaps F)
  (M nb : Z) (q8 : list Z) (vx bx ix iy : Z) : F :=
  let x := h_q3 hp (vx + ix * bx) in
  let y := h_q8 hp (aget 0 q8 iy) in
  fsub (hsum_float_8 (aget [] (fst (q3_K_row hp M nb q8 vx bx ix)) iy))
       (fmul f_4
          (hsum_float_8
             (corr_acc nb (fun i => fmul (fp16_to_fp32 (q3_d (x i))) (q8_d (y i)))
                          (fun i => corr_lanes (q3_sc_signed (x i)) (q8_bsum (y i)))))).

(** A word whose bits 6 and 7 of every byte are clear has four bytes below
    64. *)
Definition clear67 (x : Z) : Prop :=
  0 <= x /\ forall i, 0 <= i ->
    (i mod 8 = 6 \/ i mod 8 = 7 \/ 32 <= i) -> Z.testbit x i = false.

(** Sum of [f 0], ..., [f (n - 1)] in the float interface, in increasing
    order. *)
Definition fsum {F : Type} `{FloatOps F} (n : Z) (f : Z -> F) : F :=
  for_loop n (fun i a => fadd a (f i)) fzero.

(** Exact arithmetic: the operations of the interface are those of a ring,
    the fused multiply-add does not round, and the conversion of integers is
    additive.  The rationals are an instance; binary32 is not. *)
Class ExactOps (F : Type) `{FloatOps F} (fone : F) : Prop := {
  exact_ring : Ring_theory.ring_theory fzero fone fadd fmul fsub fneg eq;
  exact_fma : forall a b c, ffma a b c = fadd (fmul a b) c;
  exact_i32 : forall a b, i32_to_f (a + b) = fadd (i32_to_f a) (i32_to_f b)
}.

(** The rationals as floats that never round. *)
Module Rational.
Definition of_Z (z : Z) : Qcanon.Qc := Qcanon.Q2Qc (QArith_base.inject_Z z).

(** The value of the 16 bits of a half; infinities and NaNs, which have
    none, are read as 0. *)
Definition of_half (h : Z) : Qcanon.Qc :=
  let e := (h / 1024) mod 32 in
  let m := h mod 1024 in
  let mag :=
    if e =? 0 then Qcanon.Q2Qc (QArith_base.Qmake m (2 ^ 24))
    else if e =? 31 then of_Z 0
    else Qcanon.Q2Qc (QArith_base.Qmake ((1024 + m) * 2 ^ e) (2 ^ 25)) in
  if Z.testbit h 15 then Qcanon.Qcopp mag else mag.
End Rational.

#[export] Instance rational : FloatOps Qcanon.Qc := {
  fzero := Rational.of_Z 0;
  fadd := Qcanon.Qcplus;
  fsub := Qcanon.Qcminus;
  fmul := Qcanon.Qcmult;
  fneg := Qcanon.Qcopp;
  ffma := fun a b c => Qcanon.Qcplus (Qcanon.Qcmult a b) c;
  i32_to_f := Rational.of_Z;
  fp16_to_fp32 := Rational.of_half;
  f_0_25 := Qcanon.Q2Qc (QArith_base.Qmake 1 4);
  f_0_0625 := Qcanon.Q2Qc (QArith_base.Qmake 1 16);
  f_4 := Rational.of_Z 4;
  f_32 := Rational.of_Z 32
}.

(** Example data over the rationals: one super-block pattern of each of
    Q2_K, Q3_K, Q4_K and Q6_K with [d = 1.0] (and [dmin = 0.5]) against a
    Q8_K pattern with [d = 1/2].  The bytes of the Q4_K quants are below
    128, so their high nibbles are at most 7. *)
Definition corr_demo : Heaps Qcanon.Qc := {|
  h_q2 := fun _ _ => {| q2_scales := map (fun k => (Z.of_nat k * 53 + 9) mod 256) (seq 0 16);
                        q2_qs := map (fun k => (Z.of_nat k * 47 + 13) mod 256) (seq 0 64);
                        q2_d := 0x3C00; q2_dmin := 0x3800 |};
  h_q3 := fun _ _ => {| q3_hmask := map (fun k => (Z.of_nat k * 73 + 5) mod 256) (seq 0 32);
                        q3_qs := map (fun k => (Z.of_nat k * 41 + 3) mod 256) (seq 0 64);
                        q3_scales := [0x21; 0x43; 0x65; 0x87; 0xA9; 0xCB; 0xED; 0x0F;
                                      0x1B; 0xE4; 0x39; 0xC6];
                        q3_d := 0x3C00 |};
  h_q4 := fun _ _ => {| q4_d := 0x3C00; q4_dmin := 0x3800;
                        q4_scales := [0x21; 0x43; 0x65; 0x87; 0xA9; 0xCB; 0xED; 0x0F;
                                      0x1B; 0xE4; 0x39; 0xC6];
                        q4_qs := map (fun k => (Z.of_nat k * 37 + 11) mod 128) (seq 0 128) |};
  h_q5 := h_q5 zero_heaps;
  h_q6 := fun _ _ => {| q6_ql := map (fun k => (Z.of_nat k * 59 + 7) mod 256) (seq 0 128);
                        q6_qh := map (fun k => (Z.of_nat k * 31 + 1) mod 256) (seq 0 64);
                        q6_scales := map (fun k => Z.of_nat k * 17 - 128) (seq 0 16);
                        q6_d := 0x3C00 |};
  h_iq4 := h_iq4 zero_heaps;
  h_q8 := fun _ _ => {| q8_d := Qcanon.Q2Qc (QArith_base.Qmake 1 2);
                        q8_qs := map (fun k => (Z.of_nat k * 29) mod 255 - 127) (seq 0 256);
                        q8_bsums := map (fun k => Z.of_nat k * 100 - 700) (seq 0 16) |}
|}.

(** Every element of a register is a byte. *)
Definition bytes_ok (v : vec) : Prop := Forall (fun b => 0 <= b < 256) v.

(** The two accumulator layouts on one column.  [s0] and [s1] are the
    accumulators of the layout with two accumulators per column, [S] the
    accumulator of the layout with one: as signed 32-bit lanes, [s1] holds
    [c] times a vector [h] and [S] is [s0 + h], lane by lane; [bnd] bounds
    the lanes of [s0] and [h]. *)
Definition planes_rel (c bnd : Z) (s0 s1 S : vec) : Prop :=
  length s0 = 32%nat /\ length s1 = 32%nat /\ length S = 32%nat /\
  exists h : list Z,
    length h = 8%nat /\
    i32s s1 = map (fun v => c * v) h /\
    i32s S = map2 Z.add (i32s s0) h /\
    Forall (fun v => - bnd <= v <= bnd) (i32s s0) /\
    Forall (fun v => - bnd <= v <= bnd) h.

(** The accumulator arrays of the two layouts at column [iy]: [sumi1] has
    two accumulators for each of its [M1] columns, [sumi2] one for each of
    its [M2] columns, and those of column [iy] are related by
    [planes_rel]. *)
Definition layouts_rel (c bnd M1 M2 iy : Z) (sumi1 sumi2 : list vec) : Prop :=
  Z.of_nat (length sumi1) = 2 * M1 /\ Z.of_nat (length sumi2) = M2 /\
  planes_rel c bnd (aget [] sumi1 (2 * iy + 0)) (aget [] sumi1 (2 * iy + 1))
                   (aget [] sumi2 iy).

(** Exact arithmetic, continued: the conversion of integers is
    multiplicative and the two constants of the kernels with two
    accumulators per column are a quarter and a sixteenth. *)
Class ExactScales (F : Type) `{FloatOps F} (fone : F) : Prop := {
  exact_i32_mul : forall a b, i32_to_f (a * b) = fmul (i32_to_f a) (i32_to_f b);
  exact_0_25 : fmul f_0_25 (i32_to_f 4) = fone;
  exact_0_0625 : fmul f_0_0625 (i32_to_f 16) = fone
}.

(** The float accumulators of the two layouts at column [iy]: the first
    accumulator plus [q] times the second of the layout with two
    accumulators has the horizontal sum of the single accumulator. *)
Definition accd_rel {F : Type} `{FloatOps F} (q : F) (M1 M2 iy : Z) (accd1 accd2 : list fvec)
  : Prop :=
  Z.of_nat (length accd1) = 2 * M1 /\ Z.of_nat (length accd2) = M2 /\
  length (aget [] accd1 (2 * iy + 0)) = 8%nat /\
  length (aget [] accd1 (2 * iy + 1)) = 8%nat /\
  length (aget [] accd2 iy) = 8%nat /\
  fadd (hsum_float_8 (aget [] accd1 (2 * iy + 0)))
       (fmul q (hsum_float_8 (aget [] accd1 (2 * iy + 1))))
  = hsum_float_8 (aget [] accd2 iy).

(** The value the Q2_K kernel of width [M] writes for row [ix] and column
    [iy]. *)
Definition q2_K_value {F : Type} `{FloatOps F} (hp : Heaps F)
  (M nb : Z) (q8 : list Z) (vx bx ix iy : Z) : F :=
  let accd := q2_K_row hp M nb q8 vx bx ix in
  if M <=? 2 then
    fadd (hsum_float_8 (aget [] accd (2 * iy + 0)))
         (fmul f_0_25 (hsum_float_8 (aget [] accd (2 * iy + 1))))
  else hsum_float_8 (aget [] accd iy).

(** No 16-bit pair sum of the high nibbles of a Q4_K super-block, left in
    place (that is, times 16), with the matching quants of a Q8_K
    super-block leaves the range of [int16_t]: [vpmaddubsw] does not
    saturate in the kernels of width 1 and 2. *)
Definition q4_K_high_fits (x : block_q4_K) (yqs : list Z) : bool :=
  forallb (fun j =>
    forallb (fun X => (-32768 <=? 16 * X) && (16 * X <=? 32767))
      (pair_dot (map (fun b => Z.shiftr b 4) (_mm256_loadu_si256 (q4_qs x) (32 * j)))
                (map s8 (_mm256_loadu_si256 yqs (32 * (2 * j + 1))))))
    (zrange 4).

(** The value the Q4_K kernel of width [M] writes for row [ix] and column
    [iy]. *)
Definition q4_K_value {F : Type} `{FloatOps F} (hp : Heaps F)
  (M nb : Z) (q8 : list Z) (vx bx ix iy : Z) : F :=
  let '(accd, accm) := q4_K_row hp M nb q8 vx bx ix in
  if M <=? 2 then
    fadd (fadd (hsum_float_8 (aget [] accd (2 * iy + 0)))
               (fmul f_0_0625 (hsum_float_8 (aget [] accd (2 * iy + 1)))))
         (hsum_float_4 (aget [] accm iy))
  else
    let d := _mm_add_ps (_mm256_castps256_ps128 (aget [] accd iy))
                        (_mm256_extractf128_ps (aget [] accd iy) 1) in
    hsum_float_4 (_mm_add_ps d (aget [] accm iy)).

(** The mins accumulators [accm] of two Q4_K kernels of widths [M1] and
    [M2] agree at column [iy]. *)
Definition accm_rel {F : Type} (M1 M2 iy : Z) (accm1 accm2 : list (list F)) : Prop :=
  Z.of_nat (length accm1) = M1 /\ Z.of_nat (length accm2) = M2 /\
  length (aget [] accm1 iy) = 4%nat /\
  aget [] accm1 iy = aget [] accm2 iy.

(** ** Reference definitions for the further properties *)

(** The values the Q5_K and IQ4_XS kernels of width [M] write for row [ix]
    and column [iy]. *)
Definition q5_K_value {F : Type} `{FloatOps F} (hp : Heaps F)
  (M nb : Z) (q8 : list Z) (vx bx ix iy : Z) : F :=
  let '(accd, accm) := q5_K_row hp M nb q8 vx bx ix in
  let d := _mm_add_ps (_mm256_castps256_ps128 (aget [] accd iy))
                      (_mm256_extractf128_ps (aget [] accd iy) 1) in
  hsum_float_4 (_mm_add_ps d (aget [] accm iy)).

Definition iq4_xs_value {F : Type} `{FloatOps F} (hp : Heaps F)
  (M nb : Z) (q8 : list Z) (vx bx ix iy : Z) : F :=
  hsum_float_8 (aget [] (iq4_xs_row hp M nb q8 vx bx ix) iy).

(** The six kernel families, in the order of the [switch] of the entry
    point. *)
Inductive family := Q2_K | Q3_K | Q4_K | Q5_K | Q6_K | IQ4_XS.

(** The kernel of a family and a width, and the value it writes for row
    [ix] and column [iy]. *)
Definition kernel_of {F : Type} `{FloatOps F} {St : Type} (store_at : Z -> F -> St -> St)
  (hp : Heaps F) (f : family) (M : Z) : @mul_mat_t St :=
  match f with
  | Q2_K => mul_mat_q2_K_q8_K_T store_at hp M
  | Q3_K => mul_mat_q3_K_q8_K_T store_at hp M
  | Q4_K => mul_mat_q4_K_q8_K_T store_at hp M
  | Q5_K => mul_mat_q5_K_q8_K_T store_at hp M
  | Q6_K => mul_mat_q6_K_q8_K_T store_at hp M
  | IQ4_XS => mul_mat_iq4_xs_q8_K_T store_at hp M
  end.

Definition value_of {F : Type} `{FloatOps F} (hp : Heaps F) (f : family)
  (M nb : Z) (q8 : list Z) (vx bx ix iy : Z) : F :=
  match f with
  | Q2_K => q2_K_value hp M nb q8 vx bx ix iy
  | Q3_K => q3_K_value hp M nb q8 vx bx ix iy
  | Q4_K => q4_K_value hp M nb q8 vx bx ix iy
  | Q5_K => q5_K_value hp M nb q8 vx bx ix iy
  | Q6_K => q6_K_value hp M nb q8 vx bx ix iy
  | IQ4_XS => iq4_xs_value hp M nb q8 vx bx ix iy
  end.

(** The tag of a family in the type registry. *)
Definition tag_of (env : ggml_env) (f : family) : Z :=
  match f with
  | Q2_K => GGML_TYPE_Q2_K env
  | Q3_K => GGML_TYPE_Q3_K env
  | Q4_K => GGML_TYPE_Q4_K env
  | Q5_K => GGML_TYPE_Q5_K env
  | Q6_K => GGML_TYPE_Q6_K env
  | IQ4_XS => GGML_TYPE_IQ4_XS env
  end.

(** The family a tag selects: the first case of the [switch] that matches. *)
Definition family_of (env : ggml_env) (typeA : Z) : option family :=
  if typeA =? GGML_TYPE_Q2_K env then Some Q2_K
  else if typeA =? GGML_TYPE_Q3_K env then Some Q3_K
  else if typeA =? GGML_TYPE_Q4_K env then Some Q4_K
  else if typeA =? GGML_TYPE_Q5_K env then Some Q5_K
  else if typeA =? GGML_TYPE_Q6_K env then Some Q6_K
  else if typeA =? GGML_TYPE_IQ4_XS env then Some IQ4_XS
  else None.

(** The writes of one kernel call of width [M] on [nrc_x] rows, in the order
    made: row by row, and column by column within a row. *)
Definition tile_writes {F : Type} (val : Z -> Z -> F) (M s bs nrc_x : Z) : list (Z * F) :=
  flat_map (fun ix => map (fun iy => (s + (ix + iy * bs), val ix iy)) (zrange M))
           (zrange nrc_x).

(** A list of writes made, oldest first, through a store. *)
Definition replay {F St : Type} (store_at : Z -> F -> St -> St) (l : list (Z * F)) (st : St)
  : St :=
  fold_left (fun st w => store_at (fst w) (snd w) st) l st.

(** The kernel calls of a peeling, made in order on a store: the call of
    width [fst p] at first column [snd p] gets [C] and [B] advanced by that
    many columns; after a failed call nothing runs. *)
Definition run_calls {St : Type} (mm : Z -> @mul_mat_t St) (n s bs vx bx vy by_ nrc_x : Z)
  (l : list (Z * Z)) (ost : option St) : option St :=
  fold_left (fun ost p =>
    match ost with
    | None => None
    | Some st => mm (fst p) n (s + snd p * bs) bs vx bx (vy + snd p * by_) by_ nrc_x st
    end) l ost.

(** The state of the tiling shim after a stage, against the calls made so
    far: [c] columns are done and [nrc] are left. *)
Definition stage_ok {St : Type} (s bs vy by_ : Z) (o : option (bool * tiling * St))
  (r : option St) (c nrc : Z) : Prop :=
  match o with
  | None => r = None
  | Some (b, t, st') =>
      r = Some st' /\ t_nrc_y t = nrc /\ (b = false -> nrc = 0) /\
      (b = true -> t_s t = s + c * bs /\ t_char_y t = vy + c * by_)
  end.

(** Everything a call of the entry point writes, in the order written: the
    tiles of the calls of the column peeling, on the row slice of the
    worker. *)
Definition entry_writes {F : Type} `{FloatOps F} (hp : Heaps F) (env : ggml_env) (f : family)
  (Nx Ny ne00 typeA A B C stride_C ith nth : Z) : list (Z * F) :=
  let '(first_x, nrc_x) := row_slice Nx ith nth in
  let row_size_qx := ggml_row_size env typeA ne00 in
  let row_size_q8 := ggml_row_size env (GGML_TYPE_Q8_K env) ne00 in
  flat_map (fun p =>
    tile_writes
      (value_of hp f (fst p) (Z.quot (to_int ne00) QK_K)
         (Q8 (fst p) (B + snd p * row_size_q8) row_size_q8)
         (A + row_size_qx * first_x) row_size_qx)
      (fst p) (C + first_x + snd p * stride_C) stride_C (to_int nrc_x))
    (peel (to_int Ny)).

(** Q2_K and Q4_K keep two accumulators per column in the kernels of width
    1 and 2 and one in the wider ones; the other families have one
    layout. *)
Definition same_layout (f : family) (M M' : Z) : bool :=
  match f with
  | Q2_K | Q4_K => Bool.eqb (M <=? 2) (M' <=? 2)
  | _ => true
  end.

(** The kernel width that decides the accumulator layout of column [col]
    out of [Ny]: the calls of width 8 and 4 take the columns below
    [4 * (Ny / 4)], and only Q2_K and Q4_K have two layouts. *)
Definition layout_width (f : family) (Ny col : Z) : Z :=
  match f with
  | Q2_K | Q4_K => if col <? 4 * (Ny / 4) then 4 else 1
  | _ => 1
  end.

(** Min [j] of a Q4_K or Q5_K super-block: byte [j] of the words [o2, o3]
    that the unpacking of the scales leaves. *)
Definition q4_K_min (scales : list Z) (j : nat) : Z :=
  let utmp := make_q4_scales scales in
  nth j (bytes_of32 (nth 2 utmp 0) ++ bytes_of32 (nth 3 utmp 0)) 0.

(** The mins term of a Q4_K or Q5_K super-block against the sub-block sums
    of a Q8_K super-block: min [j] covers the sums [2 j] and [2 j + 1],
    which are added in [int16_t] as [vphaddw] does. *)
Definition q4_K_minsdot (scales bsums : list Z) : Z :=
  zsum (map (fun j =>
    q4_K_min scales j * s16 (s16 (nth (2 * j) bsums 0) + s16 (nth (2 * j + 1) bsums 0)))
    (seq 0 8)).

(** What a Q4_K row and a Q8_K column give in the float interface: over the
    super-blocks [i], in increasing order, [d_A d_B] times the integer dot
    product, minus [dmin_A d_B] times the mins term. *)
Definition q4_K_dot {F : Type} `{FloatOps F} (hp : Heaps F)
  (nb : Z) (q8 : list Z) (vx bx ix iy : Z) : F :=
  fsum nb (fun i =>
    let x := h_q4 hp (vx + bx * ix) i in
    let y := q8_block hp q8 iy i in
    fadd (fmul (fmul (fp16_to_fp32 (q4_d x)) (q8_d y)) (i32_to_f (q4_K_intdot x (q8_qs y))))
         (fmul (fmul (fneg (fp16_to_fp32 (q4_dmin x))) (q8_d y))
               (i32_to_f (q4_K_minsdot (q4_scales x) (q8_bsums y))))).

(** The Q5_K data model: element [e] of a super-block is the nibble of
    the Q4_K layout plus 16 times bit [e / 32] of byte [e mod 32] of
    [qh]. *)
Definition q5_K_quant (qs qh : list Z) (e : nat) : Z :=
  q4_K_quant qs e + 16 * Z.b2z (Z.testbit (u8 (nth (e mod 32) qh 0)) (Z.of_nat (e / 32))).

(** The exact integer dot product of a Q5_K super-block with a Q8_K
    super-block. *)
Definition q5_K_intdot (x : block_q5_K) (yqs : list Z) : Z :=
  zsum (map (fun j =>
    q4_K_scale (q5_scales x) j *
    zsum (map (fun k => q5_K_quant (q5_qs x) (q5_qh x) (32 * j + k) * s8 (nth (32 * j + k) yqs 0))
              (seq 0 32))) (seq 0 8)).

(** What a Q5_K row and a Q8_K column give in the float interface. *)
Definition q5_K_dot {F : Type} `{FloatOps F} (hp : Heaps F)
  (nb : Z) (q8 : list Z) (vx bx ix iy : Z) : F :=
  fsum nb (fun i =>
    let x := h_q5 hp (vx + bx * ix) i in
    let y := q8_block hp q8 iy i in
    fadd (fmul (fmul (fp16_to_fp32 (q5_d x)) (q8_d y)) (i32_to_f (q5_K_intdot x (q8_qs y))))
         (fmul (fmul (fneg (fp16_to_fp32 (q5_dmin x))) (q8_d y))
               (i32_to_f (q4_K_minsdot (q5_scales x) (q8_bsums y))))).

(** The Q6_K data model: element [e] of a super-block, a 6-bit value: the
    low four bits are a nibble of [ql], the high two bits a pair of bits
    of [qh].  Half [e / 128] of the super-block has 64 bytes of [ql] and
    32 of [qh]; its quarter [k] takes the low nibbles (quarters 0 and 1)
    or the high nibbles (quarters 2 and 3) of the first or second 32
    bytes, and bits [2 k] and [2 k + 1] of the bytes of [qh]. *)
Definition q6_K_quant (ql qh : list Z) (e : nat) : Z :=
  let j := (e / 128)%nat in
  let k := ((e mod 128) / 32)%nat in
  let b := (e mod 32)%nat in
  let l := u8 (nth (64 * j + 32 * (k mod 2) + b) ql 0) in
  (if (k <? 2)%nat then Z.land l 15 else Z.shiftr l 4) +
  16 * Z.land (Z.shiftr (u8 (nth (32 * j + b) qh 0)) (2 * Z.of_nat k)) 3.

(** The integer dot product of a Q6_K super-block, quants taken as the
    unsigned 6-bit values, with a Q8_K super-block: sixteen sub-blocks of
    sixteen elements, each with its signed scale. *)
Definition q6_K_intdot (x : block_q6_K) (yqs : list Z) : Z :=
  zsum (map (fun j =>
    q6_sc x j *
    zsum (map (fun k => q6_K_quant (q6_ql x) (q6_qh x) (16 * j + k) * s8 (nth (16 * j + k) yqs 0))
              (seq 0 16))) (seq 0 16)).

(** What a Q6_K row and a Q8_K column give in the float interface: per
    super-block the product of the two block scales times the integer dot
    product of the unsigned quants minus 32 times the sum of the sub-block
    scales times the sub-block sums of the Q8_K super-block. *)
Definition q6_K_dot {F : Type} `{FloatOps F} (hp : Heaps F)
  (nb : Z) (q8 : list Z) (vx bx ix iy : Z) : F :=
  fsum nb (fun i =>
    let x := h_q6 hp (vx + ix * bx) i in
    let y := q8_block hp q8 iy i in
    fmul (fmul (fp16_to_fp32 (q6_d x)) (q8_d y))
         (fsub (i32_to_f (q6_K_intdot x (q8_qs y)))
               (fmul f_32 (i32_to_f (zsum (map (fun j => q6_sc x j * q8_bsum y j) (seq 0 16))))))).

(** The Q3_K data model: element [e] of a super-block as the unsigned
    3-bit value the kernel multiplies: two bits of [qs] (byte [e mod 32]
    of half [e / 128], bits [2 k] and [2 k + 1] for quarter [k]) plus 4
    times bit [4 (e / 128) + k] of the byte of [hmask].  The value of the
    format is this minus 4. *)
Definition q3_K_quant (qs hmask : list Z) (e : nat) : Z :=
  let j := (e / 128)%nat in
  let k := ((e mod 128) / 32)%nat in
  let b := (e mod 32)%nat in
  Z.land (Z.shiftr (u8 (nth (32 * j + b) qs 0)) (2 * Z.of_nat k)) 3 +
  4 * Z.b2z (Z.testbit (u8 (nth b hmask 0)) (Z.of_nat (4 * j + k))).

(** The integer dot product of a Q3_K super-block, quants taken as the
    unsigned 3-bit values, with a Q8_K super-block: sixteen sub-blocks of
    sixteen elements, each with its signed 6-bit scale. *)
Definition q3_K_intdot (x : block_q3_K) (yqs : list Z) : Z :=
  zsum (map (fun j =>
    q3_sc_signed x j *
    zsum (map (fun k => q3_K_quant (q3_qs x) (q3_hmask x) (16 * j + k) *
                        s8 (nth (16 * j + k) yqs 0))
              (seq 0 16))) (seq 0 16)).

(** What a Q3_K row and a Q8_K column give in the float interface: per
    super-block the product of the two block scales times the integer dot
    product of the unsigned quants minus 4 times the sum of the sub-block
    scales times the sub-block sums of the Q8_K super-block. *)
Definition q3_K_dot {F : Type} `{FloatOps F} (hp : Heaps F)
  (nb : Z) (q8 : list Z) (vx bx ix iy : Z) : F :=
  fsum nb (fun i =>
    let x := h_q3 hp (vx + ix * bx) i in
    let y := q8_block hp q8 iy i in
    fmul (fmul (fp16_to_fp32 (q3_d x)) (q8_d y))
         (fsub (i32_to_f (q3_K_intdot x (q8_qs y)))
               (fmul f_4 (i32_to_f (zsum (map (fun j => q3_sc_signed x j * q8_bsum y j)
                                              (seq 0 16))))))).

(** The Q2_K data model: sub-block [j] has the scale in the low nibble
    and the min in the high nibble of byte [j] of [scales]; element [e]
    is a pair of bits of [qs], byte [e mod 32] of half [e / 128], bits
    [2 k] and [2 k + 1] for quarter [k]. *)
Definition q2_sc (x : block_q2_K) (j : nat) : Z := Z.land (u8 (nth j (q2_scales x) 0)) 15.
Definition q2_min (x : block_q2_K) (j : nat) : Z := Z.shiftr (u8 (nth j (q2_scales x) 0)) 4.

Definition q2_K_quant (qs : list Z) (e : nat) : Z :=
  let j := (e / 128)%nat in
  let k := ((e mod 128) / 32)%nat in
  let b := (e mod 32)%nat in
  Z.land (Z.shiftr (u8 (nth (32 * j + b) qs 0)) (2 * Z.of_nat k)) 3.

(** The integer dot product of a Q2_K super-block with a Q8_K
    super-block: sixteen sub-blocks of sixteen elements, each with its
    4-bit scale. *)
Definition q2_K_intdot (x : block_q2_K) (yqs : list Z) : Z :=
  zsum (map (fun j =>
    q2_sc x j *
    zsum (map (fun k => q2_K_quant (q2_qs x) (16 * j + k) * s8 (nth (16 * j + k) yqs 0))
              (seq 0 16))) (seq 0 16)).

(** What a Q2_K row and a Q8_K column give in the float interface: per
    super-block [- dmin_A d_B] times the sum of the sub-block mins times
    the sub-block sums of the Q8_K super-block, plus [d_A d_B] times the
    integer dot product. *)
Definition q2_K_dot {F : Type} `{FloatOps F} (hp : Heaps F)
  (nb : Z) (q8 : list Z) (vx bx ix iy : Z) : F :=
  fsum nb (fun i =>
    let x := h_q2 hp (vx + ix * bx) i in
    let y := q8_block hp q8 iy i in
    fadd (fmul (fmul (fneg (fp16_to_fp32 (q2_dmin x))) (q8_d y))
               (i32_to_f (zsum (map (fun j => q2_min x j * q8_bsum y j) (seq 0 16)))))
         (fmul (fmul (fp16_to_fp32 (q2_d x)) (q8_d y)) (i32_to_f (q2_K_intdot x (q8_qs y))))).

(** The IQ4_XS data model.  Sub-block [k] (32 elements) has the 6-bit
    scale [ls] made of a nibble of [scales_l] and a pair of bits of
    [scales_h]; the scale of the format is [ls - 32].  Element [e] is the
    entry of the table [kvalues_iq4nl] selected by a nibble of [qs]: byte
    [16 (e / 32) + e mod 16], low nibble for the first sixteen elements of
    the sub-block and high nibble for the last sixteen. *)
Definition iq4_ls (x : block_iq4_xs) (k : nat) : Z :=
  Z.lor (Z.land (Z.shiftr (u8 (nth (k / 2) (iq4_scales_l x) 0)) (4 * Z.of_nat (k mod 2))) 15)
        (Z.shiftl (Z.land (Z.shiftr (u16 (iq4_scales_h x)) (2 * Z.of_nat k)) 3) 4).

Definition iq4_xs_nibble (qs : list Z) (e : nat) : Z :=
  let byte := u8 (nth (16 * (e / 32) + e mod 16) qs 0) in
  if (e mod 32 <? 16)%nat then Z.land byte 15 else Z.shiftr byte 4.

Definition iq4_xs_quant (qs : list Z) (e : nat) : Z :=
  nth (Z.to_nat (iq4_xs_nibble qs e)) kvalues_iq4nl 0.

(** The integer dot product of an IQ4_XS super-block with a Q8_K
    super-block: eight sub-blocks of 32 elements, each with its scale
    [ls - 32]. *)
Definition iq4_xs_intdot (x : block_iq4_xs) (yqs : list Z) : Z :=
  zsum (map (fun j =>
    (iq4_ls x j - 32) *
    zsum (map (fun k => iq4_xs_quant (iq4_qs x) (32 * j + k) * s8 (nth (32 * j + k) yqs 0))
              (seq 0 32))) (seq 0 8)).

(** No quant of the Q8_K super-block is -128 where the IQ4_XS value it
    meets is negative: the sign trick of [mul_signed] is exact there. *)
Definition iq4_xs_sign_safe (x : block_iq4_xs) (yqs : list Z) : bool :=
  forallb (fun e => negb ((iq4_xs_quant (iq4_qs x) e <? 0) && (s8 (nth e yqs 0) =? -128)))
          (seq 0 256).

(** What an IQ4_XS row and a Q8_K column give in the float interface. *)
Definition iq4_xs_dot {F : Type} `{FloatOps F} (hp : Heaps F)
  (nb : Z) (q8 : list Z) (vx bx ix iy : Z) : F :=
  fsum nb (fun i =>
    let x := h_iq4 hp (vx + ix * bx) i in
    let y := q8_block hp q8 iy i in
    fmul (fmul (fp16_to_fp32 (iq4_d x)) (q8_d y)) (i32_to_f (iq4_xs_intdot x (q8_qs y)))).

(** The index [dequant] leaves in byte [e] of its register: the low
    nibbles of the sixteen bytes at [off], then their high nibbles. *)
Definition iq4_nib (qs : list Z) (off : Z) (e : nat) : Z :=
  if (e <? 16)%nat then Z.land (u8 (nth (Z.to_nat off + e) qs 0)) 15
  else Z.shiftr (u8 (nth (Z.to_nat off + (e - 16)) qs 0)) 4.

(** The quant [mul_signed] multiplies a value [a] with: the quant [b]
    itself, except that under a negative [a] the negation of [b = -128]
    wraps back to -128, which makes the product that of [a] with +128. *)
Definition sign_adjusted (a b : Z) : Z := if (a <? 0) && (b =? -128) then 128 else b.

(** The integer dot product as the IQ4_XS kernel computes it: that of
    [iq4_xs_intdot] with the adjusted quants. *)
Definition iq4_xs_kernel_intdot (x : block_iq4_xs) (yqs : list Z) : Z :=
  zsum (map (fun j =>
    (iq4_ls x j - 32) *
    zsum (map (fun k => iq4_xs_quant (iq4_qs x) (32 * j + k) *
                        sign_adjusted (iq4_xs_quant (iq4_qs x) (32 * j + k))
                                      (s8 (nth (32 * j + k) yqs 0)))
              (seq 0 32))) (seq 0 8)).

(** Example data over the rationals for Q5_K and IQ4_XS: the patterns of
    [corr_demo] with one super-block pattern of each of the two formats.
    No quant of the Q8_K pattern is -128. *)
Definition exact_demo : Heaps Qcanon.Qc := {|
  h_q2 := h_q2 corr_demo;
  h_q3 := h_q3 corr_demo;
  h_q4 := h_q4 corr_demo;
  h_q5 := fun _ _ => {| q5_d := 0x3C00; q5_dmin := 0x3800;
                        q5_scales := [0x21; 0x43; 0x65; 0x87; 0xA9; 0xCB; 0xED; 0x0F;
                                      0x1B; 0xE4; 0x39; 0xC6];
                        q5_qh := map (fun k => (Z.of_nat k * 67 + 2) mod 256) (seq 0 32);
                        q5_qs := map (fun k => (Z.of_nat k * 37 + 11) mod 256) (seq 0 128) |};
  h_q6 := h_q6 corr_demo;
  h_iq4 := fun _ _ => {| iq4_d := 0x3C00; iq4_scales_h := 0x1234;
                         iq4_scales_l := [0x21; 0x43; 0x65; 0x87];
                         iq4_qs := map (fun k => (37 * Z.of_nat k + 11) mod 256) (seq 0 128) |};
  h_q8 := h_q8 corr_demo
|}.

(** ** The corrections of Q3_K and Q6_K in closed form *)

(** The correction of one Q3_K super-block [x] against one Q8_K
    super-block [y], as the specification states it:
    [- 4 * d * sum_j sc_signed[j] * bsum[j]] over the sixteen sub-blocks,
    with [d] the product of the two block scales and 4 the conversion of
    the integer. *)
Definition q3_K_correction_spec {F : Type} `{FloatOps F}
  (x : block_q3_K) (y : block_q8_K F) : F :=
  fneg (fmul (i32_to_f 4)
          (fmul (fmul (fp16_to_fp32 (q3_d x)) (q8_d y))
                (i32_to_f (zsum (map (fun j => q3_sc_signed x j * q8_bsum y j) (seq 0 16)))))).

(** The same for Q6_K: [- 32 * d * sum_j sc[j] * bsum[j]]. *)
Definition q6_K_correction_spec {F : Type} `{FloatOps F}
  (x : block_q6_K) (y : block_q8_K F) : F :=
  fneg (fmul (i32_to_f 32)
          (fmul (fmul (fp16_to_fp32 (q6_d x)) (q8_d y))
                (i32_to_f (zsum (map (fun j => q6_sc x j * q8_bsum y j) (seq 0 16)))))).

(** The value of the specification for row [ix] of [A], whose super-blocks
    start at [vx + ix * bx], and column [iy] of [B], whose super-blocks start
    at [vy + iy * by_]: the sum over the super-blocks, in increasing order,
    of [d] times the integer dot product of the data model plus the
    correction. *)
Definition q3_K_value_spec {F : Type} `{FloatOps F} (hp : Heaps F)
  (nb vx bx vy by_ ix iy : Z) : F :=
  fsum nb (fun i =>
    let x := h_q3 hp (vx + ix * bx) i in
    let y := h_q8 hp (vy + iy * by_) i in
    fadd (fmul (fmul (fp16_to_fp32 (q3_d x)) (q8_d y)) (i32_to_f (q3_K_intdot x (q8_qs y))))
         (q3_K_correction_spec x y)).

Definition q6_K_value_spec {F : Type} `{FloatOps F} (hp : Heaps F)
  (nb vx bx vy by_ ix iy : Z) : F :=
  fsum nb (fun i =>
    let x := h_q6 hp (vx + ix * bx) i in
    let y := h_q8 hp (vy + iy * by_) i in
    fadd (fmul (fmul (fp16_to_fp32 (q6_d x)) (q8_d y)) (i32_to_f (q6_K_intdot x (q8_qs y))))
         (q6_K_correction_spec x y)).

(** Example data in binary32: Q3_K and Q6_K super-blocks with [d = 1.0],
    all quants zero, scale 1 for sub-blocks 0 and 2 and scale 0 for the
    others (for Q3_K the 6-bit codes 33 and 32), against Q8_K super-blocks
    with [d = 1 + 2^-23], [qs[0] = 1] and [qs[32] = 5], hence sub-block sums
    1 and 5. *)
Definition corr_round_demo : Heaps spec_float := {|
  h_q2 := h_q2 zero_heaps;
  h_q3 := fun _ _ => {| q3_hmask := repeat 0 32;
                        q3_qs := repeat 0 64;
                        q3_scales := [1; 0; 1; 0; 0; 0; 0; 0; 0xAA; 0xAA; 0xAA; 0xAA];
                        q3_d := 0x3C00 |};
  h_q4 := h_q4 zero_heaps;
  h_q5 := h_q5 zero_heaps;
  h_q6 := fun _ _ => {| q6_ql := repeat 0 128;
                        q6_qh := repeat 0 64;
                        q6_scales := [1; 0; 1] ++ repeat 0 13;
                        q6_d := 0x3C00 |};
  h_iq4 := h_iq4 zero_heaps;
  h_q8 := fun _ _ => {| q8_d := S754_finite false 8388609 (-23);
                        q8_qs := [1] ++ repeat 0 31 ++ [5] ++ repeat 0 223;
                        q8_bsums := [1; 0; 5] ++ repeat 0 13 |}
|}.


(** * Properties *)

(** ** Bits and bytes *)

Lemma u8_range x : 0 <= u8 x < 256.
Proof. unfold u8. apply Z.mod_pos_bound. lia. Qed.

Lemma testbit_small x n i : 0 <= x < 2 ^ n -> n <= i -> Z.testbit x i = false.
Proof.
  intros Hx Hi.
  destruct (Z.eq_dec x 0) as [->|Hne]; [apply Z.bits_0|].
  apply Z.bits_above_log2; [lia|].
  assert (0 <= n) by (destruct (Z.le_gt_cases 0 n); [lia|]; rewrite Z.pow_neg_r in Hx; lia).
  assert (Z.log2 x < n) by (apply Z.log2_lt_pow2; lia). lia.
Qed.

Lemma bits_bound x n :
  0 <= n -> (forall i, n <= i -> Z.testbit x i = false) -> 0 <= x < 2 ^ n.
Proof.
  intros Hn Hb.
  assert (x = x mod 2 ^ n) as ->.
  { apply Z.bits_inj'. intros i Hi.
    destruct (Z.lt_ge_cases i n).
    - now rewrite Z.mod_pow2_bits_low.
    - rewrite Z.mod_pow2_bits_high by lia. now apply Hb. }
  apply Z.mod_pos_bound. apply Z.pow_pos_nonneg; lia.
Qed.

Lemma lor_shiftl16 x y : 0 <= x < 65536 -> Z.lor x (Z.shiftl y 16) = x + 65536 * y.
Proof.
  intros Hx.
  rewrite Z.or_to_plus.
  - rewrite Z.shiftl_mul_pow2 by lia. lia.
  - apply Z.bits_inj'. intros i Hi. rewrite Z.land_spec, Z.bits_0.
    destruct (Z.lt_ge_cases i 16).
    + rewrite Z.shiftl_spec_low by lia. apply andb_false_r.
    + rewrite (testbit_small x 16 i) by lia. reflexivity.
Qed.

Lemma read_word32 bytes k :
  u32 (Z.lor (read_u16 bytes (2 * k)) (Z.shiftl (read_u16 bytes (2 * k + 1)) 16))
  = le32 bytes k.
Proof.
  unfold read_u16, le32.
  replace (2 * (2 * k))%nat with (4 * k)%nat by lia.
  replace (2 * (2 * k) + 1)%nat with (4 * k + 1)%nat by lia.
  replace (2 * (2 * k + 1) + 1)%nat with (4 * k + 3)%nat by lia.
  replace (2 * (2 * k + 1))%nat with (4 * k + 2)%nat by lia.
  pose proof (u8_range (nth (4 * k) bytes 0)).
  pose proof (u8_range (nth (4 * k + 1) bytes 0)).
  pose proof (u8_range (nth (4 * k + 2) bytes 0)).
  pose proof (u8_range (nth (4 * k + 3) bytes 0)).
  rewrite lor_shiftl16 by lia.
  unfold u32. rewrite Z.mod_small by lia. lia.
Qed.

Lemma le32_range bytes k : 0 <= le32 bytes k < 4294967296.
Proof.
  unfold le32.
  pose proof (u8_range (nth (4 * k) bytes 0)).
  pose proof (u8_range (nth (4 * k + 1) bytes 0)).
  pose proof (u8_range (nth (4 * k + 2) bytes 0)).
  pose proof (u8_range (nth (4 * k + 3) bytes 0)).
  lia.
Qed.

Lemma make_q4_scales_words scales8 :
  make_q4_scales scales8 =
    [ Z.land (le32 scales8 0) 0x3F3F3F3F;
      Z.lor (Z.land (le32 scales8 2) 0x0F0F0F0F)
            (Z.land (Z.shiftr (le32 scales8 0) 2) 0x30303030);
      Z.land (le32 scales8 1) 0x3F3F3F3F;
      Z.lor (Z.land (Z.shiftr (le32 scales8 2) 4) 0x0F0F0F0F)
            (Z.land (Z.shiftr (le32 scales8 1) 2) 0x30303030) ].
Proof.
  unfold make_q4_scales.
  pose proof (read_word32 scales8 0) as E0.
  pose proof (read_word32 scales8 1) as E1.
  pose proof (read_word32 scales8 2) as E2.
  cbn [Nat.mul Nat.add] in E0, E1, E2.
  rewrite E0, E1, E2, Z.shiftr_0_r. reflexivity.
Qed.


Lemma byte_bits x k i :
  0 <= k -> 0 <= i ->
  Z.testbit ((x / 2 ^ k) mod 256) i = if i <? 8 then Z.testbit x (i + k) else false.
Proof.
  intros Hk Hi. change 256 with (2 ^ 8).
  destruct (Z.ltb_spec i 8).
  - rewrite Z.mod_pow2_bits_low by lia. rewrite Z.div_pow2_bits by lia. reflexivity.
  - apply Z.mod_pow2_bits_high. lia.
Qed.

Lemma clear67_bytes x : clear67 x -> Forall (fun b => 0 <= b < 64) (bytes_of32 x).
Proof.
  intros [Hx Hb]. unfold bytes_of32.
  assert (forall k, 0 <= k -> k mod 8 = 0 -> 0 <= (x / 2 ^ k) mod 256 < 64) as A.
  { intros k Hk Hk8. change 64 with (2 ^ 6). apply bits_bound; [lia|].
    intros i Hi. rewrite byte_bits by lia.
    destruct (Z.ltb_spec i 8); [|reflexivity].
    apply Hb; [lia|].
    assert (i = 6 \/ i = 7) as [->| ->] by lia.
    - left. rewrite Z.add_mod, Hk8 by lia. reflexivity.
    - right; left. rewrite Z.add_mod, Hk8 by lia. reflexivity. }
  repeat apply Forall_cons; [| | | |apply Forall_nil].
  - specialize (A 0). rewrite Z.pow_0_r, Z.div_1_r in A. apply A; [lia|reflexivity].
  - apply (A 8); [lia|reflexivity].
  - apply (A 16); [lia|reflexivity].
  - apply (A 24); [lia|reflexivity].
Qed.

Lemma mask_bits_3f i : 0 <= i -> (i mod 8 = 6 \/ i mod 8 = 7 \/ 32 <= i) ->
  Z.testbit 0x3F3F3F3F i = false.
Proof.
  intros Hi Hc.
  destruct (Z.lt_ge_cases i 32) as [Hlt|Hge].
  - assert (i = 6 \/ i = 7 \/ i = 14 \/ i = 15 \/ i = 22 \/ i = 23 \/ i = 30 \/ i = 31)
      as Hcase.
    { assert (i = 8 * (i / 8) + i mod 8) by (apply Z.div_mod; lia).
      assert (0 <= i / 8 < 4) by (split; [apply Z.div_pos; lia | apply Z.div_lt_upper_bound; lia]).
      lia. }
    repeat (destruct Hcase as [->|Hcase]; [reflexivity|]). subst; reflexivity.
  - apply (testbit_small _ 32); [cbv; split; congruence | lia].
Qed.

Lemma mask_bits_0f i : 0 <= i -> (i mod 8 = 6 \/ i mod 8 = 7 \/ 32 <= i) ->
  Z.testbit 0x0F0F0F0F i = false.
Proof.
  intros Hi Hc.
  destruct (Z.lt_ge_cases i 32) as [Hlt|Hge].
  - assert (i = 6 \/ i = 7 \/ i = 14 \/ i = 15 \/ i = 22 \/ i = 23 \/ i = 30 \/ i = 31)
      as Hcase.
    { assert (i = 8 * (i / 8) + i mod 8) by (apply Z.div_mod; lia).
      assert (0 <= i / 8 < 4) by (split; [apply Z.div_pos; lia | apply Z.div_lt_upper_bound; lia]).
      lia. }
    repeat (destruct Hcase as [->|Hcase]; [reflexivity|]). subst; reflexivity.
  - apply (testbit_small _ 32); [cbv; split; congruence | lia].
Qed.

Lemma mask_bits_30 i : 0 <= i -> (i mod 8 = 6 \/ i mod 8 = 7 \/ 32 <= i) ->
  Z.testbit 0x30303030 i = false.
Proof.
  intros Hi Hc.
  destruct (Z.lt_ge_cases i 32) as [Hlt|Hge].
  - assert (i = 6 \/ i = 7 \/ i = 14 \/ i = 15 \/ i = 22 \/ i = 23 \/ i = 30 \/ i = 31)
      as Hcase.
    { assert (i = 8 * (i / 8) + i mod 8) by (apply Z.div_mod; lia).
      assert (0 <= i / 8 < 4) by (split; [apply Z.div_pos; lia | apply Z.div_lt_upper_bound; lia]).
      lia. }
    repeat (destruct Hcase as [->|Hcase]; [reflexivity|]). subst; reflexivity.
  - apply (testbit_small _ 32); [cbv; split; congruence | lia].
Qed.

Lemma clear67_land a m :
  0 <= m -> (forall i, 0 <= i -> (i mod 8 = 6 \/ i mod 8 = 7 \/ 32 <= i) -> Z.testbit m i = false) ->
  clear67 (Z.land a m).
Proof.
  intros Hm Hb. split.
  - apply Z.land_nonneg. now right.
  - intros i Hi Hc. rewrite Z.land_spec, (Hb i Hi Hc). apply andb_false_r.
Qed.

Lemma clear67_lor a b : clear67 a -> clear67 b -> clear67 (Z.lor a b).
Proof.
  intros [Ha Hba] [Hb Hbb]. split.
  - now apply Z.lor_nonneg.
  - intros i Hi Hc. rewrite Z.lor_spec, (Hba i Hi Hc), (Hbb i Hi Hc). reflexivity.
Qed.

Lemma lane16_byte b : 0 <= b < 256 -> b mod 256 + 256 * ((b / 256) mod 256) = b.
Proof.
  intros. rewrite Z.mod_small, Z.div_small by lia. change (0 mod 256) with 0. lia.
Qed.

Lemma bytes_of32_u32 x : bytes_of32 (u32 x) = bytes_of32 x.
Proof.
  unfold bytes_of32, u32.
  assert ((x mod 4294967296) mod 256 = x mod 256) as -> by (Z.div_mod_to_equations; lia).
  assert ((x mod 4294967296 / 256) mod 256 = (x / 256) mod 256) as ->
    by (Z.div_mod_to_equations; lia).
  assert ((x mod 4294967296 / 65536) mod 256 = (x / 65536) mod 256) as ->
    by (Z.div_mod_to_equations; lia).
  assert ((x mod 4294967296 / 16777216) mod 256 = (x / 16777216) mod 256) as ->
    by (Z.div_mod_to_equations; lia).
  reflexivity.
Qed.

Lemma q4_sc128_lanes w0 w1 w2 w3 :
  lanes16 (q4_sc128 [w0; w1; w2; w3]) = bytes_of32 w0 ++ bytes_of32 w1.
Proof.
  rewrite <- (bytes_of32_u32 w0), <- (bytes_of32_u32 w1).
  unfold q4_sc128, q4_mins_and_scales, _mm256_cvtepu8_epi16, _mm_set_epi32,
    _mm256_extracti128_si256.
  change (Z.to_nat (16 * 0)) with 0%nat.
  cbn [nth bytes32 bytes16 flat_map app skipn firstn lanes16 bytes_of32].
  rewrite !lane16_byte by (apply Z.mod_pos_bound; lia). reflexivity.
Qed.

Lemma q4_mins_lanes w0 w1 w2 w3 :
  lanes16 (q4_mins [w0; w1; w2; w3]) = bytes_of32 w2 ++ bytes_of32 w3.
Proof.
  rewrite <- (bytes_of32_u32 w2), <- (bytes_of32_u32 w3).
  unfold q4_mins, q4_mins_and_scales, _mm256_cvtepu8_epi16, _mm_set_epi32,
    _mm256_extracti128_si256.
  change (Z.to_nat (16 * 1)) with 16%nat.
  cbn [nth bytes32 bytes16 flat_map app skipn firstn lanes16 bytes_of32].
  rewrite !lane16_byte by (apply Z.mod_pos_bound; lia). reflexivity.
Qed.

(** ** C3: the Q4_K / Q5_K scale unpacking *)

(** C3 (as amended).  For every 12-byte scales input read as three
    little-endian words [a0], [a1], [a2], [make_q4_scales] writes exactly
    [o0 = a0 & 0x3F3F3F3F], [o2 = a1 & 0x3F3F3F3F],
    [o1 = (a2 & 0x0F0F0F0F) | ((a0 >> 2) & 0x30303030)] and
    [o3 = ((a2 >> 4) & 0x0F0F0F0F) | ((a1 >> 2) & 0x30303030)]; the scales
    register of the kernels holds the bytes of [o0] and [o1], the mins
    register the bytes of [o2] and [o3], and all sixteen bytes are 6-bit
    values. *)
Theorem make_q4_scales_spec (scales8 : list Z) :
  let a0 := le32 scales8 0 in
  let a1 := le32 scales8 1 in
  let a2 := le32 scales8 2 in
  let o0 := Z.land a0 0x3F3F3F3F in
  let o2 := Z.land a1 0x3F3F3F3F in
  let o1 := Z.lor (Z.land a2 0x0F0F0F0F) (Z.land (Z.shiftr a0 2) 0x30303030) in
  let o3 := Z.lor (Z.land (Z.shiftr a2 4) 0x0F0F0F0F) (Z.land (Z.shiftr a1 2) 0x30303030) in
  make_q4_scales scales8 = [o0; o1; o2; o3] /\
  lanes16 (q4_sc128 (make_q4_scales scales8)) = bytes_of32 o0 ++ bytes_of32 o1 /\
  lanes16 (q4_mins (make_q4_scales scales8)) = bytes_of32 o2 ++ bytes_of32 o3 /\
  Forall (fun b => 0 <= b < 64)
    (bytes_of32 o0 ++ bytes_of32 o1 ++ bytes_of32 o2 ++ bytes_of32 o3).
Proof.
  intros. rewrite make_q4_scales_words. fold a0 a1 a2. fold o0 o1 o2 o3.
  split; [reflexivity|].
  split; [apply q4_sc128_lanes|].
  split; [apply q4_mins_lanes|].
  assert (clear67 o0) by (apply clear67_land; [lia | apply mask_bits_3f]).
  assert (clear67 o2) by (apply clear67_land; [lia | apply mask_bits_3f]).
  assert (clear67 o1)
    by (apply clear67_lor; apply clear67_land; try lia;
        [apply mask_bits_0f | apply mask_bits_30]).
  assert (clear67 o3)
    by (apply clear67_lor; apply clear67_land; try lia;
        [apply mask_bits_0f | apply mask_bits_30]).
  repeat (apply Forall_app; split); now apply clear67_bytes.
Qed.

(** C3 (as stated) fails: with scale bytes [1,1,1,1,2,2,2,2,0,0,0,0] the
    words are [o0 = 0x01010101], [o2 = 0x02020202], [o1 = o3 = 0], and the
    kernels take their eight scales from [o0] and [o1] and their eight mins
    from [o2] and [o3], not from [o0], [o2] and [o1], [o3]. *)
Lemma make_q4_scales_roles_counterexample :
  let scales8 := [1; 1; 1; 1; 2; 2; 2; 2; 0; 0; 0; 0] in
  let o0 := Z.land (le32 scales8 0) 0x3F3F3F3F in
  let o2 := Z.land (le32 scales8 1) 0x3F3F3F3F in
  let o1 := Z.lor (Z.land (le32 scales8 2) 0x0F0F0F0F)
                  (Z.land (Z.shiftr (le32 scales8 0) 2) 0x30303030) in
  let o3 := Z.lor (Z.land (Z.shiftr (le32 scales8 2) 4) 0x0F0F0F0F)
                  (Z.land (Z.shiftr (le32 scales8 1) 2) 0x30303030) in
  lanes16 (q4_sc128 (make_q4_scales scales8)) = [1; 1; 1; 1; 0; 0; 0; 0] /\
  lanes16 (q4_mins (make_q4_scales scales8)) = [2; 2; 2; 2; 0; 0; 0; 0] /\
  lanes16 (q4_sc128 (make_q4_scales scales8)) <> bytes_of32 o0 ++ bytes_of32 o2 /\
  lanes16 (q4_mins (make_q4_scales scales8)) <> bytes_of32 o1 ++ bytes_of32 o3.
Proof. vm_compute. repeat split; congruence. Qed.

(** ** C4: the sign trick of [mul_signed] *)

Lemma lanes16_bytes16 l : lanes16 (bytes16 l) = map u16 l.
Proof.
  induction l as [|x l IH]; [reflexivity|].
  cbn [bytes16 flat_map app lanes16 map]. fold (bytes16 l). rewrite IH. f_equal.
  unfold u16. Z.div_mod_to_equations. lia.
Qed.

Lemma s16_u16 v : -32768 <= v <= 32767 -> s16 (u16 v) = v.
Proof.
  intros Hv. unfold s16, u16. rewrite Z.mod_mod by lia.
  destruct (Z.ltb_spec (v mod 65536) 32768); Z.div_mod_to_equations; lia.
Qed.

Lemma s8_u8 v : -128 <= v <= 127 -> s8 (u8 v) = v.
Proof.
  intros Hv. unfold s8, u8. rewrite Z.mod_mod by lia.
  destruct (Z.ltb_spec (v mod 256) 128); Z.div_mod_to_equations; lia.
Qed.

Lemma sign_trick_lane a b :
  sign_safe a b ->
  let xa := u8 a in
  let yb := u8 b in
  let ux := if s8 xa <? 0 then u8 (- s8 xa) else if s8 xa =? 0 then 0 else xa in
  let sy := if s8 xa <? 0 then u8 (- s8 yb) else if s8 xa =? 0 then 0 else yb in
  ux * s8 sy = a * b /\ -16256 <= a * b <= 16256.
Proof.
  intros (Ha & Hb & Hn). cbv zeta.
  rewrite !(s8_u8 a), !(s8_u8 b) by lia.
  destruct (Z.ltb_spec a 0).
  - assert (b <> -128) by lia.
    rewrite (s8_u8 (- b)) by lia.
    assert (u8 (- a) = - a) as -> by (unfold u8; apply Z.mod_small; lia).
    split; nia.
  - destruct (Z.eqb_spec a 0).
    + subst. change (s8 0) with 0. lia.
    + rewrite (s8_u8 b) by lia.
      assert (u8 a = a) as -> by (unfold u8; apply Z.mod_small; lia).
      split; nia.
Qed.

Lemma sat16_id v : -32768 <= v <= 32767 -> sat16 v = v.
Proof.
  intros. unfold sat16.
  destruct (Z.ltb_spec v (-32768)); [lia|]. destruct (Z.ltb_spec 32767 v); lia.
Qed.

Lemma mul_signed_unfold x y :
  map s16 (lanes16 (mul_signed x y)) =
  map (fun v => s16 (u16 v))
    (maddubs_lanes (_mm256_sign_epi8 x x) (_mm256_sign_epi8 y x)).
Proof.
  unfold mul_signed, _mm256_maddubs_epi16. cbv zeta.
  rewrite lanes16_bytes16, !map_map. apply map_ext. intros v.
  unfold u16. now rewrite Z.mod_mod by lia.
Qed.

Lemma mul_signed_lanes x y :
  Forall2 sign_safe x y ->
  map (fun v => s16 (u16 v))
    (maddubs_lanes (_mm256_sign_epi8 (map u8 x) (map u8 x))
                   (_mm256_sign_epi8 (map u8 y) (map u8 x))) = pair_dot x y /\
  forall a b, sign_safe a b ->
    map (fun v => s16 (u16 v))
      (maddubs_lanes (_mm256_sign_epi8 (map u8 (a :: x)) (map u8 (a :: x)))
                     (_mm256_sign_epi8 (map u8 (b :: y)) (map u8 (a :: x))))
    = pair_dot (a :: x) (b :: y).
Proof.
  unfold _mm256_sign_epi8.
  induction 1 as [|a0 b0 x y Hab Hxy [IH1 IH2]].
  - split; [reflexivity|]. intros; reflexivity.
  - split; [now apply IH2|].
    intros a b Hs.
    cbn [map map2 maddubs_lanes pair_dot].
    f_equal; [|exact IH1].
    destruct (sign_trick_lane a b Hs) as [E1 B1].
    destruct (sign_trick_lane a0 b0 Hab) as [E2 B2].
    cbv zeta in E1, E2. rewrite E1, E2.
    rewrite sat16_id by lia. apply s16_u16. lia.
Qed.

(** C4 (as amended).  For signed 8-bit vectors [x] and [y] in which no lane
    pairs a negative [x] with [y = -128], the byte multiply-add of
    [ux = sign(x, x)] and [sy = sign(y, x)] yields, as signed 16-bit lanes,
    exactly the sums of adjacent true products [x_k * y_k]. *)
Theorem mul_signed_exact (x y : list Z) :
  Forall2 sign_safe x y ->
  map s16 (lanes16 (mul_signed (map u8 x) (map u8 y))) = pair_dot x y.
Proof. intros Hs. rewrite mul_signed_unfold. now apply mul_signed_lanes. Qed.

(** A concrete instance: every lane is safe, including [y = -128] under a
    positive [x] and [x = -128]. *)
Lemma mul_signed_exact_witness :
  let x := [-127; -104; -83; -65; -49; -35; -22; -10; 1; 13; 25; 38; 53; 69; 89; 113;
            -128; -128; 127; 127; 0; 0; 1; -1; 113; 113; -127; -127; 5; -5; 7; -7] in
  let y := [127; 127; -127; -127; 3; -3; 100; -100; -128; -128; 127; -127; 0; 1; -1; 2;
            127; -127; 127; -128; -128; 127; -128; 127; -128; -128; 127; 127; 9; 9; -9; -9] in
  Forall2 sign_safe x y /\
  map s16 (lanes16 (mul_signed (map u8 x) (map u8 y))) = pair_dot x y.
Proof.
  assert (H : Forall2 sign_safe
    [-127; -104; -83; -65; -49; -35; -22; -10; 1; 13; 25; 38; 53; 69; 89; 113;
     -128; -128; 127; 127; 0; 0; 1; -1; 113; 113; -127; -127; 5; -5; 7; -7]
    [127; 127; -127; -127; 3; -3; 100; -100; -128; -128; 127; -127; 0; 1; -1; 2;
     127; -127; 127; -128; -128; 127; -128; 127; -128; -128; 127; 127; 9; 9; -9; -9])
    by (repeat constructor; unfold sign_safe; lia).
  split; [exact H | exact (mul_signed_exact _ _ H)].
Defined.

(** C4 (as stated) fails: with [x = -1] and [y = -128] in lane 0 (zeros
    elsewhere), negating [y] wraps back to -128, and the multiply-add yields
    -128 where the true product is 128. *)
Lemma mul_signed_counterexample :
  let x := -1 :: repeat 0 31 in
  let y := -128 :: repeat 0 31 in
  map s16 (lanes16 (mul_signed (map u8 x) (map u8 y))) = -128 :: repeat 0 15 /\
  pair_dot x y = 128 :: repeat 0 15 /\
  map s16 (lanes16 (mul_signed (map u8 x) (map u8 y))) <> pair_dot x y.
Proof. vm_compute. repeat split; congruence. Qed.

(** ** Loops *)

Lemma for_loop_nonpos {S : Type} (n : Z) (body : Z -> S -> S) (s : S) :
  n <= 0 -> for_loop n body s = s.
Proof.
  intros Hn. unfold for_loop.
  replace (Z.to_nat n) with 0%nat by lia. reflexivity.
Qed.

Lemma for_loop_succ {S : Type} (n : Z) (body : Z -> S -> S) (s : S) :
  0 <= n -> for_loop (n + 1) body s = body n (for_loop n body s).
Proof.
  intros Hn. unfold for_loop.
  replace (Z.to_nat (n + 1)) with (Z.to_nat n + 1)%nat by lia.
  rewrite seq_app, fold_left_app. cbn [seq fold_left].
  rewrite Nat.add_0_l, Z2Nat.id by lia. reflexivity.
Qed.

Lemma for_loop_ind {S : Type} (P : Z -> S -> Prop) (n : Z) (body : Z -> S -> S) (s : S) :
  P 0 s ->
  (forall k s', 0 <= k < n -> P k s' -> P (k + 1) (body k s')) ->
  0 <= n -> P n (for_loop n body s).
Proof.
  intros H0 Hstep Hn.
  rewrite <- (Z2Nat.id n Hn).
  assert (Hle : (Z.to_nat n <= Z.to_nat n)%nat) by lia.
  revert Hle. generalize (Z.to_nat n) at 1 3 4 as m.
  induction m as [|m IH]; intros Hle.
  - now rewrite for_loop_nonpos by lia.
  - rewrite Nat2Z.inj_succ, <- Z.add_1_r, for_loop_succ by lia.
    apply Hstep; [lia|]. apply IH. lia.
Qed.

Lemma for_loop_ext {S : Type} (n : Z) (f g : Z -> S -> S) (s : S) :
  (forall k s', 0 <= k < n -> f k s' = g k s') -> for_loop n f s = for_loop n g s.
Proof.
  intros Hfg.
  destruct (Z.le_gt_cases n 0) as [Hn|Hn].
  - now rewrite !for_loop_nonpos.
  - apply (for_loop_ind (fun k s' => s' = for_loop k g s) n f s).
    + now rewrite for_loop_nonpos.
    + intros k s' Hk ->. rewrite for_loop_succ by lia. now apply Hfg.
    + lia.
Qed.

(** ** Integer conversions *)

Lemma to_long_id x : - 9223372036854775808 <= x <= LONG_MAX -> to_long x = x.
Proof.
  unfold to_long, LONG_MAX. intros Hx.
  destruct (Z.ltb_spec (x mod 18446744073709551616) 9223372036854775808);
    Z.div_mod_to_equations; lia.
Qed.

Lemma to_int_id x : - 2147483648 <= x <= INT_MAX -> to_int x = x.
Proof.
  unfold to_int, s32, INT_MAX. intros Hx.
  destruct (Z.ltb_spec (x mod 4294967296) 2147483648); Z.div_mod_to_equations; lia.
Qed.

Lemma rem_to_int x : Z.rem x QK_K = 0 -> Z.rem (to_int x) QK_K = 0.
Proof.
  unfold QK_K. intros Hx.
  apply Z.rem_divide in Hx; [|lia]. apply Z.rem_divide; [lia|].
  destruct Hx as [k ->]. unfold to_int, s32.
  assert ((k * 256) mod 4294967296 = 256 * (k mod 16777216)) as ->
    by (Z.div_mod_to_equations; lia).
  destruct (_ <? _).
  - exists (k mod 16777216). lia.
  - exists (k mod 16777216 - 16777216). lia.
Qed.

(** ** The entry point on unsupported types and on empty slices *)

Section EntryPoint.
Context {F : Type} `{FloatOps F} {St : Type} (store_at : Z -> F -> St -> St).
Context (hp : Heaps F) (env : ggml_env).

Lemma select_kernels_unsupported typeA :
  ~ supported_type env typeA -> select_kernels store_at hp env typeA = None.
Proof.
  unfold supported_type, select_kernels. intros Hn.
  destruct (Z.eqb_spec typeA (GGML_TYPE_Q2_K env)); [tauto|].
  destruct (Z.eqb_spec typeA (GGML_TYPE_Q3_K env)); [tauto|].
  destruct (Z.eqb_spec typeA (GGML_TYPE_Q4_K env)); [tauto|].
  destruct (Z.eqb_spec typeA (GGML_TYPE_Q5_K env)); [tauto|].
  destruct (Z.eqb_spec typeA (GGML_TYPE_Q6_K env)); [tauto|].
  destruct (Z.eqb_spec typeA (GGML_TYPE_IQ4_XS env)); [tauto|].
  reflexivity.
Qed.

Lemma q2_K_idle nrc_y n nrc_x :
  Z.rem n QK_K = 0 -> nrc_x <= 0 -> idle (mul_mat_q2_K_q8_K_T store_at hp nrc_y) n nrc_x.
Proof.
  intros Hn Hx s bs vx bx vy by_ st. unfold mul_mat_q2_K_q8_K_T.
  rewrite Hn. cbn [Z.eqb negb]. now rewrite for_loop_nonpos.
Qed.

Lemma q3_K_idle nrc_y n nrc_x :
  Z.rem n QK_K = 0 -> nrc_x <= 0 -> idle (mul_mat_q3_K_q8_K_T store_at hp nrc_y) n nrc_x.
Proof.
  intros Hn Hx s bs vx bx vy by_ st. unfold mul_mat_q3_K_q8_K_T.
  rewrite Hn. cbn [Z.eqb negb]. now rewrite for_loop_nonpos.
Qed.

Lemma q4_K_idle nrc_y n nrc_x :
  Z.rem n QK_K = 0 -> nrc_x <= 0 -> idle (mul_mat_q4_K_q8_K_T store_at hp nrc_y) n nrc_x.
Proof.
  intros Hn Hx s bs vx bx vy by_ st. unfold mul_mat_q4_K_q8_K_T.
  rewrite Hn. cbn [Z.eqb negb]. now rewrite for_loop_nonpos.
Qed.

Lemma q5_K_idle nrc_y n nrc_x :
  Z.rem n QK_K = 0 -> nrc_x <= 0 -> idle (mul_mat_q5_K_q8_K_T store_at hp nrc_y) n nrc_x.
Proof.
  intros Hn Hx s bs vx bx vy by_ st. unfold mul_mat_q5_K_q8_K_T.
  rewrite Hn. cbn [Z.eqb negb]. now rewrite for_loop_nonpos.
Qed.

Lemma q6_K_idle nrc_y n nrc_x :
  Z.rem n QK_K = 0 -> nrc_x <= 0 -> idle (mul_mat_q6_K_q8_K_T store_at hp nrc_y) n nrc_x.
Proof.
  intros Hn Hx s bs vx bx vy by_ st. unfold mul_mat_q6_K_q8_K_T.
  rewrite Hn. cbn [Z.eqb negb]. now rewrite for_loop_nonpos.
Qed.

Lemma iq4_xs_idle nrc_y n nrc_x :
  Z.rem n QK_K = 0 -> nrc_x <= 0 -> idle (mul_mat_iq4_xs_q8_K_T store_at hp nrc_y) n nrc_x.
Proof.
  intros Hn Hx s bs vx bx vy by_ st. unfold mul_mat_iq4_xs_q8_K_T.
  rewrite Hn. cbn [Z.eqb negb]. now rewrite for_loop_nonpos.
Qed.

Lemma for_loop_idle (n_step : Z) (g : Z -> St -> option St) (st : St) :
  (forall k st', g k st' = Some st') ->
  for_loop n_step (fun iy ost => match ost with None => None | Some st' => g iy st' end)
    (Some st) = Some st.
Proof.
  intros Hg.
  destruct (Z.le_gt_cases n_step 0) as [Hn|Hn]; [now rewrite for_loop_nonpos|].
  apply (for_loop_ind (fun _ o => o = Some st)); [reflexivity| |lia].
  intros k s' _ ->. apply Hg.
Qed.

Lemma process_idle n bs vx bx by_ nrc_x (mm : @mul_mat_t St) step t st :
  idle mm n nrc_x ->
  exists b t', process n bs vx bx by_ nrc_x (Some mm) step t st = Some (b, t', st).
Proof.
  intros Hid. unfold process.
  destruct (t_nrc_y t <? step); [now eexists _, _|].
  rewrite for_loop_idle by (intros; apply Hid).
  destruct (_ =? 0); now eexists _, _.
Qed.

Lemma mul_mat_NxM_idle n s bs vx bx vy by_ nrc_x nrc_y (mm1 mm2 mm4 mm8 : @mul_mat_t St) st :
  idle mm1 n nrc_x -> idle mm2 n nrc_x -> idle mm4 n nrc_x -> idle mm8 n nrc_x ->
  mul_mat_NxM n s bs vx bx vy by_ nrc_x nrc_y (Some mm1) (Some mm2) (Some mm4) (Some mm8) st
  = Some st.
Proof.
  intros H1 H2 H4 H8. unfold mul_mat_NxM. cbv zeta.
  destruct (process_idle n bs vx bx by_ nrc_x mm8 8
              {| t_s := s; t_char_y := vy; t_nrc_y := nrc_y |} st H8) as (b8 & t8 & ->).
  destruct b8; cbn [and_then]; [|reflexivity].
  destruct (process_idle n bs vx bx by_ nrc_x mm4 4 t8 st H4) as (b4 & t4 & ->).
  destruct b4; cbn [and_then]; [|reflexivity].
  destruct (process_idle n bs vx bx by_ nrc_x mm2 2 t4 st H2) as (b2 & t2 & ->).
  destruct b2; cbn [and_then]; [|reflexivity].
  destruct (process_idle n bs vx bx by_ nrc_x mm1 1 t2 st H1) as (b1 & t1 & ->).
  reflexivity.
Qed.

Lemma select_kernels_idle typeA n nrc_x :
  supported_type env typeA -> Z.rem n QK_K = 0 -> nrc_x <= 0 ->
  exists mm1 mm2 mm4 mm8,
    select_kernels store_at hp env typeA = Some (mm1, mm2, mm4, mm8) /\
    idle mm1 n nrc_x /\ idle mm2 n nrc_x /\ idle mm4 n nrc_x /\ idle mm8 n nrc_x.
Proof.
  intros Hs Hn Hx. unfold select_kernels.
  destruct (Z.eqb_spec typeA (GGML_TYPE_Q2_K env));
    [eexists _, _, _, _; split; [reflexivity|]; auto using q2_K_idle|].
  destruct (Z.eqb_spec typeA (GGML_TYPE_Q3_K env));
    [eexists _, _, _, _; split; [reflexivity|]; auto using q3_K_idle|].
  destruct (Z.eqb_spec typeA (GGML_TYPE_Q4_K env));
    [eexists _, _, _, _; split; [reflexivity|]; auto using q4_K_idle|].
  destruct (Z.eqb_spec typeA (GGML_TYPE_Q5_K env));
    [eexists _, _, _, _; split; [reflexivity|]; auto using q5_K_idle|].
  destruct (Z.eqb_spec typeA (GGML_TYPE_Q6_K env));
    [eexists _, _, _, _; split; [reflexivity|]; auto using q6_K_idle|].
  destruct (Z.eqb_spec typeA (GGML_TYPE_IQ4_XS env));
    [eexists _, _, _, _; split; [reflexivity|]; auto using iq4_xs_idle|].
  exfalso. unfold supported_type in Hs. tauto.
Qed.

Lemma empty_slice Nx ith nth :
  0 <= Nx <= LONG_MAX -> 1 <= nth <= INT_MAX -> 0 <= ith < nth ->
  Nx <= ith * ((Nx + nth - 1) / nth) ->
  row_slice Nx ith nth = (ith * ((Nx + nth - 1) / nth), Nx - ith * ((Nx + nth - 1) / nth)) /\
  - nth < Nx - ith * ((Nx + nth - 1) / nth) <= 0.
Proof.
  unfold LONG_MAX, INT_MAX. intros HNx Hnth Hith Hempty.
  set (c := (Nx + nth - 1) / nth) in *.
  assert (Hc : nth * c <= Nx + nth - 1 < nth * c + nth).
  { unfold c. split.
    - apply Z.mul_div_le. lia.
    - pose proof (Z.mod_pos_bound (Nx + nth - 1) nth).
      pose proof (Z.div_mod (Nx + nth - 1) nth). lia. }
  assert (0 <= c) by (unfold c; apply Z.div_pos; lia).
  assert (ith * c <= (nth - 1) * c) by (apply Z.mul_le_mono_nonneg_r; lia).
  assert (c <= nth - 1) by nia.
  assert ((nth - 1) * c <= (nth - 1) * (nth - 1)) by (apply Z.mul_le_mono_nonneg_l; lia).
  assert ((nth - 1) * (nth - 1) <= 2147483646 * 2147483646)
    by (apply Z.mul_le_mono_nonneg; lia).
  unfold row_slice.
  rewrite (to_long_id (Nx + nth)) by (unfold LONG_MAX; lia).
  rewrite (to_long_id (Nx + nth - 1)) by (unfold LONG_MAX; lia).
  rewrite Z.quot_div_nonneg by lia. fold c.
  rewrite (to_long_id c) by (unfold LONG_MAX; lia).
  rewrite (to_long_id (ith * c)) by (unfold LONG_MAX; nia).
  rewrite (to_long_id (ith * c + c)) by (unfold LONG_MAX; nia).
  rewrite (to_long_id (Nx - ith * c)) by (unfold LONG_MAX; nia).
  destruct (Z.gtb_spec (ith * c + c) Nx).
  - split; [reflexivity|]. nia.
  - assert (c = 0) by nia. assert (Nx = 0) by nia. subst c.
    split; [f_equal; nia|nia].
Qed.

(** C6 (as amended).  When [typeA] is not one of the six supported tags, the
    entry point does no work and leaves the store of [C] as it is, whatever
    the other arguments; it returns false when [ne00] is a multiple of
    [QK_K], and otherwise its entry assertion fails. *)
Theorem iqk_mul_mat_unsupported (Nx Ny ne00 typeA A B C stride_C ith nth : Z) (st : St) :
  ~ supported_type env typeA ->
  iqk_mul_mat store_at hp env Nx Ny ne00 typeA A B C stride_C ith nth st =
    if Z.rem ne00 QK_K =? 0 then Some (false, st) else None.
Proof.
  intros Hn. unfold iqk_mul_mat.
  destruct (Z.rem ne00 QK_K =? 0); cbn [negb]; [|reflexivity].
  now rewrite select_kernels_unsupported.
Qed.

(** C10.  For a supported [typeA] and [ne00] a multiple of [QK_K], a worker
    [ith] of [nth] whose slice is empty, [ith * ceil(Nx / nth) >= Nx],
    computes a row count that is zero or negative (also after its
    conversion to [int]); the entry point then returns true with the store
    of [C] as it was, so no kernel row loop ran and nothing was written. *)
Theorem iqk_mul_mat_empty_slice (Nx Ny ne00 typeA A B C stride_C ith nth : Z) (st : St) :
  Z.rem ne00 QK_K = 0 -> supported_type env typeA ->
  0 <= Nx <= LONG_MAX -> 1 <= nth <= INT_MAX -> 0 <= ith < nth ->
  Nx <= ith * ((Nx + nth - 1) / nth) ->
  snd (row_slice Nx ith nth) <= 0 /\
  to_int (snd (row_slice Nx ith nth)) <= 0 /\
  iqk_mul_mat store_at hp env Nx Ny ne00 typeA A B C stride_C ith nth st = Some (true, st).
Proof.
  intros Hne Hs HNx Hnth Hith Hempty.
  destruct (empty_slice Nx ith nth HNx Hnth Hith Hempty) as [Hrs Hr].
  assert (Hti : to_int (Nx - ith * ((Nx + nth - 1) / nth))
                = Nx - ith * ((Nx + nth - 1) / nth))
    by (apply to_int_id; unfold INT_MAX in *; lia).
  rewrite Hrs. cbn [snd]. rewrite Hti.
  split; [lia|]. split; [lia|].
  unfold iqk_mul_mat. rewrite Hne. cbn [Z.eqb negb].
  destruct (select_kernels_idle typeA (to_int ne00)
              (Nx - ith * ((Nx + nth - 1) / nth)) Hs (rem_to_int _ Hne))
    as (mm1 & mm2 & mm4 & mm8 & -> & H1 & H2 & H4 & H8); [lia|].
  destruct (Z.eqb_spec nth 0); [lia|].
  rewrite Hrs, Hti.
  now rewrite mul_mat_NxM_idle.
Qed.

End EntryPoint.

(** ** C8: column peeling *)

Lemma zrange_0 : zrange 0 = [].
Proof. reflexivity. Qed.

Lemma zrange_nonpos n : n <= 0 -> zrange n = [].
Proof. intros. unfold zrange. replace (Z.to_nat n) with 0%nat by lia. reflexivity. Qed.

Lemma zrange_succ n : 0 <= n -> zrange (n + 1) = zrange n ++ [n].
Proof.
  intros Hn. unfold zrange.
  replace (Z.to_nat (n + 1)) with (Z.to_nat n + 1)%nat by lia.
  rewrite seq_app, map_app. cbn [seq map]. rewrite Nat.add_0_l, Z2Nat.id by lia.
  reflexivity.
Qed.

Lemma for_loop_trace M n s bs vx bx vy by_ nrc_x (q : Z) (log : list kcall) :
  for_loop q (fun iy ost =>
      match ost with
      | None => None
      | Some st => trace_kernel M n (s + M * iy * bs) bs vx bx (vy + M * iy * by_) by_ nrc_x st
      end) (Some log)
  = Some (log ++ map (fun k => mk_call M n s bs vx bx vy by_ nrc_x (M * k)) (zrange q)).
Proof.
  destruct (Z.le_gt_cases q 0) as [Hq|Hq].
  - rewrite for_loop_nonpos, zrange_nonpos by lia. now rewrite app_nil_r.
  - apply (for_loop_ind (fun k o =>
      o = Some (log ++ map (fun k => mk_call M n s bs vx bx vy by_ nrc_x (M * k)) (zrange k)))).
    + now rewrite zrange_0, app_nil_r.
    + intros k s' Hk ->. unfold trace_kernel.
      rewrite zrange_succ, map_app, app_assoc by lia. reflexivity.
    + lia.
Qed.

Lemma process_trace M n s bs vx bx vy by_ nrc_x c nrc (log : list kcall) :
  0 < M -> 0 <= nrc ->
  exists b t,
    process n bs vx bx by_ nrc_x (Some (trace_kernel M)) M
      {| t_s := s + c * bs; t_char_y := vy + c * by_; t_nrc_y := nrc |} log
    = Some (b, t, log ++ map (fun k => mk_call M n s bs vx bx vy by_ nrc_x (c + M * k))
                             (zrange (nrc / M))) /\
    t_nrc_y t = nrc mod M /\
    (b = false -> t_nrc_y t = 0) /\
    (b = true -> t_s t = s + (c + M * (nrc / M)) * bs /\
                 t_char_y t = vy + (c + M * (nrc / M)) * by_).
Proof.
  intros HM Hnrc. unfold process. cbn [t_nrc_y t_s t_char_y].
  destruct (Z.ltb_spec nrc M) as [Hlt|Hge].
  - eexists true, _. rewrite Z.div_small, zrange_0, app_nil_r by lia.
    split; [reflexivity|]. cbn [t_nrc_y t_s t_char_y].
    rewrite Z.mod_small by lia. repeat split; try congruence; f_equal; ring.
  - rewrite Z.quot_div_nonneg by lia.
    rewrite for_loop_trace.
    assert (E : map (fun k => mk_call M n (s + c * bs) bs vx bx (vy + c * by_) by_ nrc_x (M * k))
                  (zrange (nrc / M))
              = map (fun k => mk_call M n s bs vx bx vy by_ nrc_x (c + M * k))
                  (zrange (nrc / M))).
    { apply map_ext. intros k. unfold mk_call. f_equal; ring. }
    rewrite E.
    assert (Hmod : nrc - M * (nrc / M) = nrc mod M) by (rewrite Z.mod_eq by lia; ring).
    rewrite Hmod.
    destruct (Z.eqb_spec (nrc mod M) 0) as [E0|E0].
    + eexists false, _. split; [reflexivity|]. cbn [t_nrc_y]. rewrite E0.
      repeat split; congruence.
    + eexists true, _. split; [reflexivity|]. cbn [t_nrc_y t_s t_char_y].
      repeat split; try congruence; ring.
Qed.

Lemma and_then_trace M n s bs vx bx vy by_ nrc_x c b t (log : list kcall) :
  0 < M -> 0 <= t_nrc_y t ->
  (b = false -> t_nrc_y t = 0) ->
  (b = true -> t_s t = s + c * bs /\ t_char_y t = vy + c * by_) ->
  exists b' t',
    and_then (Some (b, t, log)) (process n bs vx bx by_ nrc_x (Some (trace_kernel M)) M)
    = Some (b', t', log ++ map (fun k => mk_call M n s bs vx bx vy by_ nrc_x (c + M * k))
                               (zrange (t_nrc_y t / M))) /\
    t_nrc_y t' = t_nrc_y t mod M /\
    (b' = false -> t_nrc_y t' = 0) /\
    (b' = true -> t_s t' = s + (c + M * (t_nrc_y t / M)) * bs /\
                  t_char_y t' = vy + (c + M * (t_nrc_y t / M)) * by_).
Proof.
  intros HM Hnrc Hf Ht. destruct b; cbn [and_then].
  - destruct t as [ts ty tn]. cbn [t_s t_char_y t_nrc_y] in *.
    destruct (Ht eq_refl) as [-> ->].
    now apply process_trace.
  - rewrite (Hf eq_refl). rewrite Z.div_0_l, Z.mod_0_l, zrange_0, app_nil_r by lia.
    exists false, t. repeat split; try congruence; auto.
Qed.

Lemma zrange_bit x : 0 <= x < 2 -> zrange x = if 1 <=? x then [0] else [].
Proof.
  intros Hx. assert (x = 0 \/ x = 1) as [-> | ->] by lia; reflexivity.
Qed.

Lemma mul_mat_NxM_trace (n s bs vx bx vy by_ nrc_x Ny : Z) (log : list kcall) :
  0 <= Ny ->
  mul_mat_NxM n s bs vx bx vy by_ nrc_x Ny
    (Some (trace_kernel 1)) (Some (trace_kernel 2))
    (Some (trace_kernel 4)) (Some (trace_kernel 8)) log
  = Some (log ++ map (fun p => mk_call (fst p) n s bs vx bx vy by_ nrc_x (snd p)) (peel Ny)).
Proof.
  intros HNy. unfold mul_mat_NxM. cbv zeta.
  replace s with (s + 0 * bs) at 1 by ring.
  replace vy with (vy + 0 * by_) at 1 by ring.
  destruct (process_trace 8 n s bs vx bx vy by_ nrc_x 0 Ny log ltac:(lia) HNy)
    as (b8 & t8 & -> & N8 & F8 & T8).
  assert (R8 : 0 <= Ny mod 8 < 8) by (apply Z.mod_pos_bound; lia).
  destruct (and_then_trace 4 n s bs vx bx vy by_ nrc_x (0 + 8 * (Ny / 8)) b8 t8
              (log ++ map (fun k => mk_call 8 n s bs vx bx vy by_ nrc_x (0 + 8 * k))
                          (zrange (Ny / 8)))
              ltac:(lia) ltac:(lia) F8 T8) as (b4 & t4 & -> & N4 & F4 & T4).
  assert (R4 : 0 <= t_nrc_y t8 mod 4 < 4) by (apply Z.mod_pos_bound; lia).
  match goal with |- context [and_then (Some (_, _, ?l)) _] =>
    destruct (and_then_trace 2 n s bs vx bx vy by_ nrc_x
                (0 + 8 * (Ny / 8) + 4 * (t_nrc_y t8 / 4)) b4 t4 l
                ltac:(lia) ltac:(lia) F4 T4) as (b2 & t2 & -> & N2 & F2 & T2)
  end.
  assert (R2 : 0 <= t_nrc_y t4 mod 2 < 2) by (apply Z.mod_pos_bound; lia).
  match goal with |- context [and_then (Some (_, _, ?l)) _] =>
    destruct (and_then_trace 1 n s bs vx bx vy by_ nrc_x
                (0 + 8 * (Ny / 8) + 4 * (t_nrc_y t8 / 4) + 2 * (t_nrc_y t4 / 2)) b2 t2 l
                ltac:(lia) ltac:(lia) F2 T2) as (b1 & t1 & -> & N1 & F1 & T1)
  end.
  f_equal. rewrite <- !app_assoc. f_equal.
  unfold peel. rewrite !map_app, map_map. cbn [fst snd].
  rewrite N2, N4, N8.
  rewrite (zrange_bit (Ny mod 8 / 4)) by (Z.div_mod_to_equations; lia).
  rewrite (zrange_bit ((Ny mod 8) mod 4 / 2)) by (Z.div_mod_to_equations; lia).
  rewrite (zrange_bit (((Ny mod 8) mod 4) mod 2 / 1)) by (Z.div_mod_to_equations; lia).
  repeat apply (f_equal2 (@app kcall)).
  - apply map_ext. intros k. unfold mk_call. f_equal; ring.
  - destruct (Z.leb_spec 1 (Ny mod 8 / 4)); destruct (Z.leb_spec 4 (Ny mod 8));
      try (exfalso; Z.div_mod_to_equations; lia); [|reflexivity].
    cbn [map fst snd].
    assert (0 + 8 * (Ny / 8) + 4 * 0 = 8 * (Ny / 8)) as -> by lia.
    reflexivity.
  - destruct (Z.leb_spec 1 ((Ny mod 8) mod 4 / 2)); destruct (Z.leb_spec 2 (Ny mod 4));
      try (exfalso; Z.div_mod_to_equations; lia); [|reflexivity].
    cbn [map fst snd].
    assert (0 + 8 * (Ny / 8) + 4 * (Ny mod 8 / 4) + 2 * 0 = 4 * (Ny / 4)) as ->
      by (Z.div_mod_to_equations; lia).
    reflexivity.
  - destruct (Z.leb_spec 1 (((Ny mod 8) mod 4) mod 2 / 1)); destruct (Z.leb_spec 1 (Ny mod 2));
      try (exfalso; Z.div_mod_to_equations; lia); [|reflexivity].
    cbn [map fst snd].
    assert (0 + 8 * (Ny / 8) + 4 * (Ny mod 8 / 4) + 2 * ((Ny mod 8) mod 4 / 2) + 1 * 0
            = 2 * (Ny / 2)) as -> by (Z.div_mod_to_equations; lia).
    reflexivity.
Qed.

Lemma zrange_add a b :
  0 <= a -> 0 <= b -> zrange (a + b) = zrange a ++ map (fun k => a + k) (zrange b).
Proof.
  intros Ha Hb. rewrite <- (Z2Nat.id b Hb). generalize (Z.to_nat b) as m.
  induction m as [|m IH].
  - cbn [Z.of_nat]. rewrite Z.add_0_r, zrange_0. cbn [map]. now rewrite app_nil_r.
  - rewrite Nat2Z.inj_succ, <- Z.add_1_r, Z.add_assoc, !zrange_succ, IH, map_app by lia.
    now rewrite <- app_assoc.
Qed.

Lemma length_zrange n : length (zrange n) = Z.to_nat n.
Proof. unfold zrange. now rewrite length_map, length_seq. Qed.

Lemma columns_of_eights q :
  0 <= q -> flat_map columns_of (map (fun k => (8, 8 * k)) (zrange q)) = zrange (8 * q).
Proof.
  intros Hq. rewrite <- (Z2Nat.id q Hq). generalize (Z.to_nat q) as m.
  induction m as [|m IH]; [reflexivity|].
  rewrite Nat2Z.inj_succ, <- Z.add_1_r, zrange_succ, map_app, flat_map_app, IH by lia.
  replace (8 * (Z.of_nat m + 1)) with (8 * Z.of_nat m + 8) by ring.
  rewrite (zrange_add (8 * Z.of_nat m) 8) by lia.
  cbn [map flat_map columns_of fst snd]. now rewrite app_nil_r.
Qed.

Lemma calls_of_eights M q :
  calls_of M (map (fun k => (8, 8 * k)) (zrange q)) = if 8 =? M then Z.to_nat q else 0%nat.
Proof.
  unfold calls_of. rewrite <- (length_zrange q).
  induction (zrange q) as [|k l IH]; cbn [map filter fst length].
  - now destruct (8 =? M).
  - destruct (8 =? M); cbn [length]; now rewrite IH.
Qed.

Lemma peel_columns Ny : 0 <= Ny -> flat_map columns_of (peel Ny) = zrange Ny.
Proof.
  intros HNy. unfold peel. rewrite !flat_map_app, columns_of_eights by (apply Z.div_pos; lia).
  assert (R : 0 <= Ny mod 8 < 8) by (apply Z.mod_pos_bound; lia).
  replace (zrange Ny) with (zrange (8 * (Ny / 8) + Ny mod 8))
    by (rewrite <- Z.div_mod by lia; reflexivity).
  rewrite zrange_add by (try apply Z.mul_nonneg_nonneg; try apply Z.div_pos; lia).
  f_equal.
  assert (Ny mod 8 = 0 \/ Ny mod 8 = 1 \/ Ny mod 8 = 2 \/ Ny mod 8 = 3 \/
          Ny mod 8 = 4 \/ Ny mod 8 = 5 \/ Ny mod 8 = 6 \/ Ny mod 8 = 7) as Hc by lia.
  assert (E4 : Ny mod 4 = (Ny mod 8) mod 4) by (Z.div_mod_to_equations; lia).
  assert (D4 : 4 * (Ny / 4) = 8 * (Ny / 8) + 4 * (Ny mod 8 / 4))
    by (Z.div_mod_to_equations; lia).
  assert (E2 : Ny mod 2 = (Ny mod 8) mod 2) by (Z.div_mod_to_equations; lia).
  assert (D2 : 2 * (Ny / 2) = 8 * (Ny / 8) + 2 * (Ny mod 8 / 2))
    by (Z.div_mod_to_equations; lia).
  rewrite E4, D4, E2, D2.
  set (base := 8 * (Ny / 8)). clearbody base.
  repeat destruct Hc as [Hc|Hc]; rewrite Hc; cbn;
    repeat (apply (f_equal2 (@cons Z)); [lia|]); reflexivity.
Qed.

Lemma calls_of_app M a b : calls_of M (a ++ b) = (calls_of M a + calls_of M b)%nat.
Proof. unfold calls_of. now rewrite filter_app, length_app. Qed.

Lemma peel_calls Ny :
  calls_of 8 (peel Ny) = Z.to_nat (Ny / 8) /\
  (calls_of 4 (peel Ny) <= 1)%nat /\
  (calls_of 2 (peel Ny) <= 1)%nat /\
  (calls_of 1 (peel Ny) <= 1)%nat.
Proof.
  unfold peel. rewrite !calls_of_app, !calls_of_eights.
  destruct (4 <=? Ny mod 8); destruct (2 <=? Ny mod 4); destruct (1 <=? Ny mod 2);
    cbn; lia.
Qed.

(** C8.  For every [Ny >= 0] the tiling shim calls the [M = 8] kernel
    [floor(Ny / 8)] times and then the [M = 4], [M = 2] and [M = 1] kernels
    at most once each on the successive remainders; the call that starts at
    column [c] gets [C] advanced by [c * bs] and [B] by [c * by] (so each
    call advances both by its own width), and the calls, in the order made,
    handle the columns [0, 1, ..., Ny - 1] once each in increasing order. *)
Theorem mul_mat_NxM_peels (n s bs vx bx vy by_ nrc_x Ny : Z) (log : list kcall) :
  0 <= Ny ->
  mul_mat_NxM n s bs vx bx vy by_ nrc_x Ny
    (Some (trace_kernel 1)) (Some (trace_kernel 2))
    (Some (trace_kernel 4)) (Some (trace_kernel 8)) log
  = Some (log ++ map (fun p => mk_call (fst p) n s bs vx bx vy by_ nrc_x (snd p)) (peel Ny)) /\
  calls_of 8 (peel Ny) = Z.to_nat (Ny / 8) /\
  (calls_of 4 (peel Ny) <= 1)%nat /\
  (calls_of 2 (peel Ny) <= 1)%nat /\
  (calls_of 1 (peel Ny) <= 1)%nat /\
  flat_map columns_of (peel Ny) = zrange Ny.
Proof.
  intros HNy. split; [now apply mul_mat_NxM_trace|].
  destruct (peel_calls Ny) as (H8 & H4 & H2 & H1).
  repeat split; auto. now apply peel_columns.
Qed.

(** Fifteen columns: one call of each width, at columns 0, 8, 12 and 14. *)
Lemma mul_mat_NxM_peels_witness :
  0 <= 15 /\
  mul_mat_NxM 256 100 7 0 84 1000 292 3 15
    (Some (trace_kernel 1)) (Some (trace_kernel 2))
    (Some (trace_kernel 4)) (Some (trace_kernel 8)) []
  = Some (map (fun p => mk_call (fst p) 256 100 7 0 84 1000 292 3 (snd p))
              [(8, 0); (4, 8); (2, 12); (1, 14)]) /\
  flat_map columns_of (peel 15) = zrange 15.
Proof.
  assert (H : 0 <= 15) by lia.
  split; [exact H|].
  destruct (mul_mat_NxM_peels 256 100 7 0 84 1000 292 3 15 [] H) as (E & _ & _ & _ & _ & Hc).
  split; [exact E | exact Hc].
Defined.

(** ** C6 and C10 on concrete calls *)

(** Tag 0 is not supported; with [ne00 = 256] the call returns false and the
    write log stays empty. *)
Lemma iqk_mul_mat_unsupported_witness :
  ~ supported_type ggml_h 0 /\
  iqk_mul_mat log_store zero_heaps ggml_h 4 4 256 0 0 0 0 4 0 1 [] = Some (false, []).
Proof.
  assert (Hn : ~ supported_type ggml_h 0) by (unfold supported_type; cbn; lia).
  split; [exact Hn|].
  exact (iqk_mul_mat_unsupported log_store zero_heaps ggml_h 4 4 256 0 0 0 0 4 0 1 [] Hn).
Defined.

(** C6 (as stated) fails: with the unsupported tag 0 and [ne00 = 1] the
    entry assertion [ne00 % QK_K == 0] fails before the [switch] is
    reached, so the call does not return false. *)
Lemma iqk_mul_mat_unsupported_counterexample :
  ~ supported_type ggml_h 0 /\
  iqk_mul_mat log_store zero_heaps ggml_h 1 1 1 0 0 0 0 1 0 1 [] = None /\
  iqk_mul_mat log_store zero_heaps ggml_h 1 1 1 0 0 0 0 1 0 1 [] <> Some (false, []).
Proof.
  split; [unfold supported_type; cbn; lia|].
  split; [reflexivity|discriminate].
Qed.

(** Five rows over four workers: [ceil(5 / 4) = 2], so worker 3 starts at
    row 6 and has nothing to do. *)
Lemma iqk_mul_mat_empty_slice_witness :
  Z.rem 256 QK_K = 0 /\ supported_type ggml_h 12 /\
  0 <= 5 <= LONG_MAX /\ 1 <= 4 <= INT_MAX /\ 0 <= 3 < 4 /\
  5 <= 3 * ((5 + 4 - 1) / 4) /\
  snd (row_slice 5 3 4) <= 0 /\
  to_int (snd (row_slice 5 3 4)) <= 0 /\
  iqk_mul_mat log_store zero_heaps ggml_h 5 3 256 12 0 0 0 5 3 4 [] = Some (true, []).
Proof.
  assert (H1 : Z.rem 256 QK_K = 0) by reflexivity.
  assert (H2 : supported_type ggml_h 12) by (unfold supported_type; cbn; lia).
  assert (H3 : 0 <= 5 <= LONG_MAX) by (unfold LONG_MAX; lia).
  assert (H4 : 1 <= 4 <= INT_MAX) by (unfold INT_MAX; lia).
  assert (H5 : 0 <= 3 < 4) by lia.
  assert (H6 : 5 <= 3 * ((5 + 4 - 1) / 4)) by (vm_compute; discriminate).
  do 6 (split; [assumption|]).
  exact (iqk_mul_mat_empty_slice log_store zero_heaps ggml_h 5 3 256 12 0 0 0 5 3 4 []
           H1 H2 H3 H4 H5 H6).
Defined.

(** ** C9: the IQ4_XS kernel does not read [bsums] *)

Section IQ4_XS_bsums.
Context {F : Type} `{FloatOps F} {St : Type} (store_at : Z -> F -> St -> St).
Context (hp hp' : Heaps F).
Hypothesis same_A : forall a i, h_iq4 hp a i = h_iq4 hp' a i.
Hypothesis same_d : forall a i, q8_d (h_q8 hp a i) = q8_d (h_q8 hp' a i).
Hypothesis same_qs : forall a i, q8_qs (h_q8 hp a i) = q8_qs (h_q8 hp' a i).

Lemma load_quants_same q8 iy i j : load_quants hp q8 iy i j = load_quants hp' q8 iy i j.
Proof. unfold load_quants, q8_block. now rewrite same_qs. Qed.

Lemma scale_same q8 iy i : scale hp q8 iy i = scale hp' q8 iy i.
Proof. unfold scale, q8_block. apply same_d. Qed.

Lemma iq4_xs_sumi_same nrc_y q8 x ibl :
  iq4_xs_sumi hp nrc_y q8 x ibl = iq4_xs_sumi hp' nrc_y q8 x ibl.
Proof.
  unfold iq4_xs_sumi. cbv zeta. f_equal.
  apply for_loop_ext. intros j [qs sumi] _. f_equal.
  apply for_loop_ext. intros iy sumi' _.
  now rewrite !load_quants_same.
Qed.

Lemma iq4_xs_block_same nrc_y q8 x ibl accum :
  iq4_xs_block hp nrc_y q8 x ibl accum = iq4_xs_block hp' nrc_y q8 x ibl accum.
Proof.
  unfold iq4_xs_block. cbv zeta. rewrite iq4_xs_sumi_same.
  apply for_loop_ext. intros iy acc _. now rewrite scale_same.
Qed.

Lemma iq4_xs_row_same nrc_y nb q8 vx bx ix :
  iq4_xs_row hp nrc_y nb q8 vx bx ix = iq4_xs_row hp' nrc_y nb q8 vx bx ix.
Proof.
  unfold iq4_xs_row. cbv zeta.
  apply for_loop_ext. intros ibl acc _. now rewrite same_A, iq4_xs_block_same.
Qed.

(** C9.  If two memories hold the same IQ4_XS rows and Q8_K super-blocks
    that agree on [d] and [qs], whatever their [bsums], then the IQ4_XS
    micro-kernel of every width makes the same writes to [C] in both: its
    output does not depend on [bsums]. *)
Theorem iq4_xs_ignores_bsums (nrc_y n s bs vx bx vy by_ nrc_x : Z) (st : St) :
  mul_mat_iq4_xs_q8_K_T store_at hp nrc_y n s bs vx bx vy by_ nrc_x st =
  mul_mat_iq4_xs_q8_K_T store_at hp' nrc_y n s bs vx bx vy by_ nrc_x st.
Proof.
  unfold mul_mat_iq4_xs_q8_K_T.
  destruct (negb (Z.rem n QK_K =? 0)); [reflexivity|].
  cbv zeta. f_equal.
  apply for_loop_ext. intros ix st' _. now rewrite iq4_xs_row_same.
Qed.

End IQ4_XS_bsums.

(** Two memories that differ only in [bsums]; the four-column kernel writes
    the same two rows of four floats. *)
Lemma iq4_xs_ignores_bsums_witness :
  (forall a i, h_iq4 iq4_demo a i = h_iq4 (with_bsums (repeat (-5) 16) iq4_demo) a i) /\
  (forall a i, q8_d (h_q8 iq4_demo a i)
               = q8_d (h_q8 (with_bsums (repeat (-5) 16) iq4_demo) a i)) /\
  (forall a i, q8_qs (h_q8 iq4_demo a i)
               = q8_qs (h_q8 (with_bsums (repeat (-5) 16) iq4_demo) a i)) /\
  q8_bsums (h_q8 iq4_demo 0 0) <> q8_bsums (h_q8 (with_bsums (repeat (-5) 16) iq4_demo) 0 0) /\
  mul_mat_iq4_xs_q8_K_T log_store iq4_demo 4 256 0 2 0 136 0 292 2 [] =
  mul_mat_iq4_xs_q8_K_T log_store (with_bsums (repeat (-5) 16) iq4_demo) 4 256 0 2 0 136 0 292 2 [].
Proof.
  assert (HA : forall a i, h_iq4 iq4_demo a i
                           = h_iq4 (with_bsums (repeat (-5) 16) iq4_demo) a i)
    by (intros; reflexivity).
  assert (Hd : forall a i, q8_d (h_q8 iq4_demo a i)
                           = q8_d (h_q8 (with_bsums (repeat (-5) 16) iq4_demo) a i))
    by (intros; reflexivity).
  assert (Hq : forall a i, q8_qs (h_q8 iq4_demo a i)
                           = q8_qs (h_q8 (with_bsums (repeat (-5) 16) iq4_demo) a i))
    by (intros; reflexivity).
  split; [exact HA|]. split; [exact Hd|]. split; [exact Hq|].
  split; [vm_compute; discriminate|].
  exact (iq4_xs_ignores_bsums log_store iq4_demo (with_bsums (repeat (-5) 16) iq4_demo)
           HA Hd Hq 4 256 0 2 0 136 0 292 2 []).
Defined.

(** ** The row slices of the workers *)

Lemma in_zrange k n : In k (zrange n) <-> 0 <= k < n.
Proof.
  unfold zrange. rewrite in_map_iff. split.
  - intros (m & <- & Hm). apply in_seq in Hm. lia.
  - intros Hk. exists (Z.to_nat k). split; [lia|]. apply in_seq. lia.
Qed.

Lemma in_shifted_zrange a n r : In r (map (fun k => a + k) (zrange n)) <-> a <= r < a + n.
Proof.
  rewrite in_map_iff. split.
  - intros (k & <- & Hk). apply in_zrange in Hk. lia.
  - intros Hr. exists (r - a). split; [lia|]. apply in_zrange. lia.
Qed.

Lemma ceil_div_bounds Nx nth :
  1 <= Nx -> 1 <= nth ->
  1 <= (Nx + nth - 1) / nth /\
  nth * ((Nx + nth - 1) / nth) <= Nx + nth - 1 /\
  Nx <= nth * ((Nx + nth - 1) / nth).
Proof.
  intros HNx Hnth.
  pose proof (Z.div_mod (Nx + nth - 1) nth ltac:(lia)).
  pose proof (Z.mod_pos_bound (Nx + nth - 1) nth ltac:(lia)).
  assert (0 < (Nx + nth - 1) / nth) by (apply Z.div_str_pos; lia).
  lia.
Qed.

Lemma row_slice_in_range Nx ith nth :
  1 <= Nx <= LONG_MAX -> 1 <= nth <= INT_MAX ->
  (Nx + nth - 1) / nth <= INT_MAX -> 0 <= ith < nth ->
  let c := (Nx + nth - 1) / nth in
  row_slice Nx ith nth = (ith * c, Z.min Nx ((ith + 1) * c) - ith * c) /\
  - INT_MAX <= Z.min Nx ((ith + 1) * c) - ith * c <= INT_MAX.
Proof.
  intros HNx Hnth Hc Hith c. fold c in Hc. unfold LONG_MAX, INT_MAX in *.
  destruct (ceil_div_bounds Nx nth ltac:(lia) ltac:(lia)) as (Hc1 & Hlo & Hhi).
  fold c in Hc1, Hlo, Hhi.
  assert (nth * c <= 2147483647 * 2147483647) by (apply Z.mul_le_mono_nonneg; lia).
  assert (0 <= ith * c) by (apply Z.mul_nonneg_nonneg; lia).
  assert (ith * c <= (nth - 1) * c) by (apply Z.mul_le_mono_nonneg_r; lia).
  assert ((nth - 1) * c = nth * c - c) by ring.
  assert ((ith + 1) * c = ith * c + c) by ring.
  unfold row_slice.
  rewrite (to_long_id (Nx + nth)) by (unfold LONG_MAX; lia).
  rewrite (to_long_id (Nx + nth - 1)) by (unfold LONG_MAX; lia).
  rewrite Z.quot_div_nonneg by lia. fold c.
  rewrite (to_long_id c) by (unfold LONG_MAX; lia).
  rewrite (to_long_id (ith * c)) by (unfold LONG_MAX; lia).
  rewrite (to_long_id (ith * c + c)) by (unfold LONG_MAX; lia).
  rewrite (to_long_id (Nx - ith * c)) by (unfold LONG_MAX; lia).
  destruct (Z.gtb_spec (ith * c + c) Nx).
  - rewrite Z.min_l by lia. split; [reflexivity|lia].
  - rewrite Z.min_r by lia. split; [f_equal; lia|lia].
Qed.

Lemma worker_rows_interval Nx ith nth :
  1 <= Nx <= LONG_MAX -> 1 <= nth <= INT_MAX ->
  (Nx + nth - 1) / nth <= INT_MAX -> 0 <= ith < nth ->
  let c := (Nx + nth - 1) / nth in
  worker_rows Nx ith nth =
    map (fun k => ith * c + k) (zrange (Z.min Nx ((ith + 1) * c) - ith * c)).
Proof.
  intros HNx Hnth Hc Hith c.
  destruct (row_slice_in_range Nx ith nth HNx Hnth Hc Hith) as [E B].
  unfold worker_rows. rewrite E. fold c in B |- *.
  rewrite to_int_id by (unfold INT_MAX in *; lia). reflexivity.
Qed.

(** The rows [row_slice] gives the workers, when the slice length fits an
    [int]: worker [ith] gets [ith * c, ..., min(Nx, (ith + 1) * c) - 1] with
    [c = ceil(Nx / nth)]; the slices stay inside [0, Nx), and every row of
    [0, Nx) is in the slice of exactly one worker. *)
Lemma worker_rows_partition (Nx nth : Z) :
  1 <= Nx <= LONG_MAX -> 1 <= nth <= INT_MAX ->
  (Nx + nth - 1) / nth <= INT_MAX ->
  let c := (Nx + nth - 1) / nth in
  (forall ith, 0 <= ith < nth ->
     worker_rows Nx ith nth =
       map (fun k => ith * c + k) (zrange (Z.min Nx ((ith + 1) * c) - ith * c))) /\
  (forall ith r, 0 <= ith < nth -> In r (worker_rows Nx ith nth) -> 0 <= r < Nx) /\
  (forall r, 0 <= r < Nx ->
     exists ith, 0 <= ith < nth /\ In r (worker_rows Nx ith nth) /\
       forall ith', 0 <= ith' < nth -> In r (worker_rows Nx ith' nth) -> ith' = ith).
Proof.
  intros HNx Hnth Hc c.
  destruct (ceil_div_bounds Nx nth ltac:(lia) ltac:(lia)) as (Hc1 & Hlo & Hhi).
  fold c in Hc1, Hlo, Hhi.
  assert (I : forall ith r, 0 <= ith < nth ->
            (In r (worker_rows Nx ith nth) <-> ith * c <= r < Z.min Nx ((ith + 1) * c))).
  { intros ith r Hith. rewrite (worker_rows_interval Nx ith nth HNx Hnth Hc Hith).
    fold c. rewrite in_shifted_zrange. lia. }
  split; [intros ith Hith; now apply worker_rows_interval|].
  split.
  - intros ith r Hith Hin. apply I in Hin; [|assumption].
    assert (0 <= ith * c) by (apply Z.mul_nonneg_nonneg; lia). lia.
  - intros r Hr.
    pose proof (Z.div_mod r c ltac:(lia)) as Hdm.
    pose proof (Z.mod_pos_bound r c ltac:(lia)) as Hm.
    assert (Hq0 : 0 <= r / c) by (apply Z.div_pos; lia).
    assert (Hq : r / c < nth).
    { apply Z.div_lt_upper_bound; [lia|]. lia. }
    exists (r / c). split; [lia|]. split.
    + apply I; [lia|]. nia.
    + intros ith' Hith' Hin. apply I in Hin; [|assumption].
      assert ((ith' + 1) * c = ith' * c + c) by ring.
      apply (Z.div_unique r c ith' (r - ith' * c)); lia.
Qed.

(** ** C1: saturation in the Q4_K kernels of width 1 and 2 *)

(** C1 (the code departs from it).  On the one-super-block input
    [q4_sat_demo] the exact integer dot product is
    [1 * (15 * 127 + 15 * 127) = 3810], and with [d_A = d_B = 1] and
    [dmin = 0] the claimed value of [C[0]] is 3810.  The width-4 kernel
    writes 3810.  The width-1 kernel multiplies the unshifted high nibbles
    [0xF0 = 240]: the 16-bit sum [240 * 127 + 240 * 127 = 60960] of
    [vpmaddubsw] saturates to 32767, its second integer accumulator holds
    32767 instead of [16 * 3810], and it writes
    [32767 / 16 = 2047.9375]. *)
Theorem q4_K_split_saturates :
  let x := h_q4 q4_sat_demo 0 0 in
  let y := h_q8 q4_sat_demo 0 0 in
  q4_K_intdot x (q8_qs y) = 3810 /\
  map (fun v => map s32 (lanes32 v)) (q4_K_sumi q4_sat_demo 4 (Q8 4 0 292) x 0)
    = repeat (3810 :: repeat 0 7) 4 /\
  map (fun v => map s32 (lanes32 v)) (q4_K_sumi q4_sat_demo 1 (Q8 1 0 292) x 0)
    = [repeat 0 8; 32767 :: repeat 0 7] /\
  mul_mat_q4_K_q8_K_T log_store q4_sat_demo 4 256 0 1 0 144 0 292 1 []
    = Some [(0, B32.of_Z 3810); (1, B32.of_Z 3810); (2, B32.of_Z 3810); (3, B32.of_Z 3810)] /\
  mul_mat_q4_K_q8_K_T log_store q4_sat_demo 1 256 0 1 0 144 0 292 1 []
    = Some [(0, B32.dyadic 32767 (-4))] /\
  mul_mat_q4_K_q8_K_T log_store q4_sat_demo 2 256 0 1 0 144 0 292 1 []
    = Some [(0, B32.dyadic 32767 (-4)); (1, B32.dyadic 32767 (-4))] /\
  B32.dyadic 32767 (-4) <> B32.of_Z 3810.
Proof. vm_compute. repeat split; congruence. Qed.

(** ** C5: the two accumulator layouts of Q2_K and Q4_K *)

(** C5 (as stated) fails: on the one-super-block Q2_K input
    [q2_round_demo] the integer sums are 3 for the low plane and 7 for the
    high plane and the block scale is [1 + 2^-23].  The width-1 kernel
    rounds [3 * d] and [28 * d] separately and writes
    [10485762 * 2^-20]; the width-4 kernel rounds [10 * d] once and writes
    [10485761 * 2^-20], for the same row and column. *)
Lemma q2_K_variants_counterexample :
  mul_mat_q2_K_q8_K_T log_store q2_round_demo 1 256 0 1 0 84 0 292 1 []
    = Some [(0, S754_finite false 10485762 (-20))] /\
  mul_mat_q2_K_q8_K_T log_store q2_round_demo 4 256 0 1 0 84 0 292 1 []
    = Some [(0, S754_finite false 10485761 (-20)); (1, S754_finite false 10485761 (-20));
            (2, S754_finite false 10485761 (-20)); (3, S754_finite false 10485761 (-20))] /\
  S754_finite false 10485762 (-20) <> S754_finite false 10485761 (-20).
Proof. vm_compute. repeat split; congruence. Qed.

(** ** Lanes of the integer intrinsics *)

Lemma lanes32_bytes32 l : lanes32 (bytes32 l) = map u32 l.
Proof.
  induction l as [|x l IH]; [reflexivity|].
  cbn [bytes32 flat_map app lanes32 map]. fold (bytes32 l). rewrite IH. f_equal.
  unfold u32. Z.div_mod_to_equations. lia.
Qed.

Lemma s16_range v : -32768 <= s16 v <= 32767.
Proof.
  unfold s16. pose proof (Z.mod_pos_bound v 65536 ltac:(lia)).
  destruct (Z.ltb_spec (v mod 65536) 32768); lia.
Qed.

Lemma s8_range v : -128 <= s8 v <= 127.
Proof.
  unfold s8. pose proof (Z.mod_pos_bound v 256 ltac:(lia)).
  destruct (Z.ltb_spec (v mod 256) 128); lia.
Qed.

Lemma s32_u32 v : s32 (u32 v) = s32 v.
Proof. unfold s32, u32. now rewrite Z.mod_mod by lia. Qed.

Lemma s16_u16' v : s16 (u16 v) = s16 v.
Proof. unfold s16, u16. now rewrite Z.mod_mod by lia. Qed.

Lemma s8_u8' v : s8 (u8 v) = s8 v.
Proof. unfold s8, u8. now rewrite Z.mod_mod by lia. Qed.

Lemma s32_id v : -2147483648 <= v <= 2147483647 -> s32 v = v.
Proof. intros. now apply to_int_id. Qed.

Lemma list_pair_ind {A : Type} (P : list A -> Prop) :
  P [] -> (forall a, P [a]) -> (forall a b l, P l -> P (a :: b :: l)) -> forall l, P l.
Proof.
  intros H0 H1 H2 l.
  assert (P l /\ forall a, P (a :: l)) as [Hl _]; [|exact Hl].
  induction l as [|x l [IH1 IH2]]; split; auto.
Qed.

Lemma madd_lanes_pair_dot a b : madd_lanes a b = pair_dot (map s16 a) (map s16 b).
Proof.
  revert b. induction a as [| a0 | a0 a1 a IH] using list_pair_ind; intros b.
  - reflexivity.
  - reflexivity.
  - destruct b as [|b0 [|b1 b]]; try reflexivity.
    cbn [madd_lanes map pair_dot]. f_equal. apply IH.
Qed.

Lemma i32s_madd a b :
  i32s (vmadd_epi16 a b) = map s32 (pair_dot (i16s a) (i16s b)).
Proof.
  unfold i32s, vmadd_epi16, i16s.
  rewrite lanes32_bytes32, madd_lanes_pair_dot, !map_map.
  apply map_ext. intros v. now rewrite !s32_u32.
Qed.

Lemma i16s_bytes16 l : i16s (bytes16 l) = map s16 l.
Proof.
  unfold i16s. rewrite lanes16_bytes16, (map_map u16 s16).
  apply map_ext. intros; apply s16_u16'.
Qed.

Lemma i16s_cvtepi8 v : i16s (_mm256_cvtepi8_epi16 v) = map s8 v.
Proof.
  unfold _mm256_cvtepi8_epi16. rewrite i16s_bytes16, map_map.
  apply map_ext. intros x. rewrite s16_u16'.
  pose proof (s8_range x). unfold s16.
  destruct (Z.ltb_spec (s8 x mod 65536) 32768); Z.div_mod_to_equations; lia.
Qed.

Lemma i16s_loadu_epi16 arr :
  i16s (_mm256_loadu_epi16 arr) = map (fun k => s16 (nth k arr 0)) (seq 0 16).
Proof.
  unfold _mm256_loadu_epi16. rewrite i16s_bytes16, map_map.
  apply map_ext. intros; apply s16_u16'.
Qed.

Lemma map_s8_load_bytes arr off len :
  map s8 (load_bytes arr off len) = map (fun k => s8 (nth (Z.to_nat off + k) arr 0)) (seq 0 len).
Proof.
  unfold load_bytes. rewrite map_map. apply map_ext. intros; apply s8_u8'.
Qed.

Lemma pair_dot_16 (f g : nat -> Z) :
  pair_dot (map f (seq 0 16)) (map g (seq 0 16)) = corr_lanes f g.
Proof. reflexivity. Qed.

Lemma zsum_corr_lanes (f g : nat -> Z) :
  zsum (corr_lanes f g) = zsum (map (fun j => f j * g j) (seq 0 16)).
Proof. unfold corr_lanes. cbn [seq map zsum fold_right Nat.mul Nat.add]. lia. Qed.

(** ** Arrays updated one entry per iteration *)

Lemma length_upd {A : Type} k (v : A) l : length (upd k v l) = length l.
Proof.
  revert k; induction l as [|h t IH]; intros [|k]; cbn [upd length]; auto.
Qed.

Lemma nth_upd {A : Type} (d : A) k j v l :
  nth j (upd k v l) d = if (j =? k)%nat && (k <? length l)%nat then v else nth j l d.
Proof.
  revert k j; induction l as [|h t IH]; intros k j.
  - cbn [upd length]. destruct k; rewrite andb_false_r; reflexivity.
  - destruct k as [|k], j as [|j]; cbn [upd nth length]; try reflexivity.
    rewrite IH. reflexivity.
Qed.

(** A loop that rewrites entry [iy] of an array from its old value, for
    [iy = 0, ..., n - 1]: entry by entry, the result applies [g]. *)
Lemma for_loop_aset {A : Type} (d : A) (g : Z -> A -> A) (l : list A) (n : Z) :
  0 <= n <= Z.of_nat (length l) ->
  let r := for_loop n (fun iy acc => aset acc iy (g iy (aget d acc iy))) l in
  length r = length l /\
  forall j, 0 <= j -> aget d r j = if j <? n then g j (aget d l j) else aget d l j.
Proof.
  intros Hn r. subst r.
  apply (for_loop_ind (fun k acc =>
    length acc = length l /\
    forall j, 0 <= j -> aget d acc j = if j <? k then g j (aget d l j) else aget d l j)).
  - split; [reflexivity|]. intros j Hj. destruct (Z.ltb_spec j 0); [lia|reflexivity].
  - intros k acc Hk [Hlen Hacc]. unfold aset. split; [now rewrite length_upd|].
    intros j Hj. unfold aget at 1. rewrite nth_upd, Hlen.
    destruct (Nat.eqb_spec (Z.to_nat j) (Z.to_nat k)) as [E|E].
    + assert (j = k) by lia. subst j.
      destruct (Nat.ltb_spec (Z.to_nat k) (length l)); [|lia]. cbn [andb].
      destruct (Z.ltb_spec k (k + 1)); [|lia].
      rewrite Hacc by lia. destruct (Z.ltb_spec k k); [lia|reflexivity].
    + cbn [andb]. fold (aget d acc j). rewrite Hacc by lia.
      destruct (Z.ltb_spec j k), (Z.ltb_spec j (k + 1)); try lia; reflexivity.
  - lia.
Qed.

Lemma aget_repeat {A : Type} (d v : A) n j : 0 <= j < Z.of_nat n -> aget d (repeat v n) j = v.
Proof.
  intros Hj. unfold aget. apply nth_repeat_lt. lia.
Qed.

(** ** Bits of little-endian words *)

Lemma le32_byte bytes w k :
  (k < 4)%nat ->
  (le32 bytes w / 2 ^ (8 * Z.of_nat k)) mod 256 = u8 (nth (4 * w + k) bytes 0).
Proof.
  intros Hk. unfold le32.
  pose proof (u8_range (nth (4 * w) bytes 0)).
  pose proof (u8_range (nth (4 * w + 1) bytes 0)).
  pose proof (u8_range (nth (4 * w + 2) bytes 0)).
  pose proof (u8_range (nth (4 * w + 3) bytes 0)).
  destruct k as [|[|[|[|k]]]]; try lia.
  - change (2 ^ (8 * Z.of_nat 0)) with 1. rewrite Nat.add_0_r.
    Z.div_mod_to_equations. lia.
  - change (2 ^ (8 * Z.of_nat 1)) with 256. Z.div_mod_to_equations. lia.
  - change (2 ^ (8 * Z.of_nat 2)) with 65536. Z.div_mod_to_equations. lia.
  - change (2 ^ (8 * Z.of_nat 3)) with 16777216. Z.div_mod_to_equations. lia.
Qed.

Lemma testbit_le32 bytes w (k : nat) j :
  (k < 4)%nat -> 0 <= j < 8 ->
  Z.testbit (le32 bytes w) (j + 8 * Z.of_nat k) = Z.testbit (u8 (nth (4 * w + k) bytes 0)) j.
Proof.
  intros Hk Hj. rewrite <- (le32_byte bytes w k Hk), byte_bits by lia.
  destruct (Z.ltb_spec j 8); [reflexivity|lia].
Qed.

Lemma testbit_le32' bytes w c :
  0 <= c < 32 ->
  Z.testbit (le32 bytes w) c
  = Z.testbit (u8 (nth (4 * w + Z.to_nat (c / 8)) bytes 0)) (c mod 8).
Proof.
  intros Hc.
  assert (E : c = c mod 8 + 8 * Z.of_nat (Z.to_nat (c / 8))).
  { rewrite Z2Nat.id by (apply Z.div_pos; lia). pose proof (Z.div_mod c 8). lia. }
  rewrite E at 1. apply testbit_le32.
  - assert (c / 8 < 4) by (apply Z.div_lt_upper_bound; lia).
    assert (0 <= c / 8) by (apply Z.div_pos; lia). lia.
  - apply Z.mod_pos_bound. lia.
Qed.

Lemma testbit_u32 x i : 0 <= i < 32 -> Z.testbit (u32 x) i = Z.testbit x i.
Proof. intros. unfold u32. change 4294967296 with (2 ^ 32). apply Z.mod_pow2_bits_low. lia. Qed.

Lemma byte_eq_bits x y :
  0 <= x < 256 -> 0 <= y < 256 ->
  Z.testbit x 0 = Z.testbit y 0 -> Z.testbit x 1 = Z.testbit y 1 ->
  Z.testbit x 2 = Z.testbit y 2 -> Z.testbit x 3 = Z.testbit y 3 ->
  Z.testbit x 4 = Z.testbit y 4 -> Z.testbit x 5 = Z.testbit y 5 ->
  Z.testbit x 6 = Z.testbit y 6 -> Z.testbit x 7 = Z.testbit y 7 ->
  x = y.
Proof.
  intros Hx Hy H0 H1 H2 H3 H4 H5 H6 H7.
  apply Z.bits_inj'. intros i Hi.
  destruct (Z.lt_ge_cases i 8).
  - assert (i = 0 \/ i = 1 \/ i = 2 \/ i = 3 \/ i = 4 \/ i = 5 \/ i = 6 \/ i = 7) as C by lia.
    repeat destruct C as [C|C]; subst i; assumption.
  - rewrite (testbit_small x 8 i), (testbit_small y 8 i) by (change (2 ^ 8) with 256; lia).
    reflexivity.
Qed.

Lemma land_bound a m n : 0 <= m < 2 ^ n -> 0 <= n -> 0 <= Z.land a m < 2 ^ n.
Proof.
  intros Hm Hn. apply bits_bound; [lia|]. intros i Hi.
  rewrite Z.land_spec, (testbit_small m n i) by lia. apply andb_false_r.
Qed.

Lemma lor_bound a b n : 0 <= a < 2 ^ n -> 0 <= b < 2 ^ n -> 0 <= n -> 0 <= Z.lor a b < 2 ^ n.
Proof.
  intros Ha Hb Hn. apply bits_bound; [lia|]. intros i Hi.
  rewrite Z.lor_spec, (testbit_small a n i), (testbit_small b n i) by lia. reflexivity.
Qed.

Lemma testbit_u8_high a i : 8 <= i -> Z.testbit (u8 a) i = false.
Proof.
  intros. apply (testbit_small _ 8); [change (2 ^ 8) with 256; apply u8_range | lia].
Qed.

Lemma testbit_le32_high l w i : 32 <= i -> Z.testbit (le32 l w) i = false.
Proof.
  intros. apply (testbit_small _ 32); [change (2 ^ 32) with 4294967296; apply le32_range | lia].
Qed.

Ltac norm_idx :=
  repeat match goal with
  | |- context [Z.testbit ?a ?i] =>
      let v := eval vm_compute in i in
      lazymatch i with
      | v => fail
      | _ => change (Z.testbit a i) with (Z.testbit a v)
      end
  | |- context [nth ?k ?l 0] =>
      let v := eval vm_compute in k in
      lazymatch k with
      | v => fail
      | _ => change (nth k l 0) with (nth v l 0)
      end
  end.

Ltac const_bits :=
  repeat match goal with
  | |- context [Z.testbit (Zpos ?p) ?i] =>
      let v := eval vm_compute in (Z.testbit (Zpos p) i) in
      change (Z.testbit (Zpos p) i) with v
  end.

Ltac bit_step :=
  match goal with
  | |- context [Z.testbit ?a (Zneg ?p)] => rewrite (Z.testbit_neg_r a (Zneg p)) by lia
  | |- context [Z.testbit (Z.lor ?a ?b) ?i] => rewrite (Z.lor_spec a b i)
  | |- context [Z.testbit (Z.land ?a ?b) ?i] => rewrite (Z.land_spec a b i)
  | |- context [Z.testbit (Z.shiftr ?a ?n) ?i] => rewrite (Z.shiftr_spec a n i) by lia
  | |- context [Z.testbit (Z.shiftl ?a ?n) ?i] => rewrite (Z.shiftl_spec a n i) by lia
  | |- context [Z.testbit (u32 ?a) ?i] => rewrite (testbit_u32 a i) by lia
  | |- context [Z.testbit (le32 ?l ?w) ?i] => rewrite (testbit_le32' l w i) by lia
  | |- context [Z.testbit (u8 ?a) ?i] => rewrite (testbit_u8_high a i) by lia
  | |- context [Z.testbit (le32 ?l ?w) ?i] => rewrite (testbit_le32_high l w i) by lia
  end.

Ltac bits :=
  repeat (norm_idx; bit_step); norm_idx; const_bits;
  repeat match goal with
  | |- context [Z.testbit (u8 ?a) ?j] =>
      let b := fresh "b" in
      generalize (Z.testbit (u8 a) j); intro b
  end;
  repeat match goal with b : bool |- _ => destruct b end; reflexivity.

Lemma shiftr_byte_bound s n : 0 <= s < 256 -> 0 <= n -> 0 <= Z.shiftr s n < 2 ^ 8.
Proof.
  intros Hs Hn. rewrite Z.shiftr_div_pow2 by lia.
  assert (0 < 2 ^ n) by (apply Z.pow_pos_nonneg; lia).
  split; [apply Z.div_pos; lia|].
  apply Z.div_lt_upper_bound; [lia|]. change (2 ^ 8) with 256. nia.
Qed.

Lemma shiftl_land3_bound a : 0 <= Z.shiftl (Z.land a 3) 4 < 2 ^ 8.
Proof.
  rewrite Z.shiftl_mul_pow2 by lia.
  pose proof (land_bound a 3 2 ltac:(cbn; lia) ltac:(lia)).
  change (2 ^ 2) with 4 in *. change (2 ^ 4) with 16. change (2 ^ 8) with 256. lia.
Qed.

Lemma byte_bits_0 x i :
  0 <= i -> Z.testbit (x mod 256) i = if i <? 8 then Z.testbit x (i + 0) else false.
Proof.
  intros. rewrite <- (Z.div_1_r x) at 1. change 1 with (2 ^ 0) at 1. now apply byte_bits.
Qed.

Ltac byte_bits_rw :=
  first [ match goal with
          | |- context [Z.testbit ((?x / 256) mod 256) ?i] =>
              change (x / 256) with (x / 2 ^ 8); rewrite (byte_bits x 8 i) by lia
          | |- context [Z.testbit ((?x / 65536) mod 256) ?i] =>
              change (x / 65536) with (x / 2 ^ 16); rewrite (byte_bits x 16 i) by lia
          | |- context [Z.testbit ((?x / 16777216) mod 256) ?i] =>
              change (x / 16777216) with (x / 2 ^ 24); rewrite (byte_bits x 24 i) by lia
          end
        | rewrite byte_bits_0 by lia ].

Ltac q3_byte :=
  apply byte_eq_bits;
  [ apply Z.mod_pos_bound; lia
  | change 256 with (2 ^ 8); apply lor_bound;
    [ first [ apply land_bound; [cbn; lia | lia]
            | apply shiftr_byte_bound; [apply u8_range | lia] ]
    | apply shiftl_land3_bound
    | lia ]
  | .. ];
  (byte_bits_rw;
   match goal with |- context [?a <? 8] => change (a <? 8) with true end;
   cbv iota; bits).

(** The sixteen bytes of the Q3_K scale set-up are the biased scales of the
    data model. *)
Lemma q3_K_scale_bytes x :
  flat_map bytes_of32 (q3_K_scale_words (q3_scales x)) =
  map (fun j => q3_sc_signed x j + 32) (seq 0 16).
Proof.
  unfold q3_K_scale_words. cbv zeta.
  pose proof (read_word32 (q3_scales x) 0) as E0.
  pose proof (read_word32 (q3_scales x) 1) as E1.
  pose proof (read_word32 (q3_scales x) 2) as E2.
  cbn [Nat.mul Nat.add] in E0, E1, E2.
  rewrite E0, E1, E2, Z.shiftr_0_r.
  unfold q3_sc_signed.
  cbn [flat_map bytes_of32 app seq map Nat.ltb Nat.leb Nat.sub Nat.add Nat.modulo Nat.div
       Nat.divmod fst snd Z.of_nat Pos.of_succ_nat Pos.succ].
  change (2 * 0) with 0. change (2 * 1) with 2. change (2 * 2) with 4. change (2 * 3) with 6.
  rewrite !Z.sub_add.
  repeat (apply (f_equal2 (@cons Z)); [q3_byte|]). reflexivity.
Qed.

(** ** The corrections of Q6_K and Q3_K: what the kernels write *)

Lemma map_s32_id l : Forall (fun v => -2147483648 <= v <= 2147483647) l -> map s32 l = l.
Proof.
  induction 1 as [|v l Hv _ IH]; [reflexivity|].
  cbn [map]. now rewrite IH, s32_id.
Qed.

Lemma corr_lanes_range (f g : nat -> Z) :
  (forall j, -128 <= f j <= 127) -> (forall j, -32768 <= g j <= 32767) ->
  Forall (fun v => -2147483648 <= v <= 2147483647) (corr_lanes f g).
Proof.
  intros Hf Hg. unfold corr_lanes. apply Forall_map, Forall_forall. intros l _.
  pose proof (Hf (2 * l)%nat). pose proof (Hf (2 * l + 1)%nat).
  pose proof (Hg (2 * l)%nat). pose proof (Hg (2 * l + 1)%nat). nia.
Qed.

Section Corrections.
Context {F : Type} `{FloatOps F} {St : Type} (store_at : Z -> F -> St -> St).
Context (hp : Heaps F).

Lemma cvtepi32_ps_i32s v : vcvtepi32_ps v = map i32_to_f (i32s v).
Proof. unfold vcvtepi32_ps, i32s. now rewrite map_map. Qed.

Lemma q6_K_prod q8 x iy i :
  _mm256_cvtepi32_ps (_mm256_madd_epi16 (q6_K_scales16 x) (load_bsums hp q8 iy i))
  = map i32_to_f (corr_lanes (q6_sc x) (q8_bsum (q8_block hp q8 iy i))).
Proof.
  unfold _mm256_cvtepi32_ps, _mm256_madd_epi16.
  rewrite cvtepi32_ps_i32s, i32s_madd. f_equal.
  unfold q6_K_scales16, load_bsums, _mm_loadu_si128.
  rewrite i16s_cvtepi8, map_s8_load_bytes, i16s_loadu_epi16.
  change (Z.to_nat 0) with 0%nat. cbn [Nat.add].
  change (pair_dot (map (fun k => s8 (nth k (q6_scales x) 0)) (seq 0 16))
            (map (fun k => s16 (nth k (q8_bsums (q8_block hp q8 iy i)) 0)) (seq 0 16)))
    with (corr_lanes (q6_sc x) (q8_bsum (q8_block hp q8 iy i))).
  apply map_s32_id, corr_lanes_range.
  - intros j. apply s8_range.
  - intros j. apply s16_range.
Qed.

Lemma q6_K_mins_spec M q8 x i accm :
  0 <= M <= Z.of_nat (length accm) ->
  length (q6_K_mins hp M q8 x i accm) = length accm /\
  forall iy, 0 <= iy < M ->
    aget [] (q6_K_mins hp M q8 x i accm) iy =
    vfmadd_ps (_mm256_set1_ps (fmul (fp16_to_fp32 (q6_d x)) (scale hp q8 iy i)))
      (map i32_to_f (corr_lanes (q6_sc x) (q8_bsum (q8_block hp q8 iy i))))
      (aget [] accm iy).
Proof.
  intros HM. unfold q6_K_mins. cbv zeta.
  destruct (for_loop_aset [] (fun iy a =>
      _mm256_fmadd_ps (_mm256_set1_ps (fmul (fp16_to_fp32 (q6_d x)) (scale hp q8 iy i)))
        (_mm256_cvtepi32_ps (_mm256_madd_epi16 (q6_K_scales16 x) (load_bsums hp q8 iy i))) a)
      accm M HM) as [Hlen Hnth].
  split; [exact Hlen|].
  intros iy Hiy. rewrite Hnth by lia.
  destruct (Z.ltb_spec iy M); [|lia].
  now rewrite q6_K_prod.
Qed.

Lemma q6_K_row_accm M nb q8 vx bx ix :
  let r := q6_K_row hp M nb q8 vx bx ix in
  length (snd r) = Z.to_nat M /\
  forall iy, 0 <= iy < M ->
    aget [] (snd r) iy =
    corr_acc nb
      (fun i => fmul (fp16_to_fp32 (q6_d (h_q6 hp (vx + ix * bx) i)))
                     (q8_d (h_q8 hp (aget 0 q8 iy) i)))
      (fun i => corr_lanes (q6_sc (h_q6 hp (vx + ix * bx) i))
                           (q8_bsum (h_q8 hp (aget 0 q8 iy) i))).
Proof.
  cbv zeta. unfold q6_K_row, corr_acc.
  destruct (Z.le_gt_cases nb 0) as [Hnb|Hnb].
  - rewrite for_loop_nonpos by lia. cbn [snd]. split; [apply repeat_length|].
    intros iy Hiy. rewrite for_loop_nonpos by lia. apply aget_repeat. lia.
  - apply (for_loop_ind (fun k (acc : list fvec * list fvec) =>
      length (snd acc) = Z.to_nat M /\
      forall iy, 0 <= iy < M ->
        aget [] (snd acc) iy =
        for_loop k (fun i a =>
          vfmadd_ps
            (_mm256_set1_ps (fmul (fp16_to_fp32 (q6_d (h_q6 hp (vx + ix * bx) i)))
                                  (q8_d (h_q8 hp (aget 0 q8 iy) i))))
            (map i32_to_f (corr_lanes (q6_sc (h_q6 hp (vx + ix * bx) i))
                                      (q8_bsum (h_q8 hp (aget 0 q8 iy) i)))) a)
          _mm256_setzero_ps)).
    + cbn [snd]. split; [apply repeat_length|].
      intros iy Hiy. rewrite for_loop_nonpos by lia. apply aget_repeat. lia.
    + intros k [accd accm] Hk [Hlen Hacc]. cbn [snd] in *.
      unfold q6_K_block. cbn [snd].
      destruct (Z.le_gt_cases 0 M) as [HM|HM].
      * destruct (q6_K_mins_spec M q8 (h_q6 hp (vx + ix * bx) k) k accm ltac:(lia))
          as [Hlen' Hnth]. split; [lia|].
        intros iy Hiy. rewrite Hnth, Hacc, for_loop_succ by lia. reflexivity.
      * split; [|intros; lia]. unfold q6_K_mins. cbv zeta.
        now rewrite for_loop_nonpos by lia.
    + lia.
Qed.

Lemma q6_K_writes M n s bs vx bx vy by_ nrc_x st :
  mul_mat_q6_K_q8_K_T store_at hp M n s bs vx bx vy by_ nrc_x st =
  if negb (Z.rem n QK_K =? 0) then None else
  Some (for_loop nrc_x (fun ix st =>
    for_loop M (fun iy st =>
      store_at (s + (ix + iy * bs))
        (q6_K_value hp M (Z.quot n QK_K) (Q8 M vy by_) vx bx ix iy) st) st) st).
Proof.
  unfold mul_mat_q6_K_q8_K_T.
  destruct (negb (Z.rem n QK_K =? 0)); [reflexivity|].
  cbv zeta. f_equal. apply for_loop_ext. intros ix st' _.
  destruct (q6_K_row_accm M (Z.quot n QK_K) (Q8 M vy by_) vx bx ix) as [_ Hacc].
  unfold q6_K_value.
  destruct (q6_K_row hp M (Z.quot n QK_K) (Q8 M vy by_) vx bx ix) as [accd accm].
  cbn [fst snd] in *.
  apply for_loop_ext. intros iy st'' Hiy. now rewrite Hacc.
Qed.

End Corrections.

Lemma q3_sc_signed_range x j : -32 <= q3_sc_signed x j <= 31.
Proof.
  unfold q3_sc_signed. cbv zeta.
  assert (0 <= Z.lor
            (if (j <? 8)%nat then Z.land (u8 (nth j (q3_scales x) 0)) 15
             else Z.shiftr (u8 (nth (j - 8) (q3_scales x) 0)) 4)
            (Z.shiftl (Z.land (Z.shiftr (u8 (nth (8 + j mod 4) (q3_scales x) 0))
                                        (2 * Z.of_nat (j / 4))) 3) 4) < 2 ^ 6);
    [|change (2 ^ 6) with 64 in *; lia].
  apply lor_bound; [| |lia].
  - destruct (j <? 8)%nat.
    + apply land_bound; [cbn; lia|lia].
    + pose proof (u8_range (nth (j - 8) (q3_scales x) 0)).
      rewrite Z.shiftr_div_pow2 by lia. change (2 ^ 4) with 16. change (2 ^ 6) with 64.
      Z.div_mod_to_equations. lia.
  - rewrite Z.shiftl_mul_pow2 by lia.
    pose proof (land_bound (Z.shiftr (u8 (nth (8 + j mod 4) (q3_scales x) 0))
                                     (2 * Z.of_nat (j / 4))) 3 2 ltac:(cbn; lia) ltac:(lia)).
    change (2 ^ 2) with 4 in *. change (2 ^ 4) with 16. change (2 ^ 6) with 64. lia.
Qed.

Lemma i16s_q3_K_all_scales x :
  i16s (q3_K_all_scales x) = map (q3_sc_signed x) (seq 0 16).
Proof.
  unfold q3_K_all_scales. cbv zeta. rewrite i16s_cvtepi8.
  unfold _mm_set_epi32.
  assert (E : bytes32 [u32 (nth 0 (q3_K_scale_words (q3_scales x)) 0);
                       u32 (nth 1 (q3_K_scale_words (q3_scales x)) 0);
                       u32 (nth 2 (q3_K_scale_words (q3_scales x)) 0);
                       u32 (nth 3 (q3_K_scale_words (q3_scales x)) 0)]
              = map (fun j => q3_sc_signed x j + 32) (seq 0 16)).
  { rewrite <- q3_K_scale_bytes.
    change (bytes32 ?l) with (flat_map bytes_of32 l).
    unfold q3_K_scale_words. cbv zeta. cbn [nth flat_map].
    now rewrite !bytes_of32_u32. }
  rewrite E. unfold _mm_sub_epi8, _mm_set1_epi8.
  cbn [seq map repeat map2].
  repeat (apply (f_equal2 (@cons Z));
          [ match goal with |- s8 (u8 (q3_sc_signed x ?j + 32 - u8 32)) = _ =>
              change (u8 32) with 32; rewrite Z.add_simpl_r;
              apply s8_u8; pose proof (q3_sc_signed_range x j); lia
            end |]).
  reflexivity.
Qed.

Section Corrections_Q3.
Context {F : Type} `{FloatOps F} {St : Type} (store_at : Z -> F -> St -> St).
Context (hp : Heaps F).

Lemma q3_K_prod q8 x iy i :
  _mm256_cvtepi32_ps (_mm256_madd_epi16 (q3_K_all_scales x) (load_bsums hp q8 iy i))
  = map i32_to_f (corr_lanes (q3_sc_signed x) (q8_bsum (q8_block hp q8 iy i))).
Proof.
  unfold _mm256_cvtepi32_ps, _mm256_madd_epi16.
  rewrite cvtepi32_ps_i32s, i32s_madd. f_equal.
  unfold load_bsums.
  rewrite i16s_q3_K_all_scales, i16s_loadu_epi16.
  change (pair_dot (map (q3_sc_signed x) (seq 0 16))
            (map (fun k => s16 (nth k (q8_bsums (q8_block hp q8 iy i)) 0)) (seq 0 16)))
    with (corr_lanes (q3_sc_signed x) (q8_bsum (q8_block hp q8 iy i))).
  apply map_s32_id, corr_lanes_range.
  - intros j. pose proof (q3_sc_signed_range x j). lia.
  - intros j. apply s16_range.
Qed.

Lemma q3_K_mins_spec M q8 x i accm :
  0 <= M <= Z.of_nat (length accm) ->
  length (q3_K_mins hp M q8 x i accm) = length accm /\
  forall iy, 0 <= iy < M ->
    aget [] (q3_K_mins hp M q8 x i accm) iy =
    vfmadd_ps (_mm256_set1_ps (fmul (fp16_to_fp32 (q3_d x)) (scale hp q8 iy i)))
      (map i32_to_f (corr_lanes (q3_sc_signed x) (q8_bsum (q8_block hp q8 iy i))))
      (aget [] accm iy).
Proof.
  intros HM. unfold q3_K_mins. cbv zeta.
  destruct (for_loop_aset [] (fun iy a =>
      _mm256_fmadd_ps (_mm256_set1_ps (fmul (fp16_to_fp32 (q3_d x)) (scale hp q8 iy i)))
        (_mm256_cvtepi32_ps (_mm256_madd_epi16 (q3_K_all_scales x) (load_bsums hp q8 iy i))) a)
      accm M HM) as [Hlen Hnth].
  split; [exact Hlen|].
  intros iy Hiy. rewrite Hnth by lia.
  destruct (Z.ltb_spec iy M); [|lia].
  now rewrite q3_K_prod.
Qed.

Lemma q3_K_row_accm M nb q8 vx bx ix :
  let r := q3_K_row hp M nb q8 vx bx ix in
  length (snd r) = Z.to_nat M /\
  forall iy, 0 <= iy < M ->
    aget [] (snd r) iy =
    corr_acc nb
      (fun i => fmul (fp16_to_fp32 (q3_d (h_q3 hp (vx + ix * bx) i)))
                     (q8_d (h_q8 hp (aget 0 q8 iy) i)))
      (fun i => corr_lanes (q3_sc_signed (h_q3 hp (vx + ix * bx) i))
                           (q8_bsum (h_q8 hp (aget 0 q8 iy) i))).
Proof.
  cbv zeta. unfold q3_K_row, corr_acc. cbv zeta.
  destruct (Z.le_gt_cases nb 0) as [Hnb|Hnb].
  - rewrite for_loop_nonpos by lia. cbn [snd]. split; [apply repeat_length|].
    intros iy Hiy. rewrite for_loop_nonpos by lia. apply aget_repeat. lia.
  - apply (for_loop_ind (fun k (acc : list fvec * list fvec) =>
      length (snd acc) = Z.to_nat M /\
      forall iy, 0 <= iy < M ->
        aget [] (snd acc) iy =
        for_loop k (fun i a =>
          vfmadd_ps
            (_mm256_set1_ps (fmul (fp16_to_fp32 (q3_d (h_q3 hp (vx + ix * bx) i)))
                                  (q8_d (h_q8 hp (aget 0 q8 iy) i))))
            (map i32_to_f (corr_lanes (q3_sc_signed (h_q3 hp (vx + ix * bx) i))
                                      (q8_bsum (h_q8 hp (aget 0 q8 iy) i)))) a)
          _mm256_setzero_ps)).
    + cbn [snd]. split; [apply repeat_length|].
      intros iy Hiy. rewrite for_loop_nonpos by lia. apply aget_repeat. lia.
    + intros k [accd accm] Hk [Hlen Hacc]. cbn [snd] in *.
      unfold q3_K_block. cbn [snd].
      destruct (Z.le_gt_cases 0 M) as [HM|HM].
      * destruct (q3_K_mins_spec M q8 (h_q3 hp (vx + ix * bx) k) k accm ltac:(lia))
          as [Hlen' Hnth]. split; [lia|].
        intros iy Hiy. rewrite Hnth, Hacc, for_loop_succ by lia. reflexivity.
      * split; [|intros; lia]. unfold q3_K_mins. cbv zeta.
        now rewrite for_loop_nonpos by lia.
    + lia.
Qed.

Lemma q3_K_writes M n s bs vx bx vy by_ nrc_x st :
  mul_mat_q3_K_q8_K_T store_at hp M n s bs vx bx vy by_ nrc_x st =
  if negb (Z.rem n QK_K =? 0) then None else
  Some (for_loop nrc_x (fun ix st =>
    for_loop M (fun iy st =>
      store_at (s + (ix + iy * bs))
        (q3_K_value hp M (Z.quot n QK_K) (Q8 M vy by_) vx bx ix iy) st) st) st).
Proof.
  unfold mul_mat_q3_K_q8_K_T.
  destruct (negb (Z.rem n QK_K =? 0)); [reflexivity|].
  cbv zeta. f_equal. apply for_loop_ext. intros ix st' _.
  destruct (q3_K_row_accm M (Z.quot n QK_K) (Q8 M vy by_) vx bx ix) as [_ Hacc].
  unfold q3_K_value.
  destruct (q3_K_row hp M (Z.quot n QK_K) (Q8 M vy by_) vx bx ix) as [accd accm].
  cbn [fst snd] in *.
  apply for_loop_ext. intros iy st'' Hiy. now rewrite Hacc.
Qed.

End Corrections_Q3.

(** ** The corrections in exact arithmetic *)

Lemma zsum_8 l0 l1 l2 l3 l4 l5 l6 l7 :
  zsum [l0; l1; l2; l3; l4; l5; l6; l7] = l0 + l1 + l2 + l3 + l4 + l5 + l6 + l7.
Proof. cbn [zsum fold_right]. lia. Qed.

Lemma length_8 {A} (l : list A) :
  length l = 8%nat -> exists x0 x1 x2 x3 x4 x5 x6 x7, l = [x0; x1; x2; x3; x4; x5; x6; x7].
Proof.
  intros Hl. do 8 (destruct l as [|? l]; [discriminate|]).
  destruct l; [|discriminate]. repeat eexists.
Qed.

Lemma rational_exact : ExactOps Qcanon.Qc (Rational.of_Z 1).
Proof.
  split.
  - exact Qcanon.Qcrt.
  - reflexivity.
  - intros a b. cbn [i32_to_f fadd rational]. unfold Rational.of_Z.
    apply Qcanon.Qc_is_canon. cbn [Qcanon.this Qcanon.Qcplus Qcanon.Q2Qc].
    rewrite !Qreduction.Qred_correct.
    unfold QArith_base.Qeq. cbn. lia.
Qed.

Section Exact.
Context {F : Type} `{FloatOps F} (fone : F) {E : ExactOps F fone}.

Add Ring exact_ring_F : exact_ring.

Lemma hsum_float_8_lanes x0 x1 x2 x3 x4 x5 x6 x7 :
  hsum_float_8 [x0; x1; x2; x3; x4; x5; x6; x7] =
  fadd (fadd (fadd x0 x4) (fadd x2 x6)) (fadd (fadd x1 x5) (fadd x3 x7)).
Proof. reflexivity. Qed.

Lemma hsum_float_8_step d l0 l1 l2 l3 l4 l5 l6 l7 acc :
  length acc = 8%nat ->
  let acc' := vfmadd_ps (_mm256_set1_ps d) (map i32_to_f [l0; l1; l2; l3; l4; l5; l6; l7]) acc in
  length acc' = 8%nat /\
  hsum_float_8 acc' =
  fadd (hsum_float_8 acc) (fmul d (i32_to_f (l0 + l1 + l2 + l3 + l4 + l5 + l6 + l7))).
Proof.
  intros Hl. destruct (length_8 acc Hl) as (a0 & a1 & a2 & a3 & a4 & a5 & a6 & a7 & ->).
  cbv zeta. split; [reflexivity|].
  cbn [vfmadd_ps _mm256_set1_ps repeat map map3]. rewrite !hsum_float_8_lanes.
  rewrite !exact_fma, !exact_i32. ring.
Qed.

Lemma hsum_corr_acc nb vd sc b :
  hsum_float_8 (corr_acc nb vd (fun i => corr_lanes (sc i) (b i))) =
  fsum nb (fun i => fmul (vd i) (i32_to_f (zsum (map (fun j => sc i j * b i j) (seq 0 16))))).
Proof.
  unfold corr_acc, fsum.
  destruct (Z.le_gt_cases nb 0) as [Hnb|Hnb].
  { rewrite !for_loop_nonpos by lia. unfold _mm256_setzero_ps. cbn [repeat].
    rewrite hsum_float_8_lanes. ring. }
  enough (Hinv : length (for_loop nb (fun i acc =>
              vfmadd_ps (_mm256_set1_ps (vd i)) (map i32_to_f (corr_lanes (sc i) (b i))) acc)
              _mm256_setzero_ps) = 8%nat /\
          hsum_float_8 (for_loop nb (fun i acc =>
              vfmadd_ps (_mm256_set1_ps (vd i)) (map i32_to_f (corr_lanes (sc i) (b i))) acc)
              _mm256_setzero_ps) =
          for_loop nb (fun i a => fadd a (fmul (vd i)
              (i32_to_f (zsum (map (fun j => sc i j * b i j) (seq 0 16)))))) fzero)
    by apply Hinv.
  apply (for_loop_ind (fun k acc =>
    length acc = 8%nat /\
    hsum_float_8 acc =
    for_loop k (fun i a => fadd a (fmul (vd i)
      (i32_to_f (zsum (map (fun j => sc i j * b i j) (seq 0 16)))))) fzero)).
  - split; [reflexivity|]. rewrite for_loop_nonpos by lia. unfold _mm256_setzero_ps.
    cbn [repeat]. rewrite hsum_float_8_lanes. ring.
  - intros k acc Hk [Hlen Hsum].
    rewrite for_loop_succ by lia. rewrite <- Hsum.
    rewrite <- zsum_corr_lanes. unfold corr_lanes. cbn [seq map]. rewrite zsum_8.
    apply hsum_float_8_step, Hlen.
  - lia.
Qed.

End Exact.

(** ** The two accumulator layouts: integer lanes *)

Lemma land_shifted_mask a m n :
  0 <= n -> Z.land a (Z.shiftl m n) = Z.shiftl (Z.land (Z.shiftr a n) m) n.
Proof.
  intros Hn. apply Z.bits_inj'. intros i Hi.
  rewrite Z.land_spec.
  destruct (Z.lt_ge_cases i n) as [Hlt|Hge].
  - rewrite !Z.shiftl_spec_low by lia. apply andb_false_r.
  - rewrite !Z.shiftl_spec by lia. rewrite Z.land_spec, Z.shiftr_spec by lia.
    now replace (i - n + n) with i by lia.
Qed.

Lemma land_12 a : Z.land a 12 = 4 * Z.land (Z.shiftr a 2) 3.
Proof.
  change 12 with (Z.shiftl 3 2). rewrite land_shifted_mask by lia.
  rewrite Z.shiftl_mul_pow2 by lia. change (2 ^ 2) with 4. lia.
Qed.

Lemma land_240 a : Z.land a 240 = 16 * Z.land (Z.shiftr a 4) 15.
Proof.
  change 240 with (Z.shiftl 15 4). rewrite land_shifted_mask by lia.
  rewrite Z.shiftl_mul_pow2 by lia. change (2 ^ 4) with 16. lia.
Qed.

(** A mask below [2^(8 - s)] applied after a 16-bit lane shift by [s] sees
    only bits of the byte itself. *)
Lemma land_shiftr_lane b0 b1 s m :
  0 <= b0 < 256 -> 0 <= b1 < 256 -> 0 <= s <= 8 -> 0 <= m < 2 ^ (8 - s) ->
  Z.land (Z.shiftr (b0 + 256 * b1) s mod 256) m = Z.land (Z.shiftr b0 s) m /\
  Z.land ((Z.shiftr (b0 + 256 * b1) s / 256) mod 256) m = Z.land (Z.shiftr b1 s) m.
Proof.
  intros H0 H1 Hs Hm.
  assert (Hb0 : forall i, 8 <= i -> Z.testbit b0 i = false).
  { intros i Hi. apply (testbit_small _ 8); [change (2 ^ 8) with 256; lia|lia]. }
  assert (Hb1 : forall i, 8 <= i -> Z.testbit b1 i = false).
  { intros i Hi. apply (testbit_small _ 8); [change (2 ^ 8) with 256; lia|lia]. }
  assert (Hmb : forall i, 8 - s <= i -> Z.testbit m i = false).
  { intros i Hi. apply (testbit_small _ (8 - s)); lia. }
  assert (Hx : forall i, 0 <= i ->
            Z.testbit (b0 + 256 * b1) i = if i <? 8 then Z.testbit b0 i else Z.testbit b1 (i - 8)).
  { intros i Hi. replace (b0 + 256 * b1) with (Z.lor b0 (Z.shiftl b1 8)).
    - rewrite Z.lor_spec. destruct (Z.ltb_spec i 8).
      + rewrite Z.shiftl_spec_low by lia. apply orb_false_r.
      + rewrite Hb0 by lia. rewrite Z.shiftl_spec by lia. reflexivity.
    - rewrite Z.or_to_plus.
      + rewrite Z.shiftl_mul_pow2 by lia. change (2 ^ 8) with 256. lia.
      + apply Z.bits_inj'. intros k Hk. rewrite Z.land_spec, Z.bits_0.
        destruct (Z.ltb_spec k 8).
        * rewrite Z.shiftl_spec_low by lia. apply andb_false_r.
        * now rewrite Hb0 by lia. }
  split; apply Z.bits_inj'; intros i Hi; rewrite !Z.land_spec.
  - destruct (Z.lt_ge_cases i (8 - s)).
    + change 256 with (2 ^ 8). rewrite Z.mod_pow2_bits_low by lia.
      rewrite !Z.shiftr_spec, Hx by lia.
      destruct (Z.ltb_spec (i + s) 8); [reflexivity|lia].
    + rewrite Hmb by lia. now rewrite !andb_false_r.
  - destruct (Z.lt_ge_cases i (8 - s)).
    + change 256 with (2 ^ 8). rewrite Z.mod_pow2_bits_low by lia.
      rewrite <- Z.shiftr_div_pow2 by lia.
      rewrite !Z.shiftr_spec, Hx by lia.
      destruct (Z.ltb_spec (i + 8 + s) 8); [lia|].
      f_equal. f_equal. lia.
    + rewrite Hmb by lia. now rewrite !andb_false_r.
Qed.


(** *** Lengths of registers *)

Lemma length_map2 {A B C} (f : A -> B -> C) x y :
  length (map2 f x y) = Nat.min (length x) (length y).
Proof.
  revert y. induction x as [|a x IH]; intros [|b y]; cbn [map2 length Nat.min]; auto.
Qed.

Lemma length_lanes16 v : (2 * length (lanes16 v) + length v mod 2 = length v)%nat.
Proof.
  induction v as [| |a b v IH] using list_pair_ind; try reflexivity.
  cbn [lanes16 length].
  replace (S (S (length v))) with (length v + 1 * 2)%nat by lia.
  rewrite Nat.Div0.mod_add. lia.
Qed.

Lemma length_lanes32 v : length v = 32%nat -> length (lanes32 v) = 8%nat.
Proof.
  intros Hl. do 32 (destruct v as [|? v]; [discriminate|]).
  destruct v; [reflexivity|discriminate].
Qed.

Lemma length_lanes16_32 v : length v = 32%nat -> length (lanes16 v) = 16%nat.
Proof. intros Hl. pose proof (length_lanes16 v) as E. rewrite Hl in E. cbn in E. lia. Qed.

Lemma length_bytes16 l : length (bytes16 l) = (2 * length l)%nat.
Proof.
  induction l as [|x l IH]; [reflexivity|].
  cbn [bytes16 flat_map app length]. fold (bytes16 l). lia.
Qed.

Lemma length_bytes32 l : length (bytes32 l) = (4 * length l)%nat.
Proof.
  induction l as [|x l IH]; [reflexivity|].
  cbn [bytes32 flat_map app length]. fold (bytes32 l). lia.
Qed.

Lemma length_pair_dot x y :
  length x = length y -> (2 * length (pair_dot x y) + length x mod 2 = length x)%nat.
Proof.
  revert y. induction x as [| |a b x IH] using list_pair_ind; intros y Hl.
  - reflexivity.
  - reflexivity.
  - destruct y as [|c [|d y]]; try discriminate.
    cbn [pair_dot length] in *.
    specialize (IH y ltac:(lia)).
    replace (S (S (length x))) with (length x + 1 * 2)%nat by lia.
    rewrite Nat.Div0.mod_add. lia.
Qed.

Lemma length_maddubs_lanes a y :
  length a = length y -> (2 * length (maddubs_lanes a y) + length a mod 2 = length a)%nat.
Proof.
  revert y. induction a as [| |a0 a1 a IH] using list_pair_ind; intros y Hl.
  - reflexivity.
  - reflexivity.
  - destruct y as [|c [|d y]]; try discriminate.
    cbn [maddubs_lanes length] in *.
    specialize (IH y ltac:(lia)).
    replace (S (S (length a))) with (length a + 1 * 2)%nat by lia.
    rewrite Nat.Div0.mod_add. lia.
Qed.

Lemma length_loadu_si256 arr off : length (_mm256_loadu_si256 arr off) = 32%nat.
Proof. unfold _mm256_loadu_si256, load_bytes. now rewrite length_map, length_seq. Qed.

Lemma length_vand a b : length a = 32%nat -> length b = 32%nat -> length (vand a b) = 32%nat.
Proof. intros Ha Hb. unfold vand. rewrite length_map2. lia. Qed.

Lemma length_set1_epi8 x : length (_mm256_set1_epi8 x) = 32%nat.
Proof. apply repeat_length. Qed.

Lemma length_vsrli_epi16 a n : length a = 32%nat -> length (vsrli_epi16 a n) = 32%nat.
Proof.
  intros Ha. unfold vsrli_epi16. rewrite length_bytes16, length_map, length_lanes16_32; auto.
Qed.

Lemma length_maddubs a b :
  length a = 32%nat -> length b = 32%nat -> length (_mm256_maddubs_epi16 a b) = 32%nat.
Proof.
  intros Ha Hb. unfold _mm256_maddubs_epi16. rewrite length_bytes16, length_map.
  pose proof (length_maddubs_lanes a b ltac:(lia)) as E. rewrite Ha in E. cbn in E. lia.
Qed.

Lemma length_vmadd_epi16 a b :
  length a = 32%nat -> length b = 32%nat -> length (vmadd_epi16 a b) = 32%nat.
Proof.
  intros Ha Hb. unfold vmadd_epi16. rewrite length_bytes32, length_map.
  rewrite madd_lanes_pair_dot.
  pose proof (length_pair_dot (map s16 (lanes16 a)) (map s16 (lanes16 b))) as E.
  rewrite !length_map, !length_lanes16_32 in E by assumption.
  specialize (E eq_refl). cbn in E. lia.
Qed.

Lemma length_add_epi32 a b :
  length a = 32%nat -> length b = 32%nat -> length (_mm256_add_epi32 a b) = 32%nat.
Proof.
  intros Ha Hb. unfold _mm256_add_epi32.
  rewrite length_bytes32, length_map2, !length_lanes32 by assumption. reflexivity.
Qed.

Lemma length_shuffle_epi8 a b : length b = 32%nat -> length (_mm256_shuffle_epi8 a b) = 32%nat.
Proof.
  intros Hb. unfold _mm256_shuffle_epi8, _mm_shuffle_epi8.
  rewrite length_app, !length_map, length_firstn, length_skipn. lia.
Qed.

Lemma length_setzero_si256 : length _mm256_setzero_si256 = 32%nat.
Proof. reflexivity. Qed.

Lemma length_i32s v : length v = 32%nat -> length (i32s v) = 8%nat.
Proof. intros. unfold i32s. now rewrite length_map, length_lanes32. Qed.

Create HintDb vlen.
#[export] Hint Resolve length_loadu_si256 length_vand length_set1_epi8 length_vsrli_epi16
  length_maddubs length_vmadd_epi16 length_add_epi32 length_shuffle_epi8
  length_setzero_si256 length_i32s : vlen.

(** *** Bytes of registers *)

Lemma bytes_ok_load arr off n : bytes_ok (load_bytes arr off n).
Proof.
  unfold bytes_ok, load_bytes. apply Forall_map, Forall_forall. intros k _. apply u8_range.
Qed.

Lemma bytes_ok_bytes16 l : bytes_ok (bytes16 l).
Proof.
  unfold bytes_ok. induction l as [|x l IH]; [constructor|].
  cbn [bytes16 flat_map app]. fold (bytes16 l).
  repeat constructor; try apply Z.mod_pos_bound; try lia. exact IH.
Qed.

Lemma vand_const v m n :
  length v = n -> vand v (repeat m n) = map (fun b => Z.land b m) v.
Proof.
  intros <-. induction v as [|b v IH]; [reflexivity|].
  cbn [length repeat vand map2 map]. f_equal. exact IH.
Qed.

Lemma vand_srli_const v s m :
  Nat.even (length v) = true -> bytes_ok v -> 0 <= s <= 8 -> 0 <= m < 2 ^ (8 - s) ->
  vand (vsrli_epi16 v s) (repeat m (length v)) = map (fun b => Z.land (Z.shiftr b s) m) v.
Proof.
  intros Hev Hok Hs Hm. unfold vsrli_epi16.
  induction v as [| |b0 b1 v IH] using list_pair_ind.
  - reflexivity.
  - discriminate.
  - inversion Hok as [|? ? H0 Hok1]; subst. inversion Hok1 as [|? ? H1 Hok2]; subst.
    cbn [lanes16 map bytes16 flat_map app length repeat vand map2].
    destruct (land_shiftr_lane b0 b1 s m H0 H1 Hs Hm) as [E0 E1].
    rewrite E0, E1. f_equal. f_equal. apply IH; assumption.
Qed.

Lemma even_32 (v : vec) : length v = 32%nat -> Nat.even (length v) = true.
Proof. now intros ->. Qed.

Lemma high_plane_bytes v (c s m n : Z) :
  length v = 32%nat -> bytes_ok v -> 0 <= s -> 0 <= n <= 8 - s -> 0 <= m < 2 ^ n ->
  (forall a, Z.land a (c * m) = c * Z.land (Z.shiftr a s) m) ->
  vand v (repeat (c * m) 32) = map (fun b => c * b) (vand (vsrli_epi16 v s) (repeat m 32)) /\
  Forall (fun b => 0 <= b < 2 ^ n) (vand (vsrli_epi16 v s) (repeat m 32)).
Proof.
  intros Hl Hok Hs Hn Hm Hc.
  assert (Hm' : 0 <= m < 2 ^ (8 - s)).
  { split; [lia|]. apply Z.lt_le_trans with (2 ^ n); [lia|]. apply Z.pow_le_mono_r; lia. }
  rewrite (vand_const v (c * m) 32 Hl).
  replace (repeat m 32) with (repeat m (length v)) by now rewrite Hl.
  rewrite vand_srli_const by first [apply even_32; assumption | assumption | lia].
  rewrite map_map. split.
  - apply map_ext. intros a. apply Hc.
  - apply Forall_map, Forall_forall. intros b _. apply land_bound; lia.
Qed.

(** *** Pair sums *)

Lemma pair_dot_scale_l c x y :
  pair_dot (map (fun b => c * b) x) y = map (fun b => c * b) (pair_dot x y).
Proof.
  revert y. induction x as [| |a b x IH] using list_pair_ind; intros y; try reflexivity.
  destruct y as [|y0 [|y1 y]]; try reflexivity.
  cbn [map pair_dot]. rewrite IH. f_equal. lia.
Qed.

Lemma pair_dot_scale_r c x y :
  pair_dot x (map (fun b => c * b) y) = map (fun b => c * b) (pair_dot x y).
Proof.
  revert y. induction x as [| |a b x IH] using list_pair_ind; intros y.
  - reflexivity.
  - destruct y as [|y0 [|y1 y]]; reflexivity.
  - destruct y as [|y0 [|y1 y]]; try reflexivity.
    cbn [map pair_dot]. rewrite IH. f_equal. lia.
Qed.

Lemma pair_dot_bound bx by_ x y :
  Forall (fun v => - bx <= v <= bx) x -> Forall (fun v => - by_ <= v <= by_) y ->
  Forall (fun v => - (2 * bx * by_) <= v <= 2 * bx * by_) (pair_dot x y).
Proof.
  revert y. induction x as [| |a b x IH] using list_pair_ind; intros y Hx Hy.
  - constructor.
  - destruct y as [|y0 [|y1 y]]; constructor.
  - destruct y as [|y0 [|y1 y]]; try constructor.
    + inversion Hx as [|? ? Ha Hx1]; subst. inversion Hx1 as [|? ? Hb Hx2]; subst.
      inversion Hy as [|? ? Hy0 Hy1]; subst. inversion Hy1 as [|? ? Hy1' Hy2]; subst.
      nia.
    + inversion Hx as [|? ? Ha Hx1]; subst. inversion Hx1 as [|? ? Hb Hx2]; subst.
      inversion Hy as [|? ? Hy0 Hy1]; subst. inversion Hy1 as [|? ? Hy1' Hy2]; subst.
      now apply IH.
Qed.

Lemma maddubs_lanes_pair_dot a y :
  Forall (fun v => -32768 <= v <= 32767) (pair_dot a (map s8 y)) ->
  maddubs_lanes a y = pair_dot a (map s8 y).
Proof.
  revert y. induction a as [| |a0 a1 a IH] using list_pair_ind; intros y Hb.
  - reflexivity.
  - destruct y as [|y0 [|y1 y]]; reflexivity.
  - destruct y as [|y0 [|y1 y]]; try reflexivity.
    cbn [map pair_dot maddubs_lanes] in *.
    inversion Hb as [|? ? H0 Hb1]; subst.
    rewrite sat16_id by exact H0. f_equal. now apply IH.
Qed.

Lemma map_s16_id l : Forall (fun v => -32768 <= v <= 32767) l -> map s16 l = l.
Proof.
  induction 1 as [|v l Hv _ IH]; [reflexivity|]. cbn [map]. rewrite IH. f_equal.
  rewrite <- (s16_u16 v Hv) at 2. symmetry. apply s16_u16'.
Qed.

(** Without saturation, [vpmaddubsw] gives the pair sums of the unsigned
    left bytes with the signed right bytes. *)
Lemma i16s_maddubs a y :
  Forall (fun v => -32768 <= v <= 32767) (pair_dot a (map s8 y)) ->
  i16s (_mm256_maddubs_epi16 a y) = pair_dot a (map s8 y).
Proof.
  intros Hb. unfold _mm256_maddubs_epi16. rewrite i16s_bytes16, map_map.
  rewrite (map_ext _ s16) by (intros; apply s16_u16').
  rewrite maddubs_lanes_pair_dot by exact Hb. now apply map_s16_id.
Qed.

Lemma Forall_s8 y : Forall (fun v => - 128 <= v <= 128) (map s8 y).
Proof. apply Forall_map, Forall_forall. intros v _. pose proof (s8_range v). lia. Qed.

Lemma Forall_i16s v : Forall (fun x => - 32768 <= x <= 32768) (i16s v).
Proof. apply Forall_map, Forall_forall. intros x _. pose proof (s16_range x). lia. Qed.

Lemma Forall_weaken {A} (P Q : A -> Prop) l : (forall a, P a -> Q a) -> Forall P l -> Forall Q l.
Proof. intros HPQ. induction 1; constructor; auto. Qed.

Lemma Forall_scale c b l :
  0 <= c -> Forall (fun v => - b <= v <= b) l ->
  Forall (fun v => - (c * b) <= v <= c * b) (map (fun v => c * v) l).
Proof.
  intros Hc Hl. apply Forall_map. eapply Forall_weaken; [|exact Hl].
  cbv beta. intros a Ha. nia.
Qed.

Lemma i32s_add_epi32 a b :
  i32s (_mm256_add_epi32 a b) = map2 (fun x y => s32 (x + y)) (i32s a) (i32s b).
Proof.
  unfold _mm256_add_epi32, i32s. rewrite lanes32_bytes32, map_map.
  generalize (lanes32 a) (lanes32 b). clear a b.
  induction l as [|x l IH]; intros [|y l']; try reflexivity.
  cbn [map2 map]. rewrite IH. f_equal.
  rewrite !s32_u32. unfold s32.
  assert (E : (x + y) mod 4294967296 =
              ((if x mod 4294967296 <? 2147483648 then x mod 4294967296
                else x mod 4294967296 - 4294967296) +
               (if y mod 4294967296 <? 2147483648 then y mod 4294967296
                else y mod 4294967296 - 4294967296)) mod 4294967296).
  { destruct (x mod 4294967296 <? 2147483648), (y mod 4294967296 <? 2147483648);
      Z.div_mod_to_equations; lia. }
  now rewrite E.
Qed.

(** *** Lane-wise sums *)

Lemma Forall_map2 {A B C} (P : A -> Prop) (Q : B -> Prop) (R : C -> Prop) (f : A -> B -> C) x y :
  (forall a b, P a -> Q b -> R (f a b)) -> Forall P x -> Forall Q y -> Forall R (map2 f x y).
Proof.
  intros Hf Hx. revert y. induction Hx as [|a x Ha Hx IH]; intros y Hy.
  - constructor.
  - destruct Hy as [|b y Hb Hy]; [constructor|]. cbn [map2]. constructor; auto.
Qed.

Lemma map2_ext_Forall {A B C} (P : A -> Prop) (Q : B -> Prop) (f g : A -> B -> C) x y :
  (forall a b, P a -> Q b -> f a b = g a b) -> Forall P x -> Forall Q y ->
  map2 f x y = map2 g x y.
Proof.
  intros Hf Hx. revert y. induction Hx as [|a x Ha Hx IH]; intros y Hy.
  - reflexivity.
  - destruct Hy as [|b y Hb Hy]; [reflexivity|]. cbn [map2]. f_equal; auto.
Qed.

Lemma map2_s32_add bx by_ x y :
  bx + by_ <= 2147483647 ->
  Forall (fun v => - bx <= v <= bx) x -> Forall (fun v => - by_ <= v <= by_) y ->
  map2 (fun a b => s32 (a + b)) x y = map2 Z.add x y.
Proof.
  intros Hb. apply map2_ext_Forall. cbv beta. intros a b Ha Hb'. apply s32_id. lia.
Qed.

Lemma map2_add_bound bx by_ x y :
  Forall (fun v => - bx <= v <= bx) x -> Forall (fun v => - by_ <= v <= by_) y ->
  Forall (fun v => - (bx + by_) <= v <= bx + by_) (map2 Z.add x y).
Proof. apply Forall_map2. cbv beta. intros. lia. Qed.

Lemma map2_add_scale c x y :
  map2 Z.add (map (fun v => c * v) x) (map (fun v => c * v) y) =
  map (fun v => c * v) (map2 Z.add x y).
Proof.
  revert y. induction x as [|a x IH]; intros [|b y]; try reflexivity.
  cbn [map map2]. rewrite IH. f_equal. lia.
Qed.

Lemma map2_add_interchange a h x y :
  map2 Z.add (map2 Z.add a h) (map2 Z.add x y) = map2 Z.add (map2 Z.add a x) (map2 Z.add h y).
Proof.
  revert h x y. induction a as [|a0 a IH]; intros [|h0 h] [|x0 x] [|y0 y]; try reflexivity.
  cbn [map2]. rewrite IH. f_equal. lia.
Qed.

Lemma Forall_bound_weaken b b' (l : list Z) :
  b <= b' -> Forall (fun v => - b <= v <= b) l -> Forall (fun v => - b' <= v <= b') l.
Proof. intros Hb. apply Forall_weaken. cbv beta. intros. lia. Qed.

(** One more product for each layout keeps the accumulators related. *)
Lemma planes_rel_step c bnd b s0 s1 S VA VB VBs :
  1 <= c -> 0 <= bnd -> 0 <= b -> (1 + c) * (bnd + b) <= 2147483647 ->
  planes_rel c bnd s0 s1 S ->
  length VA = 32%nat -> length VB = 32%nat -> length VBs = 32%nat ->
  Forall (fun v => - b <= v <= b) (i32s VA) ->
  Forall (fun v => - b <= v <= b) (i32s VB) ->
  i32s VBs = map (fun v => c * v) (i32s VB) ->
  planes_rel c (bnd + b)
    (_mm256_add_epi32 s0 VA) (_mm256_add_epi32 s1 VBs)
    (_mm256_add_epi32 S (_mm256_add_epi32 VA VB)).
Proof.
  intros Hc Hbnd Hb Hfit (L0 & L1 & LS & h & Lh & E1 & ES & B0 & Bh) LA LB LBs BA BB EBs.
  split; [auto with vlen|]. split; [auto with vlen|]. split; [auto with vlen|].
  exists (map2 Z.add h (i32s VB)).
  assert (E0' : i32s (_mm256_add_epi32 s0 VA) = map2 Z.add (i32s s0) (i32s VA)).
  { rewrite i32s_add_epi32. apply (map2_s32_add bnd b); [nia|assumption|assumption]. }
  split; [|split; [|split; [|split]]].
  - rewrite length_map2, Lh, length_i32s by assumption. reflexivity.
  - rewrite i32s_add_epi32, E1, EBs.
    rewrite (map2_s32_add (c * bnd) (c * b)).
    + apply map2_add_scale.
    + nia.
    + apply Forall_scale; [lia|assumption].
    + apply Forall_scale; [lia|assumption].
  - rewrite E0', !i32s_add_epi32, ES.
    rewrite (map2_s32_add b b (i32s VA) (i32s VB)) by (assumption || nia).
    rewrite (map2_s32_add (bnd + bnd) (b + b)).
    + apply map2_add_interchange.
    + nia.
    + now apply map2_add_bound.
    + now apply map2_add_bound.
  - rewrite E0'. now apply map2_add_bound.
  - now apply map2_add_bound.
Qed.

Lemma planes_rel_zero c :
  planes_rel c 0 _mm256_setzero_si256 _mm256_setzero_si256 _mm256_setzero_si256.
Proof.
  assert (E : i32s _mm256_setzero_si256 = repeat 0 8) by reflexivity.
  split; [reflexivity|]. split; [reflexivity|]. split; [reflexivity|].
  exists (repeat 0 8). rewrite E.
  split; [reflexivity|]. split; [|split; [reflexivity|]].
  - cbn [repeat map]. now rewrite Z.mul_0_r.
  - split; apply Forall_forall; intros v Hv; apply repeat_spec in Hv; lia.
Qed.

Lemma planes_rel_weaken c bnd bnd' s0 s1 S :
  bnd <= bnd' -> planes_rel c bnd s0 s1 S -> planes_rel c bnd' s0 s1 S.
Proof.
  intros Hb (L0 & L1 & LS & h & Lh & E1 & ES & B0 & Bh).
  repeat split; auto. exists h. repeat split; auto; eapply Forall_bound_weaken; eauto.
Qed.

(** The products of one plane: [vpmaddubsw] of small unsigned bytes does
    not saturate, and [vpmaddwd] with any scales does not wrap. *)
Lemma madd_maddubs_small (c amax : Z) sc a y :
  1 <= c -> 0 <= amax -> c * (2 * amax * 128) <= 32767 ->
  Forall (fun b => 0 <= b <= amax) a ->
  i32s (_mm256_madd_epi16 sc (_mm256_maddubs_epi16 a y))
    = pair_dot (i16s sc) (pair_dot a (map s8 y)) /\
  i32s (_mm256_madd_epi16 sc (_mm256_maddubs_epi16 (map (fun b => c * b) a) y))
    = map (fun v => c * v) (pair_dot (i16s sc) (pair_dot a (map s8 y))) /\
  Forall (fun v => - (2 * 32768 * (2 * amax * 128)) <= v <= 2 * 32768 * (2 * amax * 128))
    (pair_dot (i16s sc) (pair_dot a (map s8 y))).
Proof.
  intros Hc Ham Hfit Ha.
  assert (Ha' : Forall (fun v => - amax <= v <= amax) a).
  { eapply Forall_weaken; [|exact Ha]. cbv beta. intros. lia. }
  pose proof (pair_dot_bound amax 128 a (map s8 y) Ha' (Forall_s8 y)) as HP.
  pose proof (pair_dot_bound 32768 (2 * amax * 128) (i16s sc) _ (Forall_i16s sc) HP) as HA.
  assert (HP16 : Forall (fun v => -32768 <= v <= 32767) (pair_dot a (map s8 y))).
  { eapply Forall_weaken; [|exact HP]. cbv beta. intros. nia. }
  assert (HPc : Forall (fun v => -32768 <= v <= 32767)
                  (pair_dot (map (fun b => c * b) a) (map s8 y))).
  { rewrite pair_dot_scale_l. apply Forall_map.
    eapply Forall_weaken; [|exact HP]. cbv beta. intros. nia. }
  unfold _mm256_madd_epi16. rewrite !i32s_madd, !i16s_maddubs by assumption.
  rewrite pair_dot_scale_l, pair_dot_scale_r.
  split; [|split].
  - apply map_s32_id. eapply Forall_weaken; [|exact HA]. cbv beta. intros. nia.
  - apply map_s32_id. apply Forall_map.
    eapply Forall_weaken; [|exact HA]. cbv beta. intros. nia.
  - exact HA.
Qed.

Lemma Forall_vand_const v m n k :
  length v = k -> 0 <= n -> 0 <= m < 2 ^ n ->
  Forall (fun b => 0 <= b <= 2 ^ n - 1) (vand v (repeat m k)).
Proof.
  intros Hl Hn Hm. rewrite (vand_const v m k Hl).
  apply Forall_map, Forall_forall. intros b _.
  pose proof (land_bound b m n Hm Hn). lia.
Qed.

(** The products of one step of the Q2_K loop on one column, for the two
    layouts. *)
Lemma q2_K_products v sc0 sc1 y0 y1 :
  length v = 32%nat -> bytes_ok v ->
  let q0 := _mm256_and_si256 v (_mm256_set1_epi8 3) in
  let q1s := _mm256_and_si256 v (_mm256_set1_epi8 12) in
  let q1 := _mm256_and_si256 (_mm256_srli_epi16 v 2) (_mm256_set1_epi8 3) in
  let VA := _mm256_madd_epi16 sc0 (_mm256_maddubs_epi16 q0 y0) in
  let VB := _mm256_madd_epi16 sc1 (_mm256_maddubs_epi16 q1 y1) in
  let VBs := _mm256_madd_epi16 sc1 (_mm256_maddubs_epi16 q1s y1) in
  Forall (fun v => - 50331648 <= v <= 50331648) (i32s VA) /\
  Forall (fun v => - 50331648 <= v <= 50331648) (i32s VB) /\
  i32s VBs = map (fun v => 4 * v) (i32s VB).
Proof.
  intros Hl Hok. cbv zeta.
  unfold _mm256_and_si256, _mm256_srli_epi16, _mm256_set1_epi8.
  change (u8 3) with 3. change (u8 12) with (4 * 3).
  destruct (high_plane_bytes v 4 2 3 2 Hl Hok ltac:(lia) ltac:(lia) ltac:(cbn; lia))
    as [E1 F1].
  { intros a. apply land_12. }
  rewrite E1.
  assert (F0 : Forall (fun b => 0 <= b <= 3) (vand v (repeat 3 32))).
  { apply (Forall_vand_const v 3 2 32 Hl); cbn; lia. }
  assert (F1' : Forall (fun b => 0 <= b <= 3) (vand (vsrli_epi16 v 2) (repeat 3 32))).
  { eapply Forall_weaken; [|exact F1]. cbv beta. change (2 ^ 2) with 4. intros. lia. }
  destruct (madd_maddubs_small 1 3 sc0 _ y0 ltac:(lia) ltac:(lia) ltac:(lia) F0)
    as (EA & _ & BA).
  destruct (madd_maddubs_small 4 3 sc1 _ y1 ltac:(lia) ltac:(lia) ltac:(lia) F1')
    as (EB & EBs & BB).
  rewrite EA, EB, EBs. repeat split; assumption.
Qed.

(** *** Two loops side by side *)

Lemma for_loop_rel2 {S1 S2 : Type} (R : Z -> S1 -> S2 -> Prop) (n : Z)
  (f : Z -> S1 -> S1) (g : Z -> S2 -> S2) (s1 : S1) (s2 : S2) :
  R 0 s1 s2 ->
  (forall k a b, 0 <= k < n -> R k a b -> R (k + 1) (f k a) (g k b)) ->
  0 <= n -> R n (for_loop n f s1) (for_loop n g s2).
Proof.
  intros H0 Hstep Hn.
  rewrite <- (Z2Nat.id n Hn).
  assert (Hle : (Z.to_nat n <= Z.to_nat n)%nat) by lia.
  revert Hle. generalize (Z.to_nat n) at 1 3 4 5 as m.
  induction m as [|m IH]; intros Hm.
  - now rewrite !for_loop_nonpos by lia.
  - replace (Z.of_nat (S m)) with (Z.of_nat m + 1) by lia.
    rewrite !for_loop_succ by lia. apply Hstep; [lia|]. apply IH. lia.
Qed.

(** A loop that rewrites the entries [2 * iy] and [2 * iy + 1] of an array
    from their old values. *)
Lemma for_loop_aset2 {A : Type} (d : A) (g0 g1 : Z -> A -> A) (l : list A) (n : Z) :
  0 <= n -> 2 * n <= Z.of_nat (length l) ->
  let r := for_loop n (fun iy acc =>
             let acc := aset acc (2 * iy + 0) (g0 iy (aget d acc (2 * iy + 0))) in
             aset acc (2 * iy + 1) (g1 iy (aget d acc (2 * iy + 1)))) l in
  length r = length l /\
  forall j, 0 <= j < n ->
    aget d r (2 * j + 0) = g0 j (aget d l (2 * j + 0)) /\
    aget d r (2 * j + 1) = g1 j (aget d l (2 * j + 1)).
Proof.
  intros Hn Hlen r. subst r.
  enough (Hinv : length (for_loop n (fun iy acc =>
             let acc := aset acc (2 * iy + 0) (g0 iy (aget d acc (2 * iy + 0))) in
             aset acc (2 * iy + 1) (g1 iy (aget d acc (2 * iy + 1)))) l) = length l /\
          forall j, 0 <= j ->
            aget d (for_loop n (fun iy acc =>
               let acc := aset acc (2 * iy + 0) (g0 iy (aget d acc (2 * iy + 0))) in
               aset acc (2 * iy + 1) (g1 iy (aget d acc (2 * iy + 1)))) l) (2 * j + 0)
              = (if j <? n then g0 j (aget d l (2 * j + 0)) else aget d l (2 * j + 0)) /\
            aget d (for_loop n (fun iy acc =>
               let acc := aset acc (2 * iy + 0) (g0 iy (aget d acc (2 * iy + 0))) in
               aset acc (2 * iy + 1) (g1 iy (aget d acc (2 * iy + 1)))) l) (2 * j + 1)
              = (if j <? n then g1 j (aget d l (2 * j + 1)) else aget d l (2 * j + 1))).
  { destruct Hinv as [Hl Hj]. split; [exact Hl|]. intros j Hjn.
    destruct (Hj j ltac:(lia)) as [E0 E1].
    destruct (Z.ltb_spec j n); [|lia]. now split. }
  apply (for_loop_ind (fun k acc =>
    length acc = length l /\
    forall j, 0 <= j ->
      aget d acc (2 * j + 0)
        = (if j <? k then g0 j (aget d l (2 * j + 0)) else aget d l (2 * j + 0)) /\
      aget d acc (2 * j + 1)
        = (if j <? k then g1 j (aget d l (2 * j + 1)) else aget d l (2 * j + 1)))).
  - split; [reflexivity|]. intros j Hj. destruct (Z.ltb_spec j 0); [lia|]. now split.
  - intros k acc Hk [Hl Hacc]. cbv zeta. unfold aset.
    split; [now rewrite !length_upd|].
    intros j Hj. unfold aget. rewrite !nth_upd, !length_upd, Hl.
    destruct (Hacc j Hj) as [E0 E1]. destruct (Hacc k ltac:(lia)) as [K0 K1].
    destruct (Z.ltb_spec k k); [lia|].
    unfold aget in E0, E1, K0, K1.
    destruct (Z.eq_dec j k) as [->|Hne].
    + destruct (Z.ltb_spec k (k + 1)); [|lia].
      replace (Z.to_nat (2 * k + 0) =? Z.to_nat (2 * k + 1))%nat with false
        by (symmetry; apply Nat.eqb_neq; lia).
      replace (Z.to_nat (2 * k + 1) =? Z.to_nat (2 * k + 0))%nat with false
        by (symmetry; apply Nat.eqb_neq; lia).
      rewrite !Nat.eqb_refl.
      replace (Z.to_nat (2 * k + 0) <? length l)%nat with true
        by (symmetry; apply Nat.ltb_lt; lia).
      replace (Z.to_nat (2 * k + 1) <? length l)%nat with true
        by (symmetry; apply Nat.ltb_lt; lia).
      cbn [andb]. rewrite K0, K1. now split.
    + replace (Z.to_nat (2 * j + 0) =? Z.to_nat (2 * k + 1))%nat with false
        by (symmetry; apply Nat.eqb_neq; lia).
      replace (Z.to_nat (2 * j + 0) =? Z.to_nat (2 * k + 0))%nat with false
        by (symmetry; apply Nat.eqb_neq; lia).
      replace (Z.to_nat (2 * j + 1) =? Z.to_nat (2 * k + 1))%nat with false
        by (symmetry; apply Nat.eqb_neq; lia).
      replace (Z.to_nat (2 * j + 1) =? Z.to_nat (2 * k + 0))%nat with false
        by (symmetry; apply Nat.eqb_neq; lia).
      cbn [andb]. rewrite E0, E1.
      destruct (Z.ltb_spec j k), (Z.ltb_spec j (k + 1)); try lia; now split.
  - lia.
Qed.

Lemma upd_nth_same {A : Type} (d : A) k l : upd k (nth k l d) l = l.
Proof.
  revert k. induction l as [|a l IH]; intros [|k]; cbn [upd nth]; try reflexivity.
  now rewrite IH.
Qed.

(** A loop that rewrites only the entries [2 * iy]. *)
Lemma for_loop_aset_even {A : Type} (d : A) (g0 : Z -> A -> A) (l : list A) (n : Z) :
  0 <= n -> 2 * n <= Z.of_nat (length l) ->
  let r := for_loop n (fun iy acc =>
             aset acc (2 * iy + 0) (g0 iy (aget d acc (2 * iy + 0)))) l in
  length r = length l /\
  forall j, 0 <= j < n ->
    aget d r (2 * j + 0) = g0 j (aget d l (2 * j + 0)) /\
    aget d r (2 * j + 1) = aget d l (2 * j + 1).
Proof.
  intros Hn Hlen. cbv zeta.
  rewrite (for_loop_ext n _ (fun iy acc =>
             let acc := aset acc (2 * iy + 0) (g0 iy (aget d acc (2 * iy + 0))) in
             aset acc (2 * iy + 1) ((fun _ a => a) iy (aget d acc (2 * iy + 1))))).
  - apply (for_loop_aset2 d g0 (fun _ a => a) l n Hn Hlen).
  - intros k acc _. cbv zeta beta. unfold aset at 2, aget at 2.
    now rewrite upd_nth_same.
Qed.

(** *** The integer accumulators of Q2_K *)

Section Layouts.
Context {F : Type} `{FloatOps F} (hp : Heaps F).

Lemma load_quants_eq q8a q8b iy i k :
  aget 0 q8a iy = aget 0 q8b iy -> load_quants hp q8a iy i k = load_quants hp q8b iy i k.
Proof. intros E. unfold load_quants, q8_block. now rewrite E. Qed.

Lemma length_load_quants q8 iy i k : length (load_quants hp q8 iy i k) = 32%nat.
Proof. apply length_loadu_si256. Qed.

Lemma q2_K_columns_step M1 M2 iy0 q8a q8b i j l bnd q2bits scales sumi1 sumi2 :
  1 <= M1 <= 2 -> 2 < M2 -> 0 <= iy0 < M1 ->
  aget 0 q8a iy0 = aget 0 q8b iy0 ->
  length q2bits = 32%nat -> bytes_ok q2bits ->
  0 <= bnd -> 5 * (bnd + 50331648) <= 2147483647 ->
  layouts_rel 4 bnd M1 M2 iy0 sumi1 sumi2 ->
  let m3 := _mm256_set1_epi8 3 in
  let mc := _mm256_set1_epi8 12 in
  let scales_0 := _mm256_shuffle_epi8 (aget [] scales j) (get_scale_shuffle_16 (2 * l + 0)) in
  let scales_1 := _mm256_shuffle_epi8 (aget [] scales j) (get_scale_shuffle_16 (2 * l + 1)) in
  let q2_0 := _mm256_and_si256 q2bits m3 in
  layouts_rel 4 (bnd + 50331648) M1 M2 iy0
    (for_loop M1 (fun iy sumi =>
        let p0 := _mm256_maddubs_epi16 q2_0 (load_quants hp q8a iy i (4 * j + 2 * l + 0)) in
        let p1 := _mm256_maddubs_epi16
                    (if M1 <=? 2 then _mm256_and_si256 q2bits mc
                     else _mm256_and_si256 (_mm256_srli_epi16 q2bits 2) m3)
                    (load_quants hp q8a iy i (4 * j + 2 * l + 1)) in
        if M1 <=? 2 then
          let sumi := aset sumi (2 * iy + 0)
            (_mm256_add_epi32 (aget [] sumi (2 * iy + 0)) (_mm256_madd_epi16 scales_0 p0)) in
          aset sumi (2 * iy + 1)
            (_mm256_add_epi32 (aget [] sumi (2 * iy + 1)) (_mm256_madd_epi16 scales_1 p1))
        else
          aset sumi iy
            (_mm256_add_epi32 (aget [] sumi iy)
               (_mm256_add_epi32 (_mm256_madd_epi16 scales_0 p0)
                                 (_mm256_madd_epi16 scales_1 p1)))) sumi1)
    (for_loop M2 (fun iy sumi =>
        let p0 := _mm256_maddubs_epi16 q2_0 (load_quants hp q8b iy i (4 * j + 2 * l + 0)) in
        let p1 := _mm256_maddubs_epi16
                    (if M2 <=? 2 then _mm256_and_si256 q2bits mc
                     else _mm256_and_si256 (_mm256_srli_epi16 q2bits 2) m3)
                    (load_quants hp q8b iy i (4 * j + 2 * l + 1)) in
        if M2 <=? 2 then
          let sumi := aset sumi (2 * iy + 0)
            (_mm256_add_epi32 (aget [] sumi (2 * iy + 0)) (_mm256_madd_epi16 scales_0 p0)) in
          aset sumi (2 * iy + 1)
            (_mm256_add_epi32 (aget [] sumi (2 * iy + 1)) (_mm256_madd_epi16 scales_1 p1))
        else
          aset sumi iy
            (_mm256_add_epi32 (aget [] sumi iy)
               (_mm256_add_epi32 (_mm256_madd_epi16 scales_0 p0)
                                 (_mm256_madd_epi16 scales_1 p1)))) sumi2).
Proof.
  intros HM1 HM2 Hiy Hq8 Hlen Hok Hbnd Hfit (L1 & L2 & Hrel). cbv zeta.
  destruct (Z.leb_spec M1 2) as [_|]; [|lia].
  destruct (Z.leb_spec M2 2) as [|_]; [lia|].
  set (sc0 := _mm256_shuffle_epi8 (aget [] scales j) (get_scale_shuffle_16 (2 * l + 0))).
  set (sc1 := _mm256_shuffle_epi8 (aget [] scales j) (get_scale_shuffle_16 (2 * l + 1))).
  assert (Lsc0 : length sc0 = 32%nat) by (subst sc0; auto with vlen).
  assert (Lsc1 : length sc1 = 32%nat) by (subst sc1; auto with vlen).
  assert (HL1 : 2 * M1 <= Z.of_nat (length sumi1)) by lia.
  assert (HL2 : 0 <= M2 <= Z.of_nat (length sumi2)) by lia.
  assert (HM1' : 0 <= M1) by lia.
  destruct (for_loop_aset2 []
    (fun iy a => _mm256_add_epi32 a (_mm256_madd_epi16 sc0
        (_mm256_maddubs_epi16 (_mm256_and_si256 q2bits (_mm256_set1_epi8 3))
           (load_quants hp q8a iy i (4 * j + 2 * l + 0)))))
    (fun iy a => _mm256_add_epi32 a (_mm256_madd_epi16 sc1
        (_mm256_maddubs_epi16 (_mm256_and_si256 q2bits (_mm256_set1_epi8 12))
           (load_quants hp q8a iy i (4 * j + 2 * l + 1)))))
    sumi1 M1 HM1' HL1) as [L1' E1].
  destruct (for_loop_aset []
    (fun iy a => _mm256_add_epi32 a
       (_mm256_add_epi32
          (_mm256_madd_epi16 sc0
             (_mm256_maddubs_epi16 (_mm256_and_si256 q2bits (_mm256_set1_epi8 3))
                (load_quants hp q8b iy i (4 * j + 2 * l + 0))))
          (_mm256_madd_epi16 sc1
             (_mm256_maddubs_epi16
                (_mm256_and_si256 (_mm256_srli_epi16 q2bits 2) (_mm256_set1_epi8 3))
                (load_quants hp q8b iy i (4 * j + 2 * l + 1))))))
    sumi2 M2 HL2) as [L2' E2].
  cbv beta iota zeta in L1', E1, L2', E2 |- *.
  match type of L1' with length ?t = _ => set (r1 := t) in L1', E1 end.
  match type of L2' with length ?t = _ => set (r2 := t) in L2', E2 end.
  match goal with |- context [for_loop M1 ?f sumi1] => change (for_loop M1 f sumi1) with r1 end.
  match goal with |- context [for_loop M2 ?f sumi2] => change (for_loop M2 f sumi2) with r2 end.
  clearbody r1 r2. unfold layouts_rel. unfold vec in *.
  split; [lia|]. split; [lia|].
  destruct (E1 iy0 Hiy) as [E10 E11]. rewrite E10, E11, E2 by lia.
  destruct (Z.ltb_spec iy0 M2); [|lia].
  rewrite <- !(load_quants_eq q8a q8b iy0 i) by exact Hq8.
  destruct (q2_K_products q2bits sc0 sc1
              (load_quants hp q8a iy0 i (4 * j + 2 * l + 0))
              (load_quants hp q8a iy0 i (4 * j + 2 * l + 1)) Hlen Hok) as (BA & BB & EBs).
  apply planes_rel_step; try lia; try assumption.
  - unfold _mm256_madd_epi16, _mm256_and_si256. auto 10 using length_load_quants with vlen.
  - unfold _mm256_madd_epi16, _mm256_and_si256, _mm256_srli_epi16.
    auto 10 using length_load_quants with vlen.
  - unfold _mm256_madd_epi16, _mm256_and_si256. auto 10 using length_load_quants with vlen.
Qed.

Lemma layouts_rel_zero c M1 M2 iy :
  1 <= M1 <= 2 -> 2 < M2 -> 0 <= iy < M1 ->
  layouts_rel c 0 M1 M2 iy
    (repeat _mm256_setzero_si256 (Z.to_nat (k_nrc_of M1)))
    (repeat _mm256_setzero_si256 (Z.to_nat (k_nrc_of M2))).
Proof.
  intros HM1 HM2 Hiy. unfold k_nrc_of.
  destruct (Z.leb_spec M1 2); [|lia]. destruct (Z.leb_spec M2 2); [lia|].
  unfold layouts_rel. rewrite !repeat_length.
  split; [lia|]. split; [lia|].
  rewrite !aget_repeat by lia. apply planes_rel_zero.
Qed.

(** The integer accumulators of the two layouts of Q2_K after one
    super-block: the second accumulator of a column holds 4 times the
    high-plane sums, and the single accumulator is the first plus these
    sums. *)
Lemma q2_K_sumi_layouts M1 M2 iy q8a q8b x i :
  1 <= M1 <= 2 -> 2 < M2 -> 0 <= iy < M1 ->
  aget 0 q8a iy = aget 0 q8b iy ->
  layouts_rel 4 201326592 M1 M2 iy (q2_K_sumi hp M1 q8a x i) (q2_K_sumi hp M2 q8b x i).
Proof.
  intros HM1 HM2 Hiy Hq8. unfold q2_K_sumi. cbv zeta. change (QK_K / 128) with 2.
  match goal with
  | |- layouts_rel _ _ _ _ _ (snd (for_loop 2 ?f ?s1)) (snd (for_loop 2 ?g ?s2)) =>
      refine (proj2 (for_loop_rel2
        (fun k (p1 p2 : Z * list vec) =>
           fst p1 = fst p2 /\ layouts_rel 4 (k * 100663296) M1 M2 iy (snd p1) (snd p2))
        2 f g s1 s2 _ _ _))
  end.
  - split; [reflexivity|]. now apply layouts_rel_zero.
  - intros j [q2 t1] [q2' t2] Hj [Eq Hrel]. cbn [fst snd] in Eq, Hrel. subst q2'.
    cbv beta iota. cbn [fst snd]. split; [reflexivity|].
    replace ((j + 1) * 100663296) with (j * 100663296 + 2 * 50331648) by lia.
    match goal with
    | |- layouts_rel _ _ _ _ _ (snd (for_loop 2 ?f ?s1)) (snd (for_loop 2 ?g ?s2)) =>
        refine (proj2 (proj2 (proj2 (for_loop_rel2
          (fun l (p1 p2 : vec * list vec) =>
             fst p1 = fst p2 /\ length (fst p1) = 32%nat /\ bytes_ok (fst p1) /\
             layouts_rel 4 (j * 100663296 + l * 50331648) M1 M2 iy (snd p1) (snd p2))
          2 f g s1 s2 _ _ _))))
    end.
    + cbn [fst snd]. split; [reflexivity|]. split; [apply length_loadu_si256|].
      split; [apply bytes_ok_load|].
      now replace (j * 100663296 + 0 * 50331648) with (j * 100663296) by lia.
    + intros l [v u1] [v' u2] Hl (Ev & Lv & Okv & Hrel'). cbn [fst snd] in Ev, Lv, Okv, Hrel'.
      subst v'. cbv beta iota. cbn [fst snd].
      split; [reflexivity|]. split; [now apply length_vsrli_epi16|].
      split; [apply bytes_ok_bytes16|].
      replace (j * 100663296 + (l + 1) * 50331648)
        with (j * 100663296 + l * 50331648 + 50331648) by lia.
      refine (q2_K_columns_step M1 M2 iy q8a q8b i j l (j * 100663296 + l * 50331648)
                v (q2_K_scales x) u1 u2 HM1 HM2 Hiy Hq8 Lv Okv _ _ Hrel'); lia.
    + lia.
  - lia.
Qed.

End Layouts.

(** *** The float accumulators in exact arithmetic *)

Lemma rational_scales : ExactScales Qcanon.Qc (Rational.of_Z 1).
Proof.
  split.
  - intros a b. cbn [i32_to_f fmul rational]. unfold Rational.of_Z.
    apply Qcanon.Qc_is_canon. cbn [Qcanon.this Qcanon.Qcmult Qcanon.Q2Qc].
    rewrite !Qreduction.Qred_correct.
    unfold QArith_base.Qeq. cbn. lia.
  - apply Qcanon.Qc_is_canon. reflexivity.
  - apply Qcanon.Qc_is_canon. reflexivity.
Qed.

Section ExactLayouts.
Context {F : Type} `{FloatOps F} (fone : F) {E : ExactOps F fone} {E2 : ExactScales F fone}.

Add Ring exact_ring_layouts : exact_ring.

Lemma hsum_fma8 d z0 z1 z2 z3 z4 z5 z6 z7 (a : fvec) :
  length a = 8%nat ->
  length (vfmadd_ps (_mm256_set1_ps d) [z0; z1; z2; z3; z4; z5; z6; z7] a) = 8%nat /\
  hsum_float_8 (vfmadd_ps (_mm256_set1_ps d) [z0; z1; z2; z3; z4; z5; z6; z7] a) =
  fadd (hsum_float_8 a)
       (fmul d (fadd (fadd (fadd (fadd (fadd (fadd (fadd z0 z1) z2) z3) z4) z5) z6) z7)).
Proof.
  intros Hl. destruct (length_8 a Hl) as (a0 & a1 & a2 & a3 & a4 & a5 & a6 & a7 & ->).
  split; [reflexivity|].
  cbn [vfmadd_ps _mm256_set1_ps repeat map map3]. rewrite !hsum_float_8_lanes.
  rewrite !exact_fma. ring.
Qed.

Lemma length_cvtepi32_ps v : length v = 32%nat -> length (vcvtepi32_ps v) = 8%nat.
Proof. intros Hl. rewrite cvtepi32_ps_i32s, length_map. now apply length_i32s. Qed.

(** Adding the same vector to the first and to the single accumulator. *)
Lemma layouts_fma_same (q d : F) (z a0 a1 A : fvec) :
  length z = 8%nat -> length a0 = 8%nat -> length A = 8%nat ->
  fadd (hsum_float_8 a0) (fmul q (hsum_float_8 a1)) = hsum_float_8 A ->
  length (vfmadd_ps (_mm256_set1_ps d) z a0) = 8%nat /\
  length (vfmadd_ps (_mm256_set1_ps d) z A) = 8%nat /\
  fadd (hsum_float_8 (vfmadd_ps (_mm256_set1_ps d) z a0)) (fmul q (hsum_float_8 a1))
  = hsum_float_8 (vfmadd_ps (_mm256_set1_ps d) z A).
Proof.
  intros Lz L0 LA IH.
  destruct (length_8 z Lz) as (z0 & z1 & z2 & z3 & z4 & z5 & z6 & z7 & ->).
  destruct (hsum_fma8 d z0 z1 z2 z3 z4 z5 z6 z7 a0 L0) as [L0' E0].
  destruct (hsum_fma8 d z0 z1 z2 z3 z4 z5 z6 z7 A LA) as [LA' EA].
  split; [exact L0'|]. split; [exact LA'|].
  rewrite E0, EA, <- IH. ring.
Qed.

(** Adding the integer accumulators of one super-block. *)
Lemma layouts_fma (q : F) (c bnd : Z) (vd : F) s0 s1 S (a0 a1 A : fvec) :
  fmul q (i32_to_f c) = fone ->
  planes_rel c bnd s0 s1 S ->
  length a0 = 8%nat -> length a1 = 8%nat -> length A = 8%nat ->
  fadd (hsum_float_8 a0) (fmul q (hsum_float_8 a1)) = hsum_float_8 A ->
  length (vfmadd_ps (_mm256_set1_ps vd) (vcvtepi32_ps s0) a0) = 8%nat /\
  length (vfmadd_ps (_mm256_set1_ps vd) (vcvtepi32_ps s1) a1) = 8%nat /\
  length (vfmadd_ps (_mm256_set1_ps vd) (vcvtepi32_ps S) A) = 8%nat /\
  fadd (hsum_float_8 (vfmadd_ps (_mm256_set1_ps vd) (vcvtepi32_ps s0) a0))
       (fmul q (hsum_float_8 (vfmadd_ps (_mm256_set1_ps vd) (vcvtepi32_ps s1) a1)))
  = hsum_float_8 (vfmadd_ps (_mm256_set1_ps vd) (vcvtepi32_ps S) A).
Proof.
  intros Hq (Ls0 & Ls1 & LS & h & Lh & E1 & ES & _ & _) L0 L1 LA IH.
  rewrite !cvtepi32_ps_i32s, E1, ES.
  pose proof (length_i32s s0 Ls0) as Lx.
  destruct (length_8 (i32s s0) Lx) as (x0 & x1 & x2 & x3 & x4 & x5 & x6 & x7 & ->).
  destruct (length_8 h Lh) as (h0 & h1 & h2 & h3 & h4 & h5 & h6 & h7 & ->).
  cbn [map map2].
  destruct (hsum_fma8 vd (i32_to_f x0) (i32_to_f x1) (i32_to_f x2) (i32_to_f x3)
              (i32_to_f x4) (i32_to_f x5) (i32_to_f x6) (i32_to_f x7) a0 L0) as [L0' E0'].
  destruct (hsum_fma8 vd (i32_to_f (c * h0)) (i32_to_f (c * h1)) (i32_to_f (c * h2))
              (i32_to_f (c * h3)) (i32_to_f (c * h4)) (i32_to_f (c * h5))
              (i32_to_f (c * h6)) (i32_to_f (c * h7)) a1 L1) as [L1' E1'].
  destruct (hsum_fma8 vd (i32_to_f (x0 + h0)) (i32_to_f (x1 + h1)) (i32_to_f (x2 + h2))
              (i32_to_f (x3 + h3)) (i32_to_f (x4 + h4)) (i32_to_f (x5 + h5))
              (i32_to_f (x6 + h6)) (i32_to_f (x7 + h7)) A LA) as [LA' EA'].
  split; [exact L0'|]. split; [exact L1'|]. split; [exact LA'|].
  rewrite E0', E1', EA', <- IH, !exact_i32, !exact_i32_mul.
  ring [Hq].
Qed.

End ExactLayouts.

Ltac name_loop L E n init r :=
  match type of L with length ?t = _ => set (r := t) in L, E end;
  match goal with |- context [for_loop n ?f init] => change (for_loop n f init) with r end;
  clearbody r.

Lemma length_loadu_epi16 arr : length (_mm256_loadu_epi16 arr) = 32%nat.
Proof. unfold _mm256_loadu_epi16. now rewrite length_bytes16, length_map, length_seq. Qed.

Lemma length_q2_K_mins16 (x : block_q2_K) :
  length (_mm256_cvtepi8_epi16
            (_mm_and_si128 (_mm_srli_epi16 (_mm_loadu_si128 (q2_scales x) 0) 4)
                           (_mm_set1_epi8 15))) = 32%nat.
Proof.
  unfold _mm256_cvtepi8_epi16, _mm_and_si128, vand, _mm_srli_epi16, vsrli_epi16,
    _mm_loadu_si128, load_bytes, _mm_set1_epi8.
  rewrite length_bytes16, length_map, length_map2, length_bytes16, length_map, repeat_length.
  pose proof (length_lanes16 (map (fun k => u8 (nth (Z.to_nat 0 + k) (q2_scales x) 0)) (seq 0 16)))
    as E.
  rewrite length_map, length_seq in E. change (16 mod 2)%nat with 0%nat in E. lia.
Qed.

Section Q2_K_exact.
Context {F : Type} `{FloatOps F} (fone : F) {E : ExactOps F fone} {E2 : ExactScales F fone}.
Context (hp : Heaps F).

Add Ring exact_ring_q2 : exact_ring.

Lemma scale_eq q8a q8b iy i :
  aget 0 q8a iy = aget 0 q8b iy -> scale hp q8a iy i = scale hp q8b iy i.
Proof. intros Eq. unfold scale, q8_block. now rewrite Eq. Qed.

Lemma load_bsums_eq q8a q8b iy i :
  aget 0 q8a iy = aget 0 q8b iy -> load_bsums hp q8a iy i = load_bsums hp q8b iy i.
Proof. intros Eq. unfold load_bsums, q8_block. now rewrite Eq. Qed.

Lemma q2_K_block_layouts M1 M2 iy q8a q8b x i accd1 accd2 :
  1 <= M1 <= 2 -> 2 < M2 -> 0 <= iy < M1 ->
  aget 0 q8a iy = aget 0 q8b iy ->
  accd_rel f_0_25 M1 M2 iy accd1 accd2 ->
  accd_rel f_0_25 M1 M2 iy (q2_K_block hp M1 q8a x i accd1) (q2_K_block hp M2 q8b x i accd2).
Proof.
  intros HM1 HM2 Hiy Hq8 (L1 & L2 & Hrel).
  pose proof (q2_K_sumi_layouts hp M1 M2 iy q8a q8b x i HM1 HM2 Hiy Hq8) as (_ & _ & Hsumi).
  unfold q2_K_block, q2_K_mins. cbv zeta.
  destruct (Z.leb_spec M1 2) as [_|]; [|lia].
  destruct (Z.leb_spec M2 2) as [|_]; [lia|].
  set (mins := _mm256_cvtepi8_epi16 _).
  assert (Lmins : length mins = 32%nat) by apply length_q2_K_mins16.
  clearbody mins.
  set (c2 := fneg (fp16_to_fp32 (q2_dmin x))). set (d2 := fp16_to_fp32 (q2_d x)).
  set (sumi1 := q2_K_sumi hp M1 q8a x i) in *. set (sumi2 := q2_K_sumi hp M2 q8b x i) in *.
  clearbody sumi1 sumi2 c2 d2.
  assert (HM1' : 0 <= M1) by lia. unfold fvec in *.
  assert (HL1 : 2 * M1 <= Z.of_nat (length accd1)) by lia.
  assert (HL2 : 0 <= M2 <= Z.of_nat (length accd2)) by lia.
  destruct (for_loop_aset_even []
    (fun iy a => _mm256_fmadd_ps (_mm256_set1_ps (fmul c2 (scale hp q8a iy i)))
                   (_mm256_cvtepi32_ps (_mm256_madd_epi16 mins (load_bsums hp q8a iy i))) a)
    accd1 M1 HM1' HL1) as [Lm1 Em1].
  destruct (for_loop_aset []
    (fun iy a => _mm256_fmadd_ps (_mm256_set1_ps (fmul c2 (scale hp q8b iy i)))
                   (_mm256_cvtepi32_ps (_mm256_madd_epi16 mins (load_bsums hp q8b iy i))) a)
    accd2 M2 HL2) as [Lm2 Em2].
  cbv beta iota zeta in Lm1, Em1, Lm2, Em2 |- *.
  name_loop Lm1 Em1 M1 accd1 m1. name_loop Lm2 Em2 M2 accd2 m2.
  assert (HL1' : 2 * M1 <= Z.of_nat (length m1)) by (unfold fvec in *; lia).
  assert (HL2' : 0 <= M2 <= Z.of_nat (length m2)) by (unfold fvec in *; lia).
  destruct (for_loop_aset2 []
    (fun iy a => _mm256_fmadd_ps (_mm256_set1_ps (fmul d2 (scale hp q8a iy i)))
                   (_mm256_cvtepi32_ps (aget [] sumi1 (2 * iy + 0))) a)
    (fun iy a => _mm256_fmadd_ps (_mm256_set1_ps (fmul d2 (scale hp q8a iy i)))
                   (_mm256_cvtepi32_ps (aget [] sumi1 (2 * iy + 1))) a)
    m1 M1 HM1' HL1') as [Ls1 Es1].
  destruct (for_loop_aset []
    (fun iy a => _mm256_fmadd_ps (_mm256_set1_ps (fmul d2 (scale hp q8b iy i)))
                   (_mm256_cvtepi32_ps (aget [] sumi2 iy)) a)
    m2 M2 HL2') as [Ls2 Es2].
  cbv beta iota zeta in Ls1, Es1, Ls2, Es2 |- *.
  name_loop Ls1 Es1 M1 m1 r1. name_loop Ls2 Es2 M2 m2 r2.
  unfold accd_rel. unfold fvec in *.
  split; [lia|]. split; [lia|].
  destruct (Es1 iy Hiy) as [E10 E11]. rewrite E10, E11, Es2 by lia.
  destruct (Em1 iy Hiy) as [M10 M11]. rewrite M10, M11, Em2 by lia.
  destruct (Z.ltb_spec iy M2); [|lia].
  rewrite <- !(scale_eq q8a q8b iy i), <- !(load_bsums_eq q8a q8b iy i) by exact Hq8.
  destruct Hrel as (La0 & La1 & LA & IH).
  unfold _mm256_fmadd_ps, _mm256_cvtepi32_ps.
  destruct (layouts_fma_same fone f_0_25 (fmul c2 (scale hp q8a iy i))
              (vcvtepi32_ps (_mm256_madd_epi16 mins (load_bsums hp q8a iy i)))
              _ _ _ ltac:(apply length_cvtepi32_ps, length_vmadd_epi16;
                          [exact Lmins|apply length_loadu_epi16]) La0 LA IH)
    as (La0' & LA' & IH').
  apply (layouts_fma fone f_0_25 4 201326592); try assumption.
  apply exact_0_25.
Qed.

Lemma accd_rel_zero (q : F) M1 M2 iy :
  1 <= M1 <= 2 -> 2 < M2 -> 0 <= iy < M1 ->
  accd_rel q M1 M2 iy (repeat _mm256_setzero_ps (Z.to_nat (k_nrc_of M1)))
                   (repeat _mm256_setzero_ps (Z.to_nat (k_nrc_of M2))).
Proof.
  intros HM1 HM2 Hiy. unfold k_nrc_of.
  destruct (Z.leb_spec M1 2); [|lia]. destruct (Z.leb_spec M2 2); [lia|].
  unfold accd_rel. rewrite !repeat_length.
  split; [lia|]. split; [lia|].
  rewrite !aget_repeat by lia.
  split; [reflexivity|]. split; [reflexivity|]. split; [reflexivity|].
  unfold _mm256_setzero_ps. cbn [repeat]. rewrite hsum_float_8_lanes. ring.
Qed.

Lemma q2_K_row_layouts M1 M2 iy nb q8a q8b vx bx ix :
  1 <= M1 <= 2 -> 2 < M2 -> 0 <= iy < M1 ->
  aget 0 q8a iy = aget 0 q8b iy ->
  accd_rel f_0_25 M1 M2 iy (q2_K_row hp M1 nb q8a vx bx ix) (q2_K_row hp M2 nb q8b vx bx ix).
Proof.
  intros HM1 HM2 Hiy Hq8. unfold q2_K_row.
  destruct (Z.le_gt_cases nb 0) as [Hnb|Hnb].
  - rewrite !for_loop_nonpos by lia. now apply accd_rel_zero.
  - apply (for_loop_rel2 (fun _ a b => accd_rel f_0_25 M1 M2 iy a b)).
    + now apply accd_rel_zero.
    + intros k a b _ Hab. cbv zeta. now apply q2_K_block_layouts.
    + lia.
Qed.

End Q2_K_exact.

Lemma aget_Q8 M vy by_ iy :
  0 <= iy < M -> aget 0 (Q8 M vy by_) iy = vy + to_int (iy * to_int by_).
Proof.
  intros Hiy. unfold aget, Q8.
  set (f := fun k : nat => vy + to_int (Z.of_nat k * to_int by_)).
  rewrite (nth_indep _ 0 (f 0%nat)) by (rewrite length_map, length_seq; lia).
  rewrite map_nth, seq_nth by lia. subst f. cbv beta. cbn [Nat.add].
  now rewrite Z2Nat.id by lia.
Qed.

(** *** The integer accumulators of Q4_K *)

Lemma s16_byte b : 0 <= b < 256 -> s16 (b mod 256 + 256 * ((b / 256) mod 256)) = b.
Proof.
  intros Hb. rewrite lane16_byte by lia. unfold s16.
  rewrite Z.mod_small by lia. destruct (Z.ltb_spec b 32768); lia.
Qed.

Lemma shuffle_8_lanes (b : list Z) k :
  length b = 8%nat -> Forall (fun v => 0 <= v < 256) b -> 0 <= k < 8 ->
  i16s (_mm256_shuffle_epi8 (MM256_SET_M128I (bytes16 b) (bytes16 b)) (get_scale_shuffle_8 k))
  = repeat (nth (Z.to_nat k) b 0) 16.
Proof.
  intros Hl Hb Hk.
  destruct (length_8 b Hl) as (b0 & b1 & b2 & b3 & b4 & b5 & b6 & b7 & ->).
  repeat match goal with H : Forall _ (_ :: _) |- _ => inversion H; clear H; subst end.
  assert (Hc : k = 0 \/ k = 1 \/ k = 2 \/ k = 3 \/ k = 4 \/ k = 5 \/ k = 6 \/ k = 7) by lia.
  destruct Hc as [->|[->|[->|[->|[->|[->|[->| ->]]]]]]];
    match goal with
    | |- context [get_scale_shuffle_8 ?c] =>
        let m := eval vm_compute in (get_scale_shuffle_8 c) in
        change (get_scale_shuffle_8 c) with m
    end;
    cbv - [Z.modulo Z.div s16 Z.add Z.mul];
    rewrite !s16_byte by assumption; reflexivity.
Qed.

Lemma q4_sc128_bytes utmp :
  q4_sc128 utmp = bytes16 (bytes_of32 (u32 (nth 0 utmp 0)) ++ bytes_of32 (u32 (nth 1 utmp 0))).
Proof. reflexivity. Qed.

Lemma bytes_of32_range w : Forall (fun v => 0 <= v < 256) (bytes_of32 w).
Proof. unfold bytes_of32. repeat constructor; apply Z.mod_pos_bound; lia. Qed.

(** The scale registers of Q4_K and Q5_K: every 16-bit lane is one byte of
    [utmp]. *)
Lemma q4_K_scale_lanes utmp k :
  0 <= k < 8 ->
  Forall (fun v => - 255 <= v <= 255)
    (i16s (_mm256_shuffle_epi8 (MM256_SET_M128I (q4_sc128 utmp) (q4_sc128 utmp))
                               (get_scale_shuffle_8 k))).
Proof.
  intros Hk. rewrite q4_sc128_bytes.
  assert (Hb : Forall (fun v => 0 <= v < 256)
                 (bytes_of32 (u32 (nth 0 utmp 0)) ++ bytes_of32 (u32 (nth 1 utmp 0)))).
  { apply Forall_app. split; apply bytes_of32_range. }
  rewrite shuffle_8_lanes; [| reflexivity | exact Hb | exact Hk].
  apply Forall_forall. intros v Hv. apply repeat_spec in Hv. subst v.
  rewrite Forall_forall in Hb.
  destruct (nth_in_or_default (Z.to_nat k)
              (bytes_of32 (u32 (nth 0 utmp 0)) ++ bytes_of32 (u32 (nth 1 utmp 0))) 0)
    as [Hin|E0].
  - specialize (Hb _ Hin). cbv beta in Hb. lia.
  - rewrite E0. lia.
Qed.

(** The products of one plane with bounded scales: if the pair sums of the
    scaled bytes fit 16 bits, [vpmaddubsw] does not saturate and [vpmaddwd]
    does not wrap. *)
Lemma madd_maddubs_scaled (c bs bp : Z) sc a y :
  1 <= c -> 0 <= bs -> 0 <= bp -> c * (2 * bs * bp) <= 2147483647 ->
  Forall (fun v => - bs <= v <= bs) (i16s sc) ->
  Forall (fun v => - bp <= v <= bp) (pair_dot a (map s8 y)) ->
  Forall (fun v => -32768 <= c * v <= 32767) (pair_dot a (map s8 y)) ->
  i32s (_mm256_madd_epi16 sc (_mm256_maddubs_epi16 a y))
    = pair_dot (i16s sc) (pair_dot a (map s8 y)) /\
  i32s (_mm256_madd_epi16 sc (_mm256_maddubs_epi16 (map (fun b => c * b) a) y))
    = map (fun v => c * v) (pair_dot (i16s sc) (pair_dot a (map s8 y))) /\
  Forall (fun v => - (2 * bs * bp) <= v <= 2 * bs * bp)
    (pair_dot (i16s sc) (pair_dot a (map s8 y))).
Proof.
  intros Hc Hbs Hbp Hfit Hsc HP HPc.
  pose proof (pair_dot_bound bs bp (i16s sc) _ Hsc HP) as HA.
  assert (HP16 : Forall (fun v => -32768 <= v <= 32767) (pair_dot a (map s8 y))).
  { eapply Forall_weaken; [|exact HPc]. cbv beta. intros. nia. }
  assert (HPc' : Forall (fun v => -32768 <= v <= 32767)
                   (pair_dot (map (fun b => c * b) a) (map s8 y))).
  { rewrite pair_dot_scale_l. now apply Forall_map. }
  unfold _mm256_madd_epi16. rewrite !i32s_madd, !i16s_maddubs by assumption.
  rewrite pair_dot_scale_l, pair_dot_scale_r.
  split; [|split].
  - apply map_s32_id. eapply Forall_weaken; [|exact HA]. cbv beta. intros. nia.
  - apply map_s32_id. apply Forall_map.
    eapply Forall_weaken; [|exact HA]. cbv beta. intros. nia.
  - exact HA.
Qed.

Lemma land_15_nibble b : 0 <= b < 256 -> Z.land (Z.shiftr b 4) 15 = Z.shiftr b 4.
Proof.
  intros Hb. change 15 with (Z.ones 4). rewrite Z.land_ones by lia.
  rewrite Z.shiftr_div_pow2 by lia. change (2 ^ 4) with 16.
  apply Z.mod_small. Z.div_mod_to_equations. lia.
Qed.

Lemma map_ext_Forall {A B} (P : A -> Prop) (f g : A -> B) l :
  (forall a, P a -> f a = g a) -> Forall P l -> map f l = map g l.
Proof. intros Hfg. induction 1; cbn [map]; f_equal; auto. Qed.

(** The products of one step of the Q4_K loop on one column, for the two
    layouts. *)
Lemma q4_K_products v scl sch yl yh :
  length v = 32%nat -> bytes_ok v ->
  Forall (fun x => - 255 <= x <= 255) (i16s scl) ->
  Forall (fun x => - 255 <= x <= 255) (i16s sch) ->
  Forall (fun X => -32768 <= 16 * X <= 32767)
    (pair_dot (map (fun b => Z.shiftr b 4) v) (map s8 yh)) ->
  let q4l := _mm256_and_si256 v (_mm256_set1_epi8 15) in
  let q4hs := _mm256_and_si256 v (_mm256_set1_epi8 (-16)) in
  let q4h := _mm256_and_si256 (_mm256_srli_epi16 v 4) (_mm256_set1_epi8 15) in
  let VA := _mm256_madd_epi16 scl (_mm256_maddubs_epi16 q4l yl) in
  let VB := _mm256_madd_epi16 sch (_mm256_maddubs_epi16 q4h yh) in
  let VBs := _mm256_madd_epi16 sch (_mm256_maddubs_epi16 q4hs yh) in
  Forall (fun x => - 1958400 <= x <= 1958400) (i32s VA) /\
  Forall (fun x => - 1958400 <= x <= 1958400) (i32s VB) /\
  i32s VBs = map (fun x => 16 * x) (i32s VB).
Proof.
  intros Hl Hok Hscl Hsch Hfit. cbv zeta.
  unfold _mm256_and_si256, _mm256_srli_epi16, _mm256_set1_epi8.
  change (u8 15) with 15. change (u8 (-16)) with (16 * 15).
  destruct (high_plane_bytes v 16 4 15 4 Hl Hok ltac:(lia) ltac:(lia) ltac:(cbn; lia))
    as [E1 F1].
  { intros a. apply land_240. }
  rewrite E1.
  assert (Eh : vand (vsrli_epi16 v 4) (repeat 15 32) = map (fun b => Z.shiftr b 4) v).
  { replace (repeat 15 32) with (repeat 15 (length v)) by now rewrite Hl.
    rewrite vand_srli_const by first [apply even_32; assumption | assumption | cbn; lia].
    apply (map_ext_Forall (fun b => 0 <= b < 256)); [apply land_15_nibble|exact Hok]. }
  rewrite Eh in *.
  assert (F0 : Forall (fun b => - 15 <= b <= 15) (vand v (repeat 15 32))).
  { eapply Forall_weaken; [|apply (Forall_vand_const v 15 4 32 Hl); cbn; lia].
    cbv beta. change (2 ^ 4) with 16. intros. lia. }
  assert (F1' : Forall (fun b => - 15 <= b <= 15) (map (fun b => Z.shiftr b 4) v)).
  { eapply Forall_weaken; [|exact F1]. cbv beta. change (2 ^ 4) with 16. intros. lia. }
  pose proof (pair_dot_bound 15 128 _ _ F0 (Forall_s8 yl)) as HPl.
  pose proof (pair_dot_bound 15 128 _ _ F1' (Forall_s8 yh)) as HPh.
  destruct (madd_maddubs_scaled 1 255 (2 * 15 * 128) scl (vand v (repeat 15 32)) yl
              ltac:(lia) ltac:(lia) ltac:(lia) ltac:(lia) Hscl HPl) as (EA & _ & BA).
  { eapply Forall_weaken; [|exact HPl]. cbv beta. intros. lia. }
  destruct (madd_maddubs_scaled 16 255 (2 * 15 * 128) sch (map (fun b => Z.shiftr b 4) v) yh
              ltac:(lia) ltac:(lia) ltac:(lia) ltac:(lia) Hsch HPh Hfit) as (EB & EBs & BB).
  rewrite EA, EB, EBs. repeat split; assumption.
Qed.

Lemma q4_K_high_fits_spec x yqs j :
  q4_K_high_fits x yqs = true -> 0 <= j < 4 ->
  Forall (fun X => -32768 <= 16 * X <= 32767)
    (pair_dot (map (fun b => Z.shiftr b 4) (_mm256_loadu_si256 (q4_qs x) (32 * j)))
              (map s8 (_mm256_loadu_si256 yqs (32 * (2 * j + 1))))).
Proof.
  intros Hf Hj. unfold q4_K_high_fits in Hf. rewrite forallb_forall in Hf.
  specialize (Hf j (proj2 (in_zrange j 4) Hj)). rewrite forallb_forall in Hf.
  apply Forall_forall. intros X HX. specialize (Hf X HX).
  apply andb_true_iff in Hf. destruct Hf as [H1 H2]. lia.
Qed.

Section Layouts_Q4.
Context {F : Type} `{FloatOps F} (hp : Heaps F).

Lemma q4_K_columns_step M1 M2 iy0 q8a q8b i j bnd q4bits scales_l scales_h sumi1 sumi2 :
  1 <= M1 <= 2 -> 2 < M2 -> 0 <= iy0 < M1 ->
  aget 0 q8a iy0 = aget 0 q8b iy0 ->
  length q4bits = 32%nat -> bytes_ok q4bits ->
  length scales_l = 32%nat -> length scales_h = 32%nat ->
  Forall (fun v => - 255 <= v <= 255) (i16s scales_l) ->
  Forall (fun v => - 255 <= v <= 255) (i16s scales_h) ->
  Forall (fun X => -32768 <= 16 * X <= 32767)
    (pair_dot (map (fun b => Z.shiftr b 4) q4bits)
              (map s8 (load_quants hp q8a iy0 i (2 * j + 1)))) ->
  0 <= bnd -> 17 * (bnd + 1958400) <= 2147483647 ->
  layouts_rel 16 bnd M1 M2 iy0 sumi1 sumi2 ->
  let ml := _mm256_set1_epi8 15 in
  let mh := _mm256_set1_epi8 (-16) in
  let q4l := _mm256_and_si256 q4bits ml in
  layouts_rel 16 (bnd + 1958400) M1 M2 iy0
    (for_loop M1 (fun iy sumi =>
      let q8l := load_quants hp q8a iy i (2 * j + 0) in
      let q8h := load_quants hp q8a iy i (2 * j + 1) in
      if M1 <=? 2 then
        let sumi := aset sumi (2 * iy + 0)
          (_mm256_add_epi32 (aget [] sumi (2 * iy + 0))
             (_mm256_madd_epi16 scales_l (_mm256_maddubs_epi16 q4l q8l))) in
        aset sumi (2 * iy + 1)
          (_mm256_add_epi32 (aget [] sumi (2 * iy + 1))
             (_mm256_madd_epi16 scales_h
                (_mm256_maddubs_epi16
                   (if M1 <=? 2 then _mm256_and_si256 q4bits mh
                    else _mm256_and_si256 (_mm256_srli_epi16 q4bits 4) ml) q8h)))
      else
        let pl := _mm256_madd_epi16 scales_l (_mm256_maddubs_epi16 q4l q8l) in
        let ph := _mm256_madd_epi16 scales_h
                    (_mm256_maddubs_epi16
                       (if M1 <=? 2 then _mm256_and_si256 q4bits mh
                        else _mm256_and_si256 (_mm256_srli_epi16 q4bits 4) ml) q8h) in
        aset sumi iy (_mm256_add_epi32 (aget [] sumi iy) (_mm256_add_epi32 pl ph))) sumi1)
    (for_loop M2 (fun iy sumi =>
      let q8l := load_quants hp q8b iy i (2 * j + 0) in
      let q8h := load_quants hp q8b iy i (2 * j + 1) in
      if M2 <=? 2 then
        let sumi := aset sumi (2 * iy + 0)
          (_mm256_add_epi32 (aget [] sumi (2 * iy + 0))
             (_mm256_madd_epi16 scales_l (_mm256_maddubs_epi16 q4l q8l))) in
        aset sumi (2 * iy + 1)
          (_mm256_add_epi32 (aget [] sumi (2 * iy + 1))
             (_mm256_madd_epi16 scales_h
                (_mm256_maddubs_epi16
                   (if M2 <=? 2 then _mm256_and_si256 q4bits mh
                    else _mm256_and_si256 (_mm256_srli_epi16 q4bits 4) ml) q8h)))
      else
        let pl := _mm256_madd_epi16 scales_l (_mm256_maddubs_epi16 q4l q8l) in
        let ph := _mm256_madd_epi16 scales_h
                    (_mm256_maddubs_epi16
                       (if M2 <=? 2 then _mm256_and_si256 q4bits mh
                        else _mm256_and_si256 (_mm256_srli_epi16 q4bits 4) ml) q8h) in
        aset sumi iy (_mm256_add_epi32 (aget [] sumi iy) (_mm256_add_epi32 pl ph))) sumi2).
Proof.
  intros HM1 HM2 Hiy Hq8 Hlen Hok Lsl Lsh Bsl Bsh Hfits Hbnd Hfit (L1 & L2 & Hrel). cbv zeta.
  destruct (Z.leb_spec M1 2) as [_|]; [|lia].
  destruct (Z.leb_spec M2 2) as [|_]; [lia|].
  unfold vec in *.
  assert (HL1 : 2 * M1 <= Z.of_nat (length sumi1)) by lia.
  assert (HL2 : 0 <= M2 <= Z.of_nat (length sumi2)) by lia.
  assert (HM1' : 0 <= M1) by lia.
  destruct (for_loop_aset2 []
    (fun iy a => _mm256_add_epi32 a (_mm256_madd_epi16 scales_l
        (_mm256_maddubs_epi16 (_mm256_and_si256 q4bits (_mm256_set1_epi8 15))
           (load_quants hp q8a iy i (2 * j + 0)))))
    (fun iy a => _mm256_add_epi32 a (_mm256_madd_epi16 scales_h
        (_mm256_maddubs_epi16 (_mm256_and_si256 q4bits (_mm256_set1_epi8 (-16)))
           (load_quants hp q8a iy i (2 * j + 1)))))
    sumi1 M1 HM1' HL1) as [L1' E1].
  destruct (for_loop_aset []
    (fun iy a => _mm256_add_epi32 a
       (_mm256_add_epi32
          (_mm256_madd_epi16 scales_l
             (_mm256_maddubs_epi16 (_mm256_and_si256 q4bits (_mm256_set1_epi8 15))
                (load_quants hp q8b iy i (2 * j + 0))))
          (_mm256_madd_epi16 scales_h
             (_mm256_maddubs_epi16
                (_mm256_and_si256 (_mm256_srli_epi16 q4bits 4) (_mm256_set1_epi8 15))
                (load_quants hp q8b iy i (2 * j + 1))))))
    sumi2 M2 HL2) as [L2' E2].
  cbv beta iota zeta in L1', E1, L2', E2 |- *.
  name_loop L1' E1 M1 sumi1 r1. name_loop L2' E2 M2 sumi2 r2.
  unfold layouts_rel. unfold vec in *.
  split; [lia|]. split; [lia|].
  destruct (E1 iy0 Hiy) as [E10 E11]. rewrite E10, E11, E2 by lia.
  destruct (Z.ltb_spec iy0 M2); [|lia].
  rewrite <- !(load_quants_eq hp q8a q8b iy0 i) by exact Hq8.
  destruct (q4_K_products q4bits scales_l scales_h
              (load_quants hp q8a iy0 i (2 * j + 0))
              (load_quants hp q8a iy0 i (2 * j + 1)) Hlen Hok Bsl Bsh Hfits)
    as (BA & BB & EBs).
  apply planes_rel_step; try lia; try assumption.
  - unfold _mm256_madd_epi16, _mm256_and_si256. auto 10 using length_load_quants with vlen.
  - unfold _mm256_madd_epi16, _mm256_and_si256, _mm256_srli_epi16.
    auto 10 using length_load_quants with vlen.
  - unfold _mm256_madd_epi16, _mm256_and_si256. auto 10 using length_load_quants with vlen.
Qed.

Lemma length_q4_K_scales utmp k :
  length (_mm256_shuffle_epi8 (MM256_SET_M128I (q4_sc128 utmp) (q4_sc128 utmp))
                              (get_scale_shuffle_8 k)) = 32%nat.
Proof.
  apply length_shuffle_epi8. unfold get_scale_shuffle_8, _mm256_set1_epi16.
  now rewrite length_bytes16, repeat_length.
Qed.

(** The integer accumulators of the two layouts of Q4_K after one
    super-block, when the pair sums of the high nibbles left in place fit
    16 bits: the second accumulator of a column holds 16 times the
    high-nibble sums, and the single accumulator is the first plus these
    sums. *)
Lemma q4_K_sumi_layouts M1 M2 iy q8a q8b x i :
  1 <= M1 <= 2 -> 2 < M2 -> 0 <= iy < M1 ->
  aget 0 q8a iy = aget 0 q8b iy ->
  q4_K_high_fits x (q8_qs (q8_block hp q8a iy i)) = true ->
  layouts_rel 16 7833600 M1 M2 iy (q4_K_sumi hp M1 q8a x i) (q4_K_sumi hp M2 q8b x i).
Proof.
  intros HM1 HM2 Hiy Hq8 Hfits. unfold q4_K_sumi. cbv zeta. change (QK_K / 64) with 4.
  match goal with
  | |- layouts_rel _ _ _ _ _ (snd (for_loop 4 ?f ?s1)) (snd (for_loop 4 ?g ?s2)) =>
      refine (proj2 (proj2 (for_loop_rel2
        (fun k (p1 p2 : Z * list vec) =>
           fst p1 = fst p2 /\ fst p1 = 32 * k /\
           layouts_rel 16 (k * 1958400) M1 M2 iy (snd p1) (snd p2))
        4 f g s1 s2 _ _ _)))
  end.
  - split; [reflexivity|]. split; [reflexivity|]. now apply layouts_rel_zero.
  - intros j [q4 t1] [q4' t2] Hj (Eq & Eq4 & Hrel). cbn [fst snd] in Eq, Eq4, Hrel.
    subst q4' q4. cbv beta iota. cbn [fst snd].
    split; [reflexivity|]. split; [lia|].
    replace ((j + 1) * 1958400) with (j * 1958400 + 1958400) by lia.
    refine (q4_K_columns_step M1 M2 iy q8a q8b i j (j * 1958400)
              (_mm256_loadu_si256 (q4_qs x) (32 * j))
              (_mm256_shuffle_epi8 _ (get_scale_shuffle_8 (2 * j + 0)))
              (_mm256_shuffle_epi8 _ (get_scale_shuffle_8 (2 * j + 1)))
              t1 t2 HM1 HM2 Hiy Hq8 _ _ _ _ _ _ _ _ _ Hrel).
    + apply length_loadu_si256.
    + apply bytes_ok_load.
    + apply length_q4_K_scales.
    + apply length_q4_K_scales.
    + apply q4_K_scale_lanes. lia.
    + apply q4_K_scale_lanes. lia.
    + apply (q4_K_high_fits_spec x _ j Hfits Hj).
    + lia.
    + lia.
  - lia.
Qed.

End Layouts_Q4.

(** *** The float accumulators of Q4_K in exact arithmetic *)

Lemma length_map3 {A B C D} (f : A -> B -> C -> D) x y z :
  length (map3 f x y z) = Nat.min (length x) (Nat.min (length y) (length z)).
Proof.
  revert y z. induction x as [|a x IH]; intros [|b y] [|c z]; cbn [map3 length Nat.min]; auto.
Qed.

Section Q4_K_exact.
Context {F : Type} `{FloatOps F} (fone : F) {E : ExactOps F fone} {E2 : ExactScales F fone}.
Context (hp : Heaps F).

Add Ring exact_ring_q4 : exact_ring.

Lemma length_q4_K_mins_prod utmp q8 iy i :
  length (_mm_cvtepi32_ps
            (_mm_madd_epi16 (q4_mins utmp)
               (_mm_hadd_epi16 (_mm256_extracti128_si256 (load_bsums hp q8 iy i) 0)
                               (_mm256_extracti128_si256 (load_bsums hp q8 iy i) 1)))) = 4%nat.
Proof. reflexivity. Qed.

Lemma q4_K_block_layouts M1 M2 iy q8a q8b x i accd1 accm1 accd2 accm2 :
  1 <= M1 <= 2 -> 2 < M2 -> 0 <= iy < M1 ->
  aget 0 q8a iy = aget 0 q8b iy ->
  q4_K_high_fits x (q8_qs (q8_block hp q8a iy i)) = true ->
  accd_rel f_0_0625 M1 M2 iy accd1 accd2 -> accm_rel M1 M2 iy accm1 accm2 ->
  accd_rel f_0_0625 M1 M2 iy (fst (q4_K_block hp M1 q8a x i (accd1, accm1)))
                             (fst (q4_K_block hp M2 q8b x i (accd2, accm2))) /\
  accm_rel M1 M2 iy (snd (q4_K_block hp M1 q8a x i (accd1, accm1)))
                    (snd (q4_K_block hp M2 q8b x i (accd2, accm2))).
Proof.
  intros HM1 HM2 Hiy Hq8 Hfits (L1 & L2 & La0 & La1 & LA & IH) (Lm1 & Lm2 & Lm & Em).
  pose proof (q4_K_sumi_layouts hp M1 M2 iy q8a q8b x i HM1 HM2 Hiy Hq8 Hfits)
    as (_ & _ & Hsumi).
  unfold q4_K_block, q4_K_mins. cbv zeta. cbn [fst snd].
  destruct (Z.leb_spec M1 2) as [_|]; [|lia].
  destruct (Z.leb_spec M2 2) as [|_]; [lia|].
  set (c := fneg (fp16_to_fp32 (q4_dmin x))). set (d := fp16_to_fp32 (q4_d x)).
  set (utmp := make_q4_scales (q4_scales x)).
  set (sumi1 := q4_K_sumi hp M1 q8a x i) in *. set (sumi2 := q4_K_sumi hp M2 q8b x i) in *.
  clearbody sumi1 sumi2 c d utmp.
  assert (HM1' : 0 <= M1) by lia. unfold fvec in *.
  assert (HL1 : 2 * M1 <= Z.of_nat (length accd1)) by lia.
  assert (HL2 : 0 <= M2 <= Z.of_nat (length accd2)) by lia.
  assert (HLm1 : 0 <= M1 <= Z.of_nat (length accm1)) by lia.
  assert (HLm2 : 0 <= M2 <= Z.of_nat (length accm2)) by lia.
  split.
  - destruct (for_loop_aset2 []
      (fun iy a => _mm256_fmadd_ps (_mm256_set1_ps (fmul d (scale hp q8a iy i)))
                     (_mm256_cvtepi32_ps (aget [] sumi1 (2 * iy + 0))) a)
      (fun iy a => _mm256_fmadd_ps (_mm256_set1_ps (fmul d (scale hp q8a iy i)))
                     (_mm256_cvtepi32_ps (aget [] sumi1 (2 * iy + 1))) a)
      accd1 M1 HM1' HL1) as [Ls1 Es1].
    destruct (for_loop_aset []
      (fun iy a => _mm256_fmadd_ps (_mm256_set1_ps (fmul d (scale hp q8b iy i)))
                     (_mm256_cvtepi32_ps (aget [] sumi2 iy)) a)
      accd2 M2 HL2) as [Ls2 Es2].
    cbv beta iota zeta in Ls1, Es1, Ls2, Es2 |- *.
    name_loop Ls1 Es1 M1 accd1 r1. name_loop Ls2 Es2 M2 accd2 r2.
    unfold accd_rel. unfold fvec in *.
    split; [lia|]. split; [lia|].
    destruct (Es1 iy Hiy) as [E10 E11]. rewrite E10, E11, Es2 by lia.
    destruct (Z.ltb_spec iy M2); [|lia].
    rewrite <- !(scale_eq hp q8a q8b iy i) by exact Hq8.
    unfold _mm256_fmadd_ps, _mm256_cvtepi32_ps.
    apply (layouts_fma fone f_0_0625 16 7833600); try assumption.
    apply exact_0_0625.
  - destruct (for_loop_aset []
      (fun iy a => _mm_fmadd_ps (_mm_set1_ps (fmul c (scale hp q8a iy i)))
         (_mm_cvtepi32_ps
            (_mm_madd_epi16 (q4_mins utmp)
               (_mm_hadd_epi16 (_mm256_extracti128_si256 (load_bsums hp q8a iy i) 0)
                               (_mm256_extracti128_si256 (load_bsums hp q8a iy i) 1)))) a)
      accm1 M1 HLm1) as [Lr1 Er1].
    destruct (for_loop_aset []
      (fun iy a => _mm_fmadd_ps (_mm_set1_ps (fmul c (scale hp q8b iy i)))
         (_mm_cvtepi32_ps
            (_mm_madd_epi16 (q4_mins utmp)
               (_mm_hadd_epi16 (_mm256_extracti128_si256 (load_bsums hp q8b iy i) 0)
                               (_mm256_extracti128_si256 (load_bsums hp q8b iy i) 1)))) a)
      accm2 M2 HLm2) as [Lr2 Er2].
    cbv beta iota zeta in Lr1, Er1, Lr2, Er2 |- *.
    name_loop Lr1 Er1 M1 accm1 r1. name_loop Lr2 Er2 M2 accm2 r2.
    unfold accm_rel. unfold fvec in *.
    split; [lia|]. split; [lia|].
    rewrite Er1, Er2 by lia.
    destruct (Z.ltb_spec iy M1); [|lia]. destruct (Z.ltb_spec iy M2); [|lia].
    rewrite <- !(scale_eq hp q8a q8b iy i), <- !(load_bsums_eq hp q8a q8b iy i) by exact Hq8.
    rewrite <- Em. split; [|reflexivity].
    unfold _mm_fmadd_ps, vfmadd_ps. rewrite length_map3, length_q4_K_mins_prod, Lm.
    reflexivity.
Qed.

Lemma accm_rel_zero M1 M2 iy :
  1 <= M1 <= 2 -> 2 < M2 -> 0 <= iy < M1 ->
  accm_rel M1 M2 iy (repeat (@_mm_setzero_ps F _) (Z.to_nat M1))
                    (repeat (@_mm_setzero_ps F _) (Z.to_nat M2)).
Proof.
  intros HM1 HM2 Hiy. unfold accm_rel. rewrite !repeat_length, !aget_repeat by lia.
  split; [lia|]. split; [lia|]. split; reflexivity.
Qed.

Lemma q4_K_row_layouts M1 M2 iy nb q8a q8b vx bx ix :
  1 <= M1 <= 2 -> 2 < M2 -> 0 <= iy < M1 ->
  aget 0 q8a iy = aget 0 q8b iy ->
  (forall i, 0 <= i < nb ->
     q4_K_high_fits (h_q4 hp (vx + bx * ix) i) (q8_qs (q8_block hp q8a iy i)) = true) ->
  accd_rel f_0_0625 M1 M2 iy (fst (q4_K_row hp M1 nb q8a vx bx ix))
                             (fst (q4_K_row hp M2 nb q8b vx bx ix)) /\
  accm_rel M1 M2 iy (snd (q4_K_row hp M1 nb q8a vx bx ix))
                    (snd (q4_K_row hp M2 nb q8b vx bx ix)).
Proof.
  intros HM1 HM2 Hiy Hq8 Hfits. unfold q4_K_row. cbv zeta.
  destruct (Z.le_gt_cases nb 0) as [Hnb|Hnb].
  - rewrite !for_loop_nonpos by lia. cbn [fst snd].
    split; [now apply (accd_rel_zero fone)|now apply accm_rel_zero].
  - apply (for_loop_rel2 (fun _ (p1 p2 : list fvec * list fvec) =>
             accd_rel f_0_0625 M1 M2 iy (fst p1) (fst p2) /\
             accm_rel M1 M2 iy (snd p1) (snd p2))).
    + cbn [fst snd]. split; [now apply (accd_rel_zero fone)|now apply accm_rel_zero].
    + intros k [a1 m1] [a2 m2] Hk [Ha Hm]. cbn [fst snd] in Ha, Hm.
      apply q4_K_block_layouts; auto.
    + lia.
Qed.

Lemma hsum_q4_single A0 A1 A2 A3 A4 A5 A6 A7 m0 m1 m2 m3 :
  hsum_float_4
    (_mm_add_ps
       (_mm_add_ps (_mm256_castps256_ps128 [A0; A1; A2; A3; A4; A5; A6; A7])
                   (_mm256_extractf128_ps [A0; A1; A2; A3; A4; A5; A6; A7] 1))
       [m0; m1; m2; m3])
  = fadd (fadd (fadd (fadd A0 A4) m0) (fadd (fadd A2 A6) m2))
         (fadd (fadd (fadd A1 A5) m1) (fadd (fadd A3 A7) m3)).
Proof. reflexivity. Qed.

Lemma hsum_float_4_lanes m0 m1 m2 m3 :
  hsum_float_4 [m0; m1; m2; m3] = fadd (fadd m0 m2) (fadd m1 m3).
Proof. reflexivity. Qed.

Lemma length_4 {A} (l : list A) :
  length l = 4%nat -> exists x0 x1 x2 x3, l = [x0; x1; x2; x3].
Proof.
  intros Hl. do 4 (destruct l as [|? l]; [discriminate|]).
  destruct l; [|discriminate]. repeat eexists.
Qed.

(** In exact arithmetic the Q4_K kernels of width at most 2 and of width
    above 2 compute the same value, when the high nibbles do not
    saturate. *)
Lemma q4_K_value_layouts M1 M2 iy nb q8a q8b vx bx ix :
  1 <= M1 <= 2 -> 2 < M2 -> 0 <= iy < M1 ->
  aget 0 q8a iy = aget 0 q8b iy ->
  (forall i, 0 <= i < nb ->
     q4_K_high_fits (h_q4 hp (vx + bx * ix) i) (q8_qs (q8_block hp q8a iy i)) = true) ->
  q4_K_value hp M1 nb q8a vx bx ix iy = q4_K_value hp M2 nb q8b vx bx ix iy.
Proof.
  intros HM1 HM2 Hiy Hq8 Hfits.
  destruct (q4_K_row_layouts M1 M2 iy nb q8a q8b vx bx ix HM1 HM2 Hiy Hq8 Hfits)
    as [(_ & _ & La0 & La1 & LA & IH) (_ & _ & Lm & Em)].
  unfold q4_K_value.
  destruct (q4_K_row hp M1 nb q8a vx bx ix) as [accd1 accm1].
  destruct (q4_K_row hp M2 nb q8b vx bx ix) as [accd2 accm2].
  cbn [fst snd] in *.
  destruct (Z.leb_spec M1 2) as [_|]; [|lia].
  destruct (Z.leb_spec M2 2) as [|_]; [lia|].
  cbv zeta. rewrite IH, <- Em.
  destruct (length_8 _ LA) as (A0 & A1 & A2 & A3 & A4 & A5 & A6 & A7 & ->).
  destruct (length_4 _ Lm) as (m0 & m1 & m2 & m3 & ->).
  rewrite hsum_q4_single, hsum_float_8_lanes, hsum_float_4_lanes. ring.
Qed.

End Q4_K_exact.

Section Q2_K_values.
Context {F : Type} `{FloatOps F} (fone : F) {E : ExactOps F fone} {E2 : ExactScales F fone}.
Context (hp : Heaps F).

(** In exact arithmetic the Q2_K kernels of width at most 2 and of width
    above 2 compute the same value. *)
Lemma q2_K_value_layouts M1 M2 iy nb q8a q8b vx bx ix :
  1 <= M1 <= 2 -> 2 < M2 -> 0 <= iy < M1 ->
  aget 0 q8a iy = aget 0 q8b iy ->
  q2_K_value hp M1 nb q8a vx bx ix iy = q2_K_value hp M2 nb q8b vx bx ix iy.
Proof.
  intros HM1 HM2 Hiy Hq8.
  destruct (q2_K_row_layouts fone hp M1 M2 iy nb q8a q8b vx bx ix HM1 HM2 Hiy Hq8)
    as (_ & _ & _ & _ & _ & IH).
  unfold q2_K_value. cbv zeta.
  destruct (Z.leb_spec M1 2) as [_|]; [|lia].
  destruct (Z.leb_spec M2 2) as [|_]; [lia|].
  exact IH.
Qed.

End Q2_K_values.

Section Writes.
Context {F : Type} `{FloatOps F} {St : Type} (store_at : Z -> F -> St -> St).
Context (hp : Heaps F).

Lemma q2_K_writes M n s bs vx bx vy by_ nrc_x st :
  mul_mat_q2_K_q8_K_T store_at hp M n s bs vx bx vy by_ nrc_x st =
  if negb (Z.rem n QK_K =? 0) then None else
  Some (for_loop nrc_x (fun ix st =>
    for_loop M (fun iy st =>
      store_at (s + (ix + iy * bs))
        (q2_K_value hp M (Z.quot n QK_K) (Q8 M vy by_) vx bx ix iy) st) st) st).
Proof.
  unfold mul_mat_q2_K_q8_K_T.
  destruct (negb (Z.rem n QK_K =? 0)); [reflexivity|].
  cbv zeta. f_equal. apply for_loop_ext. intros ix st' _.
  apply for_loop_ext. intros iy st'' _. unfold q2_K_value. cbv zeta.
  destruct (M <=? 2); reflexivity.
Qed.

Lemma q4_K_writes M n s bs vx bx vy by_ nrc_x st :
  mul_mat_q4_K_q8_K_T store_at hp M n s bs vx bx vy by_ nrc_x st =
  if negb (Z.rem n QK_K =? 0) then None else
  Some (for_loop nrc_x (fun ix st =>
    for_loop M (fun iy st =>
      store_at (s + (ix + iy * bs))
        (q4_K_value hp M (Z.quot n QK_K) (Q8 M vy by_) vx bx ix iy) st) st) st).
Proof.
  unfold mul_mat_q4_K_q8_K_T.
  destruct (negb (Z.rem n QK_K =? 0)); [reflexivity|].
  cbv zeta. f_equal. apply for_loop_ext. intros ix st' _. unfold q4_K_value.
  destruct (q4_K_row hp M (Z.quot n QK_K) (Q8 M vy by_) vx bx ix) as [accd accm].
  apply for_loop_ext. intros iy st'' _. cbv zeta.
  destruct (M <=? 2); reflexivity.
Qed.

End Writes.

(** C5 (as amended).  The kernel of width [M1 <= 2] keeps two accumulators
    per column and the kernel of width [M2 > 2] one.  For Q2_K, after every
    super-block and for every input, the second integer accumulator of a
    column holds 4 times the high-plane sums and the single accumulator is
    the first plus these sums, lane by lane and without wrap-around
    ([layouts_rel]); for Q4_K the same holds with 16, provided that no 16-bit
    pair sum of the high nibbles left in place saturates
    ([q4_K_high_fits]).  Hence, in arithmetic that does not round, the two
    kernels write the same value for the same row and column
    ([q2_K_value], [q4_K_value] are the values the kernels store).  In
    binary32 the two values can differ by rounding. *)
Theorem layouts_agree {F : Type} `{FloatOps F} (fone : F) (hp : Heaps F)
  (M1 M2 nb vx bx vy by_ ix iy : Z) :
  1 <= M1 <= 2 -> 2 < M2 -> 0 <= iy < M1 ->
  (forall (St : Type) (store_at : Z -> F -> St -> St) M n s bs nrc_x st,
     mul_mat_q2_K_q8_K_T store_at hp M n s bs vx bx vy by_ nrc_x st =
       (if negb (Z.rem n QK_K =? 0) then None else
        Some (for_loop nrc_x (fun ix st =>
          for_loop M (fun iy st =>
            store_at (s + (ix + iy * bs))
              (q2_K_value hp M (Z.quot n QK_K) (Q8 M vy by_) vx bx ix iy) st) st) st)) /\
     mul_mat_q4_K_q8_K_T store_at hp M n s bs vx bx vy by_ nrc_x st =
       (if negb (Z.rem n QK_K =? 0) then None else
        Some (for_loop nrc_x (fun ix st =>
          for_loop M (fun iy st =>
            store_at (s + (ix + iy * bs))
              (q4_K_value hp M (Z.quot n QK_K) (Q8 M vy by_) vx bx ix iy) st) st) st))) /\
  (forall x i,
     layouts_rel 4 201326592 M1 M2 iy
       (q2_K_sumi hp M1 (Q8 M1 vy by_) x i) (q2_K_sumi hp M2 (Q8 M2 vy by_) x i)) /\
  (forall x i,
     q4_K_high_fits x (q8_qs (q8_block hp (Q8 M1 vy by_) iy i)) = true ->
     layouts_rel 16 7833600 M1 M2 iy
       (q4_K_sumi hp M1 (Q8 M1 vy by_) x i) (q4_K_sumi hp M2 (Q8 M2 vy by_) x i)) /\
  (ExactOps F fone -> ExactScales F fone ->
   q2_K_value hp M1 nb (Q8 M1 vy by_) vx bx ix iy
     = q2_K_value hp M2 nb (Q8 M2 vy by_) vx bx ix iy /\
   ((forall i, 0 <= i < nb ->
       q4_K_high_fits (h_q4 hp (vx + bx * ix) i)
                      (q8_qs (q8_block hp (Q8 M1 vy by_) iy i)) = true) ->
    q4_K_value hp M1 nb (Q8 M1 vy by_) vx bx ix iy
      = q4_K_value hp M2 nb (Q8 M2 vy by_) vx bx ix iy)).
Proof.
  intros HM1 HM2 Hiy.
  assert (Hq8 : aget 0 (Q8 M1 vy by_) iy = aget 0 (Q8 M2 vy by_) iy)
    by (rewrite !aget_Q8 by lia; reflexivity).
  split; [|split; [|split]].
  - intros St store_at M n s bs nrc_x st. split; [apply q2_K_writes|apply q4_K_writes].
  - intros x i. now apply q2_K_sumi_layouts.
  - intros x i Hfits. now apply q4_K_sumi_layouts.
  - intros E E2. split.
    + now apply (q2_K_value_layouts fone).
    + intros Hfits. now apply (q4_K_value_layouts fone).
Qed.

Lemma layouts_agree_witness :
  (1 <= 1 <= 2 /\ 2 < 4 /\ 0 <= 0 < 1) /\
  (ExactOps Qcanon.Qc (Rational.of_Z 1) /\ ExactScales Qcanon.Qc (Rational.of_Z 1)) /\
  (forall i, 0 <= i < 1 ->
     q4_K_high_fits (h_q4 corr_demo (0 + 144 * 0) i)
                    (q8_qs (q8_block corr_demo (Q8 1 0 292) 0 i)) = true) /\
  q2_K_value corr_demo 1 1 (Q8 1 0 292) 0 84 0 0
    = q2_K_value corr_demo 4 1 (Q8 4 0 292) 0 84 0 0 /\
  q4_K_value corr_demo 1 1 (Q8 1 0 292) 0 144 0 0
    = q4_K_value corr_demo 4 1 (Q8 4 0 292) 0 144 0 0.
Proof.
  assert (H1 : 1 <= 1 <= 2) by lia. assert (H2 : 2 < 4) by lia. assert (H3 : 0 <= 0 < 1) by lia.
  assert (Hf : forall i, 0 <= i < 1 ->
     q4_K_high_fits (h_q4 corr_demo (0 + 144 * 0) i)
                    (q8_qs (q8_block corr_demo (Q8 1 0 292) 0 i)) = true).
  { intros i _. vm_compute. reflexivity. }
  split; [auto|]. split; [split; [exact rational_exact|exact rational_scales]|].
  split; [exact Hf|]. split.
  - exact (proj1 (proj2 (proj2 (proj2
      (layouts_agree (Rational.of_Z 1) corr_demo 1 4 1 0 84 0 292 0 0 H1 H2 H3)))
      rational_exact rational_scales)).
  - exact (proj2 (proj2 (proj2 (proj2
      (layouts_agree (Rational.of_Z 1) corr_demo 1 4 1 0 144 0 292 0 0 H1 H2 H3)))
      rational_exact rational_scales) Hf).
Defined.


(** * Further properties *)

(** ** The scale shuffles *)

Lemma length_32 {A} (l : list A) :
  length l = 32%nat ->
  exists x0 x1 x2 x3 x4 x5 x6 x7 x8 x9 x10 x11 x12 x13 x14 x15
         x16 x17 x18 x19 x20 x21 x22 x23 x24 x25 x26 x27 x28 x29 x30 x31,
    l = [x0; x1; x2; x3; x4; x5; x6; x7; x8; x9; x10; x11; x12; x13; x14; x15;
         x16; x17; x18; x19; x20; x21; x22; x23; x24; x25; x26; x27; x28; x29; x30; x31].
Proof.
  intros Hl. do 32 (destruct l as [|? l]; [discriminate|]).
  destruct l; [|discriminate]. repeat eexists.
Qed.

(** X1.  [get_scale_shuffle_8 k] broadcasts 16-bit lane [k] of each 128-bit half
    of a register to the eight lanes of that half. *)
Theorem get_scale_shuffle_8_broadcast (a : vec) (k : Z) :
  length a = 32%nat -> 0 <= k < 8 ->
  lanes16 (_mm256_shuffle_epi8 a (get_scale_shuffle_8 k)) =
  repeat (nth (Z.to_nat k) (lanes16 a) 0) 8 ++ repeat (nth (8 + Z.to_nat k) (lanes16 a) 0) 8.
Proof.
  intros Hl Hk.
  destruct (length_32 a Hl) as
    (x0 & x1 & x2 & x3 & x4 & x5 & x6 & x7 & x8 & x9 & x10 & x11 & x12 & x13 & x14 & x15 &
     x16 & x17 & x18 & x19 & x20 & x21 & x22 & x23 & x24 & x25 & x26 & x27 & x28 & x29 &
     x30 & x31 & ->).
  assert (Hc : k = 0 \/ k = 1 \/ k = 2 \/ k = 3 \/ k = 4 \/ k = 5 \/ k = 6 \/ k = 7) by lia.
  destruct Hc as [->|[->|[->|[->|[->|[->|[->| ->]]]]]]];
    match goal with
    | |- context [get_scale_shuffle_8 ?c] =>
        let m := eval vm_compute in (get_scale_shuffle_8 c) in
        change (get_scale_shuffle_8 c) with m
    end; reflexivity.
Qed.

Lemma get_scale_shuffle_8_broadcast_witness :
  lanes16 (_mm256_shuffle_epi8 (bytes16 (map Z.of_nat (seq 100 16))) (get_scale_shuffle_8 3)) =
  repeat 103 8 ++ repeat 111 8.
Proof.
  apply (get_scale_shuffle_8_broadcast (bytes16 (map Z.of_nat (seq 100 16))) 3);
    [reflexivity | lia].
Defined.

(** X2.  [get_scale_shuffle_16 i] broadcasts lane [2 * i] of the low half to the
    low half and lane [2 * i + 1] of the high half to the high half. *)
Theorem get_scale_shuffle_16_broadcast (a : vec) (i : Z) :
  length a = 32%nat -> 0 <= i < 4 ->
  lanes16 (_mm256_shuffle_epi8 a (get_scale_shuffle_16 i)) =
  repeat (nth (2 * Z.to_nat i) (lanes16 a) 0) 8 ++
  repeat (nth (8 + (2 * Z.to_nat i + 1)) (lanes16 a) 0) 8.
Proof.
  intros Hl Hi.
  destruct (length_32 a Hl) as
    (x0 & x1 & x2 & x3 & x4 & x5 & x6 & x7 & x8 & x9 & x10 & x11 & x12 & x13 & x14 & x15 &
     x16 & x17 & x18 & x19 & x20 & x21 & x22 & x23 & x24 & x25 & x26 & x27 & x28 & x29 &
     x30 & x31 & ->).
  assert (Hc : i = 0 \/ i = 1 \/ i = 2 \/ i = 3) by lia.
  destruct Hc as [->|[->|[->| ->]]];
    match goal with
    | |- context [get_scale_shuffle_16 ?c] =>
        let m := eval vm_compute in (get_scale_shuffle_16 c) in
        change (get_scale_shuffle_16 c) with m
    end; reflexivity.
Qed.

Lemma get_scale_shuffle_16_broadcast_witness :
  lanes16 (_mm256_shuffle_epi8 (bytes16 (map Z.of_nat (seq 100 16))) (get_scale_shuffle_16 1)) =
  repeat 102 8 ++ repeat 111 8.
Proof.
  apply (get_scale_shuffle_16_broadcast (bytes16 (map Z.of_nat (seq 100 16))) 1);
    [reflexivity | lia].
Defined.


(** ** What a kernel writes *)

Section KernelWrites.
Context {F : Type} `{FloatOps F} {St : Type} (store_at : Z -> F -> St -> St).
Context (hp : Heaps F).

Lemma q5_K_writes M n s bs vx bx vy by_ nrc_x st :
  mul_mat_q5_K_q8_K_T store_at hp M n s bs vx bx vy by_ nrc_x st =
  if negb (Z.rem n QK_K =? 0) then None else
  Some (for_loop nrc_x (fun ix st =>
    for_loop M (fun iy st =>
      store_at (s + (ix + iy * bs))
        (q5_K_value hp M (Z.quot n QK_K) (Q8 M vy by_) vx bx ix iy) st) st) st).
Proof.
  unfold mul_mat_q5_K_q8_K_T.
  destruct (negb (Z.rem n QK_K =? 0)); [reflexivity|].
  cbv zeta. f_equal. apply for_loop_ext. intros ix st' _. unfold q5_K_value.
  destruct (q5_K_row hp M (Z.quot n QK_K) (Q8 M vy by_) vx bx ix) as [accd accm].
  reflexivity.
Qed.

Lemma iq4_xs_writes M n s bs vx bx vy by_ nrc_x st :
  mul_mat_iq4_xs_q8_K_T store_at hp M n s bs vx bx vy by_ nrc_x st =
  if negb (Z.rem n QK_K =? 0) then None else
  Some (for_loop nrc_x (fun ix st =>
    for_loop M (fun iy st =>
      store_at (s + (ix + iy * bs))
        (iq4_xs_value hp M (Z.quot n QK_K) (Q8 M vy by_) vx bx ix iy) st) st) st).
Proof. reflexivity. Qed.

(** Every kernel is its assertion followed by one store per row and
    column. *)
Lemma kernel_stores f M n s bs vx bx vy by_ nrc_x st :
  kernel_of store_at hp f M n s bs vx bx vy by_ nrc_x st =
  if negb (Z.rem n QK_K =? 0) then None else
  Some (for_loop nrc_x (fun ix st =>
    for_loop M (fun iy st =>
      store_at (s + (ix + iy * bs))
        (value_of hp f M (Z.quot n QK_K) (Q8 M vy by_) vx bx ix iy) st) st) st).
Proof.
  destruct f; cbn [kernel_of value_of].
  - apply q2_K_writes.
  - apply q3_K_writes.
  - apply q4_K_writes.
  - apply q5_K_writes.
  - apply q6_K_writes.
  - apply iq4_xs_writes.
Qed.

End KernelWrites.

(** The nested store loops, as a list of writes. *)
Lemma for_loop_tile_log {F : Type} (val : Z -> Z -> F) M s bs nrc_x (log : write_log F) :
  for_loop nrc_x (fun ix st =>
    for_loop M (fun iy st => log_store (s + (ix + iy * bs)) (val ix iy) st) st) log
  = log ++ tile_writes val M s bs nrc_x.
Proof.
  assert (Hrow : forall ix l,
    for_loop M (fun iy st => log_store (s + (ix + iy * bs)) (val ix iy) st) l
    = l ++ map (fun iy => (s + (ix + iy * bs), val ix iy)) (zrange M)).
  { intros ix l. destruct (Z.le_gt_cases M 0) as [HM|HM].
    - rewrite for_loop_nonpos, zrange_nonpos by lia. now rewrite app_nil_r.
    - apply (for_loop_ind (fun k st =>
        st = l ++ map (fun iy => (s + (ix + iy * bs), val ix iy)) (zrange k))).
      + now rewrite zrange_0, app_nil_r.
      + intros k st' Hk ->. unfold log_store.
        rewrite zrange_succ, map_app, app_assoc by lia. reflexivity.
      + lia. }
  unfold tile_writes.
  destruct (Z.le_gt_cases nrc_x 0) as [Hx|Hx].
  - rewrite for_loop_nonpos, (zrange_nonpos nrc_x) by lia. now rewrite app_nil_r.
  - apply (for_loop_ind (fun k st =>
      st = log ++ flat_map (fun ix => map (fun iy => (s + (ix + iy * bs), val ix iy))
                                          (zrange M)) (zrange k))).
    + now rewrite zrange_0, app_nil_r.
    + intros k st' Hk ->. rewrite Hrow, zrange_succ, flat_map_app by lia.
      cbn [flat_map]. now rewrite app_nil_r, app_assoc.
    + lia.
Qed.

Lemma kernel_log {F : Type} `{FloatOps F} (hp : Heaps F) f M n s bs vx bx vy by_ nrc_x
  (log : write_log F) :
  kernel_of log_store hp f M n s bs vx bx vy by_ nrc_x log =
  if negb (Z.rem n QK_K =? 0) then None else
  Some (log ++ tile_writes (fun ix iy =>
                  value_of hp f M (Z.quot n QK_K) (Q8 M vy by_) vx bx ix iy) M s bs nrc_x).
Proof.
  rewrite kernel_stores. destruct (negb (Z.rem n QK_K =? 0)); [reflexivity|].
  now rewrite for_loop_tile_log.
Qed.

(** X3.  Each of the six kernels, at every width: the assertion fails exactly
    when [n] is not a multiple of [QK_K]; otherwise the kernel makes
    [nrc_x * M] writes and nothing else, one to [C[s + ix + iy * bs]] for
    each row [ix] and column [iy], row by row, and the value written does
    not depend on what [C] held. *)
Theorem kernels_write_tile {F : Type} `{FloatOps F} (hp : Heaps F) (f : family)
  (M n s bs vx bx vy by_ nrc_x : Z) (log : write_log F) :
  kernel_of log_store hp f M n s bs vx bx vy by_ nrc_x log =
  (if negb (Z.rem n QK_K =? 0) then None else
   Some (log ++ tile_writes (fun ix iy =>
                   value_of hp f M (Z.quot n QK_K) (Q8 M vy by_) vx bx ix iy) M s bs nrc_x)) /\
  length (tile_writes (fun ix iy =>
            value_of hp f M (Z.quot n QK_K) (Q8 M vy by_) vx bx ix iy) M s bs nrc_x)
  = (Z.to_nat nrc_x * Z.to_nat M)%nat.
Proof.
  split; [apply kernel_log|].
  unfold tile_writes.
  assert (forall l : list Z,
    length (flat_map (fun ix => map (fun iy =>
      (s + (ix + iy * bs),
       value_of hp f M (Z.quot n QK_K) (Q8 M vy by_) vx bx ix iy)) (zrange M)) l)
    = (length l * Z.to_nat M)%nat) as E.
  { induction l as [|a l IH]; [reflexivity|].
    cbn [flat_map length]. rewrite length_app, IH, length_map, length_zrange. lia. }
  now rewrite E, length_zrange.
Qed.

(** *** The writes in memory *)

Lemma for_loop_tile_replay {F St : Type} (store_at : Z -> F -> St -> St)
  (val : Z -> Z -> F) M s bs nrc_x (st : St) :
  for_loop nrc_x (fun ix st =>
    for_loop M (fun iy st => store_at (s + (ix + iy * bs)) (val ix iy) st) st) st
  = replay store_at (tile_writes val M s bs nrc_x) st.
Proof.
  assert (Hrow : forall ix st0,
    for_loop M (fun iy st => store_at (s + (ix + iy * bs)) (val ix iy) st) st0
    = replay store_at (map (fun iy => (s + (ix + iy * bs), val ix iy)) (zrange M)) st0).
  { intros ix st0. destruct (Z.le_gt_cases M 0) as [HM|HM].
    - rewrite for_loop_nonpos, zrange_nonpos by lia. reflexivity.
    - apply (for_loop_ind (fun k st' =>
        st' = replay store_at (map (fun iy => (s + (ix + iy * bs), val ix iy)) (zrange k)) st0)).
      + now rewrite zrange_0.
      + intros k st' Hk ->. unfold replay.
        rewrite zrange_succ, map_app, fold_left_app by lia. reflexivity.
      + lia. }
  unfold tile_writes.
  destruct (Z.le_gt_cases nrc_x 0) as [Hx|Hx].
  - rewrite for_loop_nonpos, (zrange_nonpos nrc_x) by lia. reflexivity.
  - apply (for_loop_ind (fun k st' =>
      st' = replay store_at
              (flat_map (fun ix => map (fun iy => (s + (ix + iy * bs), val ix iy))
                                       (zrange M)) (zrange k)) st)).
    + now rewrite zrange_0.
    + intros k st' Hk ->. rewrite Hrow, zrange_succ, flat_map_app by lia.
      cbn [flat_map]. rewrite app_nil_r. unfold replay. now rewrite fold_left_app.
    + lia.
Qed.

Lemma replay_mem_notin {F : Type} (l : list (Z * F)) (m : Z -> F) a :
  ~ In a (map fst l) -> replay mem_store l m a = m a.
Proof.
  revert m. induction l as [|[a' v'] l IH]; intros m Hn; [reflexivity|].
  cbn [replay fold_left fst snd map In] in *. fold (replay mem_store l (mem_store a' v' m)).
  rewrite IH by tauto. unfold mem_store.
  destruct (Z.eqb_spec a a'); [subst; tauto|reflexivity].
Qed.

(** The last write to an address wins; if all writes to it carry the same
    value, that value is read back. *)
Lemma replay_mem_in {F : Type} (l : list (Z * F)) (m : Z -> F) a v :
  In a (map fst l) -> (forall v', In (a, v') l -> v' = v) ->
  replay mem_store l m a = v.
Proof.
  revert m. induction l as [|[a' v'] l IH]; intros m Hin Hall; [destruct Hin|].
  cbn [replay fold_left fst snd map In] in *. fold (replay mem_store l (mem_store a' v' m)).
  destruct (in_dec Z.eq_dec a (map fst l)) as [Hl|Hl].
  - apply IH; auto.
  - rewrite replay_mem_notin by assumption.
    destruct Hin as [->|Hin]; [|tauto].
    unfold mem_store. rewrite Z.eqb_refl. apply Hall. now left.
Qed.

Lemma in_tile_writes {F : Type} (val : Z -> Z -> F) M s bs nrc_x a v :
  In (a, v) (tile_writes val M s bs nrc_x) <->
  exists ix iy, 0 <= ix < nrc_x /\ 0 <= iy < M /\ a = s + (ix + iy * bs) /\ v = val ix iy.
Proof.
  unfold tile_writes. rewrite in_flat_map. split.
  - intros (ix & Hix & Hin). apply in_map_iff in Hin. destruct Hin as (iy & E & Hiy).
    apply in_zrange in Hix. apply in_zrange in Hiy. inversion E; subst.
    exists ix, iy. auto.
  - intros (ix & iy & Hix & Hiy & -> & ->). exists ix. split; [now apply in_zrange|].
    apply in_map_iff. exists iy. split; [reflexivity|now apply in_zrange].
Qed.

Lemma tile_address_inj bs nrc_x ix iy ix' iy' :
  nrc_x <= bs -> 0 <= ix < nrc_x -> 0 <= ix' < nrc_x ->
  ix + iy * bs = ix' + iy' * bs -> ix = ix' /\ iy = iy'.
Proof.
  intros Hbs Hix Hix' E.
  assert (iy = iy') by nia. subst. lia.
Qed.

Lemma kernel_memory_lemma {F : Type} `{FloatOps F} (hp : Heaps F) f M n s bs vx bx vy by_ nrc_x
  (m : Z -> F) :
  Z.rem n QK_K = 0 -> nrc_x <= bs ->
  exists m',
    kernel_of mem_store hp f M n s bs vx bx vy by_ nrc_x m = Some m' /\
    (forall ix iy, 0 <= ix < nrc_x -> 0 <= iy < M ->
       m' (s + (ix + iy * bs)) = value_of hp f M (Z.quot n QK_K) (Q8 M vy by_) vx bx ix iy) /\
    (forall a, (forall ix iy, 0 <= ix < nrc_x -> 0 <= iy < M -> a <> s + (ix + iy * bs)) ->
       m' a = m a).
Proof.
  intros Hn Hbs. rewrite kernel_stores, Hn. cbn [Z.eqb negb].
  rewrite for_loop_tile_replay. eexists. split; [reflexivity|]. split.
  - intros ix iy Hix Hiy. apply replay_mem_in.
    + apply in_map_iff. eexists (_, _). split; [reflexivity|].
      apply in_tile_writes. exists ix, iy. auto.
    + intros v' Hin. apply in_tile_writes in Hin.
      destruct Hin as (ix' & iy' & Hix' & Hiy' & E & ->).
      assert (ix + iy * bs = ix' + iy' * bs) as E' by lia.
      destruct (tile_address_inj bs nrc_x ix iy ix' iy' Hbs Hix Hix' E') as [-> ->].
      reflexivity.
  - intros a Ha. apply replay_mem_notin. intros Hin.
    apply in_map_iff in Hin. destruct Hin as ([a' v'] & E & Hin). cbn [fst] in E. subst a'.
    apply in_tile_writes in Hin. destruct Hin as (ix & iy & Hix & Hiy & E & _).
    exact (Ha ix iy Hix Hiy E).
Qed.

(** X4.  Each of the six kernels, at every width, on a memory [m] for [C]: when
    [n] is a multiple of [QK_K] and the rows of a column do not run into
    the next column ([nrc_x <= bs]), the kernel returns a memory that
    holds at [s + ix + iy * bs] the value of row [ix] and column [iy] and
    is [m] everywhere else. *)
Theorem kernels_fill_tile {F : Type} `{FloatOps F} (hp : Heaps F) (f : family)
  (M n s bs vx bx vy by_ nrc_x : Z) (m : Z -> F) :
  Z.rem n QK_K = 0 -> nrc_x <= bs ->
  exists m',
    kernel_of mem_store hp f M n s bs vx bx vy by_ nrc_x m = Some m' /\
    (forall ix iy, 0 <= ix < nrc_x -> 0 <= iy < M ->
       m' (s + (ix + iy * bs)) = value_of hp f M (Z.quot n QK_K) (Q8 M vy by_) vx bx ix iy) /\
    (forall a, (forall ix iy, 0 <= ix < nrc_x -> 0 <= iy < M -> a <> s + (ix + iy * bs)) ->
       m' a = m a).
Proof. apply kernel_memory_lemma. Qed.

Lemma kernels_fill_tile_witness :
  Z.rem 256 QK_K = 0 /\ 3 <= 5 /\
  exists m',
    kernel_of mem_store corr_demo Q6_K 2 256 100 5 0 210 0 292 3 (fun _ => Rational.of_Z 7)
      = Some m' /\
    m' (100 + (2 + 1 * 5)) = value_of corr_demo Q6_K 2 (Z.quot 256 QK_K) (Q8 2 0 292) 0 210 2 1 /\
    m' 99 = Rational.of_Z 7.
Proof.
  assert (H1 : Z.rem 256 QK_K = 0) by reflexivity. assert (H2 : 3 <= 5) by lia.
  split; [exact H1|]. split; [exact H2|].
  destruct (kernels_fill_tile corr_demo Q6_K 2 256 100 5 0 210 0 292 3
              (fun _ => Rational.of_Z 7) H1 H2) as (m' & E & Hin & Hout).
  exists m'. split; [exact E|]. split.
  - apply Hin; lia.
  - apply Hout. intros ix iy Hix Hiy. lia.
Defined.


(** ** The tiling shim on arbitrary kernels *)

Section TilingRuns.
Context {St : Type} (mm : Z -> @mul_mat_t St).
Variables n s bs vx bx vy by_ nrc_x : Z.

Lemma run_calls_app l1 l2 (o : option St) :
  run_calls mm n s bs vx bx vy by_ nrc_x (l1 ++ l2) o
  = run_calls mm n s bs vx bx vy by_ nrc_x l2 (run_calls mm n s bs vx bx vy by_ nrc_x l1 o).
Proof. unfold run_calls. apply fold_left_app. Qed.

Lemma run_calls_None l : run_calls mm n s bs vx bx vy by_ nrc_x l None = None.
Proof. induction l as [|p l IH]; [reflexivity|exact IH]. Qed.

Lemma for_loop_calls M c q (st : St) :
  for_loop q (fun iy ost =>
      match ost with
      | None => None
      | Some st => mm M n (s + c * bs + M * iy * bs) bs vx bx
                     (vy + c * by_ + M * iy * by_) by_ nrc_x st
      end) (Some st)
  = run_calls mm n s bs vx bx vy by_ nrc_x (map (fun k => (M, c + M * k)) (zrange q)) (Some st).
Proof.
  destruct (Z.le_gt_cases q 0) as [Hq|Hq].
  - rewrite for_loop_nonpos, zrange_nonpos by lia. reflexivity.
  - apply (for_loop_ind (fun k o =>
      o = run_calls mm n s bs vx bx vy by_ nrc_x
            (map (fun k => (M, c + M * k)) (zrange k)) (Some st))).
    + now rewrite zrange_0.
    + intros k o Hk ->. rewrite zrange_succ, map_app, run_calls_app by lia.
      cbn [map run_calls fold_left fst snd].
      destruct (run_calls mm n s bs vx bx vy by_ nrc_x _ (Some st)); [|reflexivity].
      f_equal; ring.
    + lia.
Qed.

Lemma process_runs M c nrc (st : St) :
  0 < M -> 0 <= nrc ->
  stage_ok s bs vy by_
    (process n bs vx bx by_ nrc_x (Some (mm M)) M
       {| t_s := s + c * bs; t_char_y := vy + c * by_; t_nrc_y := nrc |} st)
    (run_calls mm n s bs vx bx vy by_ nrc_x
       (map (fun k => (M, c + M * k)) (zrange (nrc / M))) (Some st))
    (c + M * (nrc / M)) (nrc mod M).
Proof.
  intros HM Hnrc. unfold process. cbn [t_nrc_y t_s t_char_y].
  destruct (Z.ltb_spec nrc M) as [Hlt|Hge].
  - rewrite Z.div_small, zrange_0, Z.mod_small by lia. cbn [map run_calls fold_left stage_ok].
    cbn [t_nrc_y t_s t_char_y]. repeat split; try congruence; ring.
  - rewrite Z.quot_div_nonneg by lia. rewrite for_loop_calls.
    destruct (run_calls mm n s bs vx bx vy by_ nrc_x _ (Some st)) as [st'|];
      [|reflexivity].
    assert (Hmod : nrc - M * (nrc / M) = nrc mod M) by (rewrite Z.mod_eq by lia; ring).
    rewrite Hmod.
    destruct (Z.eqb_spec (nrc mod M) 0) as [E0|E0]; cbn [stage_ok t_nrc_y t_s t_char_y].
    + repeat split; congruence.
    + repeat split; try congruence; ring.
Qed.

Lemma and_then_runs M c nrc o r :
  0 < M -> 0 <= nrc ->
  stage_ok s bs vy by_ o r c nrc ->
  stage_ok s bs vy by_
    (and_then o (process n bs vx bx by_ nrc_x (Some (mm M)) M))
    (run_calls mm n s bs vx bx vy by_ nrc_x
       (map (fun k => (M, c + M * k)) (zrange (nrc / M))) r)
    (c + M * (nrc / M)) (nrc mod M).
Proof.
  intros HM Hnrc Hok. destruct o as [[[b t] st']|]; cbn [stage_ok and_then] in *.
  - destruct Hok as (-> & Hn & Hf & Ht). destruct b; cbn [stage_ok].
    + destruct t as [ts ty tn]. cbn [t_s t_char_y t_nrc_y] in *.
      destruct (Ht eq_refl) as [-> ->]. subst tn. now apply process_runs.
    + rewrite (Hf eq_refl) in *. rewrite Z.div_0_l, Z.mod_0_l, zrange_0 by lia.
      cbn [map run_calls fold_left]. repeat split; try congruence.
  - subst r. now rewrite run_calls_None.
Qed.

Lemma peel_stages Ny :
  0 <= Ny ->
  map (fun k => (8, 0 + 8 * k)) (zrange (Ny / 8)) ++
  map (fun k => (4, 0 + 8 * (Ny / 8) + 4 * k)) (zrange (Ny mod 8 / 4)) ++
  map (fun k => (2, 0 + 8 * (Ny / 8) + 4 * (Ny mod 8 / 4) + 2 * k))
      (zrange ((Ny mod 8) mod 4 / 2)) ++
  map (fun k => (1, 0 + 8 * (Ny / 8) + 4 * (Ny mod 8 / 4) + 2 * ((Ny mod 8) mod 4 / 2) + 1 * k))
      (zrange (((Ny mod 8) mod 4) mod 2 / 1))
  = peel Ny.
Proof.
  intros HNy. unfold peel.
  rewrite (zrange_bit (Ny mod 8 / 4)) by (Z.div_mod_to_equations; lia).
  rewrite (zrange_bit ((Ny mod 8) mod 4 / 2)) by (Z.div_mod_to_equations; lia).
  rewrite (zrange_bit (((Ny mod 8) mod 4) mod 2 / 1)) by (Z.div_mod_to_equations; lia).
  repeat apply (f_equal2 (@app (Z * Z))).
  - apply map_ext. intros k. f_equal; ring.
  - destruct (Z.leb_spec 1 (Ny mod 8 / 4)); destruct (Z.leb_spec 4 (Ny mod 8));
      try (exfalso; Z.div_mod_to_equations; lia); [|reflexivity].
    cbn [map]. do 2 f_equal. lia.
  - destruct (Z.leb_spec 1 ((Ny mod 8) mod 4 / 2)); destruct (Z.leb_spec 2 (Ny mod 4));
      try (exfalso; Z.div_mod_to_equations; lia); [|reflexivity].
    cbn [map]. do 2 f_equal. Z.div_mod_to_equations; lia.
  - destruct (Z.leb_spec 1 (((Ny mod 8) mod 4) mod 2 / 1)); destruct (Z.leb_spec 1 (Ny mod 2));
      try (exfalso; Z.div_mod_to_equations; lia); [|reflexivity].
    cbn [map]. do 2 f_equal. Z.div_mod_to_equations; lia.
Qed.

Lemma mul_mat_NxM_runs Ny (st : St) :
  0 <= Ny ->
  mul_mat_NxM n s bs vx bx vy by_ nrc_x Ny
    (Some (mm 1)) (Some (mm 2)) (Some (mm 4)) (Some (mm 8)) st
  = run_calls mm n s bs vx bx vy by_ nrc_x (peel Ny) (Some st).
Proof.
  intros HNy. unfold mul_mat_NxM. cbv zeta.
  rewrite <- (peel_stages Ny HNy), !run_calls_app.
  assert (R8 : 0 <= Ny mod 8 < 8) by (apply Z.mod_pos_bound; lia).
  assert (R4 : 0 <= (Ny mod 8) mod 4 < 4) by (apply Z.mod_pos_bound; lia).
  assert (R2 : 0 <= ((Ny mod 8) mod 4) mod 2 < 2) by (apply Z.mod_pos_bound; lia).
  pose proof (process_runs 8 0 Ny st ltac:(lia) HNy) as H8.
  replace (s + 0 * bs) with s in H8 by ring.
  replace (vy + 0 * by_) with vy in H8 by ring.
  pose proof (and_then_runs 4 _ (Ny mod 8) _ _ ltac:(lia) ltac:(lia) H8) as H4.
  pose proof (and_then_runs 2 _ ((Ny mod 8) mod 4) _ _ ltac:(lia) ltac:(lia) H4) as H2.
  pose proof (and_then_runs 1 _ (((Ny mod 8) mod 4) mod 2) _ _ ltac:(lia) ltac:(lia) H2) as H1.
  clear H8 H4 H2.
  destruct (and_then (and_then (and_then _ _) _) _) as [[[b t] st']|];
    cbn [stage_ok] in H1; [|now rewrite H1].
  destruct H1 as [-> _]. reflexivity.
Qed.

Lemma mul_mat_NxM_no_columns Ny (m1 m2 m4 m8 : option (@mul_mat_t St)) (st : St) :
  Ny <= 0 ->
  mul_mat_NxM n s bs vx bx vy by_ nrc_x Ny m1 m2 m4 m8 st = Some st.
Proof.
  intros HNy. unfold mul_mat_NxM, process. cbv zeta. cbn [t_nrc_y].
  destruct m8 as [k8|]; cbn [and_then].
  - destruct (Z.ltb_spec Ny 8); [|lia]. cbn [and_then].
    destruct m4 as [k4|]; cbn [and_then t_nrc_y].
    + destruct (Z.ltb_spec Ny 4); [|lia]. cbn [and_then].
      destruct m2 as [k2|]; cbn [and_then t_nrc_y].
      * destruct (Z.ltb_spec Ny 2); [|lia]. cbn [and_then].
        destruct m1 as [k1|]; cbn [and_then t_nrc_y]; [|reflexivity].
        destruct (Z.ltb_spec Ny 1); [reflexivity|lia].
      * destruct m1 as [k1|]; cbn [and_then t_nrc_y]; [|reflexivity].
        destruct (Z.ltb_spec Ny 1); [reflexivity|lia].
    + destruct m2 as [k2|]; cbn [and_then t_nrc_y].
      * destruct (Z.ltb_spec Ny 2); [|lia]. cbn [and_then].
        destruct m1 as [k1|]; cbn [and_then t_nrc_y]; [|reflexivity].
        destruct (Z.ltb_spec Ny 1); [reflexivity|lia].
      * destruct m1 as [k1|]; cbn [and_then t_nrc_y]; [|reflexivity].
        destruct (Z.ltb_spec Ny 1); [reflexivity|lia].
  - destruct m4 as [k4|]; cbn [and_then t_nrc_y].
    + destruct (Z.ltb_spec Ny 4); [|lia]. cbn [and_then].
      destruct m2 as [k2|]; cbn [and_then t_nrc_y].
      * destruct (Z.ltb_spec Ny 2); [|lia]. cbn [and_then].
        destruct m1 as [k1|]; cbn [and_then t_nrc_y]; [|reflexivity].
        destruct (Z.ltb_spec Ny 1); [reflexivity|lia].
      * destruct m1 as [k1|]; cbn [and_then t_nrc_y]; [|reflexivity].
        destruct (Z.ltb_spec Ny 1); [reflexivity|lia].
    + destruct m2 as [k2|]; cbn [and_then t_nrc_y].
      * destruct (Z.ltb_spec Ny 2); [|lia]. cbn [and_then].
        destruct m1 as [k1|]; cbn [and_then t_nrc_y]; [|reflexivity].
        destruct (Z.ltb_spec Ny 1); [reflexivity|lia].
      * destruct m1 as [k1|]; cbn [and_then t_nrc_y]; [|reflexivity].
        destruct (Z.ltb_spec Ny 1); [reflexivity|lia].
Qed.

End TilingRuns.

(** ** The entry point on a supported type *)

Section EntryRuns.
Context {F : Type} `{FloatOps F} {St : Type} (store_at : Z -> F -> St -> St).
Context (hp : Heaps F) (env : ggml_env).

Lemma select_kernels_family typeA f :
  family_of env typeA = Some f ->
  select_kernels store_at hp env typeA =
  Some (kernel_of store_at hp f 1, kernel_of store_at hp f 2,
        kernel_of store_at hp f 4, kernel_of store_at hp f 8).
Proof.
  unfold family_of, select_kernels.
  repeat (destruct (typeA =? _);
          [intros E; injection E as <-; reflexivity|]).
  discriminate.
Qed.

Lemma replay_app (l1 l2 : list (Z * F)) (st : St) :
  replay store_at (l1 ++ l2) st = replay store_at l2 (replay store_at l1 st).
Proof. unfold replay. apply fold_left_app. Qed.

Lemma run_calls_kernels f n s bs vx bx vy by_ nrc_x l (st : St) :
  Z.rem n QK_K = 0 ->
  run_calls (kernel_of store_at hp f) n s bs vx bx vy by_ nrc_x l (Some st)
  = Some (replay store_at
            (flat_map (fun p =>
               tile_writes
                 (value_of hp f (fst p) (Z.quot n QK_K)
                    (Q8 (fst p) (vy + snd p * by_) by_) vx bx)
                 (fst p) (s + snd p * bs) bs nrc_x) l) st).
Proof.
  intros Hn. revert st. induction l as [|p l IH]; intros st; [reflexivity|].
  cbn [run_calls fold_left flat_map].
  rewrite kernel_stores, Hn. cbn [Z.eqb negb].
  rewrite for_loop_tile_replay, replay_app. apply IH.
Qed.

Lemma iqk_mul_mat_replays f Nx Ny ne00 typeA A B C stride_C ith nth (st : St) :
  Z.rem ne00 QK_K = 0 -> nth <> 0 -> family_of env typeA = Some f -> 0 <= to_int Ny ->
  iqk_mul_mat store_at hp env Nx Ny ne00 typeA A B C stride_C ith nth st
  = Some (true,
          replay store_at (entry_writes hp env f Nx Ny ne00 typeA A B C stride_C ith nth) st).
Proof.
  intros Hne Hnth Hf HNy. unfold iqk_mul_mat, entry_writes.
  rewrite Hne. cbn [Z.eqb negb].
  rewrite (select_kernels_family _ _ Hf).
  destruct (Z.eqb_spec nth 0); [contradiction|].
  destruct (row_slice Nx ith nth) as [first_x nrc_x].
  rewrite (mul_mat_NxM_runs (kernel_of store_at hp f)) by assumption.
  rewrite run_calls_kernels by (now apply rem_to_int).
  reflexivity.
Qed.

Lemma iqk_mul_mat_no_columns_lemma Nx Ny ne00 typeA A B C stride_C ith nth (st : St) :
  Z.rem ne00 QK_K = 0 -> nth <> 0 -> supported_type env typeA -> to_int Ny <= 0 ->
  iqk_mul_mat store_at hp env Nx Ny ne00 typeA A B C stride_C ith nth st = Some (true, st).
Proof.
  intros Hne Hnth Hs HNy. unfold iqk_mul_mat.
  rewrite Hne. cbn [Z.eqb negb].
  destruct (select_kernels store_at hp env typeA) as [[[[m1 m2] m4] m8]|] eqn:E.
  - destruct (Z.eqb_spec nth 0); [contradiction|].
    destruct (row_slice Nx ith nth) as [first_x nrc_x].
    now rewrite mul_mat_NxM_no_columns.
  - exfalso. revert E. unfold select_kernels, supported_type in *.
    destruct (Z.eqb_spec typeA (GGML_TYPE_Q2_K env)); [discriminate|].
    destruct (Z.eqb_spec typeA (GGML_TYPE_Q3_K env)); [discriminate|].
    destruct (Z.eqb_spec typeA (GGML_TYPE_Q4_K env)); [discriminate|].
    destruct (Z.eqb_spec typeA (GGML_TYPE_Q5_K env)); [discriminate|].
    destruct (Z.eqb_spec typeA (GGML_TYPE_Q6_K env)); [discriminate|].
    destruct (Z.eqb_spec typeA (GGML_TYPE_IQ4_XS env)); [discriminate|].
    tauto.
Qed.

End EntryRuns.

Lemma replay_log {F : Type} (l : list (Z * F)) (log : write_log F) :
  replay log_store l log = log ++ l.
Proof.
  revert log. induction l as [|[a v] l IH]; intros log.
  - now rewrite app_nil_r.
  - cbn [replay fold_left fst snd]. fold (replay log_store l (log_store a v log)).
    rewrite IH. unfold log_store. now rewrite <- app_assoc.
Qed.


(** ** Columns do not interact *)

(** A loop whose iteration [k] leaves a view of the state alone unless
    [k = iy]: the view of the result is the one iteration [iy] makes. *)
Lemma for_loop_view {S V : Type} (view : S -> V) (inv : S -> Prop) (body : Z -> S -> S)
  (M iy : Z) (l : S) :
  (forall k st, 0 <= k < M -> inv st -> inv (body k st)) ->
  (forall k st, 0 <= k < M -> k <> iy -> inv st -> view (body k st) = view st) ->
  inv l -> 0 <= iy < M ->
  inv (for_loop M body l) /\
  exists st0, inv st0 /\ view st0 = view l /\ view (for_loop M body l) = view (body iy st0).
Proof.
  intros Hinv Hframe Hl Hiy.
  assert (P : inv (for_loop M body l) /\
              (M <= iy -> view (for_loop M body l) = view l) /\
              (iy < M -> exists st0, inv st0 /\ view st0 = view l /\
                                     view (for_loop M body l) = view (body iy st0))).
  { apply (for_loop_ind (fun k st =>
      inv st /\ (k <= iy -> view st = view l) /\
      (iy < k -> exists st0, inv st0 /\ view st0 = view l /\ view st = view (body iy st0)))).
    - split; [assumption|]. split; [reflexivity|lia].
    - intros k st Hk (Ist & Hle & Hgt). split; [now apply Hinv|]. split.
      + intros Hk'. rewrite Hframe by (assumption || lia). apply Hle. lia.
      + intros Hk'. destruct (Z.eq_dec k iy) as [->|Hne].
        * exists st. split; [assumption|]. split; [apply Hle; lia|reflexivity].
        * destruct Hgt as (st0 & I0 & V0 & E0); [lia|].
          exists st0. split; [assumption|]. split; [assumption|].
          rewrite Hframe by (assumption || lia). exact E0.
    - lia. }
  destruct P as (I & _ & Hgt). split; [exact I|]. apply Hgt. lia.
Qed.

Lemma for_loop_view_rel {S S' V : Type} (view : S -> V) (view' : S' -> V)
  (inv : S -> Prop) (inv' : S' -> Prop) (body : Z -> S -> S) (body' : Z -> S' -> S')
  (M M' iy iy' : Z) (l : S) (l' : S') :
  (forall k st, 0 <= k < M -> inv st -> inv (body k st)) ->
  (forall k st, 0 <= k < M -> k <> iy -> inv st -> view (body k st) = view st) ->
  (forall k st, 0 <= k < M' -> inv' st -> inv' (body' k st)) ->
  (forall k st, 0 <= k < M' -> k <> iy' -> inv' st -> view' (body' k st) = view' st) ->
  inv l -> inv' l' -> 0 <= iy < M -> 0 <= iy' < M' ->
  (forall st st', inv st -> inv' st' -> view st = view' st' ->
     view (body iy st) = view' (body' iy' st')) ->
  view l = view' l' ->
  inv (for_loop M body l) /\ inv' (for_loop M' body' l') /\
  view (for_loop M body l) = view' (for_loop M' body' l').
Proof.
  intros I1 F1 I2 F2 Hl Hl' Hiy Hiy' Hstep E.
  destruct (for_loop_view view inv body M iy l I1 F1 Hl Hiy) as (J & st0 & J0 & V0 & E0).
  destruct (for_loop_view view' inv' body' M' iy' l' I2 F2 Hl' Hiy')
    as (J' & st0' & J0' & V0' & E0').
  split; [exact J|]. split; [exact J'|].
  rewrite E0, E0'. apply Hstep; try assumption. congruence.
Qed.

Lemma length_aset {A : Type} (l : list A) k v : length (aset l k v) = length l.
Proof. apply length_upd. Qed.

Lemma aget_aset_same {A : Type} (d : A) l k v :
  0 <= k < Z.of_nat (length l) -> aget d (aset l k v) k = v.
Proof.
  intros Hk. unfold aget, aset. rewrite nth_upd, Nat.eqb_refl.
  destruct (Nat.ltb_spec (Z.to_nat k) (length l)); [reflexivity|lia].
Qed.

Lemma aget_aset_other {A : Type} (d : A) l k j v :
  0 <= k -> 0 <= j -> j <> k -> aget d (aset l k v) j = aget d l j.
Proof.
  intros Hk Hj Hne. unfold aget, aset. rewrite nth_upd.
  destruct (Nat.eqb_spec (Z.to_nat j) (Z.to_nat k)); [lia|reflexivity].
Qed.

(** Arrays with one entry per column: the loop over the columns of a
    kernel of width [M] and the loop of a kernel of width [M'] make the
    same entry for a column when the step of that column does. *)
Lemma for_loop_col {A : Type} (d : A) (body body' : Z -> list A -> list A)
  (M M' iy iy' : Z) (l l' : list A) :
  (forall k st, 0 <= k < M -> M <= Z.of_nat (length st) ->
     length (body k st) = length st /\
     forall j, 0 <= j -> j <> k -> aget d (body k st) j = aget d st j) ->
  (forall k st, 0 <= k < M' -> M' <= Z.of_nat (length st) ->
     length (body' k st) = length st /\
     forall j, 0 <= j -> j <> k -> aget d (body' k st) j = aget d st j) ->
  M <= Z.of_nat (length l) -> M' <= Z.of_nat (length l') ->
  0 <= iy < M -> 0 <= iy' < M' ->
  (forall st st', M <= Z.of_nat (length st) -> M' <= Z.of_nat (length st') ->
     aget d st iy = aget d st' iy' ->
     aget d (body iy st) iy = aget d (body' iy' st') iy') ->
  aget d l iy = aget d l' iy' ->
  M <= Z.of_nat (length (for_loop M body l)) /\
  M' <= Z.of_nat (length (for_loop M' body' l')) /\
  aget d (for_loop M body l) iy = aget d (for_loop M' body' l') iy'.
Proof.
  intros F1 F2 Hl Hl' Hiy Hiy' Hstep E.
  apply (for_loop_view_rel (fun st => aget d st iy) (fun st => aget d st iy')
           (fun st => M <= Z.of_nat (length st)) (fun st => M' <= Z.of_nat (length st))
           body body' M M' iy iy');
    try assumption.
  - intros k st Hk L. destruct (F1 k st Hk L) as [-> _]. exact L.
  - intros k st Hk Hne L. destruct (F1 k st Hk L) as [_ Hf]. apply Hf; lia.
  - intros k st Hk L. destruct (F2 k st Hk L) as [-> _]. exact L.
  - intros k st Hk Hne L. destruct (F2 k st Hk L) as [_ Hf]. apply Hf; lia.
Qed.

(** The frame condition of a loop body that only assigns to entry [k]. *)
Ltac col_frame :=
  let k := fresh "k" in let st := fresh "st" in let Hk := fresh "Hk" in
  let L := fresh "L" in let j := fresh "j" in let Hj := fresh "Hj" in
  let Hne := fresh "Hne" in
  intros k st Hk L; cbv beta zeta; split;
  [ rewrite ?length_aset; reflexivity
  | intros j Hj Hne; rewrite ?aget_aset_other by lia; reflexivity ].

Section Columns.
Context {F : Type} `{FloatOps F} (hp : Heaps F).
Variables (M M' iy iy' : Z) (q8 q8' : list Z).
Hypothesis HM : 0 <= iy < M.
Hypothesis HM' : 0 <= iy' < M'.
Hypothesis Hq8 : aget 0 q8 iy = aget 0 q8' iy'.

Lemma load_quants_col i k : load_quants hp q8 iy i k = load_quants hp q8' iy' i k.
Proof. unfold load_quants, q8_block. now rewrite Hq8. Qed.

Lemma load_bsums_col i : load_bsums hp q8 iy i = load_bsums hp q8' iy' i.
Proof. unfold load_bsums, q8_block. now rewrite Hq8. Qed.

Lemma scale_col i : scale hp q8 iy i = scale hp q8' iy' i.
Proof. unfold scale, q8_block. now rewrite Hq8. Qed.

Lemma zeros_col {A : Type} (d z : A) :
  M <= Z.of_nat (length (repeat z (Z.to_nat M))) /\
  M' <= Z.of_nat (length (repeat z (Z.to_nat M'))) /\
  aget d (repeat z (Z.to_nat M)) iy = aget d (repeat z (Z.to_nat M')) iy'.
Proof.
  rewrite !repeat_length. split; [lia|]. split; [lia|].
  now rewrite !aget_repeat by lia.
Qed.

(** *** Q6_K *)

Lemma q6_K_sumi_col x i :
  aget [] (q6_K_sumi hp M q8 x i) iy = aget [] (q6_K_sumi hp M' q8' x i) iy'.
Proof.
  unfold q6_K_sumi. cbv zeta. change (QK_K / 128) with 2.
  match goal with
  | |- aget _ (snd (for_loop 2 ?f ?s1)) _ = aget _ (snd (for_loop 2 ?g ?s2)) _ =>
      refine (proj2 (proj2 (proj2 (for_loop_rel2
        (fun _ (p p' : Z * Z * list vec) =>
           fst p = fst p' /\ M <= Z.of_nat (length (snd p)) /\
           M' <= Z.of_nat (length (snd p')) /\ aget [] (snd p) iy = aget [] (snd p') iy')
        2 f g s1 s2 _ _ _))))
  end.
  - cbn [fst snd]. split; [reflexivity|]. apply zeros_col.
  - intros j [[q4 qh] t] [[q4' qh'] t'] Hj (E & L & L' & Ea). cbn [fst snd] in E, L, L', Ea.
    injection E as <- <-. cbv beta iota zeta. cbn [fst snd]. split; [reflexivity|].
    apply for_loop_col; try assumption; try col_frame.
    intros st st' Ls Ls' Es. cbv beta zeta.
    rewrite !aget_aset_same by lia. unfold vec in *. rewrite Es, !load_quants_col. reflexivity.
  - lia.
Qed.

Lemma q6_K_row_col nb vx bx ix :
  aget [] (fst (q6_K_row hp M nb q8 vx bx ix)) iy
  = aget [] (fst (q6_K_row hp M' nb q8' vx bx ix)) iy'.
Proof.
  unfold q6_K_row. cbv zeta.
  destruct (Z.le_gt_cases nb 0) as [Hnb|Hnb].
  { rewrite !for_loop_nonpos by lia. cbn [fst]. apply zeros_col. }
  match goal with
  | |- aget _ (fst (for_loop nb ?f ?s1)) _ = aget _ (fst (for_loop nb ?g ?s2)) _ =>
      refine (proj2 (proj2 (for_loop_rel2
        (fun _ (p p' : list fvec * list fvec) =>
           M <= Z.of_nat (length (fst p)) /\ M' <= Z.of_nat (length (fst p')) /\
           aget [] (fst p) iy = aget [] (fst p') iy')
        nb f g s1 s2 _ _ _)))
  end.
  - cbn [fst snd]. apply zeros_col.
  - intros i [accd accm] [accd' accm'] Hi (L & L' & E). cbn [fst snd] in L, L', E.
    unfold q6_K_block. cbv zeta. cbn [fst snd].
    apply for_loop_col; try assumption; try col_frame.
    intros st st' Ls Ls' Es. cbv beta zeta.
    rewrite !aget_aset_same by lia. unfold fvec in *.
    rewrite Es, scale_col, q6_K_sumi_col. reflexivity.
  - lia.
Qed.

Lemma q6_K_value_col nb vx bx ix :
  q6_K_value hp M nb q8 vx bx ix iy = q6_K_value hp M' nb q8' vx bx ix iy'.
Proof. unfold q6_K_value. cbv zeta. now rewrite q6_K_row_col, Hq8. Qed.

(** *** Q3_K *)

Lemma q3_K_sumi_col x i :
  aget [] (q3_K_sumi hp M q8 x i) iy = aget [] (q3_K_sumi hp M' q8' x i) iy'.
Proof.
  unfold q3_K_sumi. cbv zeta. change (QK_K / 128) with 2.
  match goal with
  | |- aget _ (snd (for_loop 2 ?f ?s1)) _ = aget _ (snd (for_loop 2 ?g ?s2)) _ =>
      refine (proj2 (proj2 (proj2 (for_loop_rel2
        (fun _ (p p' : Z * list vec) =>
           fst p = fst p' /\ M <= Z.of_nat (length (snd p)) /\
           M' <= Z.of_nat (length (snd p')) /\ aget [] (snd p) iy = aget [] (snd p') iy')
        2 f g s1 s2 _ _ _))))
  end.
  - cbn [fst snd]. split; [reflexivity|]. apply zeros_col.
  - intros j [q3 t] [q3' t'] Hj (E & L & L' & Ea). cbn [fst snd] in E, L, L', Ea.
    subst q3'. cbv beta iota zeta. cbn [fst snd]. split; [reflexivity|].
    apply for_loop_col; try assumption; try col_frame.
    intros st st' Ls Ls' Es. cbv beta zeta.
    unfold vec in *. rewrite !aget_aset_same by (rewrite ?length_aset; lia).
    rewrite Es, !load_quants_col. reflexivity.
  - lia.
Qed.

Lemma q3_K_row_col nb vx bx ix :
  aget [] (fst (q3_K_row hp M nb q8 vx bx ix)) iy
  = aget [] (fst (q3_K_row hp M' nb q8' vx bx ix)) iy'.
Proof.
  unfold q3_K_row. cbv zeta.
  destruct (Z.le_gt_cases nb 0) as [Hnb|Hnb].
  { rewrite !for_loop_nonpos by lia. cbn [fst]. apply zeros_col. }
  match goal with
  | |- aget _ (fst (for_loop nb ?f ?s1)) _ = aget _ (fst (for_loop nb ?g ?s2)) _ =>
      refine (proj2 (proj2 (for_loop_rel2
        (fun _ (p p' : list fvec * list fvec) =>
           M <= Z.of_nat (length (fst p)) /\ M' <= Z.of_nat (length (fst p')) /\
           aget [] (fst p) iy = aget [] (fst p') iy')
        nb f g s1 s2 _ _ _)))
  end.
  - cbn [fst snd]. apply zeros_col.
  - intros i [accd accm] [accd' accm'] Hi (L & L' & E). cbn [fst snd] in L, L', E.
    unfold q3_K_block. cbv zeta. cbn [fst snd].
    apply for_loop_col; try assumption; try col_frame.
    intros st st' Ls Ls' Es. cbv beta zeta.
    rewrite !aget_aset_same by lia. unfold fvec in *.
    rewrite Es, scale_col, q3_K_sumi_col. reflexivity.
  - lia.
Qed.

Lemma q3_K_value_col nb vx bx ix :
  q3_K_value hp M nb q8 vx bx ix iy = q3_K_value hp M' nb q8' vx bx ix iy'.
Proof. unfold q3_K_value. cbv zeta. now rewrite q3_K_row_col, Hq8. Qed.

(** *** Q5_K *)

Lemma q5_K_sumi_col x i :
  aget [] (q5_K_sumi hp M q8 x i) iy = aget [] (q5_K_sumi hp M' q8' x i) iy'.
Proof.
  unfold q5_K_sumi. cbv zeta. change (QK_K / 128) with 2.
  match goal with
  | |- aget _ (snd (for_loop 2 ?f ?s1)) _ = aget _ (snd (for_loop 2 ?g ?s2)) _ =>
      refine (proj2 (proj2 (proj2 (for_loop_rel2
        (fun _ (p p' : Z * list vec) =>
           fst p = fst p' /\ M <= Z.of_nat (length (snd p)) /\
           M' <= Z.of_nat (length (snd p')) /\ aget [] (snd p) iy = aget [] (snd p') iy')
        2 f g s1 s2 _ _ _))))
  end.
  - cbn [fst snd]. split; [reflexivity|]. apply zeros_col.
  - intros j [q5 t] [q5' t'] Hj (E & L & L' & Ea). cbn [fst snd] in E, L, L', Ea.
    subst q5'. cbv beta iota zeta. cbn [fst snd]. split; [reflexivity|].
    apply for_loop_col; try assumption; try col_frame.
    intros st st' Ls Ls' Es. cbv beta zeta.
    unfold vec in *. rewrite !aget_aset_same by (rewrite ?length_aset; lia).
    rewrite Es, !load_quants_col. reflexivity.
  - lia.
Qed.

Lemma q4_K_mins_col c utmp i (accm accm' : list fvec) :
  M <= Z.of_nat (length accm) -> M' <= Z.of_nat (length accm') ->
  aget [] accm iy = aget [] accm' iy' ->
  M <= Z.of_nat (length (q4_K_mins hp M q8 c utmp i accm)) /\
  M' <= Z.of_nat (length (q4_K_mins hp M' q8' c utmp i accm')) /\
  aget [] (q4_K_mins hp M q8 c utmp i accm) iy
  = aget [] (q4_K_mins hp M' q8' c utmp i accm') iy'.
Proof.
  intros L L' E. unfold q4_K_mins. cbv zeta.
  apply for_loop_col; try assumption; try col_frame.
  intros st st' Ls Ls' Es. cbv beta zeta.
  rewrite !aget_aset_same by lia. unfold fvec in *.
  rewrite Es, scale_col, load_bsums_col. reflexivity.
Qed.

Lemma q5_K_row_col nb vx bx ix :
  aget [] (fst (q5_K_row hp M nb q8 vx bx ix)) iy
  = aget [] (fst (q5_K_row hp M' nb q8' vx bx ix)) iy' /\
  aget [] (snd (q5_K_row hp M nb q8 vx bx ix)) iy
  = aget [] (snd (q5_K_row hp M' nb q8' vx bx ix)) iy'.
Proof.
  unfold q5_K_row. cbv zeta.
  destruct (Z.le_gt_cases nb 0) as [Hnb|Hnb].
  { rewrite !for_loop_nonpos by lia. cbn [fst snd]. split; apply zeros_col. }
  match goal with
  | |- aget _ (fst (for_loop nb ?f ?s1)) _ = aget _ (fst (for_loop nb ?g ?s2)) _ /\ _ =>
      pose proof (for_loop_rel2
        (fun _ (p p' : list fvec * list fvec) =>
           (M <= Z.of_nat (length (fst p)) /\ M' <= Z.of_nat (length (fst p')) /\
            aget [] (fst p) iy = aget [] (fst p') iy') /\
           (M <= Z.of_nat (length (snd p)) /\ M' <= Z.of_nat (length (snd p')) /\
            aget [] (snd p) iy = aget [] (snd p') iy'))
        nb f g s1 s2) as P
  end.
  cbv beta in P.
  destruct P as [(_ & _ & E1) (_ & _ & E2)]; [| |lia|now split].
  - cbn [fst snd]. split; apply zeros_col.
  - intros i [accd accm] [accd' accm'] Hi [(L & L' & E) (Lm & Lm' & Em)].
    cbn [fst snd] in L, L', E, Lm, Lm', Em.
    unfold q5_K_block. cbv zeta. cbn [fst snd]. split.
    + apply for_loop_col; try assumption; try col_frame.
      intros st st' Ls Ls' Es. cbv beta zeta.
      rewrite !aget_aset_same by lia. unfold fvec in *.
      rewrite Es, scale_col, q5_K_sumi_col. reflexivity.
    + now apply q4_K_mins_col.
Qed.

Lemma q5_K_value_col nb vx bx ix :
  q5_K_value hp M nb q8 vx bx ix iy = q5_K_value hp M' nb q8' vx bx ix iy'.
Proof.
  unfold q5_K_value. destruct (q5_K_row_col nb vx bx ix) as [E1 E2].
  destruct (q5_K_row hp M nb q8 vx bx ix) as [accd accm].
  destruct (q5_K_row hp M' nb q8' vx bx ix) as [accd' accm'].
  cbn [fst snd] in E1, E2. cbv zeta. unfold fvec in *. now rewrite E1, E2.
Qed.

(** *** IQ4_XS *)

Lemma iq4_xs_sumi_col x i :
  aget [] (iq4_xs_sumi hp M q8 x i) iy = aget [] (iq4_xs_sumi hp M' q8' x i) iy'.
Proof.
  unfold iq4_xs_sumi. cbv zeta. change (QK_K / 64) with 4.
  match goal with
  | |- aget _ (snd (for_loop 4 ?f ?s1)) _ = aget _ (snd (for_loop 4 ?g ?s2)) _ =>
      refine (proj2 (proj2 (proj2 (for_loop_rel2
        (fun _ (p p' : Z * list vec) =>
           fst p = fst p' /\ M <= Z.of_nat (length (snd p)) /\
           M' <= Z.of_nat (length (snd p')) /\ aget [] (snd p) iy = aget [] (snd p') iy')
        4 f g s1 s2 _ _ _))))
  end.
  - cbn [fst snd]. split; [reflexivity|]. apply zeros_col.
  - intros j [qs t] [qs' t'] Hj (E & L & L' & Ea). cbn [fst snd] in E, L, L', Ea.
    subst qs'. cbv beta iota zeta. cbn [fst snd]. split; [reflexivity|].
    apply for_loop_col; try assumption; try col_frame.
    intros st st' Ls Ls' Es. cbv beta zeta.
    rewrite !aget_aset_same by lia. unfold vec in *.
    rewrite Es, !load_quants_col. reflexivity.
  - lia.
Qed.

Lemma iq4_xs_row_col nb vx bx ix :
  aget [] (iq4_xs_row hp M nb q8 vx bx ix) iy
  = aget [] (iq4_xs_row hp M' nb q8' vx bx ix) iy'.
Proof.
  unfold iq4_xs_row. cbv zeta.
  destruct (Z.le_gt_cases nb 0) as [Hnb|Hnb].
  { rewrite !for_loop_nonpos by lia. apply zeros_col. }
  match goal with
  | |- aget _ (for_loop nb ?f ?s1) _ = aget _ (for_loop nb ?g ?s2) _ =>
      refine (proj2 (proj2 (for_loop_rel2
        (fun _ (p p' : list fvec) =>
           M <= Z.of_nat (length p) /\ M' <= Z.of_nat (length p') /\
           aget [] p iy = aget [] p' iy')
        nb f g s1 s2 _ _ _)))
  end.
  - apply zeros_col.
  - intros i acc acc' Hi (L & L' & E).
    unfold iq4_xs_block. cbv zeta.
    apply for_loop_col; try assumption; try col_frame.
    intros st st' Ls Ls' Es. cbv beta zeta.
    rewrite !aget_aset_same by lia. unfold fvec in *.
    rewrite Es, scale_col, iq4_xs_sumi_col. reflexivity.
  - lia.
Qed.

Lemma iq4_xs_value_col nb vx bx ix :
  iq4_xs_value hp M nb q8 vx bx ix iy = iq4_xs_value hp M' nb q8' vx bx ix iy'.
Proof. unfold iq4_xs_value. now rewrite iq4_xs_row_col. Qed.

End Columns.

(** *** Q2_K and Q4_K: two accumulators per column in the kernels of width 1 and 2 *)

Lemma for_loop_col2 {A : Type} (d : A) (body body' : Z -> list A -> list A)
  (M M' iy iy' : Z) (l l' : list A) :
  (forall k st, 0 <= k < M -> 2 * M <= Z.of_nat (length st) ->
     length (body k st) = length st /\
     forall j, 0 <= j -> j <> 2 * k + 0 -> j <> 2 * k + 1 ->
               aget d (body k st) j = aget d st j) ->
  (forall k st, 0 <= k < M' -> 2 * M' <= Z.of_nat (length st) ->
     length (body' k st) = length st /\
     forall j, 0 <= j -> j <> 2 * k + 0 -> j <> 2 * k + 1 ->
               aget d (body' k st) j = aget d st j) ->
  2 * M <= Z.of_nat (length l) -> 2 * M' <= Z.of_nat (length l') ->
  0 <= iy < M -> 0 <= iy' < M' ->
  (forall st st', 2 * M <= Z.of_nat (length st) -> 2 * M' <= Z.of_nat (length st') ->
     aget d st (2 * iy + 0) = aget d st' (2 * iy' + 0) ->
     aget d st (2 * iy + 1) = aget d st' (2 * iy' + 1) ->
     aget d (body iy st) (2 * iy + 0) = aget d (body' iy' st') (2 * iy' + 0) /\
     aget d (body iy st) (2 * iy + 1) = aget d (body' iy' st') (2 * iy' + 1)) ->
  aget d l (2 * iy + 0) = aget d l' (2 * iy' + 0) ->
  aget d l (2 * iy + 1) = aget d l' (2 * iy' + 1) ->
  2 * M <= Z.of_nat (length (for_loop M body l)) /\
  2 * M' <= Z.of_nat (length (for_loop M' body' l')) /\
  aget d (for_loop M body l) (2 * iy + 0) = aget d (for_loop M' body' l') (2 * iy' + 0) /\
  aget d (for_loop M body l) (2 * iy + 1) = aget d (for_loop M' body' l') (2 * iy' + 1).
Proof.
  intros F1 F2 Hl Hl' Hiy Hiy' Hstep E0 E1.
  destruct (for_loop_view_rel
              (fun st => (aget d st (2 * iy + 0), aget d st (2 * iy + 1)))
              (fun st => (aget d st (2 * iy' + 0), aget d st (2 * iy' + 1)))
              (fun st => 2 * M <= Z.of_nat (length st))
              (fun st => 2 * M' <= Z.of_nat (length st))
              body body' M M' iy iy' l l') as (J & J' & E); try assumption.
  - intros k st Hk L. destruct (F1 k st Hk L) as [-> _]. exact L.
  - intros k st Hk Hne L. destruct (F1 k st Hk L) as [_ Hf]. rewrite !Hf by lia. reflexivity.
  - intros k st Hk L. destruct (F2 k st Hk L) as [-> _]. exact L.
  - intros k st Hk Hne L. destruct (F2 k st Hk L) as [_ Hf]. rewrite !Hf by lia. reflexivity.
  - intros st st' L L' E. injection E as Ea Eb.
    destruct (Hstep st st' L L' Ea Eb) as [-> ->]. reflexivity.
  - now rewrite E0, E1.
  - injection E as Ea Eb. auto.
Qed.

Ltac col_frame2 :=
  let k := fresh "k" in let st := fresh "st" in let Hk := fresh "Hk" in
  let L := fresh "L" in let j := fresh "j" in let Hj := fresh "Hj" in
  let Hne := fresh "Hne" in let Hne' := fresh "Hne" in
  intros k st Hk L; cbv beta zeta; split;
  [ rewrite ?length_aset; reflexivity
  | intros j Hj Hne Hne'; rewrite ?aget_aset_other by lia; reflexivity ].

Ltac aget_aset :=
  repeat first [ rewrite aget_aset_same by (rewrite ?length_aset; lia)
               | rewrite aget_aset_other by lia ].

Section ColumnsNarrow.
Context {F : Type} `{FloatOps F} (hp : Heaps F).
Variables (M M' iy iy' : Z) (q8 q8' : list Z).
Hypothesis HM : 0 <= iy < M.
Hypothesis HM' : 0 <= iy' < M'.
Hypothesis HM2 : M <= 2.
Hypothesis HM2' : M' <= 2.
Hypothesis Hq8 : aget 0 q8 iy = aget 0 q8' iy'.

Lemma zeros_col2 {A : Type} (d z : A) :
  2 * M <= Z.of_nat (length (repeat z (Z.to_nat (k_nrc_of M)))) /\
  2 * M' <= Z.of_nat (length (repeat z (Z.to_nat (k_nrc_of M')))) /\
  aget d (repeat z (Z.to_nat (k_nrc_of M))) (2 * iy + 0)
  = aget d (repeat z (Z.to_nat (k_nrc_of M'))) (2 * iy' + 0) /\
  aget d (repeat z (Z.to_nat (k_nrc_of M))) (2 * iy + 1)
  = aget d (repeat z (Z.to_nat (k_nrc_of M'))) (2 * iy' + 1).
Proof.
  unfold k_nrc_of. destruct (Z.leb_spec M 2); [|lia]. destruct (Z.leb_spec M' 2); [|lia].
  rewrite !repeat_length. split; [lia|]. split; [lia|].
  now rewrite !aget_repeat by lia.
Qed.

Lemma q2_K_sumi_col2 x i :
  aget [] (q2_K_sumi hp M q8 x i) (2 * iy + 0) = aget [] (q2_K_sumi hp M' q8' x i) (2 * iy' + 0) /\
  aget [] (q2_K_sumi hp M q8 x i) (2 * iy + 1) = aget [] (q2_K_sumi hp M' q8' x i) (2 * iy' + 1).
Proof.
  unfold q2_K_sumi. cbv zeta. change (QK_K / 128) with 2.
  match goal with
  | |- aget _ (snd (for_loop 2 ?f ?s1)) _ = aget _ (snd (for_loop 2 ?g ?s2)) _ /\ _ =>
      pose proof (for_loop_rel2
        (fun _ (p p' : Z * list vec) =>
           fst p = fst p' /\ 2 * M <= Z.of_nat (length (snd p)) /\
           2 * M' <= Z.of_nat (length (snd p')) /\
           aget [] (snd p) (2 * iy + 0) = aget [] (snd p') (2 * iy' + 0) /\
           aget [] (snd p) (2 * iy + 1) = aget [] (snd p') (2 * iy' + 1))
        2 f g s1 s2) as P
  end.
  cbv beta in P. destruct P as (_ & _ & _ & E0 & E1); [| |lia|now split].
  - cbn [fst snd]. split; [reflexivity|]. apply zeros_col2.
  - intros j [q2 t] [q2' t'] Hj (E & L & L' & Ea & Eb). cbn [fst snd] in E, L, L', Ea, Eb.
    subst q2'. cbv beta iota zeta. cbn [fst snd]. split; [reflexivity|].
    match goal with
    | |- _ <= Z.of_nat (length (snd (for_loop 2 ?f ?s1))) /\
         _ <= Z.of_nat (length (snd (for_loop 2 ?g ?s2))) /\ _ =>
        refine (proj2 (for_loop_rel2
          (fun _ (p p' : vec * list vec) =>
             fst p = fst p' /\ 2 * M <= Z.of_nat (length (snd p)) /\
             2 * M' <= Z.of_nat (length (snd p')) /\
             aget [] (snd p) (2 * iy + 0) = aget [] (snd p') (2 * iy' + 0) /\
             aget [] (snd p) (2 * iy + 1) = aget [] (snd p') (2 * iy' + 1))
          2 f g s1 s2 _ _ _))
    end.
    + cbn [fst snd]. auto.
    + intros l [v u] [v' u'] Hl (Ev & Lu & Lu' & Eu0 & Eu1).
      cbn [fst snd] in Ev, Lu, Lu', Eu0, Eu1. subst v'.
      cbv beta iota zeta. cbn [fst snd]. split; [reflexivity|].
      destruct (Z.leb_spec M 2); [|lia]. destruct (Z.leb_spec M' 2); [|lia].
      apply for_loop_col2; try assumption; try col_frame2.
      intros st st' Ls Ls' Es0 Es1. cbv beta zeta.
      unfold vec in *. aget_aset.
      rewrite Es0, Es1, !(load_quants_col hp _ _ _ _ Hq8). split; reflexivity.
    + lia.
Qed.

Lemma q2_K_mins_col2 x i (accd accd' : list fvec) :
  2 * M <= Z.of_nat (length accd) -> 2 * M' <= Z.of_nat (length accd') ->
  aget [] accd (2 * iy + 0) = aget [] accd' (2 * iy' + 0) ->
  aget [] accd (2 * iy + 1) = aget [] accd' (2 * iy' + 1) ->
  2 * M <= Z.of_nat (length (q2_K_mins hp M q8 x i accd)) /\
  2 * M' <= Z.of_nat (length (q2_K_mins hp M' q8' x i accd')) /\
  aget [] (q2_K_mins hp M q8 x i accd) (2 * iy + 0)
  = aget [] (q2_K_mins hp M' q8' x i accd') (2 * iy' + 0) /\
  aget [] (q2_K_mins hp M q8 x i accd) (2 * iy + 1)
  = aget [] (q2_K_mins hp M' q8' x i accd') (2 * iy' + 1).
Proof.
  intros L L' E0 E1. unfold q2_K_mins. cbv zeta.
  destruct (Z.leb_spec M 2); [|lia]. destruct (Z.leb_spec M' 2); [|lia].
  apply for_loop_col2; try assumption; try col_frame2.
  intros st st' Ls Ls' Es0 Es1. cbv beta zeta.
  unfold fvec in *. aget_aset.
  rewrite Es0, Es1, (scale_col hp _ _ _ _ Hq8), (load_bsums_col hp _ _ _ _ Hq8).
  split; reflexivity.
Qed.

Lemma q2_K_block_col2 x i (accd accd' : list fvec) :
  2 * M <= Z.of_nat (length accd) -> 2 * M' <= Z.of_nat (length accd') ->
  aget [] accd (2 * iy + 0) = aget [] accd' (2 * iy' + 0) ->
  aget [] accd (2 * iy + 1) = aget [] accd' (2 * iy' + 1) ->
  2 * M <= Z.of_nat (length (q2_K_block hp M q8 x i accd)) /\
  2 * M' <= Z.of_nat (length (q2_K_block hp M' q8' x i accd')) /\
  aget [] (q2_K_block hp M q8 x i accd) (2 * iy + 0)
  = aget [] (q2_K_block hp M' q8' x i accd') (2 * iy' + 0) /\
  aget [] (q2_K_block hp M q8 x i accd) (2 * iy + 1)
  = aget [] (q2_K_block hp M' q8' x i accd') (2 * iy' + 1).
Proof.
  intros L L' E0 E1. unfold q2_K_block. cbv zeta.
  destruct (q2_K_mins_col2 x i accd accd' L L' E0 E1) as (Lm & Lm' & Em0 & Em1).
  destruct (Z.leb_spec M 2); [|lia]. destruct (Z.leb_spec M' 2); [|lia].
  apply for_loop_col2; try assumption; try col_frame2.
  intros st st' Ls Ls' Es0 Es1. cbv beta zeta.
  unfold fvec in *. aget_aset.
  destruct (q2_K_sumi_col2 x i) as [S0 S1].
  rewrite Es0, Es1, (scale_col hp _ _ _ _ Hq8), S0, S1. split; reflexivity.
Qed.

Lemma q2_K_row_col2 nb vx bx ix :
  aget [] (q2_K_row hp M nb q8 vx bx ix) (2 * iy + 0)
  = aget [] (q2_K_row hp M' nb q8' vx bx ix) (2 * iy' + 0) /\
  aget [] (q2_K_row hp M nb q8 vx bx ix) (2 * iy + 1)
  = aget [] (q2_K_row hp M' nb q8' vx bx ix) (2 * iy' + 1).
Proof.
  unfold q2_K_row. cbv zeta.
  destruct (Z.le_gt_cases nb 0) as [Hnb|Hnb].
  { rewrite !for_loop_nonpos by lia. apply zeros_col2. }
  match goal with
  | |- aget _ (for_loop nb ?f ?s1) _ = aget _ (for_loop nb ?g ?s2) _ /\ _ =>
      refine (proj2 (proj2 (for_loop_rel2
        (fun _ (p p' : list fvec) =>
           2 * M <= Z.of_nat (length p) /\ 2 * M' <= Z.of_nat (length p') /\
           aget [] p (2 * iy + 0) = aget [] p' (2 * iy' + 0) /\
           aget [] p (2 * iy + 1) = aget [] p' (2 * iy' + 1))
        nb f g s1 s2 _ _ _)))
  end.
  - apply zeros_col2.
  - intros i acc acc' Hi (L & L' & E0 & E1). now apply q2_K_block_col2.
  - lia.
Qed.

Lemma q2_K_value_col2 nb vx bx ix :
  q2_K_value hp M nb q8 vx bx ix iy = q2_K_value hp M' nb q8' vx bx ix iy'.
Proof.
  unfold q2_K_value. cbv zeta.
  destruct (Z.leb_spec M 2); [|lia]. destruct (Z.leb_spec M' 2); [|lia].
  destruct (q2_K_row_col2 nb vx bx ix) as [E0 E1]. unfold fvec in *. now rewrite E0, E1.
Qed.

Lemma q4_K_sumi_col2 x i :
  aget [] (q4_K_sumi hp M q8 x i) (2 * iy + 0) = aget [] (q4_K_sumi hp M' q8' x i) (2 * iy' + 0) /\
  aget [] (q4_K_sumi hp M q8 x i) (2 * iy + 1) = aget [] (q4_K_sumi hp M' q8' x i) (2 * iy' + 1).
Proof.
  unfold q4_K_sumi. cbv zeta. change (QK_K / 64) with 4.
  match goal with
  | |- aget _ (snd (for_loop 4 ?f ?s1)) _ = aget _ (snd (for_loop 4 ?g ?s2)) _ /\ _ =>
      pose proof (for_loop_rel2
        (fun _ (p p' : Z * list vec) =>
           fst p = fst p' /\ 2 * M <= Z.of_nat (length (snd p)) /\
           2 * M' <= Z.of_nat (length (snd p')) /\
           aget [] (snd p) (2 * iy + 0) = aget [] (snd p') (2 * iy' + 0) /\
           aget [] (snd p) (2 * iy + 1) = aget [] (snd p') (2 * iy' + 1))
        4 f g s1 s2) as P
  end.
  cbv beta in P. destruct P as (_ & _ & _ & E0 & E1); [| |lia|now split].
  - cbn [fst snd]. split; [reflexivity|]. apply zeros_col2.
  - intros j [q4 t] [q4' t'] Hj (E & L & L' & Ea & Eb). cbn [fst snd] in E, L, L', Ea, Eb.
    subst q4'. cbv beta iota zeta. cbn [fst snd]. split; [reflexivity|].
    destruct (Z.leb_spec M 2); [|lia]. destruct (Z.leb_spec M' 2); [|lia].
    apply for_loop_col2; try assumption; try col_frame2.
    intros st st' Ls Ls' Es0 Es1. cbv beta zeta.
    unfold vec in *. aget_aset.
    rewrite Es0, Es1, !(load_quants_col hp _ _ _ _ Hq8). split; reflexivity.
Qed.

Lemma q4_K_row_col2 nb vx bx ix :
  aget [] (fst (q4_K_row hp M nb q8 vx bx ix)) (2 * iy + 0)
  = aget [] (fst (q4_K_row hp M' nb q8' vx bx ix)) (2 * iy' + 0) /\
  aget [] (fst (q4_K_row hp M nb q8 vx bx ix)) (2 * iy + 1)
  = aget [] (fst (q4_K_row hp M' nb q8' vx bx ix)) (2 * iy' + 1) /\
  aget [] (snd (q4_K_row hp M nb q8 vx bx ix)) iy
  = aget [] (snd (q4_K_row hp M' nb q8' vx bx ix)) iy'.
Proof.
  unfold q4_K_row. cbv zeta.
  destruct (Z.le_gt_cases nb 0) as [Hnb|Hnb].
  { rewrite !for_loop_nonpos by lia. cbn [fst snd].
    destruct (zeros_col2 (@nil F) (@_mm256_setzero_ps F _)) as (_ & _ & E0 & E1).
    split; [exact E0|]. split; [exact E1|]. now apply zeros_col. }
  match goal with
  | |- aget _ (fst (for_loop nb ?f ?s1)) _ = aget _ (fst (for_loop nb ?g ?s2)) _ /\ _ =>
      pose proof (for_loop_rel2
        (fun _ (p p' : list fvec * list fvec) =>
           (2 * M <= Z.of_nat (length (fst p)) /\ 2 * M' <= Z.of_nat (length (fst p')) /\
            aget [] (fst p) (2 * iy + 0) = aget [] (fst p') (2 * iy' + 0) /\
            aget [] (fst p) (2 * iy + 1) = aget [] (fst p') (2 * iy' + 1)) /\
           (M <= Z.of_nat (length (snd p)) /\ M' <= Z.of_nat (length (snd p')) /\
            aget [] (snd p) iy = aget [] (snd p') iy'))
        nb f g s1 s2) as P
  end.
  cbv beta in P.
  destruct P as [(_ & _ & E0 & E1) (_ & _ & E2)]; [| |lia|auto].
  - cbn [fst snd]. split; [apply zeros_col2|now apply zeros_col].
  - intros i [accd accm] [accd' accm'] Hi [(L & L' & E0 & E1) (Lm & Lm' & Em)].
    cbn [fst snd] in L, L', E0, E1, Lm, Lm', Em.
    unfold q4_K_block. cbv zeta. cbn [fst snd].
    destruct (Z.leb_spec M 2); [|lia]. destruct (Z.leb_spec M' 2); [|lia]. split.
    + apply for_loop_col2; try assumption; try col_frame2.
      intros st st' Ls Ls' Es0 Es1. cbv beta zeta.
      unfold fvec in *. aget_aset.
      destruct (q4_K_sumi_col2 (h_q4 hp (vx + bx * ix) i) i) as [S0 S1].
      rewrite Es0, Es1, (scale_col hp _ _ _ _ Hq8), S0, S1. split; reflexivity.
    + now apply q4_K_mins_col.
Qed.

Lemma q4_K_value_col2 nb vx bx ix :
  q4_K_value hp M nb q8 vx bx ix iy = q4_K_value hp M' nb q8' vx bx ix iy'.
Proof.
  unfold q4_K_value. destruct (q4_K_row_col2 nb vx bx ix) as (E0 & E1 & E2).
  destruct (q4_K_row hp M nb q8 vx bx ix) as [accd accm].
  destruct (q4_K_row hp M' nb q8' vx bx ix) as [accd' accm'].
  cbn [fst snd] in E0, E1, E2.
  destruct (Z.leb_spec M 2); [|lia]. destruct (Z.leb_spec M' 2); [|lia].
  unfold fvec in *. now rewrite E0, E1, E2.
Qed.

End ColumnsNarrow.

(** *** Q2_K and Q4_K: one accumulator per column in the wider kernels *)

Section ColumnsWide.
Context {F : Type} `{FloatOps F} (hp : Heaps F).
Variables (M M' iy iy' : Z) (q8 q8' : list Z).
Hypothesis HM : 0 <= iy < M.
Hypothesis HM' : 0 <= iy' < M'.
Hypothesis HM2 : 2 < M.
Hypothesis HM2' : 2 < M'.
Hypothesis Hq8 : aget 0 q8 iy = aget 0 q8' iy'.

Lemma zeros_colw {A : Type} (d z : A) :
  M <= Z.of_nat (length (repeat z (Z.to_nat (k_nrc_of M)))) /\
  M' <= Z.of_nat (length (repeat z (Z.to_nat (k_nrc_of M')))) /\
  aget d (repeat z (Z.to_nat (k_nrc_of M))) iy
  = aget d (repeat z (Z.to_nat (k_nrc_of M'))) iy'.
Proof.
  unfold k_nrc_of. destruct (Z.leb_spec M 2); [lia|]. destruct (Z.leb_spec M' 2); [lia|].
  now apply zeros_col.
Qed.

Lemma q2_K_sumi_colw x i :
  aget [] (q2_K_sumi hp M q8 x i) iy = aget [] (q2_K_sumi hp M' q8' x i) iy'.
Proof.
  unfold q2_K_sumi. cbv zeta. change (QK_K / 128) with 2.
  match goal with
  | |- aget _ (snd (for_loop 2 ?f ?s1)) _ = aget _ (snd (for_loop 2 ?g ?s2)) _ =>
      refine (proj2 (proj2 (proj2 (for_loop_rel2
        (fun _ (p p' : Z * list vec) =>
           fst p = fst p' /\ M <= Z.of_nat (length (snd p)) /\
           M' <= Z.of_nat (length (snd p')) /\ aget [] (snd p) iy = aget [] (snd p') iy')
        2 f g s1 s2 _ _ _))))
  end.
  - cbn [fst snd]. split; [reflexivity|]. apply zeros_colw.
  - intros j [q2 t] [q2' t'] Hj (E & L & L' & Ea). cbn [fst snd] in E, L, L', Ea.
    subst q2'. cbv beta iota zeta. cbn [fst snd]. split; [reflexivity|].
    match goal with
    | |- _ <= Z.of_nat (length (snd (for_loop 2 ?f ?s1))) /\
         _ <= Z.of_nat (length (snd (for_loop 2 ?g ?s2))) /\ _ =>
        refine (proj2 (for_loop_rel2
          (fun _ (p p' : vec * list vec) =>
             fst p = fst p' /\ M <= Z.of_nat (length (snd p)) /\
             M' <= Z.of_nat (length (snd p')) /\ aget [] (snd p) iy = aget [] (snd p') iy')
          2 f g s1 s2 _ _ _))
    end.
    + cbn [fst snd]. auto.
    + intros l [v u] [v' u'] Hl (Ev & Lu & Lu' & Eu).
      cbn [fst snd] in Ev, Lu, Lu', Eu. subst v'.
      cbv beta iota zeta. cbn [fst snd]. split; [reflexivity|].
      destruct (Z.leb_spec M 2); [lia|]. destruct (Z.leb_spec M' 2); [lia|].
      apply for_loop_col; try assumption; try col_frame.
      intros st st' Ls Ls' Es. cbv beta zeta.
      unfold vec in *. aget_aset.
      rewrite Es, !(load_quants_col hp _ _ _ _ Hq8). reflexivity.
    + lia.
  - lia.
Qed.

Lemma q2_K_block_colw x i (accd accd' : list fvec) :
  M <= Z.of_nat (length accd) -> M' <= Z.of_nat (length accd') ->
  aget [] accd iy = aget [] accd' iy' ->
  M <= Z.of_nat (length (q2_K_block hp M q8 x i accd)) /\
  M' <= Z.of_nat (length (q2_K_block hp M' q8' x i accd')) /\
  aget [] (q2_K_block hp M q8 x i accd) iy = aget [] (q2_K_block hp M' q8' x i accd') iy'.
Proof.
  intros L L' E. unfold q2_K_block. cbv zeta.
  assert (Hm : M <= Z.of_nat (length (q2_K_mins hp M q8 x i accd)) /\
               M' <= Z.of_nat (length (q2_K_mins hp M' q8' x i accd')) /\
               aget [] (q2_K_mins hp M q8 x i accd) iy
               = aget [] (q2_K_mins hp M' q8' x i accd') iy').
  { unfold q2_K_mins. cbv zeta.
    destruct (Z.leb_spec M 2); [lia|]. destruct (Z.leb_spec M' 2); [lia|].
    apply for_loop_col; try assumption; try col_frame.
    intros st st' Ls Ls' Es. cbv beta zeta.
    unfold fvec in *. aget_aset.
    rewrite Es, (scale_col hp _ _ _ _ Hq8), (load_bsums_col hp _ _ _ _ Hq8). reflexivity. }
  destruct Hm as (Lm & Lm' & Em).
  destruct (Z.leb_spec M 2); [lia|]. destruct (Z.leb_spec M' 2); [lia|].
  apply for_loop_col; try assumption; try col_frame.
  intros st st' Ls Ls' Es. cbv beta zeta.
  unfold fvec in *. aget_aset.
  rewrite Es, (scale_col hp _ _ _ _ Hq8), (q2_K_sumi_colw x i). reflexivity.
Qed.

Lemma q2_K_value_colw nb vx bx ix :
  q2_K_value hp M nb q8 vx bx ix iy = q2_K_value hp M' nb q8' vx bx ix iy'.
Proof.
  unfold q2_K_value. cbv zeta.
  destruct (Z.leb_spec M 2); [lia|]. destruct (Z.leb_spec M' 2); [lia|].
  f_equal. unfold q2_K_row. cbv zeta.
  destruct (Z.le_gt_cases nb 0) as [Hnb|Hnb].
  { rewrite !for_loop_nonpos by lia. apply zeros_colw. }
  match goal with
  | |- aget _ (for_loop nb ?f ?s1) _ = aget _ (for_loop nb ?g ?s2) _ =>
      refine (proj2 (proj2 (for_loop_rel2
        (fun _ (p p' : list fvec) =>
           M <= Z.of_nat (length p) /\ M' <= Z.of_nat (length p') /\
           aget [] p iy = aget [] p' iy')
        nb f g s1 s2 _ _ _)))
  end.
  - apply zeros_colw.
  - intros i acc acc' Hi (L & L' & E). now apply q2_K_block_colw.
  - lia.
Qed.

Lemma q4_K_sumi_colw x i :
  aget [] (q4_K_sumi hp M q8 x i) iy = aget [] (q4_K_sumi hp M' q8' x i) iy'.
Proof.
  unfold q4_K_sumi. cbv zeta. change (QK_K / 64) with 4.
  match goal with
  | |- aget _ (snd (for_loop 4 ?f ?s1)) _ = aget _ (snd (for_loop 4 ?g ?s2)) _ =>
      refine (proj2 (proj2 (proj2 (for_loop_rel2
        (fun _ (p p' : Z * list vec) =>
           fst p = fst p' /\ M <= Z.of_nat (length (snd p)) /\
           M' <= Z.of_nat (length (snd p')) /\ aget [] (snd p) iy = aget [] (snd p') iy')
        4 f g s1 s2 _ _ _))))
  end.
  - cbn [fst snd]. split; [reflexivity|]. apply zeros_colw.
  - intros j [q4 t] [q4' t'] Hj (E & L & L' & Ea). cbn [fst snd] in E, L, L', Ea.
    subst q4'. cbv beta iota zeta. cbn [fst snd]. split; [reflexivity|].
    destruct (Z.leb_spec M 2); [lia|]. destruct (Z.leb_spec M' 2); [lia|].
    apply for_loop_col; try assumption; try col_frame.
    intros st st' Ls Ls' Es. cbv beta zeta.
    unfold vec in *. aget_aset.
    rewrite Es, !(load_quants_col hp _ _ _ _ Hq8). reflexivity.
  - lia.
Qed.

Lemma q4_K_row_colw nb vx bx ix :
  aget [] (fst (q4_K_row hp M nb q8 vx bx ix)) iy
  = aget [] (fst (q4_K_row hp M' nb q8' vx bx ix)) iy' /\
  aget [] (snd (q4_K_row hp M nb q8 vx bx ix)) iy
  = aget [] (snd (q4_K_row hp M' nb q8' vx bx ix)) iy'.
Proof.
  unfold q4_K_row. cbv zeta.
  destruct (Z.le_gt_cases nb 0) as [Hnb|Hnb].
  { rewrite !for_loop_nonpos by lia. cbn [fst snd].
    split; [apply zeros_colw|now apply zeros_col]. }
  match goal with
  | |- aget _ (fst (for_loop nb ?f ?s1)) _ = aget _ (fst (for_loop nb ?g ?s2)) _ /\ _ =>
      pose proof (for_loop_rel2
        (fun _ (p p' : list fvec * list fvec) =>
           (M <= Z.of_nat (length (fst p)) /\ M' <= Z.of_nat (length (fst p')) /\
            aget [] (fst p) iy = aget [] (fst p') iy') /\
           (M <= Z.of_nat (length (snd p)) /\ M' <= Z.of_nat (length (snd p')) /\
            aget [] (snd p) iy = aget [] (snd p') iy'))
        nb f g s1 s2) as P
  end.
  cbv beta in P.
  destruct P as [(_ & _ & E1) (_ & _ & E2)]; [| |lia|now split].
  - cbn [fst snd]. split; [apply zeros_colw|now apply zeros_col].
  - intros i [accd accm] [accd' accm'] Hi [(L & L' & E) (Lm & Lm' & Em)].
    cbn [fst snd] in L, L', E, Lm, Lm', Em.
    unfold q4_K_block. cbv zeta. cbn [fst snd].
    destruct (Z.leb_spec M 2); [lia|]. destruct (Z.leb_spec M' 2); [lia|]. split.
    + apply for_loop_col; try assumption; try col_frame.
      intros st st' Ls Ls' Es. cbv beta zeta.
      unfold fvec in *. aget_aset.
      rewrite Es, (scale_col hp _ _ _ _ Hq8), (q4_K_sumi_colw (h_q4 hp (vx + bx * ix) i) i).
      reflexivity.
    + now apply q4_K_mins_col.
Qed.

Lemma q4_K_value_colw nb vx bx ix :
  q4_K_value hp M nb q8 vx bx ix iy = q4_K_value hp M' nb q8' vx bx ix iy'.
Proof.
  unfold q4_K_value. destruct (q4_K_row_colw nb vx bx ix) as (E1 & E2).
  destruct (q4_K_row hp M nb q8 vx bx ix) as [accd accm].
  destruct (q4_K_row hp M' nb q8' vx bx ix) as [accd' accm'].
  cbn [fst snd] in E1, E2.
  destruct (Z.leb_spec M 2); [lia|]. destruct (Z.leb_spec M' 2); [lia|].
  cbv zeta. unfold fvec in *. now rewrite E1, E2.
Qed.

End ColumnsWide.

Lemma value_of_col {F : Type} `{FloatOps F} (hp : Heaps F) f M M' iy iy' q8 q8' nb vx bx ix :
  0 <= iy < M -> 0 <= iy' < M' -> same_layout f M M' = true ->
  aget 0 q8 iy = aget 0 q8' iy' ->
  value_of hp f M nb q8 vx bx ix iy = value_of hp f M' nb q8' vx bx ix iy'.
Proof.
  intros HM HM' Hl Hq8. destruct f; cbn [value_of same_layout] in *.
  - destruct (Z.leb_spec M 2); destruct (Z.leb_spec M' 2); try discriminate.
    + now apply q2_K_value_col2.
    + now apply q2_K_value_colw.
  - now apply q3_K_value_col.
  - destruct (Z.leb_spec M 2); destruct (Z.leb_spec M' 2); try discriminate.
    + now apply q4_K_value_col2.
    + now apply q4_K_value_colw.
  - now apply q5_K_value_col.
  - now apply q6_K_value_col.
  - now apply iq4_xs_value_col.
Qed.

(** X5.  The value a kernel writes for a column of [B] depends on that column
    only: kernels of widths [M] and [M'] of one family that find the same
    column pointer at positions [iy] and [iy'] write the same value for it,
    bit for bit, whatever the other columns are; for Q2_K and Q4_K the two
    widths must use the same accumulator layout (both at most 2, or both
    above). *)
Theorem columns_independent {F : Type} `{FloatOps F} (hp : Heaps F) (f : family)
  (M M' iy iy' : Z) (q8 q8' : list Z) (nb vx bx ix : Z) :
  0 <= iy < M -> 0 <= iy' < M' -> same_layout f M M' = true ->
  aget 0 q8 iy = aget 0 q8' iy' ->
  value_of hp f M nb q8 vx bx ix iy = value_of hp f M' nb q8' vx bx ix iy'.
Proof. apply value_of_col. Qed.

Lemma columns_independent_witness :
  0 <= 5 < 8 /\ 0 <= 0 < 1 /\ same_layout Q6_K 8 1 = true /\
  aget 0 (Q8 8 0 292) 5 = aget 0 (Q8 1 1460 292) 0 /\
  value_of corr_demo Q6_K 8 1 (Q8 8 0 292) 0 210 2 5
  = value_of corr_demo Q6_K 1 1 (Q8 1 1460 292) 0 210 2 0.
Proof.
  assert (H1 : 0 <= 5 < 8) by lia. assert (H2 : 0 <= 0 < 1) by lia.
  assert (H3 : same_layout Q6_K 8 1 = true) by reflexivity.
  assert (H4 : aget 0 (Q8 8 0 292) 5 = aget 0 (Q8 1 1460 292) 0) by reflexivity.
  split; [exact H1|]. split; [exact H2|]. split; [exact H3|]. split; [exact H4|].
  exact (columns_independent corr_demo Q6_K 8 1 5 0 (Q8 8 0 292) (Q8 1 1460 292) 1 0 210 2
           H1 H2 H3 H4).
Defined.


(** ** What the entry point leaves in [C] *)

Lemma in_peel Ny p :
  In p (peel Ny) ->
  (exists k, 0 <= k < Ny / 8 /\ p = (8, 8 * k)) \/
  (4 <= Ny mod 8 /\ p = (4, 8 * (Ny / 8))) \/
  (2 <= Ny mod 4 /\ p = (2, 4 * (Ny / 4))) \/
  (1 <= Ny mod 2 /\ p = (1, 2 * (Ny / 2))).
Proof.
  unfold peel. rewrite !in_app_iff. intros [Hin|[Hin|[Hin|Hin]]].
  - left. apply in_map_iff in Hin. destruct Hin as (k & <- & Hk).
    apply in_zrange in Hk. now exists k.
  - right; left. destruct (Z.leb_spec 4 (Ny mod 8)); [|destruct Hin].
    destruct Hin as [<-|[]]. auto.
  - right; right; left. destruct (Z.leb_spec 2 (Ny mod 4)); [|destruct Hin].
    destruct Hin as [<-|[]]. auto.
  - right; right; right. destruct (Z.leb_spec 1 (Ny mod 2)); [|destruct Hin].
    destruct Hin as [<-|[]]. auto.
Qed.

Lemma peel_piece Ny p :
  0 <= Ny -> In p (peel Ny) ->
  (fst p = 8 \/ fst p = 4 \/ fst p = 2 \/ fst p = 1) /\
  0 <= snd p /\ snd p + fst p <= Ny /\
  (2 < fst p -> snd p + fst p <= 4 * (Ny / 4)) /\
  (fst p <= 2 -> 4 * (Ny / 4) <= snd p).
Proof.
  intros HNy Hin.
  destruct (in_peel Ny p Hin) as [(k & Hk & ->)|[[Hc ->]|[[Hc ->]|[Hc ->]]]];
    cbn [fst snd]; (split; [lia|]); Z.div_mod_to_equations; lia.
Qed.

Lemma peel_piece_unique Ny p p' col :
  0 <= Ny -> In p (peel Ny) -> In p' (peel Ny) ->
  snd p <= col < snd p + fst p -> snd p' <= col < snd p' + fst p' -> p = p'.
Proof.
  intros HNy Hin Hin'.
  destruct (in_peel Ny p Hin) as [(k & Hk & ->)|[[Hc ->]|[[Hc ->]|[Hc ->]]]];
  destruct (in_peel Ny p' Hin') as [(k' & Hk' & ->)|[[Hc' ->]|[[Hc' ->]|[Hc' ->]]]];
    cbn [fst snd]; intros H1 H2;
    try reflexivity; try (exfalso; Z.div_mod_to_equations; lia).
  f_equal. lia.
Qed.

Lemma peel_cover Ny col :
  0 <= col < Ny -> exists p, In p (peel Ny) /\ snd p <= col < snd p + fst p.
Proof.
  intros Hcol. assert (Hin : In col (zrange Ny)) by now apply in_zrange.
  rewrite <- peel_columns in Hin by lia.
  apply in_flat_map in Hin. destruct Hin as (p & Hp & Hc).
  exists p. split; [assumption|]. unfold columns_of in Hc.
  apply in_map_iff in Hc. destruct Hc as (k & <- & Hk). apply in_zrange in Hk. lia.
Qed.

Section EntryMemory.
Context {F : Type} `{FloatOps F} (hp : Heaps F) (env : ggml_env).
Variables (f : family) (Nx Ny ne00 typeA A B C stride_C ith nth : Z).

Lemma in_entry_writes a v :
  In (a, v) (entry_writes hp env f Nx Ny ne00 typeA A B C stride_C ith nth) <->
  exists p ix iy,
    In p (peel (to_int Ny)) /\
    0 <= ix < to_int (snd (row_slice Nx ith nth)) /\ 0 <= iy < fst p /\
    a = C + fst (row_slice Nx ith nth) + ix + (snd p + iy) * stride_C /\
    v = value_of hp f (fst p) (Z.quot (to_int ne00) QK_K)
          (Q8 (fst p) (B + snd p * ggml_row_size env (GGML_TYPE_Q8_K env) ne00)
              (ggml_row_size env (GGML_TYPE_Q8_K env) ne00))
          (A + ggml_row_size env typeA ne00 * fst (row_slice Nx ith nth))
          (ggml_row_size env typeA ne00) ix iy.
Proof.
  unfold entry_writes. destruct (row_slice Nx ith nth) as [first_x nrc_x]. cbn [fst snd].
  rewrite in_flat_map. split.
  - intros (p & Hp & Hin). apply in_tile_writes in Hin.
    destruct Hin as (ix & iy & Hix & Hiy & -> & ->).
    exists p, ix, iy. repeat split; try assumption; lia.
  - intros (p & ix & iy & Hp & Hix & Hiy & -> & ->).
    exists p. split; [assumption|]. apply in_tile_writes.
    exists ix, iy. repeat split; try assumption; lia.
Qed.

Lemma iqk_mul_mat_fills_lemma (m : Z -> F) :
  Z.rem ne00 QK_K = 0 -> nth <> 0 -> family_of env typeA = Some f -> 0 <= to_int Ny ->
  to_int (snd (row_slice Nx ith nth)) <= stride_C ->
  exists m',
    iqk_mul_mat mem_store hp env Nx Ny ne00 typeA A B C stride_C ith nth m = Some (true, m') /\
    (forall p ix iy,
       In p (peel (to_int Ny)) ->
       0 <= ix < to_int (snd (row_slice Nx ith nth)) -> 0 <= iy < fst p ->
       m' (C + fst (row_slice Nx ith nth) + ix + (snd p + iy) * stride_C)
       = value_of hp f (fst p) (Z.quot (to_int ne00) QK_K)
           (Q8 (fst p) (B + snd p * ggml_row_size env (GGML_TYPE_Q8_K env) ne00)
               (ggml_row_size env (GGML_TYPE_Q8_K env) ne00))
           (A + ggml_row_size env typeA ne00 * fst (row_slice Nx ith nth))
           (ggml_row_size env typeA ne00) ix iy) /\
    (forall a,
       (forall ix col, 0 <= ix < to_int (snd (row_slice Nx ith nth)) -> 0 <= col < to_int Ny ->
                       a <> C + fst (row_slice Nx ith nth) + ix + col * stride_C) ->
       m' a = m a).
Proof.
  intros Hne Hnth Hf HNy Hbs.
  rewrite (iqk_mul_mat_replays mem_store hp env f) by assumption.
  eexists. split; [reflexivity|]. split.
  - intros p ix iy Hp Hix Hiy. apply replay_mem_in.
    + apply in_map_iff. eexists (_, _). split; [reflexivity|].
      apply in_entry_writes. exists p, ix, iy. repeat split; try assumption; lia.
    + intros v' Hin. apply in_entry_writes in Hin.
      destruct Hin as (p' & ix' & iy' & Hp' & Hix' & Hiy' & E & ->).
      assert (E' : ix + (snd p + iy) * stride_C = ix' + (snd p' + iy') * stride_C) by lia.
      destruct (tile_address_inj stride_C _ ix (snd p + iy) ix' (snd p' + iy') Hbs Hix Hix' E')
        as [-> Ecol].
      assert (p = p') as <-
        by (apply (peel_piece_unique (to_int Ny) p p' (snd p + iy)); try assumption; lia).
      assert (iy' = iy) as -> by lia. reflexivity.
  - intros a Ha. apply replay_mem_notin. intros Hin.
    apply in_map_iff in Hin. destruct Hin as ([a' v'] & E & Hin). cbn [fst] in E. subst a'.
    apply in_entry_writes in Hin.
    destruct Hin as (p & ix & iy & Hp & Hix & Hiy & E & _).
    destruct (peel_piece (to_int Ny) p HNy Hp) as (_ & Hs & Hl & _).
    apply (Ha ix (snd p + iy)); [assumption|lia|exact E].
Qed.

End EntryMemory.

Lemma Q8_pointer M vy by_ iy :
  0 <= iy < M -> M <= 8 -> 0 <= by_ -> 7 * by_ <= INT_MAX ->
  aget 0 (Q8 M vy by_) iy = vy + iy * by_.
Proof.
  intros Hiy HM Hby Hmax. unfold INT_MAX in *. rewrite aget_Q8 by assumption.
  rewrite (to_int_id by_) by (unfold INT_MAX; lia).
  rewrite to_int_id by (unfold INT_MAX; nia). reflexivity.
Qed.

Lemma layout_width_same f Ny p col :
  0 <= Ny -> In p (peel Ny) -> snd p <= col < snd p + fst p ->
  0 < layout_width f Ny col /\ same_layout f (fst p) (layout_width f Ny col) = true.
Proof.
  intros HNy Hp Hcol.
  destruct (peel_piece Ny p HNy Hp) as (Hw & _ & _ & Hwide & Hnarrow).
  unfold layout_width, same_layout.
  destruct f; try (split; [lia|reflexivity]);
    destruct (Z.ltb_spec col (4 * (Ny / 4))); (split; [lia|]);
    destruct (Z.leb_spec (fst p) 2); try reflexivity; exfalso; lia.
Qed.

Section EntryElement.
Context {F : Type} `{FloatOps F} (hp : Heaps F) (env : ggml_env).
Variables (f : family) (Nx Ny ne00 typeA A B C stride_C ith nth : Z).

Lemma iqk_mul_mat_element_lemma (m : Z -> F) :
  Z.rem ne00 QK_K = 0 -> nth <> 0 -> family_of env typeA = Some f -> 0 <= to_int Ny ->
  to_int (snd (row_slice Nx ith nth)) <= stride_C ->
  0 <= ggml_row_size env (GGML_TYPE_Q8_K env) ne00 ->
  7 * ggml_row_size env (GGML_TYPE_Q8_K env) ne00 <= INT_MAX ->
  exists m',
    iqk_mul_mat mem_store hp env Nx Ny ne00 typeA A B C stride_C ith nth m = Some (true, m') /\
    forall ix col,
      0 <= ix < to_int (snd (row_slice Nx ith nth)) -> 0 <= col < to_int Ny ->
      m' (C + fst (row_slice Nx ith nth) + ix + col * stride_C)
      = value_of hp f (layout_width f (to_int Ny) col) (Z.quot (to_int ne00) QK_K)
          (repeat (B + col * ggml_row_size env (GGML_TYPE_Q8_K env) ne00)
                  (Z.to_nat (layout_width f (to_int Ny) col)))
          (A + ggml_row_size env typeA ne00 * fst (row_slice Nx ith nth))
          (ggml_row_size env typeA ne00) ix 0.
Proof.
  intros Hne Hnth Hf HNy Hbs Hrs Hmax.
  destruct (iqk_mul_mat_fills_lemma hp env f Nx Ny ne00 typeA A B C stride_C ith nth m
              Hne Hnth Hf HNy Hbs) as (m' & E & Hfill & _).
  exists m'. split; [exact E|]. intros ix col Hix Hcol.
  destruct (peel_cover (to_int Ny) col Hcol) as (p & Hp & Hin).
  destruct (peel_piece (to_int Ny) p HNy Hp) as (Hw & _ & _ & _ & _).
  destruct (layout_width_same f (to_int Ny) p col HNy Hp Hin) as [Hpos Hsame].
  replace col with (snd p + (col - snd p)) at 1 by ring.
  rewrite (Hfill p ix (col - snd p)) by (assumption || lia).
  apply value_of_col; try assumption; try lia.
  rewrite Q8_pointer by (assumption || lia).
  rewrite aget_repeat by lia. ring.
Qed.

End EntryElement.

(** X6.  For non-negative [Ny], the tiling shim on any four kernels, which may
    fail, is the sequence of the calls of the column peeling: each call
    runs on the store the previous one left, and a failed call fails the
    whole. *)
Theorem mul_mat_NxM_composes {St : Type} (mm : Z -> @mul_mat_t St)
  (n s bs vx bx vy by_ nrc_x Ny : Z) (st : St) :
  0 <= Ny ->
  mul_mat_NxM n s bs vx bx vy by_ nrc_x Ny
    (Some (mm 1)) (Some (mm 2)) (Some (mm 4)) (Some (mm 8)) st
  = run_calls mm n s bs vx bx vy by_ nrc_x (peel Ny) (Some st).
Proof. apply mul_mat_NxM_runs. Qed.

Lemma mul_mat_NxM_composes_witness :
  0 <= 7 /\
  mul_mat_NxM 255 100 7 0 84 1000 292 3 7
    (Some (kernel_of log_store corr_demo Q6_K 1)) (Some (kernel_of log_store corr_demo Q6_K 2))
    (Some (kernel_of log_store corr_demo Q6_K 4)) (Some (kernel_of log_store corr_demo Q6_K 8))
    []
  = run_calls (kernel_of log_store corr_demo Q6_K) 255 100 7 0 84 1000 292 3 (peel 7) (Some []).
Proof.
  assert (H : 0 <= 7) by lia. split; [exact H|].
  exact (mul_mat_NxM_composes (kernel_of log_store corr_demo Q6_K) 255 100 7 0 84 1000 292 3 7
           [] H).
Defined.

(** X7.  With no columns to process ([Ny <= 0], also negative), the tiling shim
    calls no kernel, whatever the four kernels are (null included), and
    returns the store as it got it. *)
Theorem mul_mat_NxM_nothing_to_do {St : Type} (n s bs vx bx vy by_ nrc_x Ny : Z)
  (m1 m2 m4 m8 : option (@mul_mat_t St)) (st : St) :
  Ny <= 0 ->
  mul_mat_NxM n s bs vx bx vy by_ nrc_x Ny m1 m2 m4 m8 st = Some st.
Proof. apply mul_mat_NxM_no_columns. Qed.

Lemma mul_mat_NxM_nothing_to_do_witness :
  -3 <= 0 /\
  mul_mat_NxM 255 100 7 0 84 1000 292 3 (-3)
    (Some (kernel_of log_store corr_demo Q6_K 1)) None
    (Some (kernel_of log_store corr_demo Q6_K 4)) None [] = Some [].
Proof.
  assert (H : -3 <= 0) by lia. split; [exact H|].
  exact (mul_mat_NxM_nothing_to_do 255 100 7 0 84 1000 292 3 (-3)
           (Some (kernel_of log_store corr_demo Q6_K 1)) None
           (Some (kernel_of log_store corr_demo Q6_K 4)) None [] H).
Defined.

(** X8.  On a supported type, with [ne00] a multiple of [QK_K], [nth] not zero
    and a non-negative column count, the entry point returns true and
    writes exactly the tiles of the column peeling, call after call, on
    the row slice of the worker: row by row within a call, and column by
    column within a row. *)
Theorem iqk_mul_mat_writes {F : Type} `{FloatOps F} (hp : Heaps F) (env : ggml_env)
  (f : family) (Nx Ny ne00 typeA A B C stride_C ith nth : Z) (log : write_log F) :
  Z.rem ne00 QK_K = 0 -> nth <> 0 -> family_of env typeA = Some f -> 0 <= to_int Ny ->
  iqk_mul_mat log_store hp env Nx Ny ne00 typeA A B C stride_C ith nth log
  = Some (true, log ++ entry_writes hp env f Nx Ny ne00 typeA A B C stride_C ith nth).
Proof.
  intros Hne Hnth Hf HNy.
  rewrite (iqk_mul_mat_replays log_store hp env f) by assumption.
  now rewrite replay_log.
Qed.

Lemma iqk_mul_mat_writes_witness :
  Z.rem 256 QK_K = 0 /\ 2 <> 0 /\ family_of ggml_h 14 = Some Q6_K /\ 0 <= to_int 11 /\
  iqk_mul_mat log_store corr_demo ggml_h 6 11 256 14 0 5000 100 6 1 2 []
  = Some (true, [] ++ entry_writes corr_demo ggml_h Q6_K 6 11 256 14 0 5000 100 6 1 2).
Proof.
  assert (H1 : Z.rem 256 QK_K = 0) by reflexivity.
  assert (H2 : 2 <> 0) by lia.
  assert (H3 : family_of ggml_h 14 = Some Q6_K) by reflexivity.
  assert (H4 : 0 <= to_int 11) by (vm_compute; discriminate).
  split; [exact H1|]. split; [exact H2|]. split; [exact H3|]. split; [exact H4|].
  exact (iqk_mul_mat_writes corr_demo ggml_h Q6_K 6 11 256 14 0 5000 100 6 1 2 []
           H1 H2 H3 H4).
Defined.

(** X9.  On a supported type, with [ne00] a multiple of [QK_K] and [nth] not
    zero, a call with no columns ([Ny <= 0] as an [int]) returns true and
    leaves the store of [C] as it was. *)
Theorem iqk_mul_mat_no_columns {F : Type} `{FloatOps F} {St : Type}
  (store_at : Z -> F -> St -> St) (hp : Heaps F) (env : ggml_env)
  (Nx Ny ne00 typeA A B C stride_C ith nth : Z) (st : St) :
  Z.rem ne00 QK_K = 0 -> nth <> 0 -> supported_type env typeA -> to_int Ny <= 0 ->
  iqk_mul_mat store_at hp env Nx Ny ne00 typeA A B C stride_C ith nth st = Some (true, st).
Proof. apply iqk_mul_mat_no_columns_lemma. Qed.

Lemma iqk_mul_mat_no_columns_witness :
  Z.rem 256 QK_K = 0 /\ 2 <> 0 /\ supported_type ggml_h 14 /\ to_int 0 <= 0 /\
  iqk_mul_mat log_store corr_demo ggml_h 6 0 256 14 0 5000 100 6 1 2 [] = Some (true, []).
Proof.
  assert (H1 : Z.rem 256 QK_K = 0) by reflexivity.
  assert (H2 : 2 <> 0) by lia.
  assert (H3 : supported_type ggml_h 14) by (unfold supported_type; cbn; lia).
  assert (H4 : to_int 0 <= 0) by (vm_compute; discriminate).
  split; [exact H1|]. split; [exact H2|]. split; [exact H3|]. split; [exact H4|].
  exact (iqk_mul_mat_no_columns log_store corr_demo ggml_h 6 0 256 14 0 5000 100 6 1 2 []
           H1 H2 H3 H4).
Defined.

(** X10.  On a supported type, with [ne00] a multiple of [QK_K], [nth] not zero,
    a non-negative column count and a stride of [C] that is at least the
    row count of the slice, the entry point returns true with a memory
    that holds, for every call of the column peeling, the value of that
    call's kernel at row [ix] and column [iy] at
    [C + first_x + ix + (c + iy) * stride_C], and that is unchanged outside
    the rows of the slice in the [Ny] columns. *)
Theorem iqk_mul_mat_fills {F : Type} `{FloatOps F} (hp : Heaps F) (env : ggml_env)
  (f : family) (Nx Ny ne00 typeA A B C stride_C ith nth : Z) (m : Z -> F) :
  Z.rem ne00 QK_K = 0 -> nth <> 0 -> family_of env typeA = Some f -> 0 <= to_int Ny ->
  to_int (snd (row_slice Nx ith nth)) <= stride_C ->
  exists m',
    iqk_mul_mat mem_store hp env Nx Ny ne00 typeA A B C stride_C ith nth m = Some (true, m') /\
    (forall p ix iy,
       In p (peel (to_int Ny)) ->
       0 <= ix < to_int (snd (row_slice Nx ith nth)) -> 0 <= iy < fst p ->
       m' (C + fst (row_slice Nx ith nth) + ix + (snd p + iy) * stride_C)
       = value_of hp f (fst p) (Z.quot (to_int ne00) QK_K)
           (Q8 (fst p) (B + snd p * ggml_row_size env (GGML_TYPE_Q8_K env) ne00)
               (ggml_row_size env (GGML_TYPE_Q8_K env) ne00))
           (A + ggml_row_size env typeA ne00 * fst (row_slice Nx ith nth))
           (ggml_row_size env typeA ne00) ix iy) /\
    (forall a,
       (forall ix col, 0 <= ix < to_int (snd (row_slice Nx ith nth)) -> 0 <= col < to_int Ny ->
                       a <> C + fst (row_slice Nx ith nth) + ix + col * stride_C) ->
       m' a = m a).
Proof. apply iqk_mul_mat_fills_lemma. Qed.

Lemma iqk_mul_mat_fills_witness :
  Z.rem 256 QK_K = 0 /\ 2 <> 0 /\ family_of ggml_h 14 = Some Q6_K /\ 0 <= to_int 11 /\
  to_int (snd (row_slice 6 1 2)) <= 6 /\
  exists m',
    iqk_mul_mat mem_store corr_demo ggml_h 6 11 256 14 0 5000 100 6 1 2
      (fun _ => Rational.of_Z 7) = Some (true, m') /\
    m' 99 = Rational.of_Z 7.
Proof.
  assert (H1 : Z.rem 256 QK_K = 0) by reflexivity.
  assert (H2 : 2 <> 0) by lia.
  assert (H3 : family_of ggml_h 14 = Some Q6_K) by reflexivity.
  assert (H4 : 0 <= to_int 11) by (vm_compute; discriminate).
  assert (H5 : to_int (snd (row_slice 6 1 2)) <= 6) by (vm_compute; discriminate).
  split; [exact H1|]. split; [exact H2|]. split; [exact H3|]. split; [exact H4|].
  split; [exact H5|].
  destruct (iqk_mul_mat_fills corr_demo ggml_h Q6_K 6 11 256 14 0 5000 100 6 1 2
              (fun _ => Rational.of_Z 7) H1 H2 H3 H4 H5) as (m' & E & _ & Hout).
  exists m'. split; [exact E|]. apply Hout.
  intros ix col Hix Hcol.
  change (fst (row_slice 6 1 2)) with 3.
  change (to_int (snd (row_slice 6 1 2))) with 3 in Hix. lia.
Defined.

(** X11.  Under the conditions of the previous theorem and a Q8_K row size
    [rs8] with [0 <= rs8] and [7 * rs8 <= INT_MAX], the element of [C] for
    row [ix] of the slice and column [col] is the value a single kernel
    computes from row [first_x + ix] of [A] and column [col] of [B] alone:
    for Q3_K, Q5_K, Q6_K and IQ4_XS that of the kernel of width 1, whatever
    [Ny] is; for Q2_K and Q4_K that of the kernel of width 4 for the columns
    below [4 * (Ny / 4)] and of width 1 for the others. *)
Theorem iqk_mul_mat_element {F : Type} `{FloatOps F} (hp : Heaps F) (env : ggml_env)
  (f : family) (Nx Ny ne00 typeA A B C stride_C ith nth : Z) (m : Z -> F) :
  Z.rem ne00 QK_K = 0 -> nth <> 0 -> family_of env typeA = Some f -> 0 <= to_int Ny ->
  to_int (snd (row_slice Nx ith nth)) <= stride_C ->
  0 <= ggml_row_size env (GGML_TYPE_Q8_K env) ne00 ->
  7 * ggml_row_size env (GGML_TYPE_Q8_K env) ne00 <= INT_MAX ->
  exists m',
    iqk_mul_mat mem_store hp env Nx Ny ne00 typeA A B C stride_C ith nth m = Some (true, m') /\
    forall ix col,
      0 <= ix < to_int (snd (row_slice Nx ith nth)) -> 0 <= col < to_int Ny ->
      m' (C + fst (row_slice Nx ith nth) + ix + col * stride_C)
      = value_of hp f (layout_width f (to_int Ny) col) (Z.quot (to_int ne00) QK_K)
          (repeat (B + col * ggml_row_size env (GGML_TYPE_Q8_K env) ne00)
                  (Z.to_nat (layout_width f (to_int Ny) col)))
          (A + ggml_row_size env typeA ne00 * fst (row_slice Nx ith nth))
          (ggml_row_size env typeA ne00) ix 0.
Proof. apply iqk_mul_mat_element_lemma. Qed.

Lemma iqk_mul_mat_element_witness :
  Z.rem 256 QK_K = 0 /\ 2 <> 0 /\ family_of ggml_h 12 = Some Q4_K /\ 0 <= to_int 11 /\
  to_int (snd (row_slice 6 1 2)) <= 6 /\
  0 <= ggml_row_size ggml_h (GGML_TYPE_Q8_K ggml_h) 256 /\
  7 * ggml_row_size ggml_h (GGML_TYPE_Q8_K ggml_h) 256 <= INT_MAX /\
  exists m',
    iqk_mul_mat mem_store corr_demo ggml_h 6 11 256 12 0 5000 100 6 1 2
      (fun _ => Rational.of_Z 7) = Some (true, m') /\
    m' (100 + 3 + 2 + 9 * 6)
    = value_of corr_demo Q4_K 1 1 [5000 + 9 * 292] (0 + 144 * 3) 144 2 0.
Proof.
  assert (H1 : Z.rem 256 QK_K = 0) by reflexivity.
  assert (H2 : 2 <> 0) by lia.
  assert (H3 : family_of ggml_h 12 = Some Q4_K) by reflexivity.
  assert (H4 : 0 <= to_int 11) by (vm_compute; discriminate).
  assert (H5 : to_int (snd (row_slice 6 1 2)) <= 6) by (vm_compute; discriminate).
  assert (H6 : 0 <= ggml_row_size ggml_h (GGML_TYPE_Q8_K ggml_h) 256)
    by (vm_compute; discriminate).
  assert (H7 : 7 * ggml_row_size ggml_h (GGML_TYPE_Q8_K ggml_h) 256 <= INT_MAX)
    by (vm_compute; discriminate).
  split; [exact H1|]. split; [exact H2|]. split; [exact H3|]. split; [exact H4|].
  split; [exact H5|]. split; [exact H6|]. split; [exact H7|].
  destruct (iqk_mul_mat_element corr_demo ggml_h Q4_K 6 11 256 12 0 5000 100 6 1 2
              (fun _ => Rational.of_Z 7) H1 H2 H3 H4 H5 H6 H7) as (m' & E & Hel).
  exists m'. split; [exact E|].
  assert (Hix : 0 <= 2 < to_int (snd (row_slice 6 1 2))) by (vm_compute; split; congruence).
  assert (Hcol : 0 <= 9 < to_int 11) by (vm_compute; split; congruence).
  exact (Hel 2 9 Hix Hcol).
Defined.


(** ** The integer path without saturation *)

Lemma zsum_app a b : zsum (a ++ b) = zsum a + zsum b.
Proof. induction a as [|x a IH]; cbn [app zsum fold_right] in *; [reflexivity|]. fold (zsum (a ++ b)) (zsum a). lia. Qed.

Lemma zsum_map_scale c l : zsum (map (fun v => c * v) l) = c * zsum l.
Proof.
  induction l as [|x l IH]; cbn [map zsum fold_right]; [lia|].
  fold (zsum (map (fun v => c * v) l)) (zsum l). lia.
Qed.

Lemma zsum_map2_add x y :
  length x = length y -> zsum (map2 Z.add x y) = zsum x + zsum y.
Proof.
  revert y. induction x as [|a x IH]; intros [|b y] Hl; try discriminate; [reflexivity|].
  cbn [map2 zsum fold_right]. fold (zsum (map2 Z.add x y)) (zsum x) (zsum y).
  rewrite IH by (cbn in Hl; lia). lia.
Qed.

Lemma zsum_pair_dot_seq (f g : nat -> Z) n k :
  zsum (pair_dot (map f (seq k (2 * n))) (map g (seq k (2 * n))))
  = zsum (map (fun e => f e * g e) (seq k (2 * n))).
Proof.
  revert k. induction n as [|n IH]; intros k; [reflexivity|].
  replace (2 * S n)%nat with (S (S (2 * n))) by lia.
  cbn [seq map pair_dot zsum fold_right].
  fold (zsum (pair_dot (map f (seq (S (S k)) (2 * n))) (map g (seq (S (S k)) (2 * n))))).
  fold (zsum (map (fun e => f e * g e) (seq (S (S k)) (2 * n)))).
  rewrite IH. lia.
Qed.

Lemma pair_dot_repeat s n p :
  length p = (2 * n)%nat ->
  zsum (pair_dot (repeat s (2 * n)) p) = s * zsum p.
Proof.
  revert p. induction n as [|n IH]; intros p Hl.
  - destruct p; [cbn; lia|discriminate].
  - replace (2 * S n)%nat with (S (S (2 * n))) in * by lia.
    destruct p as [|p0 [|p1 p]]; try discriminate.
    cbn [repeat pair_dot zsum fold_right].
    fold (zsum (pair_dot (repeat s (2 * n)) p)) (zsum p).
    rewrite IH by (cbn in Hl; lia). lia.
Qed.

Lemma pair_dot_app x1 x2 y1 y2 :
  length x1 = length y1 -> Nat.even (length x1) = true ->
  pair_dot (x1 ++ x2) (y1 ++ y2) = pair_dot x1 y1 ++ pair_dot x2 y2.
Proof.
  revert y1. induction x1 as [| |a b x IH] using list_pair_ind; intros y1 Hl Hev.
  - destruct y1; [reflexivity|discriminate].
  - discriminate.
  - destruct y1 as [|c [|d y1]]; try discriminate.
    cbn [app pair_dot]. f_equal. apply IH; [cbn in Hl; lia|exact Hev].
Qed.

(** One multiply-accumulate step of a kernel on 32 bytes of a row against
    32 quants of a column: when the bytes are at most [amax], with
    [2 * amax * 128] within 16 bits, [vpmaddubsw] does not saturate, and
    the eight 32-bit lanes hold sums that add up to the scale of each half
    times the dot product of that half. *)
Lemma madd_sum_halves (bs amax s0 s1 : Z) sc a y (fa gy : nat -> Z) :
  0 <= amax -> 2 * amax * 128 <= 32767 -> 0 <= bs ->
  2 * bs * (2 * amax * 128) <= 2147483647 ->
  - bs <= s0 <= bs -> - bs <= s1 <= bs ->
  i16s sc = repeat s0 8 ++ repeat s1 8 ->
  a = map fa (seq 0 32) -> (forall e, 0 <= fa e <= amax) ->
  map s8 y = map gy (seq 0 32) ->
  let P := i32s (_mm256_madd_epi16 sc (_mm256_maddubs_epi16 a y)) in
  length P = 8%nat /\
  Forall (fun v => - (2 * bs * (2 * amax * 128)) <= v <= 2 * bs * (2 * amax * 128)) P /\
  zsum P = s0 * zsum (map (fun e => fa e * gy e) (seq 0 16))
         + s1 * zsum (map (fun e => fa e * gy e) (seq 16 16)).
Proof.
  intros Ham Hfit Hbs Hfit32 Hs0 Hs1 Hsc Ha Hfa Hy. cbv zeta.
  assert (Fa : Forall (fun b => - amax <= b <= amax) a).
  { subst a. apply Forall_map, Forall_forall. intros e _. specialize (Hfa e). lia. }
  pose proof (pair_dot_bound amax 128 a (map s8 y) Fa (Forall_s8 y)) as HP.
  assert (Fsc : Forall (fun v => - bs <= v <= bs) (i16s sc)).
  { rewrite Hsc. apply Forall_app. split; apply Forall_forall; intros v Hv;
      apply repeat_spec in Hv; subst v; assumption. }
  destruct (madd_maddubs_scaled 1 bs (2 * amax * 128) sc a y
              ltac:(lia) Hbs ltac:(lia) ltac:(lia) Fsc HP) as (E & _ & B).
  { eapply Forall_weaken; [|exact HP]. cbv beta. intros. lia. }
  rewrite E. split; [|split; [exact B|]].
  - rewrite Hsc, Hy, Ha. reflexivity.
  - rewrite Hsc, Hy, Ha.
    change (seq 0 32) with (seq 0 16 ++ seq 16 16). rewrite !map_app.
    rewrite (pair_dot_app (map fa (seq 0 16))) by reflexivity.
    rewrite (pair_dot_app (repeat s0 8)) by reflexivity.
    rewrite zsum_app.
    rewrite (pair_dot_repeat s0 4) by reflexivity.
    rewrite (pair_dot_repeat s1 4) by reflexivity.
    pose proof (zsum_pair_dot_seq fa gy 8 0) as Z0.
    pose proof (zsum_pair_dot_seq fa gy 8 16) as Z1.
    change (2 * 8)%nat with 16%nat in Z0, Z1. rewrite Z0, Z1. reflexivity.
Qed.

Lemma add_epi32_sum bx by_ a b :
  length a = 32%nat -> length b = 32%nat -> bx + by_ <= 2147483647 ->
  Forall (fun v => - bx <= v <= bx) (i32s a) -> Forall (fun v => - by_ <= v <= by_) (i32s b) ->
  length (_mm256_add_epi32 a b) = 32%nat /\
  Forall (fun v => - (bx + by_) <= v <= bx + by_) (i32s (_mm256_add_epi32 a b)) /\
  zsum (i32s (_mm256_add_epi32 a b)) = zsum (i32s a) + zsum (i32s b).
Proof.
  intros La Lb Hfit Fa Fb. split; [now apply length_add_epi32|].
  rewrite i32s_add_epi32, (map2_s32_add bx by_) by assumption.
  split; [now apply map2_add_bound|].
  apply zsum_map2_add. now rewrite !length_i32s.
Qed.

Lemma zsum_seq_step2 (t : nat -> Z) n :
  zsum (map t (seq 0 (n + 2))) = zsum (map t (seq 0 n)) + (t n + t (S n)).
Proof.
  rewrite seq_app, map_app, zsum_app. cbn [seq map zsum fold_right Nat.add]. lia.
Qed.

Lemma i32s_zero : i32s _mm256_setzero_si256 = repeat 0 8.
Proof. reflexivity. Qed.

(** The scale registers of Q4_K and Q5_K: every 16-bit lane is the scale of
    the sub-block. *)
Lemma q4_K_scale_broadcast scales k :
  0 <= k < 8 ->
  i16s (_mm256_shuffle_epi8
          (MM256_SET_M128I (q4_sc128 (make_q4_scales scales)) (q4_sc128 (make_q4_scales scales)))
          (get_scale_shuffle_8 k))
  = repeat (q4_K_scale scales (Z.to_nat k)) 16 /\
  0 <= q4_K_scale scales (Z.to_nat k) < 256.
Proof.
  intros Hk. rewrite q4_sc128_bytes, !bytes_of32_u32.
  assert (Hb : Forall (fun v => 0 <= v < 256)
                 (bytes_of32 (nth 0 (make_q4_scales scales) 0) ++
                  bytes_of32 (nth 1 (make_q4_scales scales) 0))).
  { apply Forall_app. split; apply bytes_of32_range. }
  rewrite shuffle_8_lanes; [| reflexivity | exact Hb | exact Hk].
  split; [reflexivity|]. unfold q4_K_scale. cbv zeta.
  rewrite Forall_forall in Hb. apply Hb. apply nth_In. cbn [length app bytes_of32]. lia.
Qed.

Ltac seq_cases e He :=
  apply in_seq in He;
  do 32 (destruct e as [|e]; [reflexivity|]); exfalso; lia.

(** One step of the Q4_K loop of the kernels of width above 2, on one
    column: the two products add the terms of sub-blocks [2 j] and
    [2 j + 1] of the integer dot product. *)
Lemma q4_K_wide_step (qs scales yqs : list Z) (j : Z) :
  0 <= j < 4 ->
  let utmp := make_q4_scales scales in
  let sc := MM256_SET_M128I (q4_sc128 utmp) (q4_sc128 utmp) in
  let q4bits := _mm256_loadu_si256 qs (32 * j) in
  let pl := _mm256_madd_epi16 (_mm256_shuffle_epi8 sc (get_scale_shuffle_8 (2 * j + 0)))
              (_mm256_maddubs_epi16 (_mm256_and_si256 q4bits (_mm256_set1_epi8 15))
                 (_mm256_loadu_si256 yqs (32 * (2 * j + 0)))) in
  let ph := _mm256_madd_epi16 (_mm256_shuffle_epi8 sc (get_scale_shuffle_8 (2 * j + 1)))
              (_mm256_maddubs_epi16
                 (_mm256_and_si256 (_mm256_srli_epi16 q4bits 4) (_mm256_set1_epi8 15))
                 (_mm256_loadu_si256 yqs (32 * (2 * j + 1)))) in
  let t := fun j' : nat =>
             q4_K_scale scales j' *
             zsum (map (fun k => q4_K_quant qs (32 * j' + k) * s8 (nth (32 * j' + k) yqs 0))
                       (seq 0 32)) in
  length (_mm256_add_epi32 pl ph) = 32%nat /\
  Forall (fun v => - 3916800 <= v <= 3916800) (i32s (_mm256_add_epi32 pl ph)) /\
  zsum (i32s (_mm256_add_epi32 pl ph)) = t (Z.to_nat (2 * j)) + t (S (Z.to_nat (2 * j))).
Proof.
  intros Hj. cbv zeta.
  destruct (q4_K_scale_broadcast scales (2 * j + 0) ltac:(lia)) as [Esl Rsl].
  destruct (q4_K_scale_broadcast scales (2 * j + 1) ltac:(lia)) as [Esh Rsh].
  set (scl := _mm256_shuffle_epi8 _ (get_scale_shuffle_8 (2 * j + 0))) in *.
  set (sch := _mm256_shuffle_epi8 _ (get_scale_shuffle_8 (2 * j + 1))) in *.
  assert (Lscl : length scl = 32%nat)
    by (subst scl; apply length_shuffle_epi8; assert (Hc : j = 0 \/ j = 1 \/ j = 2 \/ j = 3) by lia;
        destruct Hc as [->|[->|[->| ->]]]; reflexivity).
  assert (Lsch : length sch = 32%nat)
    by (subst sch; apply length_shuffle_epi8; assert (Hc : j = 0 \/ j = 1 \/ j = 2 \/ j = 3) by lia;
        destruct Hc as [->|[->|[->| ->]]]; reflexivity).
  unfold _mm256_and_si256, _mm256_srli_epi16, _mm256_set1_epi8. change (u8 15) with 15.
  pose proof (length_loadu_si256 qs (32 * j)) as Lq.
  pose proof (bytes_ok_load qs (32 * j) 32) as Okq. fold (_mm256_loadu_si256 qs (32 * j)) in Okq.
  assert (El : vand (_mm256_loadu_si256 qs (32 * j)) (repeat 15 32)
               = map (fun k => Z.land (u8 (nth (Z.to_nat (32 * j) + k) qs 0)) 15) (seq 0 32)).
  { rewrite (vand_const _ 15 32 Lq). unfold _mm256_loadu_si256, load_bytes.
    now rewrite map_map. }
  assert (Eh : vand (vsrli_epi16 (_mm256_loadu_si256 qs (32 * j)) 4) (repeat 15 32)
               = map (fun k => Z.shiftr (u8 (nth (Z.to_nat (32 * j) + k) qs 0)) 4) (seq 0 32)).
  { replace (repeat 15 32) with (repeat 15 (length (_mm256_loadu_si256 qs (32 * j))))
      by now rewrite Lq.
    rewrite vand_srli_const by first [apply even_32; assumption | assumption | cbn; lia].
    unfold _mm256_loadu_si256, load_bytes. rewrite map_map.
    apply map_ext. intros k. apply land_15_nibble, u8_range. }
  rewrite El, Eh.
  destruct (madd_sum_halves 255 15 (q4_K_scale scales (Z.to_nat (2 * j + 0)))
              (q4_K_scale scales (Z.to_nat (2 * j + 0))) scl
              (map (fun k => Z.land (u8 (nth (Z.to_nat (32 * j) + k) qs 0)) 15) (seq 0 32))
              (_mm256_loadu_si256 yqs (32 * (2 * j + 0)))
              (fun k => Z.land (u8 (nth (Z.to_nat (32 * j) + k) qs 0)) 15)
              (fun k => s8 (nth (Z.to_nat (32 * (2 * j + 0)) + k) yqs 0)))
    as (Ll & Bl & Sl); try lia; try reflexivity.
  { exact Esl. }
  { intros e. pose proof (u8_range (nth (Z.to_nat (32 * j) + e) qs 0)).
    pose proof (land_bound (u8 (nth (Z.to_nat (32 * j) + e) qs 0)) 15 4). cbn in *. lia. }
  { apply map_s8_load_bytes. }
  destruct (madd_sum_halves 255 15 (q4_K_scale scales (Z.to_nat (2 * j + 1)))
              (q4_K_scale scales (Z.to_nat (2 * j + 1))) sch
              (map (fun k => Z.shiftr (u8 (nth (Z.to_nat (32 * j) + k) qs 0)) 4) (seq 0 32))
              (_mm256_loadu_si256 yqs (32 * (2 * j + 1)))
              (fun k => Z.shiftr (u8 (nth (Z.to_nat (32 * j) + k) qs 0)) 4)
              (fun k => s8 (nth (Z.to_nat (32 * (2 * j + 1)) + k) yqs 0)))
    as (Lh & Bh & Sh); try lia; try reflexivity.
  { exact Esh. }
  { intros e. pose proof (u8_range (nth (Z.to_nat (32 * j) + e) qs 0)) as Hu.
    rewrite Z.shiftr_div_pow2 by lia. change (2 ^ 4) with 16.
    Z.div_mod_to_equations. lia. }
  { apply map_s8_load_bytes. }
  cbv zeta in Ll, Bl, Sl, Lh, Bh, Sh.
  match type of Ll with length (i32s ?p) = _ => set (pl := p) in * end.
  match type of Lh with length (i32s ?p) = _ => set (ph := p) in * end.
  assert (Lpl : length pl = 32%nat).
  { subst pl. unfold _mm256_madd_epi16. apply length_vmadd_epi16; [assumption|].
    apply length_maddubs; [now rewrite length_map, length_seq|apply length_loadu_si256]. }
  assert (Lph : length ph = 32%nat).
  { subst ph. unfold _mm256_madd_epi16. apply length_vmadd_epi16; [assumption|].
    apply length_maddubs; [now rewrite length_map, length_seq|apply length_loadu_si256]. }
  destruct (add_epi32_sum 1958400 1958400 pl ph Lpl Lph ltac:(lia)) as (La & Ba & Sa).
  { eapply Forall_weaken; [|exact Bl]. cbv beta. intros. lia. }
  { eapply Forall_weaken; [|exact Bh]. cbv beta. intros. lia. }
  split; [exact La|]. split; [exact Ba|].
  rewrite Sa, Sl, Sh. clear - Hj.
  rewrite <- !Z.mul_add_distr_l, <- !zsum_app, <- !map_app.
  change (seq 0 16 ++ seq 16 16) with (seq 0 32).
  assert (Hc : j = 0 \/ j = 1 \/ j = 2 \/ j = 3) by lia.
  destruct Hc as [->|[->|[->| ->]]];
    (f_equal; (f_equal; [reflexivity|]); f_equal;
     apply map_ext_in; intros e He; seq_cases e He).
Qed.

Section Q4_K_integer.
Context {F : Type} `{FloatOps F} (hp : Heaps F).

Lemma q4_K_wide_sumi M q8 x i iy :
  2 < M -> 0 <= iy < M ->
  length (aget [] (q4_K_sumi hp M q8 x i) iy) = 32%nat /\
  Forall (fun v => - 15667200 <= v <= 15667200) (i32s (aget [] (q4_K_sumi hp M q8 x i) iy)) /\
  zsum (i32s (aget [] (q4_K_sumi hp M q8 x i) iy))
  = q4_K_intdot x (q8_qs (q8_block hp q8 iy i)).
Proof.
  intros HM Hiy. unfold q4_K_sumi, q4_K_intdot. cbv zeta. change (QK_K / 64) with 4.
  set (t := fun j' : nat =>
              q4_K_scale (q4_scales x) j' *
              zsum (map (fun k => q4_K_quant (q4_qs x) (32 * j' + k) *
                                  s8 (nth (32 * j' + k) (q8_qs (q8_block hp q8 iy i)) 0))
                        (seq 0 32))).
  change (seq 0 8) with (seq 0 (Z.to_nat (2 * 4))).
  match goal with
  | |- length (aget _ (snd (for_loop 4 ?f ?s0)) _) = _ /\ _ =>
      pose proof (for_loop_ind
        (fun j (p : Z * list vec) =>
           fst p = 32 * j /\ M <= Z.of_nat (length (snd p)) /\
           length (aget [] (snd p) iy) = 32%nat /\
           Forall (fun v => - (j * 3916800) <= v <= j * 3916800) (i32s (aget [] (snd p) iy)) /\
           zsum (i32s (aget [] (snd p) iy)) = zsum (map t (seq 0 (Z.to_nat (2 * j)))))
        4 f s0) as P
  end.
  cbv beta in P. destruct P as (_ & _ & L & B & S); [| |lia|].
  - cbn [fst snd]. unfold k_nrc_of. destruct (Z.leb_spec M 2); [lia|].
    rewrite repeat_length, aget_repeat by lia.
    split; [reflexivity|]. split; [lia|]. split; [reflexivity|].
    rewrite i32s_zero. split; [repeat constructor; lia|reflexivity].
  - intros j [q4 sumi] Hj (Eq & Ls & Lv & Bv & Sv). cbn [fst snd] in Eq, Ls, Lv, Bv, Sv.
    subst q4. cbv beta iota zeta. cbn [fst snd].
    destruct (Z.leb_spec M 2); [lia|].
    split; [lia|].
    destruct (q4_K_wide_step (q4_qs x) (q4_scales x) (q8_qs (q8_block hp q8 iy i)) j Hj)
      as (Lp & Bp & Sp).
    cbv zeta in Lp, Bp, Sp. fold t in Sp.
    assert (HL : 0 <= M <= Z.of_nat (length sumi)) by lia.
    destruct (for_loop_aset []
      (fun iy a => _mm256_add_epi32 a
         (_mm256_add_epi32
            (_mm256_madd_epi16
               (_mm256_shuffle_epi8
                  (MM256_SET_M128I (q4_sc128 (make_q4_scales (q4_scales x)))
                                   (q4_sc128 (make_q4_scales (q4_scales x))))
                  (get_scale_shuffle_8 (2 * j + 0)))
               (_mm256_maddubs_epi16
                  (_mm256_and_si256 (_mm256_loadu_si256 (q4_qs x) (32 * j))
                                    (_mm256_set1_epi8 15))
                  (load_quants hp q8 iy i (2 * j + 0))))
            (_mm256_madd_epi16
               (_mm256_shuffle_epi8
                  (MM256_SET_M128I (q4_sc128 (make_q4_scales (q4_scales x)))
                                   (q4_sc128 (make_q4_scales (q4_scales x))))
                  (get_scale_shuffle_8 (2 * j + 1)))
               (_mm256_maddubs_epi16
                  (_mm256_and_si256 (_mm256_srli_epi16 (_mm256_loadu_si256 (q4_qs x) (32 * j)) 4)
                                    (_mm256_set1_epi8 15))
                  (load_quants hp q8 iy i (2 * j + 1))))))
      sumi M HL) as [L' E'].
    cbv beta iota zeta in L', E' |- *.
    name_loop L' E' M sumi r.
    unfold vec in *. split; [lia|].
    rewrite E' by lia. destruct (Z.ltb_spec iy M); [|lia].
    unfold load_quants.
    destruct (add_epi32_sum (j * 3916800) 3916800 (aget [] sumi iy) _ Lv Lp ltac:(lia) Bv Bp)
      as (La & Ba & Sa).
    split; [exact La|]. split.
    + replace ((j + 1) * 3916800) with (j * 3916800 + 3916800) by lia. exact Ba.
    + rewrite Sa, Sv, Sp.
      replace (Z.to_nat (2 * (j + 1))) with (Z.to_nat (2 * j) + 2)%nat by lia.
      now rewrite zsum_seq_step2.
  - split; [exact L|]. split; [|exact S].
    eapply Forall_weaken; [|exact B]. cbv beta. intros. lia.
Qed.

End Q4_K_integer.

(** *** The mins term of Q4_K and Q5_K *)

Lemma s16_congr a b : a mod 65536 = b mod 65536 -> s16 a = s16 b.
Proof. intros E. unfold s16. now rewrite E. Qed.

Lemma s16_hadd b0 b1 : s16 (u16 (u16 b0 + u16 b1)) = s16 (s16 b0 + s16 b1).
Proof.
  rewrite s16_u16'. apply s16_congr. unfold s16, u16.
  destruct (b0 mod 65536 <? 32768); destruct (b1 mod 65536 <? 32768);
    Z.div_mod_to_equations; lia.
Qed.

Lemma s16_id v : -32768 <= v <= 32767 -> s16 v = v.
Proof.
  intros Hv. unfold s16.
  destruct (Z.ltb_spec (v mod 65536) 32768); Z.div_mod_to_equations; lia.
Qed.

Lemma q4_K_min_range scales j : 0 <= q4_K_min scales j < 256.
Proof.
  unfold q4_K_min. cbv zeta.
  destruct (nth_in_or_default j
              (bytes_of32 (nth 2 (make_q4_scales scales) 0) ++
               bytes_of32 (nth 3 (make_q4_scales scales) 0)) 0) as [Hin| ->]; [|lia].
  assert (Hb : Forall (fun v => 0 <= v < 256)
                 (bytes_of32 (nth 2 (make_q4_scales scales) 0) ++
                  bytes_of32 (nth 3 (make_q4_scales scales) 0)))
    by (apply Forall_app; split; apply bytes_of32_range).
  rewrite Forall_forall in Hb. exact (Hb _ Hin).
Qed.

Lemma q4_K_mins_sum scales (bsums : list Z) :
  let prod := _mm_madd_epi16 (q4_mins (make_q4_scales scales))
                (_mm_hadd_epi16 (_mm256_extracti128_si256 (_mm256_loadu_epi16 bsums) 0)
                                (_mm256_extracti128_si256 (_mm256_loadu_epi16 bsums) 1)) in
  length (i32s prod) = 4%nat /\ zsum (i32s prod) = q4_K_minsdot scales bsums.
Proof.
  cbv zeta. split; [reflexivity|].
  unfold _mm_madd_epi16. rewrite i32s_madd.
  assert (Em : i16s (q4_mins (make_q4_scales scales)) = map (q4_K_min scales) (seq 0 8)).
  { unfold i16s. rewrite make_q4_scales_words, q4_mins_lanes.
    rewrite map_s16_id.
    - unfold q4_K_min. cbv zeta. rewrite make_q4_scales_words. reflexivity.
    - eapply Forall_weaken; [|apply Forall_app; split; apply bytes_of32_range].
      cbv beta. intros. lia. }
  assert (Eh : i16s (_mm_hadd_epi16 (_mm256_extracti128_si256 (_mm256_loadu_epi16 bsums) 0)
                                    (_mm256_extracti128_si256 (_mm256_loadu_epi16 bsums) 1))
               = map (fun j => s16 (s16 (nth (2 * j) bsums 0) + s16 (nth (2 * j + 1) bsums 0)))
                     (seq 0 8)).
  { unfold _mm_hadd_epi16, _mm256_loadu_epi16. rewrite i16s_bytes16.
    cbn [seq map]. unfold _mm256_extracti128_si256.
    change (Z.to_nat (16 * 0)) with 0%nat. change (Z.to_nat (16 * 1)) with 16%nat.
    match goal with
    | |- context [firstn 16 (skipn 0 (bytes16 ?L))] =>
        change (firstn 16 (skipn 0 (bytes16 L))) with (bytes16 (firstn 8 L));
        change (firstn 16 (skipn 16 (bytes16 L))) with (bytes16 (skipn 8 L))
    end.
    rewrite !lanes16_bytes16. cbn [firstn skipn map app].
    rewrite !s16_hadd, !s16_u16'. reflexivity. }
  rewrite Em, Eh. rewrite map_s32_id.
  - unfold q4_K_minsdot. cbn [seq map pair_dot zsum fold_right]. lia.
  - cbn [seq map pair_dot].
    repeat constructor;
      repeat match goal with
      | |- context [q4_K_min scales ?j] =>
          pose proof (q4_K_min_range scales j); generalize dependent (q4_K_min scales j); intros
      | |- context [s16 ?v] =>
          pose proof (s16_range v); generalize dependent (s16 v); intros
      end; nia.
Qed.

(** *** The Q4_K kernels of width above 2 in exact arithmetic *)

Lemma zsum_4 l0 l1 l2 l3 : zsum [l0; l1; l2; l3] = l0 + l1 + l2 + l3.
Proof. cbn [zsum fold_right]. lia. Qed.

Section Q4_K_wide_exact.
Context {F : Type} `{FloatOps F} (fone : F) {E : ExactOps F fone}.
Context (hp : Heaps F).

Add Ring exact_ring_q4w : exact_ring.

(** The horizontal sum of the pair of accumulators of a column after one
    more super-block. *)
Lemma q4_acc_step (d m : F) (zs ms : list Z) (accd accm : fvec) :
  length accd = 8%nat -> length accm = 4%nat -> length zs = 8%nat -> length ms = 4%nat ->
  let accd' := vfmadd_ps (_mm256_set1_ps d) (map i32_to_f zs) accd in
  let accm' := vfmadd_ps (_mm_set1_ps m) (map i32_to_f ms) accm in
  length accd' = 8%nat /\ length accm' = 4%nat /\
  hsum_float_4 (_mm_add_ps (_mm_add_ps (_mm256_castps256_ps128 accd')
                                       (_mm256_extractf128_ps accd' 1)) accm')
  = fadd (hsum_float_4 (_mm_add_ps (_mm_add_ps (_mm256_castps256_ps128 accd)
                                               (_mm256_extractf128_ps accd 1)) accm))
         (fadd (fmul d (i32_to_f (zsum zs))) (fmul m (i32_to_f (zsum ms)))).
Proof.
  intros Ld Lm Lz Lms.
  destruct (length_8 accd Ld) as (a0 & a1 & a2 & a3 & a4 & a5 & a6 & a7 & ->).
  destruct (length_4 accm Lm) as (c0 & c1 & c2 & c3 & ->).
  destruct (length_8 zs Lz) as (z0 & z1 & z2 & z3 & z4 & z5 & z6 & z7 & ->).
  destruct (length_4 ms Lms) as (m0 & m1 & m2 & m3 & ->).
  cbv zeta. split; [reflexivity|]. split; [reflexivity|].
  rewrite zsum_8, zsum_4.
  cbn [vfmadd_ps _mm256_set1_ps _mm_set1_ps repeat map map3].
  rewrite !hsum_q4_single. rewrite !exact_fma, !exact_i32. ring.
Qed.

Lemma q4_K_wide_value M nb q8 vx bx ix iy :
  2 < M -> 0 <= iy < M ->
  q4_K_value hp M nb q8 vx bx ix iy = q4_K_dot hp nb q8 vx bx ix iy.
Proof.
  intros HM Hiy. unfold q4_K_value, q4_K_dot, q4_K_row, fsum. cbv zeta.
  destruct (Z.leb_spec M 2); [lia|].
  set (f := fun i : Z =>
    fadd (fmul (fmul (fp16_to_fp32 (q4_d (h_q4 hp (vx + bx * ix) i)))
                     (q8_d (q8_block hp q8 iy i)))
               (i32_to_f (q4_K_intdot (h_q4 hp (vx + bx * ix) i)
                                      (q8_qs (q8_block hp q8 iy i)))))
         (fmul (fmul (fneg (fp16_to_fp32 (q4_dmin (h_q4 hp (vx + bx * ix) i))))
                     (q8_d (q8_block hp q8 iy i)))
               (i32_to_f (q4_K_minsdot (q4_scales (h_q4 hp (vx + bx * ix) i))
                                       (q8_bsums (q8_block hp q8 iy i)))))).
  assert (P : forall k, 0 <= k ->
    let p := for_loop k (fun i acc => q4_K_block hp M q8 (h_q4 hp (vx + bx * ix) i) i acc)
               (repeat _mm256_setzero_ps (Z.to_nat (k_nrc_of M)),
                repeat _mm_setzero_ps (Z.to_nat M)) in
    M <= Z.of_nat (length (fst p)) /\ M <= Z.of_nat (length (snd p)) /\
    length (aget [] (fst p) iy) = 8%nat /\ length (aget [] (snd p) iy) = 4%nat /\
    hsum_float_4 (_mm_add_ps (_mm_add_ps (_mm256_castps256_ps128 (aget [] (fst p) iy))
                                         (_mm256_extractf128_ps (aget [] (fst p) iy) 1))
                             (aget [] (snd p) iy))
    = for_loop k (fun i a => fadd a (f i)) fzero).
  { intros k Hk. cbv zeta.
    apply (for_loop_ind (fun k (p : list fvec * list fvec) =>
      M <= Z.of_nat (length (fst p)) /\ M <= Z.of_nat (length (snd p)) /\
      length (aget [] (fst p) iy) = 8%nat /\ length (aget [] (snd p) iy) = 4%nat /\
      hsum_float_4 (_mm_add_ps (_mm_add_ps (_mm256_castps256_ps128 (aget [] (fst p) iy))
                                           (_mm256_extractf128_ps (aget [] (fst p) iy) 1))
                               (aget [] (snd p) iy))
      = for_loop k (fun i a => fadd a (f i)) fzero)); [| |exact Hk].
    - cbn [fst snd]. unfold k_nrc_of. destruct (Z.leb_spec M 2); [lia|].
      rewrite !repeat_length, !aget_repeat by lia.
      split; [lia|]. split; [lia|]. split; [reflexivity|]. split; [reflexivity|].
      rewrite for_loop_nonpos by lia.
      unfold _mm256_setzero_ps, _mm_setzero_ps. cbn [repeat].
      rewrite hsum_q4_single. ring.
    - intros i [accd accm] Hi (Ld & Lm & Ld8 & Lm4 & Hsum). cbn [fst snd] in Ld, Lm, Ld8, Lm4, Hsum.
      rewrite for_loop_succ by lia. rewrite <- Hsum.
      unfold q4_K_block, q4_K_mins. cbv zeta. cbn [fst snd].
      destruct (Z.leb_spec M 2); [lia|].
      set (x := h_q4 hp (vx + bx * ix) i).
      assert (HLd : 0 <= M <= Z.of_nat (length accd)) by lia.
      assert (HLm : 0 <= M <= Z.of_nat (length accm)) by lia.
      destruct (for_loop_aset []
        (fun iy a => _mm256_fmadd_ps (_mm256_set1_ps (fmul (fp16_to_fp32 (q4_d x))
                                                           (scale hp q8 iy i)))
                       (_mm256_cvtepi32_ps (aget [] (q4_K_sumi hp M q8 x i) iy)) a)
        accd M HLd) as [L1 E1].
      destruct (for_loop_aset []
        (fun iy a => _mm_fmadd_ps (_mm_set1_ps (fmul (fneg (fp16_to_fp32 (q4_dmin x)))
                                                     (scale hp q8 iy i)))
           (_mm_cvtepi32_ps
              (_mm_madd_epi16 (q4_mins (make_q4_scales (q4_scales x)))
                 (_mm_hadd_epi16 (_mm256_extracti128_si256 (load_bsums hp q8 iy i) 0)
                                 (_mm256_extracti128_si256 (load_bsums hp q8 iy i) 1)))) a)
        accm M HLm) as [L2 E2].
      cbv beta iota zeta in L1, E1, L2, E2 |- *.
      name_loop L1 E1 M accd r1. name_loop L2 E2 M accm r2.
      unfold fvec in *. split; [lia|]. split; [lia|].
      rewrite E1, E2 by lia. destruct (Z.ltb_spec iy M); [|lia].
      destruct (q4_K_wide_sumi hp M q8 x i iy HM Hiy) as (Ls & _ & Ss).
      destruct (q4_K_mins_sum (q4_scales x) (q8_bsums (q8_block hp q8 iy i))) as (Lp & Sp).
      cbv zeta in Lp, Sp.
      unfold _mm256_fmadd_ps, _mm_fmadd_ps, _mm256_cvtepi32_ps, _mm_cvtepi32_ps.
      rewrite !cvtepi32_ps_i32s.
      unfold load_bsums, scale. subst f x. cbv beta.
      rewrite <- Ss, <- Sp.
      apply q4_acc_step; try assumption.
      now apply length_i32s. }
  destruct (Z.le_gt_cases nb 0) as [Hnb|Hnb].
  - rewrite !for_loop_nonpos by lia. unfold k_nrc_of. destruct (Z.leb_spec M 2); [lia|].
    rewrite !aget_repeat by lia.
    unfold _mm256_setzero_ps, _mm_setzero_ps. cbn [repeat].
    rewrite hsum_q4_single. ring.
  - specialize (P nb ltac:(lia)). cbv zeta in P.
    destruct (for_loop nb _ _) as [accd accm]. cbn [fst snd] in P.
    destruct P as (_ & _ & _ & _ & P). exact P.
Qed.

End Q4_K_wide_exact.

(** X12.  In the Q4_K kernels of width above 2 the integer path is exact on every
    input: [vpmaddubsw] never saturates and no 32-bit lane wraps, so the
    eight lanes of the integer accumulator of a column add up to the
    integer dot product of the super-block of the row with the super-block
    of that column, the sum over the eight sub-blocks [j] of
    [sc[j] * sum_k q_A[k] * q_B[k]]. *)
Theorem q4_K_wide_intdot {F : Type} `{FloatOps F} (hp : Heaps F)
  (M : Z) (q8 : list Z) (x : block_q4_K) (i iy : Z) :
  2 < M -> 0 <= iy < M ->
  Forall (fun v => - 15667200 <= v <= 15667200) (i32s (aget [] (q4_K_sumi hp M q8 x i) iy)) /\
  zsum (i32s (aget [] (q4_K_sumi hp M q8 x i) iy))
  = q4_K_intdot x (q8_qs (q8_block hp q8 iy i)).
Proof. intros HM Hiy. now destruct (q4_K_wide_sumi hp M q8 x i iy HM Hiy) as (_ & B & S). Qed.

Lemma q4_K_wide_intdot_witness :
  2 < 4 /\ 0 <= 3 < 4 /\
  zsum (i32s (aget [] (q4_K_sumi q4_sat_demo 4 (Q8 4 0 292) (h_q4 q4_sat_demo 0 0) 0) 3))
  = q4_K_intdot (h_q4 q4_sat_demo 0 0) (q8_qs (q8_block q4_sat_demo (Q8 4 0 292) 3 0)).
Proof.
  assert (H1 : 2 < 4) by lia. assert (H2 : 0 <= 3 < 4) by lia.
  split; [exact H1|]. split; [exact H2|].
  exact (proj2 (q4_K_wide_intdot q4_sat_demo 4 (Q8 4 0 292) (h_q4 q4_sat_demo 0 0) 0 3 H1 H2)).
Defined.

(** X13.  In exact arithmetic the Q4_K kernels compute, for a row and a column,
    the sum over the super-blocks of [d_A d_B] times the integer dot
    product minus [dmin_A d_B] times the mins term, in which the two
    sub-block sums of a min are added in [int16_t] with wrap-around as
    [vphaddw] does: the kernels of width above 2 on every input, the
    kernels of width 1 and 2 when the high nibbles, left in place, do not
    saturate [vpmaddubsw]. *)
Theorem q4_K_kernel_exact {F : Type} `{FloatOps F} (fone : F) (hp : Heaps F)
  (M nb : Z) (q8 : list Z) (vx bx ix iy : Z) :
  ExactOps F fone -> ExactScales F fone ->
  0 <= iy < M ->
  (M <= 2 -> forall i, 0 <= i < nb ->
     q4_K_high_fits (h_q4 hp (vx + bx * ix) i) (q8_qs (q8_block hp q8 iy i)) = true) ->
  q4_K_value hp M nb q8 vx bx ix iy = q4_K_dot hp nb q8 vx bx ix iy.
Proof.
  intros E E2 Hiy Hfits. destruct (Z.le_gt_cases M 2) as [HM|HM].
  - rewrite (q4_K_value_layouts fone hp M 4 iy nb q8 q8 vx bx ix) by (auto; lia).
    apply (q4_K_wide_value fone); lia.
  - apply (q4_K_wide_value fone); lia.
Qed.

Lemma q4_K_kernel_exact_witness :
  ExactOps Qcanon.Qc (Rational.of_Z 1) /\ ExactScales Qcanon.Qc (Rational.of_Z 1) /\
  0 <= 1 < 2 /\
  (2 <= 2 -> forall i, 0 <= i < 1 ->
     q4_K_high_fits (h_q4 corr_demo (0 + 144 * 0) i)
                    (q8_qs (q8_block corr_demo (Q8 2 0 292) 1 i)) = true) /\
  q4_K_value corr_demo 2 1 (Q8 2 0 292) 0 144 0 1 = q4_K_dot corr_demo 1 (Q8 2 0 292) 0 144 0 1.
Proof.
  assert (H1 : 0 <= 1 < 2) by lia.
  assert (H2 : 2 <= 2 -> forall i, 0 <= i < 1 ->
            q4_K_high_fits (h_q4 corr_demo (0 + 144 * 0) i)
                           (q8_qs (q8_block corr_demo (Q8 2 0 292) 1 i)) = true)
    by (intros _ i _; vm_compute; reflexivity).
  split; [exact rational_exact|]. split; [exact rational_scales|].
  split; [exact H1|]. split; [exact H2|].
  exact (q4_K_kernel_exact (Rational.of_Z 1) corr_demo 2 1 (Q8 2 0 292) 0 144 0 1
           rational_exact rational_scales H1 H2).
Defined.


(** ** Bits moved by 16-bit lane shifts *)

Lemma testbit_lane b0 b1 i :
  0 <= b0 < 256 -> 0 <= b1 < 256 -> 0 <= i ->
  Z.testbit (b0 + 256 * b1) i = if i <? 8 then Z.testbit b0 i else Z.testbit b1 (i - 8).
Proof.
  intros H0 H1 Hi.
  assert (Hb0 : forall k, 8 <= k -> Z.testbit b0 k = false).
  { intros k Hk. apply (testbit_small _ 8); [change (2 ^ 8) with 256; lia|lia]. }
  replace (b0 + 256 * b1) with (Z.lor b0 (Z.shiftl b1 8)).
  - rewrite Z.lor_spec. destruct (Z.ltb_spec i 8).
    + rewrite Z.shiftl_spec_low by lia. apply orb_false_r.
    + rewrite Hb0 by lia. rewrite Z.shiftl_spec by lia. reflexivity.
  - rewrite Z.or_to_plus.
    + rewrite Z.shiftl_mul_pow2 by lia. change (2 ^ 8) with 256. lia.
    + apply Z.bits_inj'. intros k Hk. rewrite Z.land_spec, Z.bits_0.
      destruct (Z.ltb_spec k 8).
      * rewrite Z.shiftl_spec_low by lia. apply andb_false_r.
      * now rewrite Hb0 by lia.
Qed.

Lemma land_bit v p : 0 <= p -> Z.land v (2 ^ p) = 2 ^ p * Z.b2z (Z.testbit v p).
Proof.
  intros Hp. apply Z.bits_inj'. intros i Hi.
  rewrite Z.land_spec, Z.pow2_bits_eqb by lia.
  destruct (Z.testbit v p) eqn:Ev; cbn [Z.b2z].
  - rewrite Z.mul_1_r, Z.pow2_bits_eqb by lia.
    destruct (Z.eqb_spec p i); [subst; now rewrite Ev|apply andb_false_r].
  - rewrite Z.mul_0_r, Z.bits_0.
    destruct (Z.eqb_spec p i); [subst; now rewrite Ev|apply andb_false_r].
Qed.

(** Bit [p] of a byte of a lane shifted right by [a] and then left by [s]
    is bit [p - s + a] of the byte itself, when that bit exists. *)
Lemma lane_select_bit b0 b1 a s p :
  0 <= b0 < 256 -> 0 <= b1 < 256 -> 0 <= a -> 0 <= s <= p -> p < 8 -> p - s + a < 8 ->
  let Y := u16 (Z.shiftl (u16 (Z.shiftr (b0 + 256 * b1) a)) s) in
  Z.testbit (Y mod 256) p = Z.testbit b0 (p - s + a) /\
  Z.testbit ((Y / 256) mod 256) p = Z.testbit b1 (p - s + a).
Proof.
  intros H0 H1 Ha Hs Hp Hq. cbv zeta. unfold u16.
  change 65536 with (2 ^ 16). change 256 with (2 ^ 8). split.
  - rewrite Z.mod_pow2_bits_low by lia. rewrite Z.mod_pow2_bits_low by lia.
    rewrite Z.shiftl_spec by lia. rewrite Z.mod_pow2_bits_low by lia.
    rewrite Z.shiftr_spec by lia. change (2 ^ 8) with 256.
    rewrite testbit_lane by lia. destruct (Z.ltb_spec (p - s + a) 8); [reflexivity|lia].
  - rewrite Z.mod_pow2_bits_low by lia. rewrite <- Z.shiftr_div_pow2 by lia.
    rewrite Z.shiftr_spec by lia. rewrite Z.mod_pow2_bits_low by lia.
    rewrite Z.shiftl_spec by lia. rewrite Z.mod_pow2_bits_low by lia.
    rewrite Z.shiftr_spec by lia. change (2 ^ 8) with 256.
    rewrite testbit_lane by lia. destruct (Z.ltb_spec (p + 8 - s + a) 8); [lia|].
    f_equal. lia.
Qed.

(** A byte-wise view of an operation on the 16-bit lanes of a register,
    under a byte mask. *)
Lemma vand_lanes_op v (f : Z -> Z) (m : Z) (g : Z -> Z) :
  Nat.even (length v) = true -> bytes_ok v ->
  (forall b0 b1, 0 <= b0 < 256 -> 0 <= b1 < 256 ->
     Z.land (f (b0 + 256 * b1) mod 256) m = g b0 /\
     Z.land ((f (b0 + 256 * b1) / 256) mod 256) m = g b1) ->
  vand (bytes16 (map f (lanes16 v))) (repeat m (length v)) = map g v.
Proof.
  intros Hev Hok Hf.
  induction v as [| |b0 b1 v IH] using list_pair_ind.
  - reflexivity.
  - discriminate.
  - inversion Hok as [|? ? H0 Hok1]; subst. inversion Hok1 as [|? ? H1 Hok2]; subst.
    cbn [lanes16 map bytes16 flat_map app length repeat vand map2].
    destruct (Hf b0 b1 H0 H1) as [E0 E1].
    rewrite E0, E1. f_equal. f_equal. apply IH; assumption.
Qed.

Lemma vslli_vsrli v a s :
  vslli_epi16 (vsrli_epi16 v a) s
  = bytes16 (map (fun x => u16 (Z.shiftl (u16 (Z.shiftr x a)) s)) (lanes16 v)).
Proof.
  unfold vslli_epi16, vsrli_epi16. now rewrite lanes16_bytes16, !map_map.
Qed.

Lemma vslli_lanes v s :
  bytes_ok v -> Nat.even (length v) = true ->
  vslli_epi16 v s = bytes16 (map (fun x => u16 (Z.shiftl (u16 (Z.shiftr x 0)) s)) (lanes16 v)).
Proof.
  intros Hok Hev. unfold vslli_epi16. f_equal.
  induction v as [| |b0 b1 v IH] using list_pair_ind.
  - reflexivity.
  - discriminate.
  - inversion Hok as [|? ? H0 Hok1]; subst. inversion Hok1 as [|? ? H1 Hok2]; subst.
    cbn [lanes16 map]. f_equal; [|apply IH; assumption].
    rewrite Z.shiftr_0_r. unfold u16 at 3. rewrite (Z.mod_small (b0 + 256 * b1)) by lia.
    reflexivity.
Qed.

(** The high bits of Q5_K: [(hbits[j] << s) & 0x10] holds, in every byte,
    bit [4 - s + 4 j] of the byte of [qh], moved to bit 4. *)
Lemma q5_high_bytes (v : vec) (j s : Z) :
  length v = 32%nat -> bytes_ok v -> 0 <= j < 2 -> 1 <= s <= 4 ->
  vand (vslli_epi16 (aget [] [v; vsrli_epi16 v 4] j) s) (repeat 16 32)
  = map (fun b => 16 * Z.b2z (Z.testbit b (4 - s + 4 * j))) v.
Proof.
  intros Hl Hok Hj Hs.
  assert (Hev : Nat.even (length v) = true) by now rewrite Hl.
  assert (Hc : j = 0 \/ j = 1) by lia.
  replace (repeat 16 32) with (repeat 16 (length v)) by now rewrite Hl.
  destruct Hc as [-> | ->].
  - change (aget [] [v; vsrli_epi16 v 4] 0) with v.
    rewrite vslli_lanes by assumption.
    apply vand_lanes_op; [assumption|assumption|].
    intros b0 b1 H0 H1. change 16 with (2 ^ 4) at 1 3. rewrite !land_bit by lia.
    destruct (lane_select_bit b0 b1 0 s 4 H0 H1 ltac:(lia) ltac:(lia) ltac:(lia) ltac:(lia))
      as [E0 E1].
    cbv zeta in E0, E1. rewrite E0, E1.
    replace (4 - s + 4 * 0) with (4 - s + 0) by lia. split; reflexivity.
  - change (aget [] [v; vsrli_epi16 v 4] 1) with (vsrli_epi16 v 4).
    rewrite vslli_vsrli.
    apply vand_lanes_op; [assumption|assumption|].
    intros b0 b1 H0 H1. change 16 with (2 ^ 4) at 1 3. rewrite !land_bit by lia.
    destruct (lane_select_bit b0 b1 4 s 4 H0 H1 ltac:(lia) ltac:(lia) ltac:(lia) ltac:(lia))
      as [E0 E1].
    cbv zeta in E0, E1. rewrite E0, E1.
    replace (4 - s + 4 * 1) with (4 - s + 4) by lia. split; reflexivity.
Qed.

(** ** Q5_K *)

Lemma for_loop_col_fun {A : Type} (d : A) (body : Z -> list A -> list A) (g : A -> A)
  (M iy : Z) (l : list A) :
  (forall k st, 0 <= k < M -> M <= Z.of_nat (length st) ->
     length (body k st) = length st /\
     forall j, 0 <= j -> j <> k -> aget d (body k st) j = aget d st j) ->
  (forall st, M <= Z.of_nat (length st) -> aget d (body iy st) iy = g (aget d st iy)) ->
  M <= Z.of_nat (length l) -> 0 <= iy < M ->
  M <= Z.of_nat (length (for_loop M body l)) /\
  aget d (for_loop M body l) iy = g (aget d l iy).
Proof.
  intros Hf Hg Hl Hiy.
  destruct (for_loop_view (fun st => aget d st iy) (fun st => M <= Z.of_nat (length st))
              body M iy l) as (I & st0 & I0 & V0 & E0); try assumption.
  - intros k st Hk L. destruct (Hf k st Hk L) as [-> _]. exact L.
  - intros k st Hk Hne L. destruct (Hf k st Hk L) as [_ Hfr]. apply Hfr; lia.
  - split; [exact I|]. cbv beta in V0, E0. rewrite E0, Hg, V0 by assumption. reflexivity.
Qed.

Lemma map2_map_seq {A B C : Type} (f : A -> B -> C) (f1 : nat -> A) (f2 : nat -> B) l :
  map2 f (map f1 l) (map f2 l) = map (fun k => f (f1 k) (f2 k)) l.
Proof. induction l as [|k l IH]; [reflexivity|]. cbn [map map2]. now rewrite IH. Qed.

(** One product of a kernel: 32 bytes of the row, all at most [amax],
    against 32 quants of the column, under one scale. *)
Lemma madd_sum_piece (amax s : Z) sc (fa : nat -> Z) (yqs : list Z) (off : Z) :
  0 <= amax <= 63 -> 0 <= s < 256 -> length sc = 32%nat ->
  i16s sc = repeat s 16 -> (forall e, 0 <= fa e <= amax) ->
  let p := _mm256_madd_epi16 sc
             (_mm256_maddubs_epi16 (map fa (seq 0 32)) (_mm256_loadu_si256 yqs off)) in
  length p = 32%nat /\
  Forall (fun v => - (510 * (2 * amax * 128)) <= v <= 510 * (2 * amax * 128)) (i32s p) /\
  zsum (i32s p)
  = s * zsum (map (fun e => fa e * s8 (nth (Z.to_nat off + e) yqs 0)) (seq 0 32)).
Proof.
  intros Ham Hs Lsc Esc Hfa. cbv zeta.
  destruct (madd_sum_halves 255 amax s s sc (map fa (seq 0 32)) (_mm256_loadu_si256 yqs off)
              fa (fun k => s8 (nth (Z.to_nat off + k) yqs 0)))
    as (L & B & S); try lia; try reflexivity; try assumption.
  { apply map_s8_load_bytes. }
  cbv zeta in L, B, S. split; [|split].
  - unfold _mm256_madd_epi16. apply length_vmadd_epi16; [assumption|].
    apply length_maddubs; [now rewrite length_map, length_seq|apply length_loadu_si256].
  - eapply Forall_weaken; [|exact B]. cbv beta. intros. lia.
  - rewrite S, <- Z.mul_add_distr_l, <- zsum_app, <- map_app. reflexivity.
Qed.

Lemma q5_bytes (qs qh : list Z) (off j s : Z) (high : bool) :
  0 <= j < 2 -> 1 <= s <= 4 ->
  let q5bits := _mm256_loadu_si256 qs off in
  let hbits0 := _mm256_loadu_si256 qh 0 in
  let nib := if high then _mm256_and_si256 (_mm256_srli_epi16 q5bits 4) (_mm256_set1_epi8 15)
             else _mm256_and_si256 q5bits (_mm256_set1_epi8 15) in
  let fa := fun k : nat =>
    (if high then Z.shiftr (u8 (nth (Z.to_nat off + k) qs 0)) 4
     else Z.land (u8 (nth (Z.to_nat off + k) qs 0)) 15) +
    16 * Z.b2z (Z.testbit (u8 (nth k qh 0)) (4 - s + 4 * j)) in
  _mm256_add_epi8 nib
    (_mm256_and_si256 (_mm256_slli_epi16 (aget [] [hbits0; _mm256_srli_epi16 hbits0 4] j) s)
                      (_mm256_set1_epi8 16))
  = map fa (seq 0 32) /\
  forall e, 0 <= fa e <= 31.
Proof.
  intros Hj Hs. cbv zeta.
  unfold _mm256_and_si256, _mm256_srli_epi16, _mm256_slli_epi16, _mm256_set1_epi8.
  change (u8 15) with 15. change (u8 16) with 16.
  rewrite q5_high_bytes by (try apply length_loadu_si256; try apply bytes_ok_load; lia).
  pose proof (length_loadu_si256 qs off) as Lq.
  pose proof (bytes_ok_load qs off 32) as Okq. fold (_mm256_loadu_si256 qs off) in Okq.
  assert (Hnib : forall k : nat,
            0 <= (if high then Z.shiftr (u8 (nth (Z.to_nat off + k) qs 0)) 4
                  else Z.land (u8 (nth (Z.to_nat off + k) qs 0)) 15) <= 15).
  { intros k. pose proof (u8_range (nth (Z.to_nat off + k) qs 0)) as Hu. destruct high.
    - rewrite Z.shiftr_div_pow2 by lia. change (2 ^ 4) with 16. Z.div_mod_to_equations. lia.
    - pose proof (land_bound (u8 (nth (Z.to_nat off + k) qs 0)) 15 4). cbn in *. lia. }
  assert (Hbit : forall b : bool, 0 <= Z.b2z b <= 1) by (intros []; cbn; lia).
  split.
  - assert (En : (if high then vand (vsrli_epi16 (_mm256_loadu_si256 qs off) 4) (repeat 15 32)
                  else vand (_mm256_loadu_si256 qs off) (repeat 15 32))
                 = map (fun k : nat =>
                          if high then Z.shiftr (u8 (nth (Z.to_nat off + k) qs 0)) 4
                          else Z.land (u8 (nth (Z.to_nat off + k) qs 0)) 15) (seq 0 32)).
    { destruct high.
      - replace (repeat 15 32) with (repeat 15 (length (_mm256_loadu_si256 qs off)))
          by now rewrite Lq.
        rewrite vand_srli_const by first [apply even_32; assumption | assumption | cbn; lia].
        unfold _mm256_loadu_si256, load_bytes. rewrite map_map.
        apply map_ext. intros k. apply land_15_nibble, u8_range.
      - rewrite (vand_const _ 15 32 Lq). unfold _mm256_loadu_si256, load_bytes.
        now rewrite map_map. }
    rewrite En. unfold _mm256_loadu_si256 at 1, load_bytes. rewrite map_map.
    unfold _mm256_add_epi8. rewrite map2_map_seq.
    apply map_ext. intros k. change (Z.to_nat 0 + k)%nat with k.
    specialize (Hnib k).
    specialize (Hbit (Z.testbit (u8 (nth k qh 0)) (4 - s + 4 * j))).
    unfold u8 at 1. apply Z.mod_small. lia.
  - intros e. specialize (Hnib e).
    specialize (Hbit (Z.testbit (u8 (nth e qh 0)) (4 - s + 4 * j))). lia.
Qed.

Lemma zsum_seq_step4 (t : nat -> Z) n :
  zsum (map t (seq 0 (n + 4)))
  = zsum (map t (seq 0 n)) + (t n + t (S n) + t (S (S n)) + t (S (S (S n)))).
Proof.
  rewrite seq_app, map_app, zsum_app. cbn [seq map zsum fold_right Nat.add]. lia.
Qed.

(** One step of the Q5_K loop on one column: the four products add the
    terms of sub-blocks [4 j], ..., [4 j + 3] of the integer dot product. *)
Lemma q5_K_step (qs qh scales yqs : list Z) (j : Z) (v : vec) :
  0 <= j < 2 -> length v = 32%nat ->
  Forall (fun z => - (j * 16189440) <= z <= j * 16189440) (i32s v) ->
  let utmp := make_q4_scales scales in
  let sc := MM256_SET_M128I (q4_sc128 utmp) (q4_sc128 utmp) in
  let hbits0 := _mm256_loadu_si256 qh 0 in
  let hbits := [hbits0; _mm256_srli_epi16 hbits0 4] in
  let ml := _mm256_set1_epi8 15 in
  let mh := _mm256_set1_epi8 16 in
  let q5h_1 := _mm256_and_si256 (_mm256_slli_epi16 (aget [] hbits j) 4) mh in
  let q5h_2 := _mm256_and_si256 (_mm256_slli_epi16 (aget [] hbits j) 3) mh in
  let q5h_3 := _mm256_and_si256 (_mm256_slli_epi16 (aget [] hbits j) 2) mh in
  let q5h_4 := _mm256_and_si256 (_mm256_slli_epi16 (aget [] hbits j) 1) mh in
  let q5_1 := _mm256_add_epi8 (_mm256_and_si256 (_mm256_loadu_si256 qs (64 * j)) ml) q5h_1 in
  let q5_2 := _mm256_add_epi8
                (_mm256_and_si256 (_mm256_srli_epi16 (_mm256_loadu_si256 qs (64 * j)) 4) ml)
                q5h_2 in
  let q5_3 := _mm256_add_epi8 (_mm256_and_si256 (_mm256_loadu_si256 qs (64 * j + 32)) ml)
                q5h_3 in
  let q5_4 := _mm256_add_epi8
                (_mm256_and_si256 (_mm256_srli_epi16 (_mm256_loadu_si256 qs (64 * j + 32)) 4) ml)
                q5h_4 in
  let p1 := _mm256_madd_epi16 (_mm256_shuffle_epi8 sc (get_scale_shuffle_8 (4 * j + 0)))
              (_mm256_maddubs_epi16 q5_1 (_mm256_loadu_si256 yqs (32 * (4 * j + 0)))) in
  let p2 := _mm256_madd_epi16 (_mm256_shuffle_epi8 sc (get_scale_shuffle_8 (4 * j + 1)))
              (_mm256_maddubs_epi16 q5_2 (_mm256_loadu_si256 yqs (32 * (4 * j + 1)))) in
  let p3 := _mm256_madd_epi16 (_mm256_shuffle_epi8 sc (get_scale_shuffle_8 (4 * j + 2)))
              (_mm256_maddubs_epi16 q5_3 (_mm256_loadu_si256 yqs (32 * (4 * j + 2)))) in
  let p4 := _mm256_madd_epi16 (_mm256_shuffle_epi8 sc (get_scale_shuffle_8 (4 * j + 3)))
              (_mm256_maddubs_epi16 q5_4 (_mm256_loadu_si256 yqs (32 * (4 * j + 3)))) in
  let t := fun j' : nat =>
             q4_K_scale scales j' *
             zsum (map (fun k => q5_K_quant qs qh (32 * j' + k) * s8 (nth (32 * j' + k) yqs 0))
                       (seq 0 32)) in
  let v' := _mm256_add_epi32 (_mm256_add_epi32 v (_mm256_add_epi32 p1 p3))
                             (_mm256_add_epi32 p2 p4) in
  length v' = 32%nat /\
  Forall (fun z => - ((j + 1) * 16189440) <= z <= (j + 1) * 16189440) (i32s v') /\
  zsum (i32s v')
  = zsum (i32s v) + (t (Z.to_nat (4 * j)) + t (S (Z.to_nat (4 * j)))
                     + t (S (S (Z.to_nat (4 * j)))) + t (S (S (S (Z.to_nat (4 * j)))))).
Proof.
  intros Hj Lv Bv. cbv zeta.
  destruct (q5_bytes qs qh (64 * j) j 4 false Hj ltac:(lia)) as [E1 R1].
  destruct (q5_bytes qs qh (64 * j) j 3 true Hj ltac:(lia)) as [E2 R2].
  destruct (q5_bytes qs qh (64 * j + 32) j 2 false Hj ltac:(lia)) as [E3 R3].
  destruct (q5_bytes qs qh (64 * j + 32) j 1 true Hj ltac:(lia)) as [E4 R4].
  cbv zeta in E1, E2, E3, E4. rewrite E1, E2, E3, E4. clear E1 E2 E3 E4.
  destruct (q4_K_scale_broadcast scales (4 * j + 0) ltac:(lia)) as [S1 Q1].
  destruct (q4_K_scale_broadcast scales (4 * j + 1) ltac:(lia)) as [S2 Q2].
  destruct (q4_K_scale_broadcast scales (4 * j + 2) ltac:(lia)) as [S3 Q3].
  destruct (q4_K_scale_broadcast scales (4 * j + 3) ltac:(lia)) as [S4 Q4].
  assert (Lsh : forall k, 0 <= k < 8 ->
            length (_mm256_shuffle_epi8
                      (MM256_SET_M128I (q4_sc128 (make_q4_scales scales))
                                       (q4_sc128 (make_q4_scales scales)))
                      (get_scale_shuffle_8 k)) = 32%nat).
  { intros k Hk. apply length_shuffle_epi8.
    assert (Hc : k = 0 \/ k = 1 \/ k = 2 \/ k = 3 \/ k = 4 \/ k = 5 \/ k = 6 \/ k = 7) by lia.
    destruct Hc as [->|[->|[->|[->|[->|[->|[->| ->]]]]]]]; reflexivity. }
  destruct (madd_sum_piece 31 _ _ _ yqs (32 * (4 * j + 0)) ltac:(lia) Q1
              (Lsh (4 * j + 0) ltac:(lia)) S1 R1) as (L1 & B1 & Z1).
  destruct (madd_sum_piece 31 _ _ _ yqs (32 * (4 * j + 1)) ltac:(lia) Q2
              (Lsh (4 * j + 1) ltac:(lia)) S2 R2) as (L2 & B2 & Z2).
  destruct (madd_sum_piece 31 _ _ _ yqs (32 * (4 * j + 2)) ltac:(lia) Q3
              (Lsh (4 * j + 2) ltac:(lia)) S3 R3) as (L3 & B3 & Z3).
  destruct (madd_sum_piece 31 _ _ _ yqs (32 * (4 * j + 3)) ltac:(lia) Q4
              (Lsh (4 * j + 3) ltac:(lia)) S4 R4) as (L4 & B4 & Z4).
  cbv zeta in L1, B1, Z1, L2, B2, Z2, L3, B3, Z3, L4, B4, Z4.
  match type of L1 with length ?p = _ => set (p1 := p) in * end.
  match type of L2 with length ?p = _ => set (p2 := p) in * end.
  match type of L3 with length ?p = _ => set (p3 := p) in * end.
  match type of L4 with length ?p = _ => set (p4 := p) in * end.
  change (510 * (2 * 31 * 128)) with 4047360 in *.
  destruct (add_epi32_sum 4047360 4047360 p1 p3 L1 L3 ltac:(lia) B1 B3) as (L13 & B13 & Z13).
  destruct (add_epi32_sum 4047360 4047360 p2 p4 L2 L4 ltac:(lia) B2 B4) as (L24 & B24 & Z24).
  destruct (add_epi32_sum (j * 16189440) (4047360 + 4047360) v _ Lv L13 ltac:(lia) Bv B13)
    as (La & Ba & Za).
  destruct (add_epi32_sum (j * 16189440 + (4047360 + 4047360)) (4047360 + 4047360) _ _
              La L24 ltac:(lia) Ba B24) as (Lb & Bb & Zb).
  split; [exact Lb|]. split.
  - eapply Forall_weaken; [|exact Bb]. cbv beta. intros. lia.
  - rewrite Zb, Za, Z13, Z24, Z1, Z2, Z3, Z4. clear - Hj.
    assert (Hc : j = 0 \/ j = 1) by lia.
    assert (Hring : forall a b c d e a' b' c' d',
              a' = a -> b' = b -> c' = c -> d' = d ->
              e + (a' + c') + (b' + d') = e + (a + b + c + d)) by (intros; lia).
    destruct Hc as [-> | ->];
      (apply Hring; (apply (f_equal2 Z.mul); [reflexivity|]); apply (f_equal zsum);
       apply map_ext_in; intros e He; seq_cases e He).
Qed.

Section Q5_K_integer.
Context {F : Type} `{FloatOps F} (hp : Heaps F).

Lemma q5_K_sumi_exact M q8 x i iy :
  0 <= iy < M ->
  length (aget [] (q5_K_sumi hp M q8 x i) iy) = 32%nat /\
  Forall (fun v => - 32378880 <= v <= 32378880) (i32s (aget [] (q5_K_sumi hp M q8 x i) iy)) /\
  zsum (i32s (aget [] (q5_K_sumi hp M q8 x i) iy))
  = q5_K_intdot x (q8_qs (q8_block hp q8 iy i)).
Proof.
  intros Hiy. unfold q5_K_sumi, q5_K_intdot. cbv zeta. change (QK_K / 128) with 2.
  set (t := fun j' : nat =>
              q4_K_scale (q5_scales x) j' *
              zsum (map (fun k => q5_K_quant (q5_qs x) (q5_qh x) (32 * j' + k) *
                                  s8 (nth (32 * j' + k) (q8_qs (q8_block hp q8 iy i)) 0))
                        (seq 0 32))).
  change (seq 0 8) with (seq 0 (Z.to_nat (4 * 2))).
  match goal with
  | |- length (aget _ (snd (for_loop 2 ?f ?s0)) _) = _ /\ _ =>
      pose proof (for_loop_ind
        (fun j (p : Z * list vec) =>
           fst p = 64 * j /\ M <= Z.of_nat (length (snd p)) /\
           length (aget [] (snd p) iy) = 32%nat /\
           Forall (fun v => - (j * 16189440) <= v <= j * 16189440) (i32s (aget [] (snd p) iy)) /\
           zsum (i32s (aget [] (snd p) iy)) = zsum (map t (seq 0 (Z.to_nat (4 * j)))))
        2 f s0) as P
  end.
  cbv beta in P. destruct P as (_ & _ & L & B & S); [| |lia|].
  - cbn [fst snd]. rewrite repeat_length, aget_repeat by lia.
    split; [reflexivity|]. split; [lia|]. split; [reflexivity|].
    rewrite i32s_zero. split; [repeat constructor; lia|reflexivity].
  - intros j [q5 sumi] Hj (Eq & Ls & Lv & Bv & Sv). cbn [fst snd] in Eq, Ls, Lv, Bv, Sv.
    subst q5. cbv beta iota zeta. cbn [fst snd].
    split; [lia|].
    destruct (q5_K_step (q5_qs x) (q5_qh x) (q5_scales x) (q8_qs (q8_block hp q8 iy i)) j
                (aget [] sumi iy) Hj Lv Bv) as (Lp & Bp & Sp).
    cbv zeta in Lp, Bp, Sp. fold t in Sp.
    match goal with
    | |- _ <= Z.of_nat (length (for_loop M ?body sumi)) /\ _ =>
        destruct (for_loop_col_fun [] body
          (fun a => _mm256_add_epi32
             (_mm256_add_epi32 a
                (_mm256_add_epi32
                   (_mm256_madd_epi16
                      (_mm256_shuffle_epi8
                         (MM256_SET_M128I (q4_sc128 (make_q4_scales (q5_scales x)))
                                          (q4_sc128 (make_q4_scales (q5_scales x))))
                         (get_scale_shuffle_8 (4 * j + 0)))
                      (_mm256_maddubs_epi16
                         (_mm256_add_epi8
                            (_mm256_and_si256 (_mm256_loadu_si256 (q5_qs x) (64 * j))
                                              (_mm256_set1_epi8 15))
                            (_mm256_and_si256
                               (_mm256_slli_epi16
                                  (aget [] [_mm256_loadu_si256 (q5_qh x) 0;
                                            _mm256_srli_epi16 (_mm256_loadu_si256 (q5_qh x) 0) 4]
                                        j) 4)
                               (_mm256_set1_epi8 16)))
                         (load_quants hp q8 iy i (4 * j + 0))))
                   (_mm256_madd_epi16
                      (_mm256_shuffle_epi8
                         (MM256_SET_M128I (q4_sc128 (make_q4_scales (q5_scales x)))
                                          (q4_sc128 (make_q4_scales (q5_scales x))))
                         (get_scale_shuffle_8 (4 * j + 2)))
                      (_mm256_maddubs_epi16
                         (_mm256_add_epi8
                            (_mm256_and_si256 (_mm256_loadu_si256 (q5_qs x) (64 * j + 32))
                                              (_mm256_set1_epi8 15))
                            (_mm256_and_si256
                               (_mm256_slli_epi16
                                  (aget [] [_mm256_loadu_si256 (q5_qh x) 0;
                                            _mm256_srli_epi16 (_mm256_loadu_si256 (q5_qh x) 0) 4]
                                        j) 2)
                               (_mm256_set1_epi8 16)))
                         (load_quants hp q8 iy i (4 * j + 2))))))
             (_mm256_add_epi32
                (_mm256_madd_epi16
                   (_mm256_shuffle_epi8
                      (MM256_SET_M128I (q4_sc128 (make_q4_scales (q5_scales x)))
                                       (q4_sc128 (make_q4_scales (q5_scales x))))
                      (get_scale_shuffle_8 (4 * j + 1)))
                   (_mm256_maddubs_epi16
                      (_mm256_add_epi8
                         (_mm256_and_si256
                            (_mm256_srli_epi16 (_mm256_loadu_si256 (q5_qs x) (64 * j)) 4)
                            (_mm256_set1_epi8 15))
                         (_mm256_and_si256
                            (_mm256_slli_epi16
                               (aget [] [_mm256_loadu_si256 (q5_qh x) 0;
                                         _mm256_srli_epi16 (_mm256_loadu_si256 (q5_qh x) 0) 4]
                                     j) 3)
                            (_mm256_set1_epi8 16)))
                      (load_quants hp q8 iy i (4 * j + 1))))
                (_mm256_madd_epi16
                   (_mm256_shuffle_epi8
                      (MM256_SET_M128I (q4_sc128 (make_q4_scales (q5_scales x)))
                                       (q4_sc128 (make_q4_scales (q5_scales x))))
                      (get_scale_shuffle_8 (4 * j + 3)))
                   (_mm256_maddubs_epi16
                      (_mm256_add_epi8
                         (_mm256_and_si256
                            (_mm256_srli_epi16 (_mm256_loadu_si256 (q5_qs x) (64 * j + 32)) 4)
                            (_mm256_set1_epi8 15))
                         (_mm256_and_si256
                            (_mm256_slli_epi16
                               (aget [] [_mm256_loadu_si256 (q5_qh x) 0;
                                         _mm256_srli_epi16 (_mm256_loadu_si256 (q5_qh x) 0) 4]
                                     j) 1)
                            (_mm256_set1_epi8 16)))
                      (load_quants hp q8 iy i (4 * j + 3))))))
          M iy sumi) as [L' E']; [col_frame| |exact Ls|exact Hiy|]
    end.
    + intros st Lst. cbv beta zeta. unfold vec in *.
      rewrite !aget_aset_same by (rewrite ?length_aset; lia).
      replace (64 * j + 32 + 32) with (64 * (j + 1)) by ring.
      replace (64 * j + 32) with (64 * j + 32) by ring. reflexivity.
    + split; [exact L'|]. unfold vec in *. rewrite E'. unfold load_quants.
      split; [exact Lp|]. split; [exact Bp|].
      rewrite Sp, Sv.
      replace (Z.to_nat (4 * (j + 1))) with (Z.to_nat (4 * j) + 4)%nat by lia.
      now rewrite zsum_seq_step4.
  - split; [exact L|]. split; [|exact S].
    eapply Forall_weaken; [|exact B]. cbv beta. intros. lia.
Qed.

End Q5_K_integer.

Section Q5_K_exact.
Context {F : Type} `{FloatOps F} (fone : F) {E : ExactOps F fone}.
Context (hp : Heaps F).

Add Ring exact_ring_q5 : exact_ring.

Lemma q5_K_value_exact M nb q8 vx bx ix iy :
  0 <= iy < M ->
  q5_K_value hp M nb q8 vx bx ix iy = q5_K_dot hp nb q8 vx bx ix iy.
Proof.
  intros Hiy. unfold q5_K_value, q5_K_dot, q5_K_row, fsum. cbv zeta.
  set (f := fun i : Z =>
    fadd (fmul (fmul (fp16_to_fp32 (q5_d (h_q5 hp (vx + bx * ix) i)))
                     (q8_d (q8_block hp q8 iy i)))
               (i32_to_f (q5_K_intdot (h_q5 hp (vx + bx * ix) i)
                                      (q8_qs (q8_block hp q8 iy i)))))
         (fmul (fmul (fneg (fp16_to_fp32 (q5_dmin (h_q5 hp (vx + bx * ix) i))))
                     (q8_d (q8_block hp q8 iy i)))
               (i32_to_f (q4_K_minsdot (q5_scales (h_q5 hp (vx + bx * ix) i))
                                       (q8_bsums (q8_block hp q8 iy i)))))).
  assert (P : forall k, 0 <= k ->
    let p := for_loop k (fun i acc => q5_K_block hp M q8 (h_q5 hp (vx + bx * ix) i) i acc)
               (repeat _mm256_setzero_ps (Z.to_nat M), repeat _mm_setzero_ps (Z.to_nat M)) in
    M <= Z.of_nat (length (fst p)) /\ M <= Z.of_nat (length (snd p)) /\
    length (aget [] (fst p) iy) = 8%nat /\ length (aget [] (snd p) iy) = 4%nat /\
    hsum_float_4 (_mm_add_ps (_mm_add_ps (_mm256_castps256_ps128 (aget [] (fst p) iy))
                                         (_mm256_extractf128_ps (aget [] (fst p) iy) 1))
                             (aget [] (snd p) iy))
    = for_loop k (fun i a => fadd a (f i)) fzero).
  { intros k Hk. cbv zeta.
    apply (for_loop_ind (fun k (p : list fvec * list fvec) =>
      M <= Z.of_nat (length (fst p)) /\ M <= Z.of_nat (length (snd p)) /\
      length (aget [] (fst p) iy) = 8%nat /\ length (aget [] (snd p) iy) = 4%nat /\
      hsum_float_4 (_mm_add_ps (_mm_add_ps (_mm256_castps256_ps128 (aget [] (fst p) iy))
                                           (_mm256_extractf128_ps (aget [] (fst p) iy) 1))
                               (aget [] (snd p) iy))
      = for_loop k (fun i a => fadd a (f i)) fzero)); [| |exact Hk].
    - cbn [fst snd]. rewrite !repeat_length, !aget_repeat by lia.
      split; [lia|]. split; [lia|]. split; [reflexivity|]. split; [reflexivity|].
      rewrite for_loop_nonpos by lia.
      unfold _mm256_setzero_ps, _mm_setzero_ps. cbn [repeat].
      rewrite hsum_q4_single. ring.
    - intros i [accd accm] Hi (Ld & Lm & Ld8 & Lm4 & Hsum). cbn [fst snd] in Ld, Lm, Ld8, Lm4, Hsum.
      rewrite for_loop_succ by lia. rewrite <- Hsum.
      unfold q5_K_block, q4_K_mins. cbv zeta. cbn [fst snd].
      set (x := h_q5 hp (vx + bx * ix) i).
      assert (HLd : 0 <= M <= Z.of_nat (length accd)) by lia.
      assert (HLm : 0 <= M <= Z.of_nat (length accm)) by lia.
      destruct (for_loop_aset []
        (fun iy a => _mm256_fmadd_ps (_mm256_set1_ps (fmul (fp16_to_fp32 (q5_d x))
                                                           (scale hp q8 iy i)))
                       (_mm256_cvtepi32_ps (aget [] (q5_K_sumi hp M q8 x i) iy)) a)
        accd M HLd) as [L1 E1].
      destruct (for_loop_aset []
        (fun iy a => _mm_fmadd_ps (_mm_set1_ps (fmul (fneg (fp16_to_fp32 (q5_dmin x)))
                                                     (scale hp q8 iy i)))
           (_mm_cvtepi32_ps
              (_mm_madd_epi16 (q4_mins (make_q4_scales (q5_scales x)))
                 (_mm_hadd_epi16 (_mm256_extracti128_si256 (load_bsums hp q8 iy i) 0)
                                 (_mm256_extracti128_si256 (load_bsums hp q8 iy i) 1)))) a)
        accm M HLm) as [L2 E2].
      cbv beta iota zeta in L1, E1, L2, E2 |- *.
      name_loop L1 E1 M accd r1. name_loop L2 E2 M accm r2.
      unfold fvec in *. split; [lia|]. split; [lia|].
      rewrite E1, E2 by lia. destruct (Z.ltb_spec iy M); [|lia].
      destruct (q5_K_sumi_exact hp M q8 x i iy Hiy) as (Ls & _ & Ss).
      destruct (q4_K_mins_sum (q5_scales x) (q8_bsums (q8_block hp q8 iy i))) as (Lp & Sp).
      cbv zeta in Lp, Sp.
      unfold _mm256_fmadd_ps, _mm_fmadd_ps, _mm256_cvtepi32_ps, _mm_cvtepi32_ps.
      rewrite !cvtepi32_ps_i32s.
      unfold load_bsums, scale. subst f x. cbv beta.
      rewrite <- Ss, <- Sp.
      apply (q4_acc_step fone); try assumption.
      now apply length_i32s. }
  destruct (Z.le_gt_cases nb 0) as [Hnb|Hnb].
  - rewrite !for_loop_nonpos by lia.
    rewrite !aget_repeat by lia.
    unfold _mm256_setzero_ps, _mm_setzero_ps. cbn [repeat].
    rewrite hsum_q4_single. ring.
  - specialize (P nb ltac:(lia)). cbv zeta in P.
    destruct (for_loop nb _ _) as [accd accm]. cbn [fst snd] in P.
    destruct P as (_ & _ & _ & _ & P). exact P.
Qed.

End Q5_K_exact.

(** X14.  In the Q5_K kernels the integer path is exact on every input and at
    every width: the bytes the kernel assembles are the 5-bit quants
    (nibble plus 16 times the high bit), [vpmaddubsw] never saturates and
    no 32-bit lane wraps, so the eight lanes of the integer accumulator of
    a column add up to the integer dot product of the two super-blocks. *)
Theorem q5_K_intdot_exact {F : Type} `{FloatOps F} (hp : Heaps F)
  (M : Z) (q8 : list Z) (x : block_q5_K) (i iy : Z) :
  0 <= iy < M ->
  Forall (fun v => - 32378880 <= v <= 32378880) (i32s (aget [] (q5_K_sumi hp M q8 x i) iy)) /\
  zsum (i32s (aget [] (q5_K_sumi hp M q8 x i) iy))
  = q5_K_intdot x (q8_qs (q8_block hp q8 iy i)).
Proof. intros Hiy. now destruct (q5_K_sumi_exact hp M q8 x i iy Hiy) as (_ & B & S). Qed.

Lemma q5_K_intdot_exact_witness :
  0 <= 1 < 2 /\
  zsum (i32s (aget [] (q5_K_sumi exact_demo 2 (Q8 2 0 292) (h_q5 exact_demo 0 0) 0) 1))
  = q5_K_intdot (h_q5 exact_demo 0 0) (q8_qs (q8_block exact_demo (Q8 2 0 292) 1 0)).
Proof.
  assert (H1 : 0 <= 1 < 2) by lia. split; [exact H1|].
  exact (proj2 (q5_K_intdot_exact exact_demo 2 (Q8 2 0 292) (h_q5 exact_demo 0 0) 0 1 H1)).
Defined.

(** X15.  In exact arithmetic the Q5_K kernels of every width compute, for a row
    and a column, the sum over the super-blocks of [d_A d_B] times the
    integer dot product minus [dmin_A d_B] times the mins term, in which
    the two sub-block sums of a min are added in [int16_t] with wrap-around
    as [vphaddw] does. *)
Theorem q5_K_kernel_exact {F : Type} `{FloatOps F} (fone : F) (hp : Heaps F)
  (M nb : Z) (q8 : list Z) (vx bx ix iy : Z) :
  ExactOps F fone -> 0 <= iy < M ->
  q5_K_value hp M nb q8 vx bx ix iy = q5_K_dot hp nb q8 vx bx ix iy.
Proof. intros E Hiy. now apply (q5_K_value_exact fone). Qed.

Lemma q5_K_kernel_exact_witness :
  ExactOps Qcanon.Qc (Rational.of_Z 1) /\ 0 <= 1 < 2 /\
  q5_K_value exact_demo 2 1 (Q8 2 0 292) 0 176 0 1 = q5_K_dot exact_demo 1 (Q8 2 0 292) 0 176 0 1.
Proof.
  assert (H1 : 0 <= 1 < 2) by lia.
  split; [exact rational_exact|]. split; [exact H1|].
  exact (q5_K_kernel_exact (Rational.of_Z 1) exact_demo 2 1 (Q8 2 0 292) 0 176 0 1
           rational_exact H1).
Defined.


(** ** Q6_K *)

Lemma land_48 w : Z.land w 48 = 16 * Z.b2z (Z.testbit w 4) + 32 * Z.b2z (Z.testbit w 5).
Proof.
  change 48 with (Z.lor (2 ^ 4) (2 ^ 5)).
  rewrite Z.land_lor_distr_r, !land_bit by lia.
  rewrite Z.or_to_plus; [reflexivity|].
  destruct (Z.testbit w 4), (Z.testbit w 5); reflexivity.
Qed.

Lemma land_shiftr_3 h c :
  0 <= c -> Z.land (Z.shiftr h c) 3
            = Z.b2z (Z.testbit h c) + 2 * Z.b2z (Z.testbit h (c + 1)).
Proof.
  intros Hc. change 3 with (Z.lor (2 ^ 0) (2 ^ 1)).
  rewrite Z.land_lor_distr_r, !land_bit by lia.
  rewrite !Z.shiftr_spec by lia. rewrite Z.add_0_l, (Z.add_comm 1 c).
  rewrite Z.or_to_plus; [change (2 ^ 0) with 1; change (2 ^ 1) with 2; lia|].
  destruct (Z.testbit h c), (Z.testbit h (c + 1)); reflexivity.
Qed.

(** The high bits of Q6_K: each of the four registers [q4h_k] holds, in
    every byte, bits [2 k] and [2 k + 1] of the byte of [qh], at bits 4
    and 5. *)
Lemma q6_high_bytes (v : vec) (k : Z) :
  length v = 32%nat -> bytes_ok v -> 0 <= k < 4 ->
  nth (Z.to_nat k)
    [ vand (vslli_epi16 v 4) (repeat 48 32); vand (vslli_epi16 v 2) (repeat 48 32);
      vand v (repeat 48 32); vand (vsrli_epi16 v 2) (repeat 48 32) ] []
  = map (fun b => 16 * Z.land (Z.shiftr b (2 * k)) 3) v.
Proof.
  intros Hl Hok Hk.
  assert (Hev : Nat.even (length v) = true) by now rewrite Hl.
  assert (Hsl : forall s, 0 <= s <= 4 -> Z.even s = true ->
            vand (vslli_epi16 v s) (repeat 48 (length v))
            = map (fun b => 16 * Z.land (Z.shiftr b (4 - s)) 3) v).
  { intros s Hs _. rewrite vslli_lanes by assumption.
    apply vand_lanes_op; [assumption|assumption|].
    intros b0 b1 H0 H1. rewrite !land_48, !land_shiftr_3 by lia.
    destruct (lane_select_bit b0 b1 0 s 4 H0 H1 ltac:(lia) ltac:(lia) ltac:(lia) ltac:(lia))
      as [E0 E1].
    destruct (lane_select_bit b0 b1 0 s 5 H0 H1 ltac:(lia) ltac:(lia) ltac:(lia) ltac:(lia))
      as [E0' E1'].
    cbv zeta in E0, E1, E0', E1'. rewrite E0, E1, E0', E1'.
    replace (4 - s + 0) with (4 - s) by lia. replace (5 - s + 0) with (4 - s + 1) by lia.
    split; ring. }
  rewrite Hl in Hsl.
  assert (Hc : k = 0 \/ k = 1 \/ k = 2 \/ k = 3) by lia.
  destruct Hc as [->|[->|[->| ->]]]; cbn [Z.to_nat nth Pos.to_nat Pos.iter_op Nat.add].
  - now rewrite (Hsl 4) by (lia || reflexivity).
  - now rewrite (Hsl 2) by (lia || reflexivity).
  - rewrite (vand_const v 48 32 Hl). apply map_ext. intros b.
    rewrite land_48, land_shiftr_3 by lia. change (2 * 2 + 1) with 5. change (2 * 2) with 4. ring.
  - replace (repeat 48 32) with (repeat 48 (length v)) by now rewrite Hl.
    rewrite vand_srli_const by (assumption || cbn; lia).
    apply map_ext. intros b. rewrite land_48, land_shiftr_3 by lia.
    rewrite !Z.shiftr_spec by lia. change (2 * 3 + 1) with 7. change (2 * 3) with 6.
    change (4 + 2) with 6. change (5 + 2) with 7. ring.
Qed.

Lemma lor_nib_hi n t : 0 <= n < 16 -> 0 <= t -> Z.lor n (16 * t) = n + 16 * t.
Proof.
  intros Hn Ht. apply Z.or_to_plus. apply Z.bits_inj'. intros i Hi.
  rewrite Z.land_spec, Z.bits_0. destruct (Z.ltb_spec i 4).
  - change 16 with (2 ^ 4). rewrite Z.mul_comm, <- Z.shiftl_mul_pow2 by lia.
    rewrite Z.shiftl_spec_low by lia. apply andb_false_r.
  - rewrite (testbit_small n 4) by (change (2 ^ 4) with 16; lia). reflexivity.
Qed.

(** The scale registers of Q6_K and Q3_K: [get_scale_shuffle_16 k] on
    half [j] of the sixteen scales leaves scale [8 j + 2 k] in the low
    eight lanes and scale [8 j + 2 k + 1] in the high eight. *)
Lemma shuffle_16_halves (S : vec) (j k : Z) :
  length S = 32%nat -> 0 <= j < 2 -> 0 <= k < 4 ->
  i16s (_mm256_shuffle_epi8
          (MM256_SET_M128I (_mm256_extracti128_si256 S j) (_mm256_extracti128_si256 S j))
          (get_scale_shuffle_16 k))
  = repeat (nth (Z.to_nat (8 * j + 2 * k)) (i16s S) 0) 8 ++
    repeat (nth (Z.to_nat (8 * j + 2 * k + 1)) (i16s S) 0) 8.
Proof.
  intros Hl Hj Hk.
  destruct (length_32 S Hl) as
    (x0 & x1 & x2 & x3 & x4 & x5 & x6 & x7 & x8 & x9 & x10 & x11 & x12 & x13 & x14 & x15 &
     x16 & x17 & x18 & x19 & x20 & x21 & x22 & x23 & x24 & x25 & x26 & x27 & x28 & x29 &
     x30 & x31 & ->).
  assert (Hcj : j = 0 \/ j = 1) by lia.
  assert (Hck : k = 0 \/ k = 1 \/ k = 2 \/ k = 3) by lia.
  destruct Hcj as [-> | ->]; destruct Hck as [->|[->|[->| ->]]];
    match goal with
    | |- context [get_scale_shuffle_16 ?c] =>
        let m := eval vm_compute in (get_scale_shuffle_16 c) in
        change (get_scale_shuffle_16 c) with m
    end; reflexivity.
Qed.

Lemma q6_K_scale_lanes (x : block_q6_K) (j k : Z) :
  0 <= j < 2 -> 0 <= k < 4 ->
  i16s (_mm256_shuffle_epi8 (aget [] (q6_K_scales x) j) (get_scale_shuffle_16 k))
  = repeat (q6_sc x (Z.to_nat (8 * j + 2 * k))) 8 ++
    repeat (q6_sc x (Z.to_nat (8 * j + 2 * k + 1))) 8.
Proof.
  intros Hj Hk.
  assert (E : aget [] (q6_K_scales x) j
              = MM256_SET_M128I (_mm256_extracti128_si256 (q6_K_scales16 x) j)
                                (_mm256_extracti128_si256 (q6_K_scales16 x) j)).
  { assert (Hcj : j = 0 \/ j = 1) by lia. destruct Hcj as [-> | ->]; reflexivity. }
  rewrite E, shuffle_16_halves by (try reflexivity; lia).
  unfold q6_K_scales16. rewrite i16s_cvtepi8.
  unfold _mm_loadu_si128, load_bytes. rewrite map_map.
  assert (N : forall m, (m < 16)%nat ->
            nth m (map (fun k0 => s8 (u8 (nth (Z.to_nat 0 + k0) (q6_scales x) 0))) (seq 0 16)) 0
            = q6_sc x m).
  { intros m Hm. unfold q6_sc. rewrite <- (s8_u8' (nth m (q6_scales x) 0)).
    do 16 (destruct m as [|m]; [reflexivity|]). lia. }
  rewrite !N by lia. reflexivity.
Qed.

(** One product of the Q6_K and Q3_K kernels: 32 bytes of the row against
    32 quants of the column, with the scales of the two halves. *)
Lemma madd_sum_piece2 (amax s0 s1 : Z) sc (fa : nat -> Z) (yqs : list Z) (off : Z) :
  0 <= amax <= 63 -> - 128 <= s0 <= 128 -> - 128 <= s1 <= 128 -> length sc = 32%nat ->
  i16s sc = repeat s0 8 ++ repeat s1 8 -> (forall e, 0 <= fa e <= amax) ->
  let p := _mm256_madd_epi16 sc
             (_mm256_maddubs_epi16 (map fa (seq 0 32)) (_mm256_loadu_si256 yqs off)) in
  length p = 32%nat /\
  Forall (fun v => - (256 * (2 * amax * 128)) <= v <= 256 * (2 * amax * 128)) (i32s p) /\
  zsum (i32s p)
  = s0 * zsum (map (fun e => fa e * s8 (nth (Z.to_nat off + e) yqs 0)) (seq 0 16))
  + s1 * zsum (map (fun e => fa (16 + e)%nat * s8 (nth (Z.to_nat off + (16 + e)) yqs 0))
                   (seq 0 16)).
Proof.
  intros Ham Hs0 Hs1 Lsc Esc Hfa. cbv zeta.
  destruct (madd_sum_halves 128 amax s0 s1 sc (map fa (seq 0 32)) (_mm256_loadu_si256 yqs off)
              fa (fun k => s8 (nth (Z.to_nat off + k) yqs 0)))
    as (L & B & S); try lia; try reflexivity; try assumption.
  { apply map_s8_load_bytes. }
  cbv zeta in L, B, S. split; [|split].
  - unfold _mm256_madd_epi16. apply length_vmadd_epi16; [assumption|].
    apply length_maddubs; [now rewrite length_map, length_seq|apply length_loadu_si256].
  - eapply Forall_weaken; [|exact B]. cbv beta. intros. lia.
  - rewrite S. change (seq 16 16) with (map (Nat.add 16) (seq 0 16)).
    now rewrite map_map.
Qed.

Lemma q6_sc_range x j : -128 <= q6_sc x j <= 128.
Proof. unfold q6_sc. pose proof (s8_range (nth j (q6_scales x) 0)). lia. Qed.

Lemma q6_bytes (ql qh : list Z) (offl offh k : Z) (high : bool) :
  0 <= k < 4 ->
  let q4bits := _mm256_loadu_si256 ql offl in
  let H := _mm256_loadu_si256 qh offh in
  let mh := _mm256_set1_epi8 48 in
  let nib := if high then _mm256_and_si256 (_mm256_srli_epi16 q4bits 4) (_mm256_set1_epi8 15)
             else _mm256_and_si256 q4bits (_mm256_set1_epi8 15) in
  let fa := fun e : nat =>
    (if high then Z.shiftr (u8 (nth (Z.to_nat offl + e) ql 0)) 4
     else Z.land (u8 (nth (Z.to_nat offl + e) ql 0)) 15) +
    16 * Z.land (Z.shiftr (u8 (nth (Z.to_nat offh + e) qh 0)) (2 * k)) 3 in
  _mm256_or_si256 nib
    (nth (Z.to_nat k)
       [ _mm256_and_si256 (_mm256_slli_epi16 H 4) mh; _mm256_and_si256 (_mm256_slli_epi16 H 2) mh;
         _mm256_and_si256 H mh; _mm256_and_si256 (_mm256_srli_epi16 H 2) mh ] [])
  = map fa (seq 0 32) /\
  forall e, 0 <= fa e <= 63.
Proof.
  intros Hk. cbv zeta.
  unfold _mm256_and_si256, _mm256_srli_epi16, _mm256_slli_epi16, _mm256_set1_epi8,
    _mm256_or_si256.
  change (u8 15) with 15. change (u8 48) with 48.
  rewrite q6_high_bytes by (try apply length_loadu_si256; try apply bytes_ok_load; lia).
  pose proof (length_loadu_si256 ql offl) as Lq.
  pose proof (bytes_ok_load ql offl 32) as Okq. fold (_mm256_loadu_si256 ql offl) in Okq.
  assert (Hnib : forall e : nat,
            0 <= (if high then Z.shiftr (u8 (nth (Z.to_nat offl + e) ql 0)) 4
                  else Z.land (u8 (nth (Z.to_nat offl + e) ql 0)) 15) < 16).
  { intros e. pose proof (u8_range (nth (Z.to_nat offl + e) ql 0)) as Hu. destruct high.
    - rewrite Z.shiftr_div_pow2 by lia. change (2 ^ 4) with 16. Z.div_mod_to_equations. lia.
    - pose proof (land_bound (u8 (nth (Z.to_nat offl + e) ql 0)) 15 4). cbn in *. lia. }
  assert (Hhi : forall h, 0 <= Z.land (Z.shiftr h (2 * k)) 3 < 4).
  { intros h. pose proof (land_bound (Z.shiftr h (2 * k)) 3 2). cbn in *. lia. }
  split.
  - assert (En : (if high then vand (vsrli_epi16 (_mm256_loadu_si256 ql offl) 4) (repeat 15 32)
                  else vand (_mm256_loadu_si256 ql offl) (repeat 15 32))
                 = map (fun e : nat =>
                          if high then Z.shiftr (u8 (nth (Z.to_nat offl + e) ql 0)) 4
                          else Z.land (u8 (nth (Z.to_nat offl + e) ql 0)) 15) (seq 0 32)).
    { destruct high.
      - replace (repeat 15 32) with (repeat 15 (length (_mm256_loadu_si256 ql offl)))
          by now rewrite Lq.
        rewrite vand_srli_const by first [apply even_32; assumption | assumption | cbn; lia].
        unfold _mm256_loadu_si256, load_bytes. rewrite map_map.
        apply map_ext. intros e. apply land_15_nibble, u8_range.
      - rewrite (vand_const _ 15 32 Lq). unfold _mm256_loadu_si256, load_bytes.
        now rewrite map_map. }
    rewrite En. unfold _mm256_loadu_si256 at 1, load_bytes. rewrite map_map.
    unfold vor. rewrite map2_map_seq.
    apply map_ext. intros e. apply lor_nib_hi; [apply Hnib|]. specialize (Hhi (u8 (nth (Z.to_nat offh + e) qh 0))). lia.
  - intros e. specialize (Hnib e). specialize (Hhi (u8 (nth (Z.to_nat offh + e) qh 0))). lia.
Qed.

Lemma zsum_seq_step8 (t : nat -> Z) n :
  zsum (map t (seq 0 (n + 8)))
  = zsum (map t (seq 0 n))
    + (t n + t (1 + n)%nat + t (2 + n)%nat + t (3 + n)%nat
       + t (4 + n)%nat + t (5 + n)%nat + t (6 + n)%nat + t (7 + n)%nat).
Proof.
  rewrite seq_app, map_app, zsum_app. cbn [seq map zsum fold_right Nat.add]. lia.
Qed.

Ltac seq_cases16 e He :=
  apply in_seq in He;
  do 16 (destruct e as [|e]; [reflexivity|]); exfalso; lia.

(** One step of the Q6_K loop on one column: the four products add the
    terms of sub-blocks [8 j], ..., [8 j + 7] of the integer dot
    product. *)
Lemma q6_K_step (x : block_q6_K) (yqs : list Z) (j : Z) (v : vec) :
  0 <= j < 2 -> length v = 32%nat ->
  Forall (fun z => - (j * 16515072) <= z <= j * 16515072) (i32s v) ->
  let m4 := _mm256_set1_epi8 15 in
  let mh := _mm256_set1_epi8 48 in
  let scales := q6_K_scales x in
  let q4bits1 := _mm256_loadu_si256 (q6_ql x) (64 * j) in
  let q4bits2 := _mm256_loadu_si256 (q6_ql x) (64 * j + 32) in
  let q4bitsH := _mm256_loadu_si256 (q6_qh x) (32 * j) in
  let q6_0 := _mm256_or_si256 (_mm256_and_si256 q4bits1 m4)
                (_mm256_and_si256 (_mm256_slli_epi16 q4bitsH 4) mh) in
  let q6_1 := _mm256_or_si256 (_mm256_and_si256 q4bits2 m4)
                (_mm256_and_si256 (_mm256_slli_epi16 q4bitsH 2) mh) in
  let q6_2 := _mm256_or_si256 (_mm256_and_si256 (_mm256_srli_epi16 q4bits1 4) m4)
                (_mm256_and_si256 q4bitsH mh) in
  let q6_3 := _mm256_or_si256 (_mm256_and_si256 (_mm256_srli_epi16 q4bits2 4) m4)
                (_mm256_and_si256 (_mm256_srli_epi16 q4bitsH 2) mh) in
  let p0 := _mm256_madd_epi16 (_mm256_shuffle_epi8 (aget [] scales j) (get_scale_shuffle_16 0))
              (_mm256_maddubs_epi16 q6_0 (_mm256_loadu_si256 yqs (32 * (4 * j + 0)))) in
  let p1 := _mm256_madd_epi16 (_mm256_shuffle_epi8 (aget [] scales j) (get_scale_shuffle_16 1))
              (_mm256_maddubs_epi16 q6_1 (_mm256_loadu_si256 yqs (32 * (4 * j + 1)))) in
  let p2 := _mm256_madd_epi16 (_mm256_shuffle_epi8 (aget [] scales j) (get_scale_shuffle_16 2))
              (_mm256_maddubs_epi16 q6_2 (_mm256_loadu_si256 yqs (32 * (4 * j + 2)))) in
  let p3 := _mm256_madd_epi16 (_mm256_shuffle_epi8 (aget [] scales j) (get_scale_shuffle_16 3))
              (_mm256_maddubs_epi16 q6_3 (_mm256_loadu_si256 yqs (32 * (4 * j + 3)))) in
  let t := fun j' : nat =>
             q6_sc x j' *
             zsum (map (fun k => q6_K_quant (q6_ql x) (q6_qh x) (16 * j' + k) *
                                 s8 (nth (16 * j' + k) yqs 0)) (seq 0 16)) in
  let v' := _mm256_add_epi32 v
              (_mm256_add_epi32 (_mm256_add_epi32 p0 p1) (_mm256_add_epi32 p2 p3)) in
  length v' = 32%nat /\
  Forall (fun z => - ((j + 1) * 16515072) <= z <= (j + 1) * 16515072) (i32s v') /\
  zsum (i32s v')
  = zsum (i32s v)
    + (t (Z.to_nat (8 * j)) + t (1 + Z.to_nat (8 * j))%nat + t (2 + Z.to_nat (8 * j))%nat
       + t (3 + Z.to_nat (8 * j))%nat + t (4 + Z.to_nat (8 * j))%nat
       + t (5 + Z.to_nat (8 * j))%nat + t (6 + Z.to_nat (8 * j))%nat
       + t (7 + Z.to_nat (8 * j))%nat).
Proof.
  intros Hj Lv Bv. cbv zeta.
  destruct (q6_bytes (q6_ql x) (q6_qh x) (64 * j) (32 * j) 0 false ltac:(lia)) as [E0 R0].
  destruct (q6_bytes (q6_ql x) (q6_qh x) (64 * j + 32) (32 * j) 1 false ltac:(lia)) as [E1 R1].
  destruct (q6_bytes (q6_ql x) (q6_qh x) (64 * j) (32 * j) 2 true ltac:(lia)) as [E2 R2].
  destruct (q6_bytes (q6_ql x) (q6_qh x) (64 * j + 32) (32 * j) 3 true ltac:(lia)) as [E3 R3].
  cbv zeta in E0, E1, E2, E3.
  change (Z.to_nat 0) with 0%nat in E0. change (Z.to_nat 1) with 1%nat in E1.
  change (Z.to_nat 2) with 2%nat in E2. change (Z.to_nat 3) with 3%nat in E3.
  cbn [nth] in E0, E1, E2, E3.
  rewrite E0, E1, E2, E3. clear E0 E1 E2 E3.
  pose proof (q6_K_scale_lanes x j 0 Hj ltac:(lia)) as S0.
  pose proof (q6_K_scale_lanes x j 1 Hj ltac:(lia)) as S1.
  pose proof (q6_K_scale_lanes x j 2 Hj ltac:(lia)) as S2.
  pose proof (q6_K_scale_lanes x j 3 Hj ltac:(lia)) as S3.
  assert (Lsh : forall k, 0 <= k < 4 ->
            length (_mm256_shuffle_epi8 (aget [] (q6_K_scales x) j) (get_scale_shuffle_16 k))
            = 32%nat).
  { intros k Hk. apply length_shuffle_epi8.
    assert (Hc : k = 0 \/ k = 1 \/ k = 2 \/ k = 3) by lia.
    destruct Hc as [->|[->|[->| ->]]]; reflexivity. }
  destruct (madd_sum_piece2 63 _ _ _ _ yqs (32 * (4 * j + 0)) ltac:(lia)
              (q6_sc_range x _) (q6_sc_range x _) (Lsh 0 ltac:(lia)) S0 R0) as (L0 & B0 & Z0).
  destruct (madd_sum_piece2 63 _ _ _ _ yqs (32 * (4 * j + 1)) ltac:(lia)
              (q6_sc_range x _) (q6_sc_range x _) (Lsh 1 ltac:(lia)) S1 R1) as (L1 & B1 & Z1).
  destruct (madd_sum_piece2 63 _ _ _ _ yqs (32 * (4 * j + 2)) ltac:(lia)
              (q6_sc_range x _) (q6_sc_range x _) (Lsh 2 ltac:(lia)) S2 R2) as (L2 & B2 & Z2).
  destruct (madd_sum_piece2 63 _ _ _ _ yqs (32 * (4 * j + 3)) ltac:(lia)
              (q6_sc_range x _) (q6_sc_range x _) (Lsh 3 ltac:(lia)) S3 R3) as (L3 & B3 & Z3).
  cbv zeta in L0, B0, Z0, L1, B1, Z1, L2, B2, Z2, L3, B3, Z3.
  match type of L0 with length ?p = _ => set (p0 := p) in * end.
  match type of L1 with length ?p = _ => set (p1 := p) in * end.
  match type of L2 with length ?p = _ => set (p2 := p) in * end.
  match type of L3 with length ?p = _ => set (p3 := p) in * end.
  change (256 * (2 * 63 * 128)) with 4128768 in *.
  destruct (add_epi32_sum 4128768 4128768 p0 p1 L0 L1 ltac:(lia) B0 B1) as (L01 & B01 & Z01).
  destruct (add_epi32_sum 4128768 4128768 p2 p3 L2 L3 ltac:(lia) B2 B3) as (L23 & B23 & Z23).
  destruct (add_epi32_sum (4128768 + 4128768) (4128768 + 4128768) _ _ L01 L23 ltac:(lia) B01 B23)
    as (Lq & Bq & Zq).
  destruct (add_epi32_sum (j * 16515072) (4128768 + 4128768 + (4128768 + 4128768)) v _ Lv Lq
              ltac:(lia) Bv Bq) as (La & Ba & Za).
  split; [exact La|]. split.
  - eapply Forall_weaken; [|exact Ba]. cbv beta. intros. lia.
  - rewrite Za, Zq, Z01, Z23, Z0, Z1, Z2, Z3. clear - Hj.
    assert (Hc : j = 0 \/ j = 1) by lia.
    assert (Hring : forall e a0 b0 a1 b1 a2 b2 a3 b3 a0' b0' a1' b1' a2' b2' a3' b3',
              a0' = a0 -> b0' = b0 -> a1' = a1 -> b1' = b1 ->
              a2' = a2 -> b2' = b2 -> a3' = a3 -> b3' = b3 ->
              e + (a0' + b0' + (a1' + b1') + (a2' + b2' + (a3' + b3')))
              = e + (a0 + b0 + a1 + b1 + a2 + b2 + a3 + b3)) by (intros; lia).
    destruct Hc as [-> | ->];
      (apply Hring; (apply (f_equal2 Z.mul); [reflexivity|]); apply (f_equal zsum);
       apply map_ext_in; intros e He; seq_cases16 e He).
Qed.

Section Q6_K_integer.
Context {F : Type} `{FloatOps F} (hp : Heaps F).

Lemma q6_K_sumi_exact M q8 x i iy :
  0 <= iy < M ->
  length (aget [] (q6_K_sumi hp M q8 x i) iy) = 32%nat /\
  Forall (fun v => - 33030144 <= v <= 33030144) (i32s (aget [] (q6_K_sumi hp M q8 x i) iy)) /\
  zsum (i32s (aget [] (q6_K_sumi hp M q8 x i) iy))
  = q6_K_intdot x (q8_qs (q8_block hp q8 iy i)).
Proof.
  intros Hiy. unfold q6_K_sumi, q6_K_intdot. cbv zeta. change (QK_K / 128) with 2.
  set (t := fun j' : nat =>
              q6_sc x j' *
              zsum (map (fun k => q6_K_quant (q6_ql x) (q6_qh x) (16 * j' + k) *
                                  s8 (nth (16 * j' + k) (q8_qs (q8_block hp q8 iy i)) 0))
                        (seq 0 16))).
  change (seq 0 16) with (seq 0 (Z.to_nat (8 * 2))).
  match goal with
  | |- length (aget _ (snd (for_loop 2 ?f ?s0)) _) = _ /\ _ =>
      pose proof (for_loop_ind
        (fun j (p : Z * Z * list vec) =>
           fst (fst p) = 64 * j /\ snd (fst p) = 32 * j /\
           M <= Z.of_nat (length (snd p)) /\
           length (aget [] (snd p) iy) = 32%nat /\
           Forall (fun v => - (j * 16515072) <= v <= j * 16515072) (i32s (aget [] (snd p) iy)) /\
           zsum (i32s (aget [] (snd p) iy)) = zsum (map t (seq 0 (Z.to_nat (8 * j)))))
        2 f s0) as P
  end.
  cbv beta in P. destruct P as (_ & _ & _ & L & B & S); [| |lia|].
  - cbn [fst snd]. rewrite repeat_length, aget_repeat by lia.
    split; [reflexivity|]. split; [reflexivity|]. split; [lia|]. split; [reflexivity|].
    rewrite i32s_zero. split; [repeat constructor; lia|reflexivity].
  - intros j [[q4 qh] sumi] Hj (Eq & Eh & Ls & Lv & Bv & Sv).
    cbn [fst snd] in Eq, Eh, Ls, Lv, Bv, Sv.
    subst q4 qh. cbv beta iota zeta. cbn [fst snd].
    split; [ring|]. split; [ring|].
    destruct (q6_K_step x (q8_qs (q8_block hp q8 iy i)) j (aget [] sumi iy) Hj Lv Bv)
      as (Lp & Bp & Sp).
    cbv zeta in Lp, Bp, Sp. fold t in Sp.
    assert (HL : 0 <= M <= Z.of_nat (length sumi)) by lia.
    match goal with
    | |- _ <= Z.of_nat (length (for_loop M
             (fun iy s => aset s iy (_mm256_add_epi32 (aget [] s iy) (@?R iy))) sumi)) /\ _ =>
        destruct (for_loop_aset [] (fun iy a => _mm256_add_epi32 a (R iy)) sumi M HL)
          as [L' E']
    end.
    cbv beta in L', E'. unfold vec in *. rewrite L'. split; [exact Ls|].
    rewrite E' by lia. destruct (Z.ltb_spec iy M) as [_|?]; [|lia].
    unfold load_quants.
    split; [exact Lp|]. split; [exact Bp|].
    rewrite Sp, Sv.
    replace (Z.to_nat (8 * (j + 1))) with (Z.to_nat (8 * j) + 8)%nat by lia.
    now rewrite zsum_seq_step8.
  - split; [exact L|]. split; [|exact S].
    eapply Forall_weaken; [|exact B]. cbv beta. intros. lia.
Qed.

End Q6_K_integer.

Section Q6_K_exact.
Context {F : Type} `{FloatOps F} (fone : F) {E : ExactOps F fone}.
Context (hp : Heaps F).

Add Ring exact_ring_q6 : exact_ring.

Lemma fsum_sub_scale (n : Z) (c : F) (d a b : Z -> F) :
  fsub (fsum n (fun i => fmul (d i) (a i))) (fmul c (fsum n (fun i => fmul (d i) (b i))))
  = fsum n (fun i => fmul (d i) (fsub (a i) (fmul c (b i)))).
Proof.
  unfold fsum. destruct (Z.le_gt_cases n 0) as [Hn|Hn].
  { rewrite !for_loop_nonpos by lia. ring. }
  assert (P : forall k, 0 <= k ->
    fsub (for_loop k (fun i s => fadd s (fmul (d i) (a i))) fzero)
         (fmul c (for_loop k (fun i s => fadd s (fmul (d i) (b i))) fzero))
    = for_loop k (fun i s => fadd s (fmul (d i) (fsub (a i) (fmul c (b i))))) fzero).
  { apply natlike_ind.
    - rewrite !for_loop_nonpos by lia. ring.
    - intros k Hk IH. unfold Z.succ. rewrite !for_loop_succ by lia. rewrite <- IH. ring. }
  apply P. lia.
Qed.

(** The horizontal sum of the integer-path accumulator of a column. *)
Lemma q6_K_accd_exact M nb q8 vx bx ix iy :
  0 <= iy < M ->
  hsum_float_8 (aget [] (fst (q6_K_row hp M nb q8 vx bx ix)) iy)
  = fsum nb (fun i =>
      fmul (fmul (fp16_to_fp32 (q6_d (h_q6 hp (vx + ix * bx) i))) (q8_d (q8_block hp q8 iy i)))
           (i32_to_f (q6_K_intdot (h_q6 hp (vx + ix * bx) i) (q8_qs (q8_block hp q8 iy i))))).
Proof.
  intros Hiy. unfold q6_K_row, fsum. cbv zeta.
  set (f := fun i : Z =>
      fmul (fmul (fp16_to_fp32 (q6_d (h_q6 hp (vx + ix * bx) i))) (q8_d (q8_block hp q8 iy i)))
           (i32_to_f (q6_K_intdot (h_q6 hp (vx + ix * bx) i) (q8_qs (q8_block hp q8 iy i))))).
  destruct (Z.le_gt_cases nb 0) as [Hnb|Hnb].
  { rewrite !for_loop_nonpos by lia. cbn [fst]. rewrite aget_repeat by lia.
    unfold _mm256_setzero_ps. cbn [repeat]. rewrite hsum_float_8_lanes. ring. }
  match goal with
  | |- hsum_float_8 (aget _ (fst (for_loop nb ?body ?s0)) _) = _ =>
      pose proof (for_loop_ind
        (fun k (p : list fvec * list fvec) =>
           M <= Z.of_nat (length (fst p)) /\ length (aget [] (fst p) iy) = 8%nat /\
           hsum_float_8 (aget [] (fst p) iy) = for_loop k (fun i a => fadd a (f i)) fzero)
        nb body s0) as P
  end.
  cbv beta in P. destruct P as (_ & _ & P); [| |lia|exact P].
  - cbn [fst]. rewrite repeat_length, aget_repeat by lia.
    split; [lia|]. split; [reflexivity|].
    rewrite for_loop_nonpos by lia. unfold _mm256_setzero_ps. cbn [repeat].
    rewrite hsum_float_8_lanes. ring.
  - intros i [accd accm] Hi (Ld & Ld8 & Hsum). cbn [fst] in Ld, Ld8, Hsum.
    rewrite for_loop_succ by lia. rewrite <- Hsum.
    unfold q6_K_block. cbv zeta. cbn [fst].
    set (x := h_q6 hp (vx + ix * bx) i).
    assert (HLd : 0 <= M <= Z.of_nat (length accd)) by lia.
    destruct (for_loop_aset []
      (fun iy a => _mm256_fmadd_ps (_mm256_set1_ps (fmul (fp16_to_fp32 (q6_d x))
                                                         (scale hp q8 iy i)))
                     (_mm256_cvtepi32_ps (aget [] (q6_K_sumi hp M q8 x i) iy)) a)
      accd M HLd) as [L1 E1].
    cbv beta iota zeta in L1, E1 |- *.
    name_loop L1 E1 M accd r1.
    unfold fvec in *. split; [lia|].
    rewrite E1 by lia. destruct (Z.ltb_spec iy M); [|lia].
    destruct (q6_K_sumi_exact hp M q8 x i iy Hiy) as (Ls & _ & Ss).
    unfold _mm256_fmadd_ps, _mm256_cvtepi32_ps. rewrite cvtepi32_ps_i32s.
    unfold scale. subst f x. cbv beta. rewrite <- Ss.
    destruct (length_8 (i32s (aget [] (q6_K_sumi hp M q8 (h_q6 hp (vx + ix * bx) i) i) iy))
                (length_i32s _ Ls)) as (z0 & z1 & z2 & z3 & z4 & z5 & z6 & z7 & ->).
    rewrite zsum_8. apply (hsum_float_8_step fone). exact Ld8.
Qed.

Lemma q6_K_value_exact M nb q8 vx bx ix iy :
  0 <= iy < M ->
  q6_K_value hp M nb q8 vx bx ix iy = q6_K_dot hp nb q8 vx bx ix iy.
Proof.
  intros Hiy. unfold q6_K_value, q6_K_dot. cbv zeta.
  rewrite (q6_K_accd_exact M nb q8 vx bx ix iy Hiy), (hsum_corr_acc fone).
  unfold q8_block, q8_bsum.
  apply (fsum_sub_scale nb f_32
    (fun i => fmul (fp16_to_fp32 (q6_d (h_q6 hp (vx + ix * bx) i)))
                   (q8_d (h_q8 hp (aget 0 q8 iy) i)))
    (fun i => i32_to_f (q6_K_intdot (h_q6 hp (vx + ix * bx) i)
                                    (q8_qs (h_q8 hp (aget 0 q8 iy) i))))
    (fun i => i32_to_f (zsum (map (fun j => q6_sc (h_q6 hp (vx + ix * bx) i) j *
                                            s16 (nth j (q8_bsums (h_q8 hp (aget 0 q8 iy) i)) 0))
                                  (seq 0 16))))).
Qed.

End Q6_K_exact.

(** X16.  In the Q6_K kernels the integer path is exact on every input and at
    every width: the bytes the kernel assembles are the 6-bit quants (a
    nibble of [ql] plus 16 times a pair of bits of [qh]), [vpmaddubsw] never
    saturates and no 32-bit lane wraps, so the eight lanes of the integer
    accumulator of a column add up to the integer dot product of the two
    super-blocks, sub-block by sub-block with the signed scales. *)
Theorem q6_K_intdot_exact {F : Type} `{FloatOps F} (hp : Heaps F)
  (M : Z) (q8 : list Z) (x : block_q6_K) (i iy : Z) :
  0 <= iy < M ->
  Forall (fun v => - 33030144 <= v <= 33030144) (i32s (aget [] (q6_K_sumi hp M q8 x i) iy)) /\
  zsum (i32s (aget [] (q6_K_sumi hp M q8 x i) iy))
  = q6_K_intdot x (q8_qs (q8_block hp q8 iy i)).
Proof. intros Hiy. now destruct (q6_K_sumi_exact hp M q8 x i iy Hiy) as (_ & B & S). Qed.

Lemma q6_K_intdot_exact_witness :
  0 <= 1 < 2 /\
  zsum (i32s (aget [] (q6_K_sumi corr_demo 2 (Q8 2 0 292) (h_q6 corr_demo 0 0) 0) 1))
  = q6_K_intdot (h_q6 corr_demo 0 0) (q8_qs (q8_block corr_demo (Q8 2 0 292) 1 0)).
Proof.
  assert (H1 : 0 <= 1 < 2) by lia. split; [exact H1|].
  exact (proj2 (q6_K_intdot_exact corr_demo 2 (Q8 2 0 292) (h_q6 corr_demo 0 0) 0 1 H1)).
Defined.

(** X17.  In exact arithmetic the Q6_K kernels of every width compute, for a row
    and a column, the sum over the super-blocks of [d_A d_B] times the
    integer dot product of the unsigned quants minus 32 times the sum of
    the sub-block scales times the sub-block sums of the Q8_K block. *)
Theorem q6_K_kernel_exact {F : Type} `{FloatOps F} (fone : F) (hp : Heaps F)
  (M nb : Z) (q8 : list Z) (vx bx ix iy : Z) :
  ExactOps F fone -> 0 <= iy < M ->
  q6_K_value hp M nb q8 vx bx ix iy = q6_K_dot hp nb q8 vx bx ix iy.
Proof. intros E Hiy. now apply (q6_K_value_exact fone). Qed.

Lemma q6_K_kernel_exact_witness :
  ExactOps Qcanon.Qc (Rational.of_Z 1) /\ 0 <= 1 < 2 /\
  q6_K_value corr_demo 2 1 (Q8 2 0 292) 0 210 0 1 = q6_K_dot corr_demo 1 (Q8 2 0 292) 0 210 0 1.
Proof.
  assert (H1 : 0 <= 1 < 2) by lia.
  split; [exact rational_exact|]. split; [exact H1|].
  exact (q6_K_kernel_exact (Rational.of_Z 1) corr_demo 2 1 (Q8 2 0 292) 0 210 0 1
           rational_exact H1).
Defined.


(** ** Q3_K *)

Lemma vsrli_vsrli_add v a b :
  bytes_ok v -> Nat.even (length v) = true -> 0 <= a -> 0 <= b ->
  vsrli_epi16 (vsrli_epi16 v a) b = vsrli_epi16 v (a + b).
Proof.
  intros Hok Hev Ha Hb. unfold vsrli_epi16. rewrite lanes16_bytes16, !map_map. f_equal.
  induction v as [| |b0 b1 v IH] using list_pair_ind.
  - reflexivity.
  - discriminate.
  - inversion Hok as [|? ? H0 Hok1]; subst. inversion Hok1 as [|? ? H1 Hok2]; subst.
    cbn [lanes16 map]. f_equal; [|apply IH; assumption].
    unfold u16. rewrite Z.mod_small.
    + apply Z.shiftr_shiftr; lia.
    + rewrite Z.shiftr_div_pow2 by lia.
      assert (0 < 2 ^ a) by (apply Z.pow_pos_nonneg; lia).
      split; [apply Z.div_pos; lia|].
      apply Z.le_lt_trans with (b0 + 256 * b1); [|lia].
      apply Z.div_le_upper_bound; [lia|]. nia.
Qed.

Lemma land_4_bit w : Z.land w 4 = 4 * Z.b2z (Z.testbit w 2).
Proof. change 4 with (2 ^ 2). now rewrite land_bit by lia. Qed.

(** The high bits of Q3_K: each of the four registers [q3h_k] of step [j]
    holds, in every byte, bit [4 j + k] of the byte of [hmask], at bit
    2. *)
Lemma q3_high_bytes (v : vec) (j k : Z) :
  length v = 32%nat -> bytes_ok v -> 0 <= j < 2 -> 0 <= k < 4 ->
  let H := aget [] [v; vsrli_epi16 v 4] j in
  nth (Z.to_nat k)
    [ vand (vslli_epi16 H 2) (repeat 4 32); vand (vslli_epi16 H 1) (repeat 4 32);
      vand H (repeat 4 32); vand (vsrli_epi16 H 1) (repeat 4 32) ] []
  = map (fun b => 4 * Z.b2z (Z.testbit b (4 * j + k))) v.
Proof.
  intros Hl Hok Hj Hk. cbv zeta.
  assert (Hev : Nat.even (length v) = true) by now rewrite Hl.
  assert (Hsl : forall s, 1 <= s <= 2 ->
            vand (vslli_epi16 (aget [] [v; vsrli_epi16 v 4] j) s) (repeat 4 32)
            = map (fun b => 4 * Z.b2z (Z.testbit b (2 - s + 4 * j))) v).
  { intros s Hs.
    assert (Hc : j = 0 \/ j = 1) by lia.
    replace (repeat 4 32) with (repeat 4 (length v)) by now rewrite Hl.
    destruct Hc as [-> | ->].
    - change (aget [] [v; vsrli_epi16 v 4] 0) with v.
      rewrite vslli_lanes by assumption.
      apply vand_lanes_op; [assumption|assumption|].
      intros b0 b1 H0 H1. rewrite !land_4_bit.
      destruct (lane_select_bit b0 b1 0 s 2 H0 H1 ltac:(lia) ltac:(lia) ltac:(lia) ltac:(lia))
        as [E0 E1].
      cbv zeta in E0, E1. rewrite E0, E1.
      replace (2 - s + 4 * 0) with (2 - s + 0) by lia. split; reflexivity.
    - change (aget [] [v; vsrli_epi16 v 4] 1) with (vsrli_epi16 v 4).
      rewrite vslli_vsrli.
      apply vand_lanes_op; [assumption|assumption|].
      intros b0 b1 H0 H1. rewrite !land_4_bit.
      destruct (lane_select_bit b0 b1 4 s 2 H0 H1 ltac:(lia) ltac:(lia) ltac:(lia) ltac:(lia))
        as [E0 E1].
      cbv zeta in E0, E1. rewrite E0, E1.
      replace (2 - s + 4 * 1) with (2 - s + 4) by lia. split; reflexivity. }
  assert (Hsr : forall s, 0 <= s <= 5 ->
            vand (vsrli_epi16 v s) (repeat 4 32)
            = map (fun b => 4 * Z.b2z (Z.testbit b (2 + s))) v).
  { intros s Hs. replace (repeat 4 32) with (repeat 4 (length v)) by now rewrite Hl.
    rewrite vand_srli_const; [| assumption | assumption | lia |].
    - apply map_ext. intros b. rewrite land_4_bit, Z.shiftr_spec by lia. reflexivity.
    - split; [lia|]. apply Z.lt_le_trans with (2 ^ 3); [reflexivity|].
      apply Z.pow_le_mono_r; lia. }
  assert (Hcj : j = 0 \/ j = 1) by lia.
  assert (Hck : k = 0 \/ k = 1 \/ k = 2 \/ k = 3) by lia.
  destruct Hck as [->|[->|[->| ->]]].
  - change (Z.to_nat 0) with 0%nat. cbn [nth]. rewrite (Hsl 2) by lia.
    apply map_ext. intros b. do 2 f_equal. f_equal. lia.
  - change (Z.to_nat 1) with 1%nat. cbn [nth]. rewrite (Hsl 1) by lia.
    apply map_ext. intros b. do 2 f_equal. f_equal. lia.
  - change (Z.to_nat 2) with 2%nat. cbn [nth].
    destruct Hcj as [-> | ->].
    + change (aget [] [v; vsrli_epi16 v 4] 0) with v.
      rewrite (vand_const v 4 32 Hl). apply map_ext. intros b. now rewrite land_4_bit.
    + change (aget [] [v; vsrli_epi16 v 4] 1) with (vsrli_epi16 v 4).
      now rewrite (Hsr 4) by lia.
  - change (Z.to_nat 3) with 3%nat. cbn [nth].
    destruct Hcj as [-> | ->].
    + change (aget [] [v; vsrli_epi16 v 4] 0) with v. now rewrite (Hsr 1) by lia.
    + change (aget [] [v; vsrli_epi16 v 4] 1) with (vsrli_epi16 v 4).
      rewrite vsrli_vsrli_add by (assumption || lia).
      now rewrite (Hsr (4 + 1)) by lia.
Qed.

Lemma lor_low_high n t : 0 <= n < 4 -> 0 <= t -> Z.lor n (4 * t) = n + 4 * t.
Proof.
  intros Hn Ht. apply Z.or_to_plus. apply Z.bits_inj'. intros i Hi.
  rewrite Z.land_spec, Z.bits_0. destruct (Z.ltb_spec i 2).
  - change 4 with (2 ^ 2). rewrite Z.mul_comm, <- Z.shiftl_mul_pow2 by lia.
    rewrite Z.shiftl_spec_low by lia. apply andb_false_r.
  - rewrite (testbit_small n 2) by (change (2 ^ 2) with 4; lia). reflexivity.
Qed.

(** The bytes of one product of the Q3_K kernel: the 3-bit quants. *)
Lemma q3_bytes (qs hmask : list Z) (off j k : Z) :
  0 <= j < 2 -> 0 <= k < 4 ->
  let q3bits := _mm256_loadu_si256 qs off in
  let hbits0 := _mm256_loadu_si256 hmask 0 in
  let H := aget [] [hbits0; _mm256_srli_epi16 hbits0 4] j in
  let m3l := _mm256_set1_epi8 3 in
  let hml := _mm256_set1_epi8 4 in
  let fa := fun e : nat =>
    Z.land (Z.shiftr (u8 (nth (Z.to_nat off + e) qs 0)) (2 * k)) 3 +
    4 * Z.b2z (Z.testbit (u8 (nth e hmask 0)) (4 * j + k)) in
  _mm256_or_si256
    (nth (Z.to_nat k)
       [ _mm256_and_si256 q3bits m3l; _mm256_and_si256 (_mm256_srli_epi16 q3bits 2) m3l;
         _mm256_and_si256 (_mm256_srli_epi16 q3bits 4) m3l;
         _mm256_and_si256 (_mm256_srli_epi16 q3bits 6) m3l ] [])
    (nth (Z.to_nat k)
       [ _mm256_and_si256 (_mm256_slli_epi16 H 2) hml; _mm256_and_si256 (_mm256_slli_epi16 H 1) hml;
         _mm256_and_si256 H hml; _mm256_and_si256 (_mm256_srli_epi16 H 1) hml ] [])
  = map fa (seq 0 32) /\
  forall e, 0 <= fa e <= 7.
Proof.
  intros Hj Hk. cbv zeta.
  unfold _mm256_and_si256, _mm256_srli_epi16, _mm256_slli_epi16, _mm256_set1_epi8,
    _mm256_or_si256.
  change (u8 3) with 3. change (u8 4) with 4.
  pose proof (q3_high_bytes (_mm256_loadu_si256 hmask 0) j k (length_loadu_si256 _ _)
                (bytes_ok_load _ _ _) Hj Hk) as Hh.
  cbv zeta in Hh. rewrite Hh. clear Hh.
  pose proof (length_loadu_si256 qs off) as Lq.
  pose proof (bytes_ok_load qs off 32) as Okq. fold (_mm256_loadu_si256 qs off) in Okq.
  assert (Hlo : forall h, 0 <= Z.land (Z.shiftr h (2 * k)) 3 < 4).
  { intros h. pose proof (land_bound (Z.shiftr h (2 * k)) 3 2). cbn in *. lia. }
  assert (Hbit : forall b : bool, 0 <= Z.b2z b <= 1) by (intros []; cbn; lia).
  split.
  - assert (En : nth (Z.to_nat k)
                   [ vand (_mm256_loadu_si256 qs off) (repeat 3 32);
                     vand (vsrli_epi16 (_mm256_loadu_si256 qs off) 2) (repeat 3 32);
                     vand (vsrli_epi16 (_mm256_loadu_si256 qs off) 4) (repeat 3 32);
                     vand (vsrli_epi16 (_mm256_loadu_si256 qs off) 6) (repeat 3 32) ] []
                 = map (fun b => Z.land (Z.shiftr b (2 * k)) 3) (_mm256_loadu_si256 qs off)).
    { assert (Hsr : forall s, 0 <= s <= 6 ->
                vand (vsrli_epi16 (_mm256_loadu_si256 qs off) s) (repeat 3 32)
                = map (fun b => Z.land (Z.shiftr b s) 3) (_mm256_loadu_si256 qs off)).
      { intros s Hs.
        replace (repeat 3 32) with (repeat 3 (length (_mm256_loadu_si256 qs off)))
          by now rewrite Lq.
        apply vand_srli_const; [now rewrite Lq|assumption|lia|].
        split; [lia|]. apply Z.lt_le_trans with (2 ^ 2); [reflexivity|].
        apply Z.pow_le_mono_r; lia. }
      assert (Hck : k = 0 \/ k = 1 \/ k = 2 \/ k = 3) by lia.
      destruct Hck as [->|[->|[->| ->]]].
      - change (Z.to_nat 0) with 0%nat. cbn [nth]. rewrite (vand_const _ 3 32 Lq).
        apply map_ext. intros b. now rewrite Z.shiftr_0_r.
      - change (Z.to_nat 1) with 1%nat. cbn [nth]. now rewrite (Hsr 2) by lia.
      - change (Z.to_nat 2) with 2%nat. cbn [nth]. now rewrite (Hsr 4) by lia.
      - change (Z.to_nat 3) with 3%nat. cbn [nth]. now rewrite (Hsr 6) by lia. }
    rewrite En. unfold _mm256_loadu_si256, load_bytes. rewrite !map_map.
    unfold vor. rewrite map2_map_seq.
    apply map_ext. intros e. change (Z.to_nat 0 + e)%nat with e.
    apply lor_low_high; [apply Hlo|]. apply Hbit.
  - intros e. specialize (Hlo (u8 (nth (Z.to_nat off + e) qs 0))).
    specialize (Hbit (Z.testbit (u8 (nth e hmask 0)) (4 * j + k))). lia.
Qed.

Lemma q3_K_scale_lanes (x : block_q3_K) (j k : Z) :
  0 <= j < 2 -> 0 <= k < 4 ->
  i16s (_mm256_shuffle_epi8 (aget [] (q3_K_scales x) j) (get_scale_shuffle_16 k))
  = repeat (q3_sc_signed x (Z.to_nat (8 * j + 2 * k))) 8 ++
    repeat (q3_sc_signed x (Z.to_nat (8 * j + 2 * k + 1))) 8.
Proof.
  intros Hj Hk.
  assert (E : aget [] (q3_K_scales x) j
              = MM256_SET_M128I (_mm256_extracti128_si256 (q3_K_all_scales x) j)
                                (_mm256_extracti128_si256 (q3_K_all_scales x) j)).
  { assert (Hcj : j = 0 \/ j = 1) by lia. destruct Hcj as [-> | ->]; reflexivity. }
  rewrite E, shuffle_16_halves; [| |lia|lia].
  - rewrite i16s_q3_K_all_scales.
    assert (N : forall m, (m < 16)%nat ->
              nth m (map (q3_sc_signed x) (seq 0 16)) 0 = q3_sc_signed x m).
    { intros m Hm. do 16 (destruct m as [|m]; [reflexivity|]). lia. }
    rewrite !N by lia. reflexivity.
  - reflexivity.
Qed.

Lemma q3_sc_range x j : -128 <= q3_sc_signed x j <= 128.
Proof. pose proof (q3_sc_signed_range x j). lia. Qed.

(** One step of the Q3_K loop on one column: the four products add the
    terms of sub-blocks [8 j], ..., [8 j + 7] of the integer dot
    product. *)
Lemma q3_K_step (x : block_q3_K) (yqs : list Z) (j : Z) (v : vec) :
  0 <= j < 2 -> length v = 32%nat ->
  Forall (fun z => - (j * 1835008) <= z <= j * 1835008) (i32s v) ->
  let m3l := _mm256_set1_epi8 3 in
  let hml := _mm256_set1_epi8 4 in
  let scales := q3_K_scales x in
  let hbits0 := _mm256_loadu_si256 (q3_hmask x) 0 in
  let hbits := [hbits0; _mm256_srli_epi16 hbits0 4] in
  let q3bits := _mm256_loadu_si256 (q3_qs x) (32 * j) in
  let q3_0 := _mm256_or_si256 (_mm256_and_si256 q3bits m3l)
                (_mm256_and_si256 (_mm256_slli_epi16 (aget [] hbits j) 2) hml) in
  let q3_1 := _mm256_or_si256 (_mm256_and_si256 (_mm256_srli_epi16 q3bits 2) m3l)
                (_mm256_and_si256 (_mm256_slli_epi16 (aget [] hbits j) 1) hml) in
  let q3_2 := _mm256_or_si256 (_mm256_and_si256 (_mm256_srli_epi16 q3bits 4) m3l)
                (_mm256_and_si256 (aget [] hbits j) hml) in
  let q3_3 := _mm256_or_si256 (_mm256_and_si256 (_mm256_srli_epi16 q3bits 6) m3l)
                (_mm256_and_si256 (_mm256_srli_epi16 (aget [] hbits j) 1) hml) in
  let p0 := _mm256_madd_epi16 (_mm256_shuffle_epi8 (aget [] scales j) (get_scale_shuffle_16 0))
              (_mm256_maddubs_epi16 q3_0 (_mm256_loadu_si256 yqs (32 * (4 * j + 0)))) in
  let p1 := _mm256_madd_epi16 (_mm256_shuffle_epi8 (aget [] scales j) (get_scale_shuffle_16 1))
              (_mm256_maddubs_epi16 q3_1 (_mm256_loadu_si256 yqs (32 * (4 * j + 1)))) in
  let p2 := _mm256_madd_epi16 (_mm256_shuffle_epi8 (aget [] scales j) (get_scale_shuffle_16 2))
              (_mm256_maddubs_epi16 q3_2 (_mm256_loadu_si256 yqs (32 * (4 * j + 2)))) in
  let p3 := _mm256_madd_epi16 (_mm256_shuffle_epi8 (aget [] scales j) (get_scale_shuffle_16 3))
              (_mm256_maddubs_epi16 q3_3 (_mm256_loadu_si256 yqs (32 * (4 * j + 3)))) in
  let t := fun j' : nat =>
             q3_sc_signed x j' *
             zsum (map (fun k => q3_K_quant (q3_qs x) (q3_hmask x) (16 * j' + k) *
                                 s8 (nth (16 * j' + k) yqs 0)) (seq 0 16)) in
  let v' := _mm256_add_epi32 (_mm256_add_epi32 v (_mm256_add_epi32 p0 p1))
              (_mm256_add_epi32 p2 p3) in
  length v' = 32%nat /\
  Forall (fun z => - ((j + 1) * 1835008) <= z <= (j + 1) * 1835008) (i32s v') /\
  zsum (i32s v')
  = zsum (i32s v)
    + (t (Z.to_nat (8 * j)) + t (1 + Z.to_nat (8 * j))%nat + t (2 + Z.to_nat (8 * j))%nat
       + t (3 + Z.to_nat (8 * j))%nat + t (4 + Z.to_nat (8 * j))%nat
       + t (5 + Z.to_nat (8 * j))%nat + t (6 + Z.to_nat (8 * j))%nat
       + t (7 + Z.to_nat (8 * j))%nat).
Proof.
  intros Hj Lv Bv. cbv zeta.
  destruct (q3_bytes (q3_qs x) (q3_hmask x) (32 * j) j 0 Hj ltac:(lia)) as [E0 R0].
  destruct (q3_bytes (q3_qs x) (q3_hmask x) (32 * j) j 1 Hj ltac:(lia)) as [E1 R1].
  destruct (q3_bytes (q3_qs x) (q3_hmask x) (32 * j) j 2 Hj ltac:(lia)) as [E2 R2].
  destruct (q3_bytes (q3_qs x) (q3_hmask x) (32 * j) j 3 Hj ltac:(lia)) as [E3 R3].
  cbv zeta in E0, E1, E2, E3.
  change (Z.to_nat 0) with 0%nat in E0. change (Z.to_nat 1) with 1%nat in E1.
  change (Z.to_nat 2) with 2%nat in E2. change (Z.to_nat 3) with 3%nat in E3.
  cbn [nth] in E0, E1, E2, E3.
  rewrite E0, E1, E2, E3. clear E0 E1 E2 E3.
  pose proof (q3_K_scale_lanes x j 0 Hj ltac:(lia)) as S0.
  pose proof (q3_K_scale_lanes x j 1 Hj ltac:(lia)) as S1.
  pose proof (q3_K_scale_lanes x j 2 Hj ltac:(lia)) as S2.
  pose proof (q3_K_scale_lanes x j 3 Hj ltac:(lia)) as S3.
  assert (Lsh : forall k, 0 <= k < 4 ->
            length (_mm256_shuffle_epi8 (aget [] (q3_K_scales x) j) (get_scale_shuffle_16 k))
            = 32%nat).
  { intros k Hk. apply length_shuffle_epi8.
    assert (Hc : k = 0 \/ k = 1 \/ k = 2 \/ k = 3) by lia.
    destruct Hc as [->|[->|[->| ->]]]; reflexivity. }
  destruct (madd_sum_piece2 7 _ _ _ _ yqs (32 * (4 * j + 0)) ltac:(lia)
              (q3_sc_range x _) (q3_sc_range x _) (Lsh 0 ltac:(lia)) S0 R0) as (L0 & B0 & Z0).
  destruct (madd_sum_piece2 7 _ _ _ _ yqs (32 * (4 * j + 1)) ltac:(lia)
              (q3_sc_range x _) (q3_sc_range x _) (Lsh 1 ltac:(lia)) S1 R1) as (L1 & B1 & Z1).
  destruct (madd_sum_piece2 7 _ _ _ _ yqs (32 * (4 * j + 2)) ltac:(lia)
              (q3_sc_range x _) (q3_sc_range x _) (Lsh 2 ltac:(lia)) S2 R2) as (L2 & B2 & Z2).
  destruct (madd_sum_piece2 7 _ _ _ _ yqs (32 * (4 * j + 3)) ltac:(lia)
              (q3_sc_range x _) (q3_sc_range x _) (Lsh 3 ltac:(lia)) S3 R3) as (L3 & B3 & Z3).
  cbv zeta in L0, B0, Z0, L1, B1, Z1, L2, B2, Z2, L3, B3, Z3.
  match type of L0 with length ?p = _ => set (p0 := p) in * end.
  match type of L1 with length ?p = _ => set (p1 := p) in * end.
  match type of L2 with length ?p = _ => set (p2 := p) in * end.
  match type of L3 with length ?p = _ => set (p3 := p) in * end.
  change (256 * (2 * 7 * 128)) with 458752 in *.
  destruct (add_epi32_sum 458752 458752 p0 p1 L0 L1 ltac:(lia) B0 B1) as (L01 & B01 & Z01).
  destruct (add_epi32_sum 458752 458752 p2 p3 L2 L3 ltac:(lia) B2 B3) as (L23 & B23 & Z23).
  destruct (add_epi32_sum (j * 1835008) (458752 + 458752) v _ Lv L01 ltac:(lia) Bv B01)
    as (Lq & Bq & Zq).
  destruct (add_epi32_sum (j * 1835008 + (458752 + 458752)) (458752 + 458752) _ _ Lq L23
              ltac:(lia) Bq B23) as (La & Ba & Za).
  split; [exact La|]. split.
  - eapply Forall_weaken; [|exact Ba]. cbv beta. intros. lia.
  - rewrite Za, Zq, Z01, Z23, Z0, Z1, Z2, Z3. clear - Hj.
    assert (Hc : j = 0 \/ j = 1) by lia.
    assert (Hring : forall e a0 b0 a1 b1 a2 b2 a3 b3 a0' b0' a1' b1' a2' b2' a3' b3',
              a0' = a0 -> b0' = b0 -> a1' = a1 -> b1' = b1 ->
              a2' = a2 -> b2' = b2 -> a3' = a3 -> b3' = b3 ->
              e + (a0' + b0' + (a1' + b1')) + (a2' + b2' + (a3' + b3'))
              = e + (a0 + b0 + a1 + b1 + a2 + b2 + a3 + b3)) by (intros; lia).
    destruct Hc as [-> | ->];
      (apply Hring; (apply (f_equal2 Z.mul); [reflexivity|]); apply (f_equal zsum);
       apply map_ext_in; intros e He; seq_cases16 e He).
Qed.

Section Q3_K_integer.
Context {F : Type} `{FloatOps F} (hp : Heaps F).

Lemma q3_K_sumi_exact M q8 x i iy :
  0 <= iy < M ->
  length (aget [] (q3_K_sumi hp M q8 x i) iy) = 32%nat /\
  Forall (fun v => - 3670016 <= v <= 3670016) (i32s (aget [] (q3_K_sumi hp M q8 x i) iy)) /\
  zsum (i32s (aget [] (q3_K_sumi hp M q8 x i) iy))
  = q3_K_intdot x (q8_qs (q8_block hp q8 iy i)).
Proof.
  intros Hiy. unfold q3_K_sumi, q3_K_intdot. cbv zeta. change (QK_K / 128) with 2.
  set (t := fun j' : nat =>
              q3_sc_signed x j' *
              zsum (map (fun k => q3_K_quant (q3_qs x) (q3_hmask x) (16 * j' + k) *
                                  s8 (nth (16 * j' + k) (q8_qs (q8_block hp q8 iy i)) 0))
                        (seq 0 16))).
  change (seq 0 16) with (seq 0 (Z.to_nat (8 * 2))).
  match goal with
  | |- length (aget _ (snd (for_loop 2 ?f ?s0)) _) = _ /\ _ =>
      pose proof (for_loop_ind
        (fun j (p : Z * list vec) =>
           fst p = 32 * j /\
           M <= Z.of_nat (length (snd p)) /\
           length (aget [] (snd p) iy) = 32%nat /\
           Forall (fun v => - (j * 1835008) <= v <= j * 1835008) (i32s (aget [] (snd p) iy)) /\
           zsum (i32s (aget [] (snd p) iy)) = zsum (map t (seq 0 (Z.to_nat (8 * j)))))
        2 f s0) as P
  end.
  cbv beta in P. destruct P as (_ & _ & L & B & S); [| |lia|].
  - cbn [fst snd]. rewrite repeat_length, aget_repeat by lia.
    split; [reflexivity|]. split; [lia|]. split; [reflexivity|].
    rewrite i32s_zero. split; [repeat constructor; lia|reflexivity].
  - intros j [q3 sumi] Hj (Eq & Ls & Lv & Bv & Sv).
    cbn [fst snd] in Eq, Ls, Lv, Bv, Sv.
    subst q3. cbv beta iota zeta. cbn [fst snd].
    split; [ring|].
    destruct (q3_K_step x (q8_qs (q8_block hp q8 iy i)) j (aget [] sumi iy) Hj Lv Bv)
      as (Lp & Bp & Sp).
    cbv zeta in Lp, Bp, Sp. fold t in Sp.
    match goal with
    | |- _ <= Z.of_nat (length (for_loop M ?body sumi)) /\ _ =>
        match body with
        | (fun iy s => aset _ iy (_mm256_add_epi32 _ (@?R2 iy))) =>
            match body with
            | (fun iy s => aset (aset s iy (_mm256_add_epi32 (aget [] s iy) (@?R1 iy))) iy _) =>
                destruct (for_loop_col_fun [] body
                  (fun a => _mm256_add_epi32 (_mm256_add_epi32 a (R1 iy)) (R2 iy))
                  M iy sumi) as [L' E']; [col_frame| |exact Ls|exact Hiy|]
            end
        end
    end.
    + intros st Lst. cbv beta zeta. unfold vec in *.
      rewrite !aget_aset_same by (rewrite ?length_aset; lia). reflexivity.
    + split; [exact L'|]. unfold vec in *. rewrite E'. unfold load_quants.
      split; [exact Lp|]. split; [exact Bp|].
      rewrite Sp, Sv.
      replace (Z.to_nat (8 * (j + 1))) with (Z.to_nat (8 * j) + 8)%nat by lia.
      now rewrite zsum_seq_step8.
  - split; [exact L|]. split; [|exact S].
    eapply Forall_weaken; [|exact B]. cbv beta. intros. lia.
Qed.

End Q3_K_integer.

Section Q3_K_exact.
Context {F : Type} `{FloatOps F} (fone : F) {E : ExactOps F fone}.
Context (hp : Heaps F).

Add Ring exact_ring_q3 : exact_ring.

(** The horizontal sum of the integer-path accumulator of a column. *)
Lemma q3_K_accd_exact M nb q8 vx bx ix iy :
  0 <= iy < M ->
  hsum_float_8 (aget [] (fst (q3_K_row hp M nb q8 vx bx ix)) iy)
  = fsum nb (fun i =>
      fmul (fmul (fp16_to_fp32 (q3_d (h_q3 hp (vx + ix * bx) i))) (q8_d (q8_block hp q8 iy i)))
           (i32_to_f (q3_K_intdot (h_q3 hp (vx + ix * bx) i) (q8_qs (q8_block hp q8 iy i))))).
Proof.
  intros Hiy. unfold q3_K_row, fsum. cbv zeta.
  set (f := fun i : Z =>
      fmul (fmul (fp16_to_fp32 (q3_d (h_q3 hp (vx + ix * bx) i))) (q8_d (q8_block hp q8 iy i)))
           (i32_to_f (q3_K_intdot (h_q3 hp (vx + ix * bx) i) (q8_qs (q8_block hp q8 iy i))))).
  destruct (Z.le_gt_cases nb 0) as [Hnb|Hnb].
  { rewrite !for_loop_nonpos by lia. cbn [fst]. rewrite aget_repeat by lia.
    unfold _mm256_setzero_ps. cbn [repeat]. rewrite hsum_float_8_lanes. ring. }
  match goal with
  | |- hsum_float_8 (aget _ (fst (for_loop nb ?body ?s0)) _) = _ =>
      pose proof (for_loop_ind
        (fun k (p : list fvec * list fvec) =>
           M <= Z.of_nat (length (fst p)) /\ length (aget [] (fst p) iy) = 8%nat /\
           hsum_float_8 (aget [] (fst p) iy) = for_loop k (fun i a => fadd a (f i)) fzero)
        nb body s0) as P
  end.
  cbv beta in P. destruct P as (_ & _ & P); [| |lia|exact P].
  - cbn [fst]. rewrite repeat_length, aget_repeat by lia.
    split; [lia|]. split; [reflexivity|].
    rewrite for_loop_nonpos by lia. unfold _mm256_setzero_ps. cbn [repeat].
    rewrite hsum_float_8_lanes. ring.
  - intros i [accd accm] Hi (Ld & Ld8 & Hsum). cbn [fst] in Ld, Ld8, Hsum.
    rewrite for_loop_succ by lia. rewrite <- Hsum.
    unfold q3_K_block. cbv zeta. cbn [fst].
    set (x := h_q3 hp (vx + ix * bx) i).
    assert (HLd : 0 <= M <= Z.of_nat (length accd)) by lia.
    destruct (for_loop_aset []
      (fun iy a => _mm256_fmadd_ps (_mm256_set1_ps (fmul (fp16_to_fp32 (q3_d x))
                                                         (scale hp q8 iy i)))
                     (_mm256_cvtepi32_ps (aget [] (q3_K_sumi hp M q8 x i) iy)) a)
      accd M HLd) as [L1 E1].
    cbv beta iota zeta in L1, E1 |- *.
    name_loop L1 E1 M accd r1.
    unfold fvec in *. split; [lia|].
    rewrite E1 by lia. destruct (Z.ltb_spec iy M); [|lia].
    destruct (q3_K_sumi_exact hp M q8 x i iy Hiy) as (Ls & _ & Ss).
    unfold _mm256_fmadd_ps, _mm256_cvtepi32_ps. rewrite cvtepi32_ps_i32s.
    unfold scale. subst f x. cbv beta. rewrite <- Ss.
    destruct (length_8 (i32s (aget [] (q3_K_sumi hp M q8 (h_q3 hp (vx + ix * bx) i) i) iy))
                (length_i32s _ Ls)) as (z0 & z1 & z2 & z3 & z4 & z5 & z6 & z7 & ->).
    rewrite zsum_8. apply (hsum_float_8_step fone). exact Ld8.
Qed.

Lemma q3_K_value_exact M nb q8 vx bx ix iy :
  0 <= iy < M ->
  q3_K_value hp M nb q8 vx bx ix iy = q3_K_dot hp nb q8 vx bx ix iy.
Proof.
  intros Hiy. unfold q3_K_value, q3_K_dot. cbv zeta.
  rewrite (q3_K_accd_exact M nb q8 vx bx ix iy Hiy), (hsum_corr_acc fone).
  unfold q8_block, q8_bsum.
  apply (fsum_sub_scale fone nb f_4
    (fun i => fmul (fp16_to_fp32 (q3_d (h_q3 hp (vx + ix * bx) i)))
                   (q8_d (h_q8 hp (aget 0 q8 iy) i)))
    (fun i => i32_to_f (q3_K_intdot (h_q3 hp (vx + ix * bx) i)
                                    (q8_qs (h_q8 hp (aget 0 q8 iy) i))))
    (fun i => i32_to_f (zsum (map (fun j => q3_sc_signed (h_q3 hp (vx + ix * bx) i) j *
                                            s16 (nth j (q8_bsums (h_q8 hp (aget 0 q8 iy) i)) 0))
                                  (seq 0 16))))).
Qed.

End Q3_K_exact.

(** X18.  In the Q3_K kernels the integer path is exact on every input and at
    every width: the bytes the kernel assembles are the 3-bit quants (two
    bits of [qs] plus 4 times a bit of [hmask]), [vpmaddubsw] never
    saturates and no 32-bit lane wraps, so the eight lanes of the integer
    accumulator of a column add up to the integer dot product of the two
    super-blocks, sub-block by sub-block with the signed 6-bit scales of
    the bit-stealing layout. *)
Theorem q3_K_intdot_exact {F : Type} `{FloatOps F} (hp : Heaps F)
  (M : Z) (q8 : list Z) (x : block_q3_K) (i iy : Z) :
  0 <= iy < M ->
  Forall (fun v => - 3670016 <= v <= 3670016) (i32s (aget [] (q3_K_sumi hp M q8 x i) iy)) /\
  zsum (i32s (aget [] (q3_K_sumi hp M q8 x i) iy))
  = q3_K_intdot x (q8_qs (q8_block hp q8 iy i)).
Proof. intros Hiy. now destruct (q3_K_sumi_exact hp M q8 x i iy Hiy) as (_ & B & S). Qed.

Lemma q3_K_intdot_exact_witness :
  0 <= 1 < 2 /\
  zsum (i32s (aget [] (q3_K_sumi corr_demo 2 (Q8 2 0 292) (h_q3 corr_demo 0 0) 0) 1))
  = q3_K_intdot (h_q3 corr_demo 0 0) (q8_qs (q8_block corr_demo (Q8 2 0 292) 1 0)).
Proof.
  assert (H1 : 0 <= 1 < 2) by lia. split; [exact H1|].
  exact (proj2 (q3_K_intdot_exact corr_demo 2 (Q8 2 0 292) (h_q3 corr_demo 0 0) 0 1 H1)).
Defined.

(** X19.  In exact arithmetic the Q3_K kernels of every width compute, for a row
    and a column, the sum over the super-blocks of [d_A d_B] times the
    integer dot product of the unsigned quants minus 4 times the sum of
    the sub-block scales times the sub-block sums of the Q8_K block. *)
Theorem q3_K_kernel_exact {F : Type} `{FloatOps F} (fone : F) (hp : Heaps F)
  (M nb : Z) (q8 : list Z) (vx bx ix iy : Z) :
  ExactOps F fone -> 0 <= iy < M ->
  q3_K_value hp M nb q8 vx bx ix iy = q3_K_dot hp nb q8 vx bx ix iy.
Proof. intros E Hiy. now apply (q3_K_value_exact fone). Qed.

Lemma q3_K_kernel_exact_witness :
  ExactOps Qcanon.Qc (Rational.of_Z 1) /\ 0 <= 1 < 2 /\
  q3_K_value corr_demo 2 1 (Q8 2 0 292) 0 110 0 1 = q3_K_dot corr_demo 1 (Q8 2 0 292) 0 110 0 1.
Proof.
  assert (H1 : 0 <= 1 < 2) by lia.
  split; [exact rational_exact|]. split; [exact H1|].
  exact (q3_K_kernel_exact (Rational.of_Z 1) corr_demo 2 1 (Q8 2 0 292) 0 110 0 1
           rational_exact H1).
Defined.


(** ** Q2_K *)

(** The bytes of one product of the wide Q2_K kernel: the 2-bit quants of
    quarter [2 l + h]. *)
Lemma q2_bytes (qs : list Z) (off l h : Z) :
  0 <= l < 2 -> 0 <= h < 2 ->
  let q2bits0 := _mm256_loadu_si256 qs off in
  let q2bits := nth (Z.to_nat l) [q2bits0; _mm256_srli_epi16 q2bits0 4] [] in
  let m3 := _mm256_set1_epi8 3 in
  let fa := fun e : nat =>
    Z.land (Z.shiftr (u8 (nth (Z.to_nat off + e) qs 0)) (2 * (2 * l + h))) 3 in
  nth (Z.to_nat h)
    [ _mm256_and_si256 q2bits m3; _mm256_and_si256 (_mm256_srli_epi16 q2bits 2) m3 ] []
  = map fa (seq 0 32) /\
  forall e, 0 <= fa e <= 3.
Proof.
  intros Hl Hh. cbv zeta.
  unfold _mm256_and_si256, _mm256_srli_epi16, _mm256_set1_epi8. change (u8 3) with 3.
  pose proof (length_loadu_si256 qs off) as Lq.
  pose proof (bytes_ok_load qs off 32) as Okq. fold (_mm256_loadu_si256 qs off) in Okq.
  assert (Hsr : forall s, 0 <= s <= 6 ->
            vand (vsrli_epi16 (_mm256_loadu_si256 qs off) s) (repeat 3 32)
            = map (fun b => Z.land (Z.shiftr b s) 3) (_mm256_loadu_si256 qs off)).
  { intros s Hs.
    replace (repeat 3 32) with (repeat 3 (length (_mm256_loadu_si256 qs off)))
      by now rewrite Lq.
    apply vand_srli_const; [now rewrite Lq|assumption|lia|].
    split; [lia|]. apply Z.lt_le_trans with (2 ^ 2); [reflexivity|].
    apply Z.pow_le_mono_r; lia. }
  split.
  - assert (En : nth (Z.to_nat h)
                   [ vand (nth (Z.to_nat l) [_mm256_loadu_si256 qs off;
                                             vsrli_epi16 (_mm256_loadu_si256 qs off) 4] [])
                          (repeat 3 32);
                     vand (vsrli_epi16
                             (nth (Z.to_nat l) [_mm256_loadu_si256 qs off;
                                                vsrli_epi16 (_mm256_loadu_si256 qs off) 4] []) 2)
                          (repeat 3 32) ] []
                 = map (fun b => Z.land (Z.shiftr b (2 * (2 * l + h))) 3)
                       (_mm256_loadu_si256 qs off)).
    { assert (Hcl : l = 0 \/ l = 1) by lia. assert (Hch : h = 0 \/ h = 1) by lia.
      destruct Hcl as [-> | ->]; destruct Hch as [-> | ->].
      - change (Z.to_nat 0) with 0%nat. cbn [nth]. rewrite (vand_const _ 3 32 Lq).
        apply map_ext. intros b. now rewrite Z.shiftr_0_r.
      - change (Z.to_nat 0) with 0%nat. change (Z.to_nat 1) with 1%nat. cbn [nth].
        now rewrite (Hsr 2) by lia.
      - change (Z.to_nat 0) with 0%nat. change (Z.to_nat 1) with 1%nat. cbn [nth].
        now rewrite (Hsr 4) by lia.
      - change (Z.to_nat 1) with 1%nat. cbn [nth].
        rewrite vsrli_vsrli_add by (try assumption; try lia; now rewrite Lq).
        now rewrite (Hsr (4 + 2)) by lia. }
    rewrite En. unfold _mm256_loadu_si256, load_bytes. now rewrite !map_map.
  - intros e. pose proof (land_bound (Z.shiftr (u8 (nth (Z.to_nat off + e) qs 0))
                                               (2 * (2 * l + h))) 3 2).
    cbn in *. lia.
Qed.

Lemma q2_sc_range x j : 0 <= q2_sc x j <= 15.
Proof. unfold q2_sc. pose proof (land_bound (u8 (nth j (q2_scales x) 0)) 15 4). cbn in *. lia. Qed.

Lemma q2_min_range x j : 0 <= q2_min x j <= 15.
Proof.
  unfold q2_min. pose proof (u8_range (nth j (q2_scales x) 0)).
  rewrite Z.shiftr_div_pow2 by lia. change (2 ^ 4) with 16. Z.div_mod_to_equations. lia.
Qed.

Lemma i16s_q2_K_all_scales (x : block_q2_K) :
  i16s (_mm256_cvtepi8_epi16
          (_mm_and_si128 (_mm_loadu_si128 (q2_scales x) 0) (_mm_set1_epi8 15)))
  = map (q2_sc x) (seq 0 16).
Proof.
  rewrite i16s_cvtepi8. unfold _mm_and_si128, _mm_set1_epi8, _mm_loadu_si128.
  change (u8 15) with 15.
  rewrite (vand_const _ 15 16) by (unfold load_bytes; now rewrite length_map, length_seq).
  unfold load_bytes. rewrite !map_map. apply map_ext. intros j.
  change (Z.to_nat 0 + j)%nat with j. fold (q2_sc x j).
  pose proof (q2_sc_range x j). unfold s8. rewrite Z.mod_small by lia.
  destruct (Z.ltb_spec (q2_sc x j) 128); lia.
Qed.

Lemma q2_K_scale_lanes (x : block_q2_K) (j k : Z) :
  0 <= j < 2 -> 0 <= k < 4 ->
  i16s (_mm256_shuffle_epi8 (aget [] (q2_K_scales x) j) (get_scale_shuffle_16 k))
  = repeat (q2_sc x (Z.to_nat (8 * j + 2 * k))) 8 ++
    repeat (q2_sc x (Z.to_nat (8 * j + 2 * k + 1))) 8.
Proof.
  intros Hj Hk.
  set (S := _mm256_cvtepi8_epi16
              (_mm_and_si128 (_mm_loadu_si128 (q2_scales x) 0) (_mm_set1_epi8 15))).
  assert (E : aget [] (q2_K_scales x) j
              = MM256_SET_M128I (_mm256_extracti128_si256 S j) (_mm256_extracti128_si256 S j)).
  { assert (Hcj : j = 0 \/ j = 1) by lia. destruct Hcj as [-> | ->]; reflexivity. }
  rewrite E, shuffle_16_halves; [| |lia|lia].
  - subst S. rewrite i16s_q2_K_all_scales.
    assert (N : forall m, (m < 16)%nat ->
              nth m (map (q2_sc x) (seq 0 16)) 0 = q2_sc x m).
    { intros m Hm. do 16 (destruct m as [|m]; [reflexivity|]). lia. }
    rewrite !N by lia. reflexivity.
  - reflexivity.
Qed.

Lemma q2_sc_range' x j : -128 <= q2_sc x j <= 128.
Proof. pose proof (q2_sc_range x j). lia. Qed.

(** One inner step of the wide Q2_K loop on one column: the two products
    add the terms of sub-blocks [8 j + 4 l], ..., [8 j + 4 l + 3] of the
    integer dot product. *)
Lemma q2_K_wide_step (x : block_q2_K) (yqs : list Z) (j l : Z) (v : vec) :
  0 <= j < 2 -> 0 <= l < 2 -> length v = 32%nat ->
  Forall (fun z => - ((2 * j + l) * 393216) <= z <= (2 * j + l) * 393216) (i32s v) ->
  let m3 := _mm256_set1_epi8 3 in
  let scales := q2_K_scales x in
  let q2bits0 := _mm256_loadu_si256 (q2_qs x) (32 * j) in
  let q2bits := nth (Z.to_nat l) [q2bits0; _mm256_srli_epi16 q2bits0 4] [] in
  let p0 := _mm256_madd_epi16
              (_mm256_shuffle_epi8 (aget [] scales j) (get_scale_shuffle_16 (2 * l + 0)))
              (_mm256_maddubs_epi16 (_mm256_and_si256 q2bits m3)
                 (_mm256_loadu_si256 yqs (32 * (4 * j + 2 * l + 0)))) in
  let p1 := _mm256_madd_epi16
              (_mm256_shuffle_epi8 (aget [] scales j) (get_scale_shuffle_16 (2 * l + 1)))
              (_mm256_maddubs_epi16 (_mm256_and_si256 (_mm256_srli_epi16 q2bits 2) m3)
                 (_mm256_loadu_si256 yqs (32 * (4 * j + 2 * l + 1)))) in
  let t := fun j' : nat =>
             q2_sc x j' *
             zsum (map (fun k => q2_K_quant (q2_qs x) (16 * j' + k) *
                                 s8 (nth (16 * j' + k) yqs 0)) (seq 0 16)) in
  let v' := _mm256_add_epi32 v (_mm256_add_epi32 p0 p1) in
  length v' = 32%nat /\
  Forall (fun z => - ((2 * j + l + 1) * 393216) <= z <= (2 * j + l + 1) * 393216) (i32s v') /\
  zsum (i32s v')
  = zsum (i32s v)
    + (t (Z.to_nat (8 * j + 4 * l)) + t (1 + Z.to_nat (8 * j + 4 * l))%nat
       + t (2 + Z.to_nat (8 * j + 4 * l))%nat + t (3 + Z.to_nat (8 * j + 4 * l))%nat).
Proof.
  intros Hj Hl Lv Bv. cbv zeta.
  destruct (q2_bytes (q2_qs x) (32 * j) l 0 Hl ltac:(lia)) as [E0 R0].
  destruct (q2_bytes (q2_qs x) (32 * j) l 1 Hl ltac:(lia)) as [E1 R1].
  cbv zeta in E0, E1.
  change (Z.to_nat 0) with 0%nat in E0. change (Z.to_nat 1) with 1%nat in E1.
  lazymatch type of E0 with nth 0 [?A; ?B] [] = _ => change (nth 0 [A; B] []) with A in E0 end.
  lazymatch type of E1 with nth 1 [?A; ?B] [] = _ => change (nth 1 [A; B] []) with B in E1 end.
  rewrite E0, E1. clear E0 E1.
  pose proof (q2_K_scale_lanes x j (2 * l + 0) Hj ltac:(lia)) as S0.
  pose proof (q2_K_scale_lanes x j (2 * l + 1) Hj ltac:(lia)) as S1.
  assert (Lsh : forall k, 0 <= k < 4 ->
            length (_mm256_shuffle_epi8 (aget [] (q2_K_scales x) j) (get_scale_shuffle_16 k))
            = 32%nat).
  { intros k Hk. apply length_shuffle_epi8.
    assert (Hc : k = 0 \/ k = 1 \/ k = 2 \/ k = 3) by lia.
    destruct Hc as [->|[->|[->| ->]]]; reflexivity. }
  destruct (madd_sum_piece2 3 _ _ _ _ yqs (32 * (4 * j + 2 * l + 0)) ltac:(lia)
              (q2_sc_range' x _) (q2_sc_range' x _) (Lsh (2 * l + 0) ltac:(lia)) S0 R0)
    as (L0 & B0 & Z0).
  destruct (madd_sum_piece2 3 _ _ _ _ yqs (32 * (4 * j + 2 * l + 1)) ltac:(lia)
              (q2_sc_range' x _) (q2_sc_range' x _) (Lsh (2 * l + 1) ltac:(lia)) S1 R1)
    as (L1 & B1 & Z1).
  cbv zeta in L0, B0, Z0, L1, B1, Z1.
  match type of L0 with length ?p = _ => set (p0 := p) in * end.
  match type of L1 with length ?p = _ => set (p1 := p) in * end.
  change (256 * (2 * 3 * 128)) with 196608 in *.
  destruct (add_epi32_sum 196608 196608 p0 p1 L0 L1 ltac:(lia) B0 B1) as (L01 & B01 & Z01).
  destruct (add_epi32_sum ((2 * j + l) * 393216) (196608 + 196608) v _ Lv L01 ltac:(lia) Bv B01)
    as (La & Ba & Za).
  split; [exact La|]. split.
  - eapply Forall_weaken; [|exact Ba]. cbv beta. intros. lia.
  - rewrite Za, Z01, Z0, Z1. clear - Hj Hl.
    assert (Hcj : j = 0 \/ j = 1) by lia. assert (Hcl : l = 0 \/ l = 1) by lia.
    assert (Hring : forall e a0 b0 a1 b1 a0' b0' a1' b1',
              a0' = a0 -> b0' = b0 -> a1' = a1 -> b1' = b1 ->
              e + (a0' + b0' + (a1' + b1')) = e + (a0 + b0 + a1 + b1)) by (intros; lia).
    destruct Hcj as [-> | ->]; destruct Hcl as [-> | ->];
      (apply Hring; (apply (f_equal2 Z.mul); [reflexivity|]); apply (f_equal zsum);
       apply map_ext_in; intros e He; seq_cases16 e He).
Qed.

Section Q2_K_integer.
Context {F : Type} `{FloatOps F} (hp : Heaps F).

Lemma q2_K_wide_sumi M q8 x i iy :
  2 < M -> 0 <= iy < M ->
  length (aget [] (q2_K_sumi hp M q8 x i) iy) = 32%nat /\
  Forall (fun v => - 1572864 <= v <= 1572864) (i32s (aget [] (q2_K_sumi hp M q8 x i) iy)) /\
  zsum (i32s (aget [] (q2_K_sumi hp M q8 x i) iy))
  = q2_K_intdot x (q8_qs (q8_block hp q8 iy i)).
Proof.
  intros HM Hiy. unfold q2_K_sumi, q2_K_intdot, k_nrc_of. cbv zeta. change (QK_K / 128) with 2.
  destruct (Z.leb_spec M 2) as [|_]; [lia|].
  set (t := fun j' : nat =>
              q2_sc x j' *
              zsum (map (fun k => q2_K_quant (q2_qs x) (16 * j' + k) *
                                  s8 (nth (16 * j' + k) (q8_qs (q8_block hp q8 iy i)) 0))
                        (seq 0 16))).
  change (seq 0 16) with (seq 0 (Z.to_nat (8 * 2))).
  match goal with
  | |- length (aget _ (snd (for_loop 2 ?f ?s0)) _) = _ /\ _ =>
      pose proof (for_loop_ind
        (fun j (p : Z * list vec) =>
           fst p = 32 * j /\
           M <= Z.of_nat (length (snd p)) /\
           length (aget [] (snd p) iy) = 32%nat /\
           Forall (fun v => - ((2 * j) * 393216) <= v <= (2 * j) * 393216)
                  (i32s (aget [] (snd p) iy)) /\
           zsum (i32s (aget [] (snd p) iy)) = zsum (map t (seq 0 (Z.to_nat (8 * j)))))
        2 f s0) as P
  end.
  cbv beta in P. destruct P as (_ & _ & L & B & S); [| |lia|].
  - cbn [fst snd]. rewrite repeat_length, aget_repeat by lia.
    split; [reflexivity|]. split; [lia|]. split; [reflexivity|].
    rewrite i32s_zero. split; [repeat constructor; lia|reflexivity].
  - intros j [q2 sumi] Hj (Eq & Ls & Lv & Bv & Sv).
    cbn [fst snd] in Eq, Ls, Lv, Bv, Sv.
    subst q2. cbv beta iota zeta. cbn [fst snd].
    split; [ring|].
    set (q2bits0 := _mm256_loadu_si256 (q2_qs x) (32 * j)).
    match goal with
    | |- _ <= Z.of_nat (length (snd (for_loop 2 ?f ?s0))) /\ _ =>
        pose proof (for_loop_ind
          (fun l (p : vec * list vec) =>
             fst p = nth (Z.to_nat l)
                       [q2bits0; _mm256_srli_epi16 q2bits0 4;
                        _mm256_srli_epi16 (_mm256_srli_epi16 q2bits0 4) 4] [] /\
             M <= Z.of_nat (length (snd p)) /\
             length (aget [] (snd p) iy) = 32%nat /\
             Forall (fun v => - ((2 * j + l) * 393216) <= v <= (2 * j + l) * 393216)
                    (i32s (aget [] (snd p) iy)) /\
             zsum (i32s (aget [] (snd p) iy))
             = zsum (map t (seq 0 (Z.to_nat (8 * j + 4 * l)))))
          2 f s0) as P
    end.
    cbv beta in P. destruct P as (_ & L2 & Lv2 & Bv2 & Sv2); [| |lia|].
    + cbn [fst snd]. split; [reflexivity|]. split; [exact Ls|]. split; [exact Lv|].
      split.
      * eapply Forall_weaken; [|exact Bv]. cbv beta. intros. lia.
      * rewrite Sv. do 3 f_equal. lia.
    + intros l [qb u] Hl (Eb & Lu & Lvu & Bu & Su).
      cbn [fst snd] in Eb, Lu, Lvu, Bu, Su.
      cbv beta iota zeta. cbn [fst snd].
      assert (Hcl : l = 0 \/ l = 1) by lia.
      split; [subst qb; destruct Hcl as [-> | ->]; reflexivity|].
      assert (Eb' : qb = nth (Z.to_nat l) [q2bits0; _mm256_srli_epi16 q2bits0 4] [])
        by (subst qb; destruct Hcl as [-> | ->]; reflexivity).
      destruct (q2_K_wide_step x (q8_qs (q8_block hp q8 iy i)) j l (aget [] u iy) Hj Hl Lvu Bu)
        as (Lp & Bp & Sp).
      cbv zeta in Lp, Bp, Sp. fold t in Sp. fold q2bits0 in Lp, Bp, Sp.
      rewrite <- Eb' in Lp, Bp, Sp.
      assert (HL : 0 <= M <= Z.of_nat (length u)) by lia.
      match goal with
      | |- _ <= Z.of_nat (length (for_loop M
               (fun iy s => aset s iy (_mm256_add_epi32 (aget [] s iy) (@?R iy))) u)) /\ _ =>
          destruct (for_loop_aset [] (fun iy a => _mm256_add_epi32 a (R iy)) u M HL)
            as [L' E']
      end.
      cbv beta in L', E'. unfold vec in *. rewrite L'. split; [exact Lu|].
      rewrite E' by lia. destruct (Z.ltb_spec iy M) as [_|?]; [|lia].
      unfold load_quants.
      split; [exact Lp|]. split.
      * eapply Forall_weaken; [|exact Bp]. cbv beta. intros. lia.
      * rewrite Sp, Su.
        replace (Z.to_nat (8 * j + 4 * (l + 1))) with (Z.to_nat (8 * j + 4 * l) + 4)%nat by lia.
        now rewrite zsum_seq_step4.
    + unfold vec in *. split; [exact L2|]. split; [exact Lv2|]. split.
      * eapply Forall_weaken; [|exact Bv2]. cbv beta. intros. lia.
      * etransitivity; [exact Sv2|]. do 3 f_equal. lia.
  - split; [exact L|]. split; [|exact S].
    eapply Forall_weaken; [|exact B]. cbv beta. intros. lia.
Qed.

End Q2_K_integer.

Section Q2_K_exact.
Context {F : Type} `{FloatOps F} (fone : F) {E : ExactOps F fone}.
Context (hp : Heaps F).

Add Ring exact_ring_q2w : exact_ring.

(** The products of the mins with the sub-block sums. *)
Lemma q2_K_prod q8 (x : block_q2_K) iy i :
  _mm256_cvtepi32_ps
    (_mm256_madd_epi16
       (_mm256_cvtepi8_epi16
          (_mm_and_si128 (_mm_srli_epi16 (_mm_loadu_si128 (q2_scales x) 0) 4)
                         (_mm_set1_epi8 15)))
       (load_bsums hp q8 iy i))
  = map i32_to_f (corr_lanes (q2_min x) (q8_bsum (q8_block hp q8 iy i))).
Proof.
  unfold _mm256_cvtepi32_ps, _mm256_madd_epi16.
  rewrite cvtepi32_ps_i32s, i32s_madd. f_equal.
  unfold load_bsums. rewrite i16s_cvtepi8, i16s_loadu_epi16.
  unfold _mm_and_si128, _mm_srli_epi16, _mm_set1_epi8, _mm_loadu_si128. change (u8 15) with 15.
  assert (Ll : length (load_bytes (q2_scales x) 0 16) = 16%nat)
    by (unfold load_bytes; now rewrite length_map, length_seq).
  replace (repeat 15 16) with (repeat 15 (length (load_bytes (q2_scales x) 0 16)))
    by now rewrite Ll.
  rewrite vand_srli_const; [|now rewrite Ll|apply bytes_ok_load|lia|cbn; lia].
  unfold load_bytes. rewrite !map_map.
  assert (Em : map (fun j : nat =>
                      s8 (Z.land (Z.shiftr (u8 (nth (Z.to_nat 0 + j) (q2_scales x) 0)) 4) 15))
                   (seq 0 16)
               = map (q2_min x) (seq 0 16)).
  { apply map_ext. intros j. change (Z.to_nat 0 + j)%nat with j.
    rewrite land_15_nibble by apply u8_range. fold (q2_min x j).
    pose proof (q2_min_range x j). unfold s8. rewrite Z.mod_small by lia.
    destruct (Z.ltb_spec (q2_min x j) 128); lia. }
  rewrite Em.
  change (pair_dot (map (q2_min x) (seq 0 16))
            (map (fun k => s16 (nth k (q8_bsums (q8_block hp q8 iy i)) 0)) (seq 0 16)))
    with (corr_lanes (q2_min x) (q8_bsum (q8_block hp q8 iy i))).
  apply map_s32_id, corr_lanes_range.
  - intros j. pose proof (q2_min_range x j). lia.
  - intros j. apply s16_range.
Qed.

Lemma q2_K_wide_value M nb q8 vx bx ix iy :
  2 < M -> 0 <= iy < M ->
  q2_K_value hp M nb q8 vx bx ix iy = q2_K_dot hp nb q8 vx bx ix iy.
Proof.
  intros HM Hiy. unfold q2_K_value, q2_K_dot, q2_K_row, fsum, k_nrc_of. cbv zeta.
  destruct (Z.leb_spec M 2) as [|_]; [lia|].
  set (f := fun i : Z =>
    fadd (fmul (fmul (fneg (fp16_to_fp32 (q2_dmin (h_q2 hp (vx + ix * bx) i))))
                     (q8_d (q8_block hp q8 iy i)))
               (i32_to_f (zsum (map (fun j => q2_min (h_q2 hp (vx + ix * bx) i) j *
                                              q8_bsum (q8_block hp q8 iy i) j) (seq 0 16)))))
         (fmul (fmul (fp16_to_fp32 (q2_d (h_q2 hp (vx + ix * bx) i)))
                     (q8_d (q8_block hp q8 iy i)))
               (i32_to_f (q2_K_intdot (h_q2 hp (vx + ix * bx) i)
                                      (q8_qs (q8_block hp q8 iy i)))))).
  destruct (Z.le_gt_cases nb 0) as [Hnb|Hnb].
  { rewrite !for_loop_nonpos by lia. rewrite aget_repeat by lia.
    unfold _mm256_setzero_ps. cbn [repeat]. rewrite hsum_float_8_lanes. ring. }
  match goal with
  | |- hsum_float_8 (aget _ (for_loop nb ?body ?s0) _) = _ =>
      pose proof (for_loop_ind
        (fun k (p : list fvec) =>
           M <= Z.of_nat (length p) /\ length (aget [] p iy) = 8%nat /\
           hsum_float_8 (aget [] p iy) = for_loop k (fun i a => fadd a (f i)) fzero)
        nb body s0) as P
  end.
  cbv beta in P. destruct P as (_ & _ & P); [| |lia|exact P].
  - rewrite repeat_length, aget_repeat by lia.
    split; [lia|]. split; [reflexivity|].
    rewrite for_loop_nonpos by lia. unfold _mm256_setzero_ps. cbn [repeat].
    rewrite hsum_float_8_lanes. ring.
  - intros i accd Hi (Ld & Ld8 & Hsum).
    rewrite for_loop_succ by lia. rewrite <- Hsum.
    unfold q2_K_block, q2_K_mins. cbv zeta.
    destruct (Z.leb_spec M 2) as [|_]; [lia|].
    set (x := h_q2 hp (vx + ix * bx) i).
    assert (HLd : 0 <= M <= Z.of_nat (length accd)) by lia.
    destruct (for_loop_aset []
      (fun iy a => _mm256_fmadd_ps
                     (_mm256_set1_ps (fmul (fneg (fp16_to_fp32 (q2_dmin x))) (scale hp q8 iy i)))
                     (_mm256_cvtepi32_ps
                        (_mm256_madd_epi16
                           (_mm256_cvtepi8_epi16
                              (_mm_and_si128 (_mm_srli_epi16 (_mm_loadu_si128 (q2_scales x) 0) 4)
                                             (_mm_set1_epi8 15)))
                           (load_bsums hp q8 iy i))) a)
      accd M HLd) as [L0 E0].
    cbv beta iota zeta in L0, E0 |- *.
    name_loop L0 E0 M accd r0.
    assert (HLr : 0 <= M <= Z.of_nat (length r0)) by (rewrite L0; exact HLd).
    destruct (for_loop_aset []
      (fun iy a => _mm256_fmadd_ps (_mm256_set1_ps (fmul (fp16_to_fp32 (q2_d x))
                                                         (scale hp q8 iy i)))
                     (_mm256_cvtepi32_ps (aget [] (q2_K_sumi hp M q8 x i) iy)) a)
      r0 M HLr) as [L1 E1].
    cbv beta iota zeta in L1, E1 |- *.
    name_loop L1 E1 M r0 r1.
    unfold fvec in *. split; [lia|].
    rewrite E1, E0 by lia. destruct (Z.ltb_spec iy M); [|lia].
    destruct (q2_K_wide_sumi hp M q8 x i iy HM Hiy) as (Ls & _ & Ss).
    rewrite q2_K_prod.
    unfold _mm256_fmadd_ps, _mm256_cvtepi32_ps. rewrite cvtepi32_ps_i32s.
    unfold scale. subst f x. cbv beta. rewrite <- Ss, <- zsum_corr_lanes.
    destruct (length_8 (i32s (aget [] (q2_K_sumi hp M q8 (h_q2 hp (vx + ix * bx) i) i) iy))
                (length_i32s _ Ls)) as (z0 & z1 & z2 & z3 & z4 & z5 & z6 & z7 & ->).
    destruct (length_8 (corr_lanes (q2_min (h_q2 hp (vx + ix * bx) i))
                                   (q8_bsum (q8_block hp q8 iy i))) eq_refl)
      as (c0 & c1 & c2 & c3 & c4 & c5 & c6 & c7 & ->).
    rewrite !zsum_8.
    match goal with
    | |- context [vfmadd_ps (_mm256_set1_ps ?c) (map i32_to_f [?l0; ?l1; ?l2; ?l3; ?l4; ?l5; ?l6; ?l7])
                            (aget [] accd iy)] =>
        destruct (hsum_float_8_step fone c l0 l1 l2 l3 l4 l5 l6 l7 (aget [] accd iy) Ld8)
          as [La Ea]
    end.
    cbv zeta in La, Ea.
    match goal with
    | |- context [vfmadd_ps (_mm256_set1_ps ?d) (map i32_to_f [z0; z1; z2; z3; z4; z5; z6; z7]) ?a] =>
        destruct (hsum_float_8_step fone d z0 z1 z2 z3 z4 z5 z6 z7 a La) as [Lb Eb]
    end.
    cbv zeta in Lb, Eb.
    split; [exact Lb|]. rewrite Eb, Ea. ring.
Qed.

End Q2_K_exact.

(** X20.  In the Q2_K kernels of width above 2 the integer path is exact on
    every input: the bytes the kernel masks out are the 2-bit quants,
    [vpmaddubsw] never saturates and no 32-bit lane wraps, so the eight
    lanes of the integer accumulator of a column add up to the integer dot
    product of the two super-blocks, sub-block by sub-block with the 4-bit
    scales. *)
Theorem q2_K_wide_intdot {F : Type} `{FloatOps F} (hp : Heaps F)
  (M : Z) (q8 : list Z) (x : block_q2_K) (i iy : Z) :
  2 < M -> 0 <= iy < M ->
  Forall (fun v => - 1572864 <= v <= 1572864) (i32s (aget [] (q2_K_sumi hp M q8 x i) iy)) /\
  zsum (i32s (aget [] (q2_K_sumi hp M q8 x i) iy))
  = q2_K_intdot x (q8_qs (q8_block hp q8 iy i)).
Proof.
  intros HM Hiy. now destruct (q2_K_wide_sumi hp M q8 x i iy HM Hiy) as (_ & B & S).
Qed.

Lemma q2_K_wide_intdot_witness :
  2 < 4 /\ 0 <= 3 < 4 /\
  zsum (i32s (aget [] (q2_K_sumi corr_demo 4 (Q8 4 0 292) (h_q2 corr_demo 0 0) 0) 3))
  = q2_K_intdot (h_q2 corr_demo 0 0) (q8_qs (q8_block corr_demo (Q8 4 0 292) 3 0)).
Proof.
  assert (H1 : 2 < 4) by lia. assert (H2 : 0 <= 3 < 4) by lia.
  split; [exact H1|]. split; [exact H2|].
  exact (proj2 (q2_K_wide_intdot corr_demo 4 (Q8 4 0 292) (h_q2 corr_demo 0 0) 0 3 H1 H2)).
Defined.

(** X21.  In exact arithmetic the Q2_K kernels of every width compute, for a row
    and a column and on every input, the sum over the super-blocks of
    [- dmin_A d_B] times the sum of the sub-block mins times the sub-block
    sums of the Q8_K block plus [d_A d_B] times the integer dot product.
    The kernels of width 1 and 2, which leave the second pair of bits in
    place and scale by 0.25 at the end, need no condition: four times a
    2-bit quant cannot saturate [vpmaddubsw]. *)
Theorem q2_K_kernel_exact {F : Type} `{FloatOps F} (fone : F) (hp : Heaps F)
  (M nb : Z) (q8 : list Z) (vx bx ix iy : Z) :
  ExactOps F fone -> ExactScales F fone ->
  0 <= iy < M ->
  q2_K_value hp M nb q8 vx bx ix iy = q2_K_dot hp nb q8 vx bx ix iy.
Proof.
  intros E E2 Hiy. destruct (Z.le_gt_cases M 2) as [HM|HM].
  - rewrite (q2_K_value_layouts fone hp M 4 iy nb q8 q8 vx bx ix) by (auto; lia).
    apply (q2_K_wide_value fone); lia.
  - apply (q2_K_wide_value fone); lia.
Qed.

Lemma q2_K_kernel_exact_witness :
  ExactOps Qcanon.Qc (Rational.of_Z 1) /\ ExactScales Qcanon.Qc (Rational.of_Z 1) /\
  0 <= 1 < 2 /\
  q2_K_value corr_demo 2 1 (Q8 2 0 292) 0 84 0 1 = q2_K_dot corr_demo 1 (Q8 2 0 292) 0 84 0 1.
Proof.
  assert (H1 : 0 <= 1 < 2) by lia.
  split; [exact rational_exact|]. split; [exact rational_scales|]. split; [exact H1|].
  exact (q2_K_kernel_exact (Rational.of_Z 1) corr_demo 2 1 (Q8 2 0 292) 0 84 0 1
           rational_exact rational_scales H1).
Defined.


(** ** IQ4_XS *)

(** *** The scales *)

Lemma land_15_mod x : Z.land x 15 = x mod 16.
Proof. change 15 with (Z.ones 4). now rewrite Z.land_ones by lia. Qed.

Lemma land_3_mod x : Z.land x 3 = x mod 4.
Proof. change 3 with (Z.ones 2). now rewrite Z.land_ones by lia. Qed.

(** The bytes of a little-endian word and of the word shifted right by
    four, under the nibble mask. *)
Lemma word_nibbles l0 l1 l2 l3 :
  0 <= l0 < 256 -> 0 <= l1 < 256 -> 0 <= l2 < 256 -> 0 <= l3 < 256 ->
  let W := l0 + 256 * l1 + 65536 * l2 + 16777216 * l3 in
  map (fun b => Z.land b 15) (bytes_of32 W) = [l0 mod 16; l1 mod 16; l2 mod 16; l3 mod 16] /\
  map (fun b => Z.land b 15) (bytes_of32 (W / 16)) = [l0 / 16; l1 / 16; l2 / 16; l3 / 16].
Proof.
  intros H0 H1 H2 H3. cbv zeta. unfold bytes_of32. cbn [map]. rewrite !land_15_mod.
  split; repeat (apply (f_equal2 (@cons Z)); [Z.div_mod_to_equations; lia|]); reflexivity.
Qed.

Lemma u32_small x : 0 <= x < 4294967296 -> u32 x = x.
Proof. intros. unfold u32. now apply Z.mod_small. Qed.

(** The low four bits of the eight scales, as the sixteen bytes of [sl]:
    the low nibbles of the four bytes of [scales_l], then their high
    nibbles, twice. *)
Lemma iq4_sl_bytes (L : list Z) :
  let lo := fun i => u8 (nth i L 0) mod 16 in
  let hi := fun i => u8 (nth i L 0) / 16 in
  _mm_and_si128 (_mm_srlv_epi32 (_mm_set1_epi32 (read_u32 L)) (_mm_set_epi32 4 0 4 0))
                (_mm_set1_epi8 15)
  = [lo 0%nat; lo 1%nat; lo 2%nat; lo 3%nat; hi 0%nat; hi 1%nat; hi 2%nat; hi 3%nat;
     lo 0%nat; lo 1%nat; lo 2%nat; lo 3%nat; hi 0%nat; hi 1%nat; hi 2%nat; hi 3%nat].
Proof.
  cbv zeta.
  pose proof (u8_range (nth 0 L 0)) as H0. pose proof (u8_range (nth 1 L 0)) as H1.
  pose proof (u8_range (nth 2 L 0)) as H2. pose proof (u8_range (nth 3 L 0)) as H3.
  destruct (word_nibbles _ _ _ _ H0 H1 H2 H3) as [Elo Ehi]. cbv zeta in Elo, Ehi.
  unfold _mm_and_si128, _mm_srlv_epi32, _mm_set1_epi32, _mm_set_epi32, _mm_set1_epi8.
  rewrite !lanes32_bytes32. change (u8 15) with 15.
  change (read_u32 L) with (u8 (nth 0 L 0) + 256 * u8 (nth 1 L 0) + 65536 * u8 (nth 2 L 0)
                           + 16777216 * u8 (nth 3 L 0)).
  set (W := u8 (nth 0 L 0) + 256 * u8 (nth 1 L 0) + 65536 * u8 (nth 2 L 0)
            + 16777216 * u8 (nth 3 L 0)) in *.
  assert (HW : 0 <= W < 4294967296) by (subst W; lia).
  cbn [repeat map map2]. rewrite !(u32_small W) by exact HW.
  change (u32 (u32 0)) with 0. change (u32 (u32 4)) with 4.
  change (0 <? 32) with true. change (4 <? 32) with true. cbv iota.
  rewrite Z.shiftr_0_r, Z.shiftr_div_pow2 by lia. change (2 ^ 4) with 16.
  transitivity (map (fun b => Z.land b 15) (bytes_of32 W) ++
                map (fun b => Z.land b 15) (bytes_of32 (W / 16)) ++
                map (fun b => Z.land b 15) (bytes_of32 W) ++
                map (fun b => Z.land b 15) (bytes_of32 (W / 16))); [reflexivity|].
  rewrite Elo, Ehi. reflexivity.
Qed.

Lemma iq4_lshuffle a0 a1 a2 a3 a4 a5 a6 a7 a8 a9 a10 a11 a12 a13 a14 a15 :
  _mm_cvtepi8_epi16
    (_mm_shuffle_epi8 [a0; a1; a2; a3; a4; a5; a6; a7; a8; a9; a10; a11; a12; a13; a14; a15]
                      (_mm_loadu_si128 iq4_k_shuffle 0))
  = bytes16 (map (fun v => u16 (s8 v)) [a0; a4; a1; a5; a2; a6; a3; a7]).
Proof. reflexivity. Qed.

Lemma testbit_3 n : 0 <= n -> Z.testbit 3 n = (n <? 2).
Proof.
  intros Hn. destruct (Z.ltb_spec n 2).
  - assert (Hc : n = 0 \/ n = 1) by lia. destruct Hc as [-> | ->]; reflexivity.
  - apply (testbit_small 3 2); [cbn; lia|lia].
Qed.

(** Pairs of bits of [tmp32 = scales_h | (scales_h << 14)]: below bit 14
    they are those of [scales_h], from bit 16 on those of [scales_h]
    fourteen places lower. *)
Lemma iq4_tmp32_low h c :
  0 <= h < 65536 -> 0 <= c -> c + 1 < 14 ->
  Z.land (Z.shiftr (u32 (Z.lor h (Z.shiftl h 14))) c) 3 = Z.land (Z.shiftr h c) 3.
Proof.
  intros Hh Hc Hc'. apply Z.bits_inj'. intros n Hn.
  rewrite !Z.land_spec, !Z.shiftr_spec, testbit_3 by lia.
  destruct (Z.ltb_spec n 2); [|now rewrite !andb_false_r].
  rewrite !andb_true_r, testbit_u32, Z.lor_spec by lia.
  rewrite Z.shiftl_spec_low by lia. apply orb_false_r.
Qed.

Lemma iq4_tmp32_high h c :
  0 <= h < 65536 -> 16 <= c -> c + 1 < 32 ->
  Z.land (Z.shiftr (u32 (Z.lor h (Z.shiftl h 14))) c) 3 = Z.land (Z.shiftr h (c - 14)) 3.
Proof.
  intros Hh Hc Hc'. apply Z.bits_inj'. intros n Hn.
  rewrite !Z.land_spec, !Z.shiftr_spec, testbit_3 by lia.
  destruct (Z.ltb_spec n 2); [|now rewrite !andb_false_r].
  rewrite !andb_true_r, testbit_u32, Z.lor_spec by lia.
  rewrite Z.shiftl_spec by lia.
  rewrite (testbit_small h 16) by (change (2 ^ 16) with 65536; lia).
  cbn [orb]. f_equal. lia.
Qed.

(** Bytes 0 and 2 of a 32-bit lane, under the mask 3. *)
Lemma lane32_pairs X :
  0 <= X ->
  Z.land (X mod 256) 3 = Z.land X 3 /\
  Z.land ((X / 65536) mod 256) 3 = Z.land (Z.shiftr X 16) 3.
Proof.
  intros HX. rewrite !land_3_mod, Z.shiftr_div_pow2 by lia. change (2 ^ 16) with 65536.
  split; Z.div_mod_to_equations; lia.
Qed.

(** The high two bits of the eight scales, as the 16-bit lanes of [sh]. *)
Lemma iq4_sh_lanes (H : Z) :
  let h := u16 H in
  let a := fun k => Z.land (Z.shiftr h (2 * k)) 3 in
  _mm_slli_epi16
    (_mm_and_si128
       (_mm_srlv_epi32 (_mm_set1_epi32 (u32 (Z.lor h (Z.shiftl h 14)))) (_mm_set_epi32 12 8 4 0))
       (_mm_set1_epi16 3)) 4
  = bytes16 (map (fun k => 16 * a k) [0; 1; 2; 3; 4; 5; 6; 7]).
Proof.
  cbv zeta.
  assert (Hh : 0 <= u16 H < 65536) by (unfold u16; apply Z.mod_pos_bound; lia).
  set (h := u16 H) in *. set (T := u32 (Z.lor h (Z.shiftl h 14))).
  assert (HT : 0 <= T < 4294967296) by (subst T; unfold u32; apply Z.mod_pos_bound; lia).
  unfold _mm_slli_epi16, vslli_epi16, _mm_and_si128, _mm_srlv_epi32, _mm_set1_epi32,
    _mm_set_epi32, _mm_set1_epi16.
  rewrite !lanes32_bytes32. cbn [repeat map map2]. rewrite !(u32_small T) by exact HT.
  change (u32 (u32 0)) with 0. change (u32 (u32 4)) with 4.
  change (u32 (u32 8)) with 8. change (u32 (u32 12)) with 12.
  change (0 <? 32) with true. change (4 <? 32) with true.
  change (8 <? 32) with true. change (12 <? 32) with true. cbv iota.
  change (u16 3) with 3.
  assert (Hsh : forall c, 0 <= c -> 0 <= Z.shiftr T c).
  { intros c Hc. apply Z.shiftr_nonneg. lia. }
  assert (E : forall c, 0 <= c ->
            lanes16 (vand (bytes_of32 (Z.shiftr T c)) [3; 0; 3; 0])
            = [Z.land (Z.shiftr T c) 3; Z.land (Z.shiftr T (c + 16)) 3]).
  { intros c Hc. unfold bytes_of32. cbn [vand map2 lanes16].
    destruct (lane32_pairs (Z.shiftr T c) (Hsh c Hc)) as [E0 E1].
    rewrite E0, E1, !Z.land_0_r, Z.shiftr_shiftr by lia.
    repeat (apply (f_equal2 (@cons Z)); [lia|]). reflexivity. }
  transitivity (bytes16 (map (fun x => u16 (Z.shiftl x 4))
                  (lanes16 (vand (bytes_of32 (Z.shiftr T 0)) [3; 0; 3; 0]) ++
                   lanes16 (vand (bytes_of32 (Z.shiftr T 4)) [3; 0; 3; 0]) ++
                   lanes16 (vand (bytes_of32 (Z.shiftr T 8)) [3; 0; 3; 0]) ++
                   lanes16 (vand (bytes_of32 (Z.shiftr T 12)) [3; 0; 3; 0]))));
    [reflexivity|].
  rewrite !E by lia. cbn [app map]. f_equal.
  subst T.
  rewrite (iq4_tmp32_low h 0), (iq4_tmp32_low h 4), (iq4_tmp32_low h 8), (iq4_tmp32_low h 12)
    by lia.
  change (0 + 16) with 16. change (4 + 16) with 20. change (8 + 16) with 24.
  change (12 + 16) with 28.
  rewrite (iq4_tmp32_high h 16), (iq4_tmp32_high h 20), (iq4_tmp32_high h 24),
    (iq4_tmp32_high h 28) by lia.
  assert (Hs : forall v, 0 <= Z.land v 3 < 4).
  { intros v. rewrite land_3_mod. apply Z.mod_pos_bound. lia. }
  assert (Hu : forall v, u16 (Z.shiftl (Z.land v 3) 4) = 16 * Z.land v 3).
  { intros v. specialize (Hs v). rewrite Z.shiftl_mul_pow2 by lia. change (2 ^ 4) with 16.
    unfold u16. rewrite Z.mod_small by lia. lia. }
  rewrite !Hu. reflexivity.
Qed.

Lemma lanes16_vor_small A B :
  Forall (fun v => 0 <= v < 256) A -> Forall (fun v => 0 <= v < 256) B ->
  length A = length B ->
  lanes16 (vor (bytes16 A) (bytes16 B)) = map2 Z.lor A B.
Proof.
  intros HA. revert B. induction HA as [|a A Ha HA IH]; intros B HB Hl.
  - destruct B; [reflexivity|discriminate].
  - destruct HB as [|b B Hb HB]; [discriminate|].
    cbn [bytes16 flat_map app vor map2 lanes16].
    fold (bytes16 A) (bytes16 B). fold (vor (bytes16 A) (bytes16 B)).
    rewrite IH by (try assumption; cbn in Hl; lia).
    f_equal. rewrite !Z.mod_small, !Z.div_small by lia.
    change (0 mod 256) with 0. change (Z.lor 0 0) with 0. lia.
Qed.

Lemma iq4_ls_range x k : 0 <= iq4_ls x k < 64.
Proof.
  unfold iq4_ls. change 64 with (2 ^ 6). apply lor_bound; [| |lia].
  - pose proof (land_bound (Z.shiftr (u8 (nth (k / 2) (iq4_scales_l x) 0))
                                     (4 * Z.of_nat (k mod 2))) 15 4).
    change (2 ^ 4) with 16 in *. change (2 ^ 6) with 64. lia.
  - pose proof (shiftl_land3_bound (Z.shiftr (u16 (iq4_scales_h x)) (2 * Z.of_nat k))).
    rewrite Z.shiftl_mul_pow2 in * by lia.
    pose proof (land_bound (Z.shiftr (u16 (iq4_scales_h x)) (2 * Z.of_nat k)) 3 2
                  ltac:(cbn; lia) ltac:(lia)).
    change (2 ^ 2) with 4 in *. change (2 ^ 4) with 16 in *. change (2 ^ 6) with 64. lia.
Qed.

(** The eight 16-bit lanes of [scales128]: the scales [ls - 32]. *)
Lemma iq4_xs_scale_lanes (x : block_iq4_xs) :
  let h := u16 (iq4_scales_h x) in
  i16s (_mm_add_epi16
          (_mm_or_si128
             (_mm_slli_epi16
                (_mm_and_si128
                   (_mm_srlv_epi32 (_mm_set1_epi32 (u32 (Z.lor h (Z.shiftl h 14))))
                                   (_mm_set_epi32 12 8 4 0))
                   (_mm_set1_epi16 3)) 4)
             (_mm_cvtepi8_epi16
                (_mm_shuffle_epi8
                   (_mm_and_si128
                      (_mm_srlv_epi32 (_mm_set1_epi32 (read_u32 (iq4_scales_l x)))
                                      (_mm_set_epi32 4 0 4 0))
                      (_mm_set1_epi8 15))
                   (_mm_loadu_si128 iq4_k_shuffle 0))))
          (_mm_set1_epi16 (-32)))
  = map (fun k => iq4_ls x k - 32) (seq 0 8).
Proof.
  cbv zeta. rewrite iq4_sh_lanes, iq4_sl_bytes. cbv zeta. rewrite iq4_lshuffle.
  set (L := iq4_scales_l x). set (h := u16 (iq4_scales_h x)).
  assert (Hn : forall v, 0 <= v < 16 -> u16 (s8 v) = v).
  { intros v Hv. unfold s8, u16. rewrite (Z.mod_small v 256) by lia.
    destruct (Z.ltb_spec v 128); [|lia]. apply Z.mod_small. lia. }
  assert (Hlo : forall i, 0 <= u8 (nth i L 0) mod 16 < 16)
    by (intros i; apply Z.mod_pos_bound; lia).
  assert (Hhi : forall i, 0 <= u8 (nth i L 0) / 16 < 16).
  { intros i. pose proof (u8_range (nth i L 0)). Z.div_mod_to_equations. lia. }
  cbn [map]. rewrite !Hn by (apply Hlo || apply Hhi).
  assert (Ha : forall k, 0 <= Z.land (Z.shiftr h (2 * k)) 3 < 4).
  { intros k. rewrite land_3_mod. apply Z.mod_pos_bound. lia. }
  unfold _mm_add_epi16, _mm_or_si128, _mm_set1_epi16.
  rewrite lanes16_vor_small; [| | |reflexivity].
  2:{ repeat constructor; match goal with |- _ <= 16 * Z.land (Z.shiftr h (2 * ?k)) 3 =>
                                             specialize (Ha k); lia
                          | |- 16 * Z.land (Z.shiftr h (2 * ?k)) 3 < _ =>
                                             specialize (Ha k); lia end. }
  2:{ repeat constructor;
        match goal with
        | |- _ <= u8 (nth ?i L 0) mod 16 => specialize (Hlo i); lia
        | |- u8 (nth ?i L 0) mod 16 < _ => specialize (Hlo i); lia
        | |- _ <= u8 (nth ?i L 0) / 16 => specialize (Hhi i); lia
        | |- u8 (nth ?i L 0) / 16 < _ => specialize (Hhi i); lia
        end. }
  rewrite i16s_bytes16, lanes16_bytes16.
  cbn [repeat map map2 seq].
  assert (Hk : forall (k : nat) a n,
            0 <= n < 16 -> 0 <= a < 4 ->
            Z.lor n (Z.shiftl a 4) = iq4_ls x k ->
            s16 (u16 (Z.lor (16 * a) n + u16 (u16 (-32)))) = iq4_ls x k - 32).
  { intros k a n Hn' Ha' Ek. pose proof (iq4_ls_range x k) as Hr.
    rewrite Z.lor_comm. rewrite Z.shiftl_mul_pow2 in Ek by lia. change (2 ^ 4) with 16 in Ek.
    rewrite (Z.mul_comm a 16) in Ek. rewrite Ek.
    change (u16 (u16 (-32))) with 65504. rewrite s16_u16'.
    unfold s16. replace ((iq4_ls x k + 65504) mod 65536) with (iq4_ls x k + 65504 - 65536 * (if iq4_ls x k <? 32 then 0 else 1)).
    - destruct (Z.ltb_spec (iq4_ls x k) 32);
        destruct (Z.ltb_spec (iq4_ls x k + 65504 - 65536 * 0) 32768);
        destruct (Z.ltb_spec (iq4_ls x k + 65504 - 65536 * 1) 32768); lia.
    - destruct (Z.ltb_spec (iq4_ls x k) 32); Z.div_mod_to_equations; lia. }
  assert (Elo : forall i, u8 (nth i L 0) mod 16
                          = Z.land (Z.shiftr (u8 (nth i L 0)) (4 * Z.of_nat 0)) 15).
  { intros i. now rewrite land_15_mod, Z.shiftr_0_r. }
  assert (Ehi : forall i, u8 (nth i L 0) / 16
                          = Z.land (Z.shiftr (u8 (nth i L 0)) (4 * Z.of_nat 1)) 15).
  { intros i. change (4 * Z.of_nat 1) with 4.
    rewrite land_15_nibble by apply u8_range. rewrite Z.shiftr_div_pow2 by lia. reflexivity. }
  repeat (apply (f_equal2 (@cons Z));
          [ apply Hk; [apply Hlo || apply Hhi | apply Ha
                      | first [rewrite Elo | rewrite Ehi]; reflexivity] |]).
  reflexivity.
Qed.

(** *** The quants *)

Lemma shuffle_8_all (S : vec) (k : Z) :
  length S = 16%nat -> 0 <= k < 8 ->
  i16s (_mm256_shuffle_epi8 (MM256_SET_M128I S S) (get_scale_shuffle_8 k))
  = repeat (nth (Z.to_nat k) (i16s S) 0) 16.
Proof.
  intros Hl Hk.
  do 16 (destruct S as [|? S]; [discriminate|]). destruct S; [|discriminate].
  assert (Hc : k = 0 \/ k = 1 \/ k = 2 \/ k = 3 \/ k = 4 \/ k = 5 \/ k = 6 \/ k = 7) by lia.
  destruct Hc as [->|[->|[->|[->|[->|[->|[->| ->]]]]]]];
    match goal with
    | |- context [get_scale_shuffle_8 ?c] =>
        let m := eval vm_compute in (get_scale_shuffle_8 c) in
        change (get_scale_shuffle_8 c) with m
    end; reflexivity.
Qed.

Lemma vand_const_l v m n :
  length v = n -> vand (repeat m n) v = map (fun b => Z.land b m) v.
Proof.
  intros <-. induction v as [|b v IH]; [reflexivity|].
  cbn [length repeat vand map2 map]. f_equal; [apply Z.land_comm|exact IH].
Qed.

Lemma iq4_nib_range qs off e : 0 <= iq4_nib qs off e < 16.
Proof.
  unfold iq4_nib. destruct (e <? 16)%nat.
  - rewrite land_15_mod. apply Z.mod_pos_bound. lia.
  - pose proof (u8_range (nth (Z.to_nat off + (e - 16)) qs 0)).
    rewrite Z.shiftr_div_pow2 by lia. change (2 ^ 4) with 16. Z.div_mod_to_equations. lia.
Qed.

Lemma length_vsrli_even a n :
  Nat.even (length a) = true -> length (vsrli_epi16 a n) = length a.
Proof.
  intros Hev. unfold vsrli_epi16. rewrite length_bytes16, length_map.
  pose proof (length_lanes16 a) as E.
  assert (Hm : (length a mod 2 = 0)%nat).
  { apply Nat.even_spec in Hev. destruct Hev as [k ->].
    rewrite Nat.mul_comm. apply Nat.Div0.mod_mul. }
  lia.
Qed.

Lemma dequant_bytes qs off : dequant qs off = map (iq4_nib qs off) (seq 0 32).
Proof.
  unfold dequant. cbv zeta.
  unfold _mm256_and_si256, _mm256_set1_epi8, MM256_SET_M128I, _mm_srli_epi16, _mm_loadu_si128.
  change (u8 15) with 15.
  assert (Ll : length (load_bytes qs off 16) = 16%nat)
    by (unfold load_bytes; now rewrite length_map, length_seq).
  assert (Ls : length (vsrli_epi16 (load_bytes qs off 16) 4) = 16%nat)
    by (rewrite length_vsrli_even; [exact Ll|now rewrite Ll]).
  rewrite vand_const_l by (rewrite length_app, Ls, Ll; reflexivity).
  rewrite map_app.
  rewrite <- (vand_const (vsrli_epi16 (load_bytes qs off 16) 4) 15
                (length (load_bytes qs off 16))) by (now rewrite Ls, Ll).
  rewrite vand_srli_const; [|now rewrite Ll|apply bytes_ok_load|lia|cbn; lia].
  unfold load_bytes. rewrite !map_map.
  change (seq 0 32) with (seq 0 16 ++ map (Nat.add 16) (seq 0 16)).
  rewrite map_app, map_map. apply (f_equal2 (@app Z)).
  - apply map_ext_in. intros e He. apply in_seq in He. unfold iq4_nib.
    destruct (Nat.ltb_spec e 16); [reflexivity|lia].
  - apply map_ext_in. intros e He. apply in_seq in He. unfold iq4_nib.
    destruct (_ <? _)%nat eqn:El; [apply Nat.ltb_lt in El; lia|].
    replace (16 + e - 16)%nat with e by lia. apply land_15_nibble, u8_range.
Qed.

Lemma shuffle_table (T idx : vec) :
  length T = 16%nat -> Forall (fun c => 0 <= c < 16) idx ->
  _mm256_shuffle_epi8 (MM256_SET_M128I T T) idx = map (fun c => nth (Z.to_nat c) T 0) idx.
Proof.
  intros Hl Hidx. unfold _mm256_shuffle_epi8, MM256_SET_M128I.
  assert (E1 : firstn 16 (T ++ T) = T).
  { rewrite <- Hl at 1. rewrite firstn_app, firstn_all, Nat.sub_diag. cbn [firstn].
    apply app_nil_r. }
  assert (E2 : skipn 16 (T ++ T) = T).
  { rewrite <- Hl at 1. rewrite skipn_app, skipn_all, Nat.sub_diag. reflexivity. }
  rewrite E1, E2. unfold _mm_shuffle_epi8. rewrite <- map_app, firstn_skipn.
  apply map_ext_Forall with (P := fun c => 0 <= c < 16); [|exact Hidx].
  intros c Hc. rewrite (testbit_small c 4) by (change (2 ^ 4) with 16; lia).
  rewrite land_15_mod, Z.mod_small by lia. reflexivity.
Qed.

Lemma kvalues_load c :
  0 <= c < 16 ->
  nth (Z.to_nat c) (_mm_loadu_si128 kvalues_iq4nl 0) 0 = u8 (nth (Z.to_nat c) kvalues_iq4nl 0).
Proof.
  intros Hc. assert (Hn : (Z.to_nat c < 16)%nat) by lia.
  generalize dependent (Z.to_nat c). intros n Hn.
  do 16 (destruct n as [|n]; [reflexivity|]). lia.
Qed.

Lemma kvalues_range n : -127 <= nth n kvalues_iq4nl 0 <= 113.
Proof. do 16 (destruct n as [|n]; [cbn; lia|]). destruct n; cbn; lia. Qed.

(** The looked-up values: byte [e] of [q4b] is the table entry of the
    nibble. *)
Lemma iq4_q4b_bytes qs off :
  _mm256_shuffle_epi8
    (MM256_SET_M128I (_mm_loadu_si128 kvalues_iq4nl 0) (_mm_loadu_si128 kvalues_iq4nl 0))
    (dequant qs off)
  = map u8 (map (fun e => nth (Z.to_nat (iq4_nib qs off e)) kvalues_iq4nl 0) (seq 0 32)).
Proof.
  rewrite dequant_bytes, shuffle_table; [|reflexivity|].
  - rewrite !map_map. apply map_ext. intros e. apply kvalues_load, iq4_nib_range.
  - apply Forall_map, Forall_forall. intros e _. apply iq4_nib_range.
Qed.

Lemma u8_s8 v : u8 (s8 v) = u8 v.
Proof.
  unfold u8, s8. destruct (Z.ltb_spec (v mod 256) 128).
  - apply Z.mod_mod. lia.
  - Z.div_mod_to_equations. lia.
Qed.

Lemma loadu_signed yqs off :
  _mm256_loadu_si256 yqs off = map u8 (map (fun e => s8 (nth (Z.to_nat off + e) yqs 0)) (seq 0 32)).
Proof.
  unfold _mm256_loadu_si256, load_bytes. rewrite map_map. apply map_ext. intros e.
  now rewrite u8_s8.
Qed.

Lemma pair_dot_comm x y : pair_dot x y = pair_dot y x.
Proof.
  revert y. induction x as [| |a b x IH] using list_pair_ind; intros y.
  - destruct y as [|? [|? ?]]; reflexivity.
  - destruct y as [|? [|? ?]]; reflexivity.
  - destruct y as [|c [|d y]]; try reflexivity.
    cbn [pair_dot]. rewrite IH. f_equal. lia.
Qed.

Lemma Forall2_map_seq {A B} (P : A -> B -> Prop) (f : nat -> A) (g : nat -> B) k n :
  (forall e, (k <= e < k + n)%nat -> P (f e) (g e)) ->
  Forall2 P (map f (seq k n)) (map g (seq k n)).
Proof.
  revert k. induction n as [|n IH]; intros k Hp; [constructor|].
  cbn [seq map]. constructor; [apply Hp; lia|]. apply IH. intros e He. apply Hp. lia.
Qed.

(** What [mul_signed] computes when nothing is assumed about the quants:
    the product with the adjusted quant. *)
Lemma sign_trick_lane_any a b :
  -127 <= a <= 127 -> -128 <= b <= 127 ->
  let xa := u8 a in
  let yb := u8 b in
  let ux := if s8 xa <? 0 then u8 (- s8 xa) else if s8 xa =? 0 then 0 else xa in
  let sy := if s8 xa <? 0 then u8 (- s8 yb) else if s8 xa =? 0 then 0 else yb in
  ux * s8 sy = a * sign_adjusted a b /\ -16256 <= a * sign_adjusted a b <= 16256.
Proof.
  intros Ha Hb. cbv zeta. unfold sign_adjusted.
  rewrite !(s8_u8 a), !(s8_u8 b) by lia.
  destruct (Z.ltb_spec a 0).
  - assert (u8 (- a) = - a) as -> by (unfold u8; apply Z.mod_small; lia).
    destruct (Z.eqb_spec b (-128)) as [-> | Hne]; cbn [andb].
    + change (s8 (u8 (- -128))) with (-128). split; nia.
    + rewrite (s8_u8 (- b)) by lia. split; nia.
  - cbn [andb]. destruct (Z.eqb_spec a 0).
    + subst. change (s8 0) with 0. lia.
    + rewrite (s8_u8 b) by lia.
      assert (u8 a = a) as -> by (unfold u8; apply Z.mod_small; lia).
      split; nia.
Qed.

Lemma mul_signed_lanes_any x y :
  Forall2 (fun a b => -127 <= a <= 127 /\ -128 <= b <= 127) x y ->
  map (fun v => s16 (u16 v))
    (maddubs_lanes (_mm256_sign_epi8 (map u8 x) (map u8 x))
                   (_mm256_sign_epi8 (map u8 y) (map u8 x)))
  = pair_dot x (map2 sign_adjusted x y) /\
  forall a b, -127 <= a <= 127 -> -128 <= b <= 127 ->
    map (fun v => s16 (u16 v))
      (maddubs_lanes (_mm256_sign_epi8 (map u8 (a :: x)) (map u8 (a :: x)))
                     (_mm256_sign_epi8 (map u8 (b :: y)) (map u8 (a :: x))))
    = pair_dot (a :: x) (map2 sign_adjusted (a :: x) (b :: y)).
Proof.
  unfold _mm256_sign_epi8.
  induction 1 as [|a0 b0 x y [Ha0 Hb0] Hxy [IH1 IH2]].
  - split; [reflexivity|]. intros; reflexivity.
  - split; [now apply IH2|].
    intros a b Ha Hb.
    cbn [map map2 maddubs_lanes pair_dot].
    f_equal; [|exact IH1].
    destruct (sign_trick_lane_any a b Ha Hb) as [E1 B1].
    destruct (sign_trick_lane_any a0 b0 Ha0 Hb0) as [E2 B2].
    cbv zeta in E1, E2. rewrite E1, E2.
    rewrite sat16_id by lia. apply s16_u16. lia.
Qed.

Lemma sign_adjusted_range a b : -128 <= b <= 127 -> -128 <= sign_adjusted a b <= 128.
Proof. intros Hb. unfold sign_adjusted. destruct (_ && _); lia. Qed.

(** One product of the IQ4_XS kernel: 32 looked-up values against 32
    quants of the column, times the scale of the sub-block.  Nothing
    saturates or wraps; the products are those with the adjusted
    quants. *)
Lemma madd_signed_piece (s : Z) sc (fx gy : nat -> Z) :
  - 32 <= s <= 32 -> length sc = 32%nat -> i16s sc = repeat s 16 ->
  (forall e, (e < 32)%nat -> - 127 <= fx e <= 127) ->
  (forall e, (e < 32)%nat -> - 128 <= gy e <= 127) ->
  let p := _mm256_madd_epi16
             (mul_signed (map u8 (map fx (seq 0 32))) (map u8 (map gy (seq 0 32)))) sc in
  length p = 32%nat /\
  Forall (fun v => - 2097152 <= v <= 2097152) (i32s p) /\
  zsum (i32s p) = s * zsum (map (fun e => fx e * sign_adjusted (fx e) (gy e)) (seq 0 32)).
Proof.
  intros Hs Lsc Esc Hfx Hgy. cbv zeta.
  assert (E16 : i16s (mul_signed (map u8 (map fx (seq 0 32))) (map u8 (map gy (seq 0 32))))
                = pair_dot (map fx (seq 0 32))
                           (map (fun e => sign_adjusted (fx e) (gy e)) (seq 0 32))).
  { unfold i16s. rewrite mul_signed_unfold, <- map2_map_seq.
    refine (proj1 (mul_signed_lanes_any _ _ _)).
    apply Forall2_map_seq. intros e He. split; [apply Hfx|apply Hgy]; lia. }
  assert (Lm : length (mul_signed (map u8 (map fx (seq 0 32))) (map u8 (map gy (seq 0 32))))
               = 32%nat).
  { unfold mul_signed. cbv zeta. apply length_maddubs;
      unfold _mm256_sign_epi8; rewrite length_map2, !length_map, !length_seq; reflexivity. }
  assert (Bp : Forall (fun v => - (2 * 128 * 128) <= v <= 2 * 128 * 128)
                 (pair_dot (map fx (seq 0 32))
                           (map (fun e => sign_adjusted (fx e) (gy e)) (seq 0 32)))).
  { apply pair_dot_bound.
    - apply Forall_map, Forall_forall. intros e He. apply in_seq in He.
      specialize (Hfx e ltac:(lia)). lia.
    - apply Forall_map, Forall_forall. intros e He. apply in_seq in He.
      apply sign_adjusted_range, Hgy. lia. }
  assert (Bq : Forall (fun v => - (2 * (2 * 128 * 128) * 32) <= v <= 2 * (2 * 128 * 128) * 32)
                 (pair_dot (pair_dot (map fx (seq 0 32))
                                     (map (fun e => sign_adjusted (fx e) (gy e)) (seq 0 32)))
                           (repeat s 16))).
  { apply pair_dot_bound; [exact Bp|].
    apply Forall_forall. intros v Hv. apply repeat_spec in Hv. subst v. lia. }
  split; [|split].
  - unfold _mm256_madd_epi16. apply length_vmadd_epi16; assumption.
  - unfold _mm256_madd_epi16. rewrite i32s_madd, E16, Esc, map_s32_id.
    + eapply Forall_weaken; [|exact Bq]. cbv beta. intros. lia.
    + eapply Forall_weaken; [|exact Bq]. cbv beta. intros. lia.
  - unfold _mm256_madd_epi16. rewrite i32s_madd, E16, Esc, map_s32_id.
    + rewrite pair_dot_comm. rewrite (pair_dot_repeat s 8) by reflexivity.
      pose proof (zsum_pair_dot_seq fx (fun e => sign_adjusted (fx e) (gy e)) 16 0) as Z0.
      change (2 * 16)%nat with 32%nat in Z0. now rewrite Z0.
    + eapply Forall_weaken; [|exact Bq]. cbv beta. intros. lia.
Qed.

(** The register view and the data model agree: byte [e] of the register
    of sub-block [b] is element [32 b + e] of the super-block. *)
Lemma iq4_quant_view qs (b e : nat) :
  (e < 32)%nat ->
  nth (Z.to_nat (iq4_nib qs (Z.of_nat (16 * b)) e)) kvalues_iq4nl 0
  = iq4_xs_quant qs (32 * b + e).
Proof.
  intros He. unfold iq4_xs_quant, iq4_xs_nibble, iq4_nib. cbv zeta.
  rewrite Nat2Z.id.
  assert (E1 : ((32 * b + e) / 32 = b)%nat).
  { symmetry. apply (Nat.div_unique _ 32 b e); lia. }
  assert (E2 : ((32 * b + e) mod 32 = e)%nat).
  { symmetry. apply (Nat.mod_unique _ 32 b e); lia. }
  rewrite E1, E2.
  destruct (Nat.ltb_spec e 16) as [Hlt|Hge].
  - assert (E3 : ((32 * b + e) mod 16 = e)%nat).
    { symmetry. apply (Nat.mod_unique _ 16 (2 * b) e); lia. }
    now rewrite E3.
  - assert (E3 : ((32 * b + e) mod 16 = e - 16)%nat).
    { symmetry. apply (Nat.mod_unique _ 16 (2 * b + 1) (e - 16)); lia. }
    now rewrite E3.
Qed.

Lemma iq4_xs_scale_broadcast (x : block_iq4_xs) (k : Z) :
  0 <= k < 8 ->
  length (_mm256_shuffle_epi8 (iq4_xs_scales x) (get_scale_shuffle_8 k)) = 32%nat /\
  i16s (_mm256_shuffle_epi8 (iq4_xs_scales x) (get_scale_shuffle_8 k))
  = repeat (iq4_ls x (Z.to_nat k) - 32) 16.
Proof.
  intros Hk. split.
  - apply length_shuffle_epi8.
    assert (Hc : k = 0 \/ k = 1 \/ k = 2 \/ k = 3 \/ k = 4 \/ k = 5 \/ k = 6 \/ k = 7) by lia.
    destruct Hc as [->|[->|[->|[->|[->|[->|[->| ->]]]]]]]; reflexivity.
  - unfold iq4_xs_scales. cbv zeta.
    pose proof (iq4_xs_scale_lanes x) as El. cbv zeta in El.
    match type of El with i16s ?S = _ => set (S128 := S) in * end.
    assert (Ls : length S128 = 16%nat).
    { pose proof (f_equal (@length Z) El) as Hl.
      unfold i16s in Hl. rewrite !length_map, length_seq in Hl.
      subst S128. unfold _mm_add_epi16 in *. rewrite lanes16_bytes16, length_map in Hl.
      rewrite length_bytes16, Hl. reflexivity. }
    rewrite shuffle_8_all by assumption. rewrite El. f_equal.
    assert (Hn : (Z.to_nat k < 8)%nat) by lia.
    generalize dependent (Z.to_nat k). intros n Hn.
    do 8 (destruct n as [|n]; [reflexivity|]). lia.
Qed.

Lemma iq4_ls_range' x k : -32 <= iq4_ls x k - 32 <= 32.
Proof. pose proof (iq4_ls_range x k). lia. Qed.

Lemma iq4_xs_quant_range qs e : -127 <= iq4_xs_quant qs e <= 113.
Proof. unfold iq4_xs_quant. apply kvalues_range. Qed.

(** Where the condition holds the adjusted quants are the quants. *)
Lemma iq4_kernel_intdot_safe (x : block_iq4_xs) (yqs : list Z) :
  iq4_xs_sign_safe x yqs = true -> iq4_xs_kernel_intdot x yqs = iq4_xs_intdot x yqs.
Proof.
  intros Hs. unfold iq4_xs_sign_safe in Hs. rewrite forallb_forall in Hs.
  unfold iq4_xs_kernel_intdot, iq4_xs_intdot.
  f_equal. apply map_ext_in. intros b Hb. apply in_seq in Hb.
  f_equal. f_equal. apply map_ext_in. intros k Hk. apply in_seq in Hk.
  f_equal. specialize (Hs (32 * b + k)%nat ltac:(apply in_seq; lia)).
  unfold sign_adjusted. apply negb_true_iff in Hs. now rewrite Hs.
Qed.

(** One product of the kernel on sub-block [b]. *)
Lemma iq4_xs_piece (x : block_iq4_xs) (yqs : list Z) (b : nat) :
  (b < 8)%nat ->
  let values := MM256_SET_M128I (_mm_loadu_si128 kvalues_iq4nl 0)
                                (_mm_loadu_si128 kvalues_iq4nl 0) in
  let p := _mm256_madd_epi16
             (mul_signed (_mm256_shuffle_epi8 values (dequant (iq4_qs x) (Z.of_nat (16 * b))))
                         (_mm256_loadu_si256 yqs (32 * Z.of_nat b)))
             (_mm256_shuffle_epi8 (iq4_xs_scales x) (get_scale_shuffle_8 (Z.of_nat b))) in
  length p = 32%nat /\
  Forall (fun v => - 2097152 <= v <= 2097152) (i32s p) /\
  zsum (i32s p)
  = (iq4_ls x b - 32) *
    zsum (map (fun k => iq4_xs_quant (iq4_qs x) (32 * b + k) *
                        sign_adjusted (iq4_xs_quant (iq4_qs x) (32 * b + k))
                                      (s8 (nth (32 * b + k) yqs 0)))
              (seq 0 32)).
Proof.
  intros Hb. cbv zeta.
  rewrite iq4_q4b_bytes, loadu_signed.
  destruct (iq4_xs_scale_broadcast x (Z.of_nat b) ltac:(lia)) as [Lsc Esc].
  rewrite Nat2Z.id in Esc.
  replace (Z.to_nat (32 * Z.of_nat b)) with (32 * b)%nat by lia.
  destruct (madd_signed_piece (iq4_ls x b - 32) _
              (fun e => nth (Z.to_nat (iq4_nib (iq4_qs x) (Z.of_nat (16 * b)) e)) kvalues_iq4nl 0)
              (fun e => s8 (nth (32 * b + e) yqs 0))
              (iq4_ls_range' x b) Lsc Esc) as (L & B & S).
  - intros e _. pose proof (kvalues_range (Z.to_nat (iq4_nib (iq4_qs x) (Z.of_nat (16 * b)) e))).
    lia.
  - intros e _. apply s8_range.
  - cbv zeta in L, B, S. split; [exact L|]. split; [exact B|].
    rewrite S. f_equal. f_equal. apply map_ext_in. intros e He. apply in_seq in He.
    now rewrite iq4_quant_view by lia.
Qed.

(** One step of the IQ4_XS loop on one column: the two products add the
    terms of sub-blocks [2 j] and [2 j + 1]. *)
Lemma iq4_xs_step (x : block_iq4_xs) (yqs : list Z) (j : Z) (v : vec) :
  0 <= j < 4 -> length v = 32%nat ->
  Forall (fun z => - (j * 4194304) <= z <= j * 4194304) (i32s v) ->
  let values := MM256_SET_M128I (_mm_loadu_si128 kvalues_iq4nl 0)
                                (_mm_loadu_si128 kvalues_iq4nl 0) in
  let scales := iq4_xs_scales x in
  let q4b_1 := _mm256_shuffle_epi8 values (dequant (iq4_qs x) (32 * j)) in
  let q4b_2 := _mm256_shuffle_epi8 values (dequant (iq4_qs x) (32 * j + 16)) in
  let p_1 := _mm256_madd_epi16
               (mul_signed q4b_1 (_mm256_loadu_si256 yqs (32 * (2 * j + 0))))
               (_mm256_shuffle_epi8 scales (get_scale_shuffle_8 (2 * j + 0))) in
  let p_2 := _mm256_madd_epi16
               (mul_signed q4b_2 (_mm256_loadu_si256 yqs (32 * (2 * j + 1))))
               (_mm256_shuffle_epi8 scales (get_scale_shuffle_8 (2 * j + 1))) in
  let t := fun b : nat =>
             (iq4_ls x b - 32) *
             zsum (map (fun k => iq4_xs_quant (iq4_qs x) (32 * b + k) *
                                 sign_adjusted (iq4_xs_quant (iq4_qs x) (32 * b + k))
                                               (s8 (nth (32 * b + k) yqs 0)))
                       (seq 0 32)) in
  let v' := _mm256_add_epi32 (_mm256_add_epi32 p_1 p_2) v in
  length v' = 32%nat /\
  Forall (fun z => - ((j + 1) * 4194304) <= z <= (j + 1) * 4194304) (i32s v') /\
  zsum (i32s v') = zsum (i32s v) + (t (Z.to_nat (2 * j)) + t (S (Z.to_nat (2 * j)))).
Proof.
  intros Hj Lv Bv. cbv zeta.
  set (b0 := Z.to_nat (2 * j)).
  replace (32 * j) with (Z.of_nat (16 * b0)) by lia.
  replace (Z.of_nat (16 * b0) + 16) with (Z.of_nat (16 * S b0)) by lia.
  replace (2 * j + 0) with (Z.of_nat b0) by lia.
  replace (2 * j + 1) with (Z.of_nat (S b0)) by lia.
  destruct (iq4_xs_piece x yqs b0 ltac:(lia)) as (L1 & B1 & S1).
  destruct (iq4_xs_piece x yqs (S b0) ltac:(lia)) as (L2 & B2 & S2).
  cbv zeta in L1, B1, S1, L2, B2, S2.
  match type of L1 with length ?p = _ => set (p1 := p) in * end.
  match type of L2 with length ?p = _ => set (p2 := p) in * end.
  destruct (add_epi32_sum 2097152 2097152 p1 p2 L1 L2 ltac:(lia) B1 B2) as (L12 & B12 & Z12).
  destruct (add_epi32_sum (2097152 + 2097152) (j * 4194304) _ v L12 Lv ltac:(lia) B12 Bv)
    as (La & Ba & Za).
  split; [exact La|]. split.
  - eapply Forall_weaken; [|exact Ba]. cbv beta. intros. lia.
  - rewrite Za, Z12, S1, S2. lia.
Qed.

Section IQ4_XS_integer.
Context {F : Type} `{FloatOps F} (hp : Heaps F).

Lemma iq4_xs_sumi_always M q8 x i iy :
  0 <= iy < M ->
  length (aget [] (iq4_xs_sumi hp M q8 x i) iy) = 32%nat /\
  Forall (fun v => - 16777216 <= v <= 16777216) (i32s (aget [] (iq4_xs_sumi hp M q8 x i) iy)) /\
  zsum (i32s (aget [] (iq4_xs_sumi hp M q8 x i) iy))
  = iq4_xs_kernel_intdot x (q8_qs (q8_block hp q8 iy i)).
Proof.
  intros Hiy. unfold iq4_xs_sumi, iq4_xs_kernel_intdot. cbv zeta. change (QK_K / 64) with 4.
  set (t := fun b : nat =>
              (iq4_ls x b - 32) *
              zsum (map (fun k => iq4_xs_quant (iq4_qs x) (32 * b + k) *
                                  sign_adjusted (iq4_xs_quant (iq4_qs x) (32 * b + k))
                                    (s8 (nth (32 * b + k) (q8_qs (q8_block hp q8 iy i)) 0)))
                        (seq 0 32))).
  change (seq 0 8) with (seq 0 (Z.to_nat (2 * 4))).
  match goal with
  | |- length (aget _ (snd (for_loop 4 ?f ?s0)) _) = _ /\ _ =>
      pose proof (for_loop_ind
        (fun j (p : Z * list vec) =>
           fst p = 32 * j /\
           M <= Z.of_nat (length (snd p)) /\
           length (aget [] (snd p) iy) = 32%nat /\
           Forall (fun v => - (j * 4194304) <= v <= j * 4194304) (i32s (aget [] (snd p) iy)) /\
           zsum (i32s (aget [] (snd p) iy)) = zsum (map t (seq 0 (Z.to_nat (2 * j)))))
        4 f s0) as P
  end.
  cbv beta in P. destruct P as (_ & _ & L & B & S); [| |lia|].
  - cbn [fst snd]. rewrite repeat_length, aget_repeat by lia.
    split; [reflexivity|]. split; [lia|]. split; [reflexivity|].
    rewrite i32s_zero. split; [repeat constructor; lia|reflexivity].
  - intros j [qs sumi] Hj (Eq & Ls & Lv & Bv & Sv).
    cbn [fst snd] in Eq, Ls, Lv, Bv, Sv.
    subst qs. cbv beta iota zeta. cbn [fst snd].
    split; [ring|].
    destruct (iq4_xs_step x (q8_qs (q8_block hp q8 iy i)) j (aget [] sumi iy) Hj Lv Bv)
      as (Lp & Bp & Sp).
    cbv zeta in Lp, Bp, Sp. fold t in Sp.
    assert (HL : 0 <= M <= Z.of_nat (length sumi)) by lia.
    match goal with
    | |- _ <= Z.of_nat (length (for_loop M
             (fun iy s => aset s iy (_mm256_add_epi32 (@?R iy) (aget [] s iy))) sumi)) /\ _ =>
        destruct (for_loop_aset [] (fun iy a => _mm256_add_epi32 (R iy) a) sumi M HL)
          as [L' E']
    end.
    cbv beta in L', E'. unfold vec in *. rewrite L'. split; [exact Ls|].
    rewrite E' by lia. destruct (Z.ltb_spec iy M) as [_|?]; [|lia].
    unfold load_quants.
    split; [exact Lp|]. split; [exact Bp|].
    rewrite Sp, Sv.
    replace (Z.to_nat (2 * (j + 1))) with (Z.to_nat (2 * j) + 2)%nat by lia.
    now rewrite zsum_seq_step2.
  - split; [exact L|]. split; [|exact S].
    eapply Forall_weaken; [|exact B]. cbv beta. intros. lia.
Qed.

End IQ4_XS_integer.

Section IQ4_XS_exact.
Context {F : Type} `{FloatOps F} (fone : F) {E : ExactOps F fone}.
Context (hp : Heaps F).

Add Ring exact_ring_iq4 : exact_ring.

Lemma iq4_xs_value_always M nb q8 vx bx ix iy :
  0 <= iy < M ->
  iq4_xs_value hp M nb q8 vx bx ix iy
  = fsum nb (fun i =>
      fmul (fmul (fp16_to_fp32 (iq4_d (h_iq4 hp (vx + ix * bx) i))) (q8_d (q8_block hp q8 iy i)))
           (i32_to_f (iq4_xs_kernel_intdot (h_iq4 hp (vx + ix * bx) i)
                                           (q8_qs (q8_block hp q8 iy i))))).
Proof.
  intros Hiy. unfold iq4_xs_value, iq4_xs_row, fsum. cbv zeta.
  set (f := fun i : Z =>
      fmul (fmul (fp16_to_fp32 (iq4_d (h_iq4 hp (vx + ix * bx) i))) (q8_d (q8_block hp q8 iy i)))
           (i32_to_f (iq4_xs_kernel_intdot (h_iq4 hp (vx + ix * bx) i)
                                           (q8_qs (q8_block hp q8 iy i))))).
  destruct (Z.le_gt_cases nb 0) as [Hnb|Hnb].
  { rewrite !for_loop_nonpos by lia. rewrite aget_repeat by lia.
    unfold _mm256_setzero_ps. cbn [repeat]. rewrite hsum_float_8_lanes. ring. }
  match goal with
  | |- hsum_float_8 (aget _ (for_loop nb ?body ?s0) _) = _ =>
      pose proof (for_loop_ind
        (fun k (p : list fvec) =>
           M <= Z.of_nat (length p) /\ length (aget [] p iy) = 8%nat /\
           hsum_float_8 (aget [] p iy) = for_loop k (fun i a => fadd a (f i)) fzero)
        nb body s0) as P
  end.
  cbv beta in P. destruct P as (_ & _ & P); [| |lia|exact P].
  - rewrite repeat_length, aget_repeat by lia.
    split; [lia|]. split; [reflexivity|].
    rewrite for_loop_nonpos by lia. unfold _mm256_setzero_ps. cbn [repeat].
    rewrite hsum_float_8_lanes. ring.
  - intros i accd Hi (Ld & Ld8 & Hsum).
    rewrite for_loop_succ by lia. rewrite <- Hsum.
    unfold iq4_xs_block. cbv zeta.
    set (x := h_iq4 hp (vx + ix * bx) i).
    assert (HLd : 0 <= M <= Z.of_nat (length accd)) by lia.
    destruct (for_loop_aset []
      (fun iy a => _mm256_fmadd_ps (_mm256_set1_ps (fmul (fp16_to_fp32 (iq4_d x))
                                                         (scale hp q8 iy i)))
                     (_mm256_cvtepi32_ps (aget [] (iq4_xs_sumi hp M q8 x i) iy)) a)
      accd M HLd) as [L1 E1].
    cbv beta iota zeta in L1, E1 |- *.
    name_loop L1 E1 M accd r1.
    unfold fvec in *. split; [lia|].
    rewrite E1 by lia. destruct (Z.ltb_spec iy M); [|lia].
    destruct (iq4_xs_sumi_always hp M q8 x i iy Hiy) as (Ls & _ & Ss).
    unfold _mm256_fmadd_ps, _mm256_cvtepi32_ps. rewrite cvtepi32_ps_i32s.
    unfold scale. subst f x. cbv beta. rewrite <- Ss.
    destruct (length_8 (i32s (aget [] (iq4_xs_sumi hp M q8 (h_iq4 hp (vx + ix * bx) i) i) iy))
                (length_i32s _ Ls)) as (z0 & z1 & z2 & z3 & z4 & z5 & z6 & z7 & ->).
    rewrite zsum_8. apply (hsum_float_8_step fone). exact Ld8.
Qed.

Lemma iq4_xs_value_exact M nb q8 vx bx ix iy :
  0 <= iy < M ->
  (forall i, 0 <= i < nb ->
     iq4_xs_sign_safe (h_iq4 hp (vx + ix * bx) i) (q8_qs (q8_block hp q8 iy i)) = true) ->
  iq4_xs_value hp M nb q8 vx bx ix iy = iq4_xs_dot hp nb q8 vx bx ix iy.
Proof.
  intros Hiy Hsafe. rewrite iq4_xs_value_always by exact Hiy.
  unfold iq4_xs_dot, fsum. cbv zeta. apply for_loop_ext. intros i a Hi.
  now rewrite iq4_kernel_intdot_safe by (apply Hsafe; exact Hi).
Qed.

End IQ4_XS_exact.

(** X22.  The scale registers of IQ4_XS decode the 6-bit scales of the format:
    the eight signed 16-bit lanes of [scales128] are [ls - 32], with the low
    four bits of [ls] a nibble of [scales_l] and its high two bits a pair
    of bits of [scales_h], and [get_scale_shuffle_8 k] broadcasts the scale
    of sub-block [k] to all sixteen lanes. *)
Theorem iq4_xs_scales_decode (x : block_iq4_xs) (k : Z) :
  0 <= k < 8 ->
  i16s (_mm256_shuffle_epi8 (iq4_xs_scales x) (get_scale_shuffle_8 k))
  = repeat (iq4_ls x (Z.to_nat k) - 32) 16.
Proof. intros Hk. now destruct (iq4_xs_scale_broadcast x k Hk). Qed.

Lemma iq4_xs_scales_decode_witness :
  0 <= 5 < 8 /\
  i16s (_mm256_shuffle_epi8 (iq4_xs_scales (h_iq4 iq4_demo 0 0)) (get_scale_shuffle_8 5))
  = repeat (iq4_ls (h_iq4 iq4_demo 0 0) (Z.to_nat 5) - 32) 16.
Proof.
  assert (H1 : 0 <= 5 < 8) by lia. split; [exact H1|].
  exact (iq4_xs_scales_decode (h_iq4 iq4_demo 0 0) 5 H1).
Defined.

(** X23.  What the integer path of the IQ4_XS kernels computes on every input,
    at every width: nothing saturates or wraps, and the eight lanes of the
    integer accumulator of a column add up to the sum over the eight
    sub-blocks of the scale [ls - 32] times the products of the table
    values with the quants of the column, except that a quant equal to
    -128 under a negative table value enters as +128: its negation in
    [mul_signed] wraps back to -128, so that product has the wrong sign. *)
Theorem iq4_xs_intdot_always {F : Type} `{FloatOps F} (hp : Heaps F)
  (M : Z) (q8 : list Z) (x : block_iq4_xs) (i iy : Z) :
  0 <= iy < M ->
  Forall (fun v => - 16777216 <= v <= 16777216) (i32s (aget [] (iq4_xs_sumi hp M q8 x i) iy)) /\
  zsum (i32s (aget [] (iq4_xs_sumi hp M q8 x i) iy))
  = iq4_xs_kernel_intdot x (q8_qs (q8_block hp q8 iy i)).
Proof.
  intros Hiy. now destruct (iq4_xs_sumi_always hp M q8 x i iy Hiy) as (_ & B & S).
Qed.

Lemma iq4_xs_intdot_always_witness :
  0 <= 1 < 2 /\
  zsum (i32s (aget [] (iq4_xs_sumi iq4_demo 2 (Q8 2 0 292) (h_iq4 iq4_demo 0 0) 0) 1))
  = iq4_xs_kernel_intdot (h_iq4 iq4_demo 0 0) (q8_qs (q8_block iq4_demo (Q8 2 0 292) 1 0)).
Proof.
  assert (H1 : 0 <= 1 < 2) by lia. split; [exact H1|].
  exact (proj2 (iq4_xs_intdot_always iq4_demo 2 (Q8 2 0 292) (h_iq4 iq4_demo 0 0) 0 1 H1)).
Defined.

(** X24.  In the IQ4_XS kernels, at every width, the integer path is exact for
    a column in which no quant is -128 where the looked-up IQ4_XS value is
    negative: the eight lanes of the integer accumulator add up to the
    integer dot product of the two super-blocks, sub-block by sub-block
    with the scales [ls - 32]. *)
Theorem iq4_xs_intdot_exact {F : Type} `{FloatOps F} (hp : Heaps F)
  (M : Z) (q8 : list Z) (x : block_iq4_xs) (i iy : Z) :
  0 <= iy < M -> iq4_xs_sign_safe x (q8_qs (q8_block hp q8 iy i)) = true ->
  zsum (i32s (aget [] (iq4_xs_sumi hp M q8 x i) iy))
  = iq4_xs_intdot x (q8_qs (q8_block hp q8 iy i)).
Proof.
  intros Hiy Hs. destruct (iq4_xs_sumi_always hp M q8 x i iy Hiy) as (_ & _ & S).
  rewrite S. now apply iq4_kernel_intdot_safe.
Qed.

Lemma iq4_xs_intdot_exact_witness :
  0 <= 1 < 2 /\
  iq4_xs_sign_safe (h_iq4 iq4_demo 0 0) (q8_qs (q8_block iq4_demo (Q8 2 0 292) 1 0)) = true /\
  zsum (i32s (aget [] (iq4_xs_sumi iq4_demo 2 (Q8 2 0 292) (h_iq4 iq4_demo 0 0) 0) 1))
  = iq4_xs_intdot (h_iq4 iq4_demo 0 0) (q8_qs (q8_block iq4_demo (Q8 2 0 292) 1 0)).
Proof.
  assert (H1 : 0 <= 1 < 2) by lia.
  assert (H2 : iq4_xs_sign_safe (h_iq4 iq4_demo 0 0)
                 (q8_qs (q8_block iq4_demo (Q8 2 0 292) 1 0)) = true)
    by (vm_compute; reflexivity).
  split; [exact H1|]. split; [exact H2|].
  exact (iq4_xs_intdot_exact iq4_demo 2 (Q8 2 0 292) (h_iq4 iq4_demo 0 0) 0 1 H1 H2).
Defined.

(** X25.  In exact arithmetic the IQ4_XS kernels of every width compute, for a
    row and a column, the sum over the super-blocks of [d_A d_B] times the
    integer dot product, when in every super-block no quant of the column
    is -128 where the IQ4_XS value it meets is negative. *)
Theorem iq4_xs_kernel_exact {F : Type} `{FloatOps F} (fone : F) (hp : Heaps F)
  (M nb : Z) (q8 : list Z) (vx bx ix iy : Z) :
  ExactOps F fone -> 0 <= iy < M ->
  (forall i, 0 <= i < nb ->
     iq4_xs_sign_safe (h_iq4 hp (vx + ix * bx) i) (q8_qs (q8_block hp q8 iy i)) = true) ->
  iq4_xs_value hp M nb q8 vx bx ix iy = iq4_xs_dot hp nb q8 vx bx ix iy.
Proof. intros E Hiy Hs. now apply (iq4_xs_value_exact fone). Qed.

Lemma iq4_xs_kernel_exact_witness :
  ExactOps Qcanon.Qc (Rational.of_Z 1) /\ 0 <= 1 < 2 /\
  (forall i, 0 <= i < 1 ->
     iq4_xs_sign_safe (h_iq4 exact_demo (0 + 0 * 136) i)
                      (q8_qs (q8_block exact_demo (Q8 2 0 292) 1 i)) = true) /\
  iq4_xs_value exact_demo 2 1 (Q8 2 0 292) 0 136 0 1
  = iq4_xs_dot exact_demo 1 (Q8 2 0 292) 0 136 0 1.
Proof.
  assert (H1 : 0 <= 1 < 2) by lia.
  assert (H2 : forall i, 0 <= i < 1 ->
            iq4_xs_sign_safe (h_iq4 exact_demo (0 + 0 * 136) i)
                             (q8_qs (q8_block exact_demo (Q8 2 0 292) 1 i)) = true)
    by (intros i _; vm_compute; reflexivity).
  split; [exact rational_exact|]. split; [exact H1|]. split; [exact H2|].
  exact (iq4_xs_kernel_exact (Rational.of_Z 1) exact_demo 2 1 (Q8 2 0 292) 0 136 0 1
           rational_exact H1 H2).
Defined.


(** ** C2: the corrections of Q3_K and Q6_K in closed form *)

(** Column [iy] of a [Q8] of width [M] is the block array at
    [vy + iy * by_] when the stride is not negative and the offset of the
    last column fits an [int]. *)
Lemma Q8_column M vy by_ iy :
  0 <= iy < M -> 0 <= by_ -> (M - 1) * by_ <= INT_MAX ->
  aget 0 (Q8 M vy by_) iy = vy + iy * by_.
Proof.
  intros Hiy Hby Hmax. rewrite aget_Q8 by assumption.
  destruct (Z.eq_dec iy 0) as [->|Hne]; [reflexivity|].
  unfold INT_MAX in *.
  assert (Hle : iy * by_ <= (M - 1) * by_) by (apply Z.mul_le_mono_nonneg_r; lia).
  assert (Hb : by_ <= iy * by_) by nia.
  rewrite (to_int_id by_) by (unfold INT_MAX; lia).
  rewrite to_int_id by (unfold INT_MAX; nia). reflexivity.
Qed.

Section CorrectionsClosed.
Context {F : Type} `{FloatOps F} (fone : F) {E : ExactOps F fone}.
Context {St : Type} (store_at : Z -> F -> St -> St) (hp : Heaps F).
Hypothesis H4 : f_4 = i32_to_f 4.
Hypothesis H32 : f_32 = i32_to_f 32.

Add Ring exact_ring_corr : exact_ring.

Lemma q3_K_value_closed M nb vx bx vy by_ ix iy :
  0 <= iy < M -> 0 <= by_ -> (M - 1) * by_ <= INT_MAX ->
  q3_K_value hp M nb (Q8 M vy by_) vx bx ix iy = q3_K_value_spec hp nb vx bx vy by_ ix iy.
Proof.
  intros Hiy Hby Hmax. rewrite (q3_K_value_exact fone) by assumption.
  unfold q3_K_dot, q3_K_value_spec, q8_block, fsum.
  rewrite (Q8_column M vy by_ iy Hiy Hby Hmax).
  apply for_loop_ext. intros i a _. cbv zeta. unfold q3_K_correction_spec. rewrite <- H4. ring.
Qed.

Lemma q6_K_value_closed M nb vx bx vy by_ ix iy :
  0 <= iy < M -> 0 <= by_ -> (M - 1) * by_ <= INT_MAX ->
  q6_K_value hp M nb (Q8 M vy by_) vx bx ix iy = q6_K_value_spec hp nb vx bx vy by_ ix iy.
Proof.
  intros Hiy Hby Hmax. rewrite (q6_K_value_exact fone) by assumption.
  unfold q6_K_dot, q6_K_value_spec, q8_block, fsum.
  rewrite (Q8_column M vy by_ iy Hiy Hby Hmax).
  apply for_loop_ext. intros i a _. cbv zeta. unfold q6_K_correction_spec. rewrite <- H32. ring.
Qed.

Lemma q3_K_writes_closed M n s bs vx bx vy by_ nrc_x st :
  0 <= by_ -> (M - 1) * by_ <= INT_MAX ->
  mul_mat_q3_K_q8_K_T store_at hp M n s bs vx bx vy by_ nrc_x st =
    (if negb (Z.rem n QK_K =? 0) then None else
     Some (for_loop nrc_x (fun ix st =>
       for_loop M (fun iy st =>
         store_at (s + (ix + iy * bs))
           (q3_K_value_spec hp (Z.quot n QK_K) vx bx vy by_ ix iy) st) st) st)).
Proof.
  intros Hby Hmax. rewrite q3_K_writes. destruct (negb (Z.rem n QK_K =? 0)); [reflexivity|].
  f_equal. apply for_loop_ext. intros ix st1 _. apply for_loop_ext. intros iy st2 Hiy.
  now rewrite q3_K_value_closed.
Qed.

Lemma q6_K_writes_closed M n s bs vx bx vy by_ nrc_x st :
  0 <= by_ -> (M - 1) * by_ <= INT_MAX ->
  mul_mat_q6_K_q8_K_T store_at hp M n s bs vx bx vy by_ nrc_x st =
    (if negb (Z.rem n QK_K =? 0) then None else
     Some (for_loop nrc_x (fun ix st =>
       for_loop M (fun iy st =>
         store_at (s + (ix + iy * bs))
           (q6_K_value_spec hp (Z.quot n QK_K) vx bx vy by_ ix iy) st) st) st)).
Proof.
  intros Hby Hmax. rewrite q6_K_writes. destruct (negb (Z.rem n QK_K =? 0)); [reflexivity|].
  f_equal. apply for_loop_ext. intros ix st1 _. apply for_loop_ext. intros iy st2 Hiy.
  now rewrite q6_K_value_closed.
Qed.

End CorrectionsClosed.

(** C2 (as amended).  In arithmetic that does not round, with the
    constants [4.f] and [32.f] the conversions of 4 and 32, the Q3_K kernel
    of every width [M], on every input whose stride [by_] of [B] is not
    negative and keeps the offset [(M - 1) * by_] of the last column within
    an [int], writes to [C[ix + iy * bs]] the sum over the super-blocks [i]
    of [d * intdot + correction], where [d] is the product of the scale of
    super-block [i] of row [ix] of [A] (at [vx + ix * bx]) and of that of
    super-block [i] of column [iy] of [B] (at [vy + iy * by_]), [intdot] is
    the integer dot product of the data model (unsigned 3-bit quants, signed
    6-bit scales) and [correction] is
    [- 4 * d * sum_j sc_signed[j] * bsum_B[j]]; the Q6_K kernel does the
    same with the unsigned 6-bit quants, the [int8_t] scales and the
    correction [- 32 * d * sum_j sc[j] * bsum_B[j]].  Both kernels fail
    their assertion when [n] is not a multiple of [QK_K]. *)
Theorem q3_K_q6_K_corrections {F : Type} `{FloatOps F} {St : Type} (fone : F)
  (store_at : Z -> F -> St -> St) (hp : Heaps F)
  (M n s bs vx bx vy by_ nrc_x : Z) (st : St) :
  ExactOps F fone -> f_4 = i32_to_f 4 -> f_32 = i32_to_f 32 ->
  0 <= by_ -> (M - 1) * by_ <= INT_MAX ->
  mul_mat_q3_K_q8_K_T store_at hp M n s bs vx bx vy by_ nrc_x st =
    (if negb (Z.rem n QK_K =? 0) then None else
     Some (for_loop nrc_x (fun ix st =>
       for_loop M (fun iy st =>
         store_at (s + (ix + iy * bs))
           (q3_K_value_spec hp (Z.quot n QK_K) vx bx vy by_ ix iy) st) st) st)) /\
  mul_mat_q6_K_q8_K_T store_at hp M n s bs vx bx vy by_ nrc_x st =
    (if negb (Z.rem n QK_K =? 0) then None else
     Some (for_loop nrc_x (fun ix st =>
       for_loop M (fun iy st =>
         store_at (s + (ix + iy * bs))
           (q6_K_value_spec hp (Z.quot n QK_K) vx bx vy by_ ix iy) st) st) st)).
Proof.
  intros E H4 H32 Hby Hmax. split.
  - now apply (q3_K_writes_closed fone).
  - now apply (q6_K_writes_closed fone).
Qed.

(** Over the rationals, on the example data: two columns, two rows of one
    super-block. *)
Lemma q3_K_q6_K_corrections_witness :
  ExactOps Qcanon.Qc (Rational.of_Z 1) /\
  @f_4 Qcanon.Qc rational = i32_to_f 4 /\ @f_32 Qcanon.Qc rational = i32_to_f 32 /\
  0 <= 292 /\ (2 - 1) * 292 <= INT_MAX /\
  mul_mat_q3_K_q8_K_T log_store corr_demo 2 256 0 2 0 110 0 292 2 [] =
    Some [(0, q3_K_value_spec corr_demo 1 0 110 0 292 0 0);
          (2, q3_K_value_spec corr_demo 1 0 110 0 292 0 1);
          (1, q3_K_value_spec corr_demo 1 0 110 0 292 1 0);
          (3, q3_K_value_spec corr_demo 1 0 110 0 292 1 1)] /\
  mul_mat_q6_K_q8_K_T log_store corr_demo 2 256 0 2 0 210 0 292 2 [] =
    Some [(0, q6_K_value_spec corr_demo 1 0 210 0 292 0 0);
          (2, q6_K_value_spec corr_demo 1 0 210 0 292 0 1);
          (1, q6_K_value_spec corr_demo 1 0 210 0 292 1 0);
          (3, q6_K_value_spec corr_demo 1 0 210 0 292 1 1)].
Proof.
  assert (H1 : 0 <= 292) by lia.
  assert (H2 : (2 - 1) * 292 <= INT_MAX) by (vm_compute; discriminate).
  split; [exact rational_exact|]. split; [reflexivity|]. split; [reflexivity|].
  split; [exact H1|]. split; [exact H2|].
  split.
  - exact (proj1 (q3_K_q6_K_corrections (Rational.of_Z 1) log_store corr_demo
                    2 256 0 2 0 110 0 292 2 [] rational_exact eq_refl eq_refl H1 H2)).
  - exact (proj2 (q3_K_q6_K_corrections (Rational.of_Z 1) log_store corr_demo
                    2 256 0 2 0 210 0 292 2 [] rational_exact eq_refl eq_refl H1 H2)).
Defined.

(** C2 (as stated) fails in binary32, where the kernels accumulate the
    correction lane by lane, two sub-blocks per lane, with one rounding per
    fused multiply-add and per addition of the horizontal sum.  On one
    super-block with scales [d_A = 1] and [d_B = 1 + 2^-23], all quants of
    [A] zero, scale 1 on sub-blocks 0 and 2 and sub-block sums 1 and 5, the
    integer path gives 0 and [sum_j sc[j] * bsum_B[j] = 6]: the lanes hold
    [1 + 2^-23] and [5 + 2^-21], their sum rounds to [6 + 2^-21], and the
    kernels write [- 32 * (6 + 2^-21)] for Q6_K and [- 4 * (6 + 2^-21)] for
    Q3_K; the closed form rounds [6 * d] to [6 + 2^-20] and gives
    [- 32 * (6 + 2^-20)] and [- 4 * (6 + 2^-20)]. *)
Lemma q3_K_q6_K_corrections_counterexample :
  Z.rem 256 QK_K = 0 /\ 0 <= 292 /\ (1 - 1) * 292 <= INT_MAX /\
  q6_K_intdot (h_q6 corr_round_demo 0 0) (q8_qs (h_q8 corr_round_demo 0 0)) = 0 /\
  q3_K_intdot (h_q3 corr_round_demo 0 0) (q8_qs (h_q8 corr_round_demo 0 0)) = 0 /\
  zsum (map (fun j => q6_sc (h_q6 corr_round_demo 0 0) j * q8_bsum (h_q8 corr_round_demo 0 0) j)
            (seq 0 16)) = 6 /\
  zsum (map (fun j => q3_sc_signed (h_q3 corr_round_demo 0 0) j *
                      q8_bsum (h_q8 corr_round_demo 0 0) j) (seq 0 16)) = 6 /\
  mul_mat_q6_K_q8_K_T log_store corr_round_demo 1 256 0 1 0 210 0 292 1 []
    = Some [(0, S754_finite true 12582913 (-16))] /\
  q6_K_correction_spec (h_q6 corr_round_demo 0 0) (h_q8 corr_round_demo 0 0)
    = S754_finite true 12582914 (-16) /\
  q6_K_value_spec corr_round_demo 1 0 210 0 292 0 0 = S754_finite true 12582914 (-16) /\
  mul_mat_q6_K_q8_K_T log_store corr_round_demo 1 256 0 1 0 210 0 292 1 []
    <> Some [(0, q6_K_value_spec corr_round_demo 1 0 210 0 292 0 0)] /\
  mul_mat_q3_K_q8_K_T log_store corr_round_demo 1 256 0 1 0 110 0 292 1 []
    = Some [(0, S754_finite true 12582913 (-19))] /\
  q3_K_correction_spec (h_q3 corr_round_demo 0 0) (h_q8 corr_round_demo 0 0)
    = S754_finite true 12582914 (-19) /\
  q3_K_value_spec corr_round_demo 1 0 110 0 292 0 0 = S754_finite true 12582914 (-19) /\
  mul_mat_q3_K_q8_K_T log_store corr_round_demo 1 256 0 1 0 110 0 292 1 []
    <> Some [(0, q3_K_value_spec corr_round_demo 1 0 110 0 292 0 0)].
Proof.
  vm_compute. repeat split; try congruence; try discriminate.
Qed.

(** ** C7: the rows and the entries of [C] of every worker *)

Lemma NoDup_zrange n : NoDup (zrange n).
Proof.
  unfold zrange. apply NoDup_map_NoDup_ForallPairs; [|apply seq_NoDup].
  intros x y _ _ E. lia.
Qed.

(** No key twice in a concatenation of pieces: no key twice in a piece and
    no key in two pieces. *)
Lemma NoDup_keys_flat_map {A B K : Type} (key : B -> K) (g : A -> list B) (l : list A) :
  NoDup l ->
  (forall x, In x l -> NoDup (map key (g x))) ->
  (forall x y b b', In x l -> In y l -> In b (g x) -> In b' (g y) -> key b = key b' -> x = y) ->
  NoDup (map key (flat_map g l)).
Proof.
  induction l as [|x l IH]; intros Hl Hin Hx; cbn [flat_map map]; [constructor|].
  rewrite map_app. inversion Hl as [|x' l' Hnx Hl']; subst.
  apply NoDup_app.
  - apply Hin. now left.
  - apply IH; [assumption| |].
    + intros y Hy. apply Hin. now right.
    + intros y z b b' Hy Hz. apply Hx; now right.
  - intros k Hk Hk'. apply in_map_iff in Hk. destruct Hk as (b & <- & Hb).
    apply in_map_iff in Hk'. destruct Hk' as (b' & E & Hb').
    apply in_flat_map in Hb'. destruct Hb' as (y & Hy & Hb').
    apply Hnx. rewrite (Hx x y b b'); auto using in_eq, in_cons.
Qed.

Lemma NoDup_tile_writes {F : Type} (val : Z -> Z -> F) M s bs nrc_x :
  nrc_x <= bs -> NoDup (map fst (tile_writes val M s bs nrc_x)).
Proof.
  intros Hbs. unfold tile_writes. apply NoDup_keys_flat_map.
  - apply NoDup_zrange.
  - intros ix Hix. apply in_zrange in Hix. rewrite map_map. cbn [fst].
    apply NoDup_map_NoDup_ForallPairs; [|apply NoDup_zrange].
    intros iy iy' _ _ E.
    assert (E0 : (iy - iy') * bs = 0) by (rewrite Z.mul_sub_distr_r; lia).
    apply Z.mul_eq_0 in E0. lia.
  - intros ix ix' [a v] [a' v'] Hix Hix' Hb Hb' E. cbn [fst] in E. subst a'.
    apply in_zrange in Hix. apply in_zrange in Hix'.
    apply in_map_iff in Hb. destruct Hb as (iy & Eb & _).
    apply in_map_iff in Hb'. destruct Hb' as (iy' & Eb' & _).
    inversion Eb as [[Ea Ev]]. inversion Eb' as [[Ea' Ev']].
    assert (E' : ix + iy * bs = ix' + iy' * bs) by lia.
    now destruct (tile_address_inj bs nrc_x ix iy ix' iy' Hbs Hix Hix' E').
Qed.

Lemma NoDup_peel Ny : NoDup (peel Ny).
Proof.
  unfold peel. apply NoDup_app.
  - apply NoDup_map_NoDup_ForallPairs; [|apply NoDup_zrange].
    intros k k' _ _ E. apply (f_equal snd) in E. cbn [snd] in E. lia.
  - destruct (4 <=? Ny mod 8), (2 <=? Ny mod 4), (1 <=? Ny mod 2); cbn [app];
      repeat constructor; cbn [In]; intuition congruence.
  - intros p Hp Hp'. apply in_map_iff in Hp. destruct Hp as (k & <- & _).
    destruct (4 <=? Ny mod 8), (2 <=? Ny mod 4), (1 <=? Ny mod 2); cbn [app In] in Hp';
      intuition congruence.
Qed.

(** The value a kernel writes for a row depends on the row through its
    block array [vx + ix * bx] alone. *)
Lemma value_of_row {F : Type} `{FloatOps F} (hp : Heaps F) f M nb q8 vx bx ix iy :
  value_of hp f M nb q8 vx bx ix iy = value_of hp f M nb q8 (vx + ix * bx) bx 0 iy.
Proof.
  destruct f; cbn [value_of];
    unfold q2_K_value, q3_K_value, q4_K_value, q5_K_value, q6_K_value, iq4_xs_value,
           q2_K_row, q3_K_row, q4_K_row, q5_K_row, q6_K_row, iq4_xs_row;
    replace (vx + ix * bx + 0 * bx) with (vx + ix * bx) by ring;
    replace (vx + ix * bx + bx * 0) with (vx + bx * ix) by ring;
    reflexivity.
Qed.

Section Workers.
Context {F : Type} `{FloatOps F} (hp : Heaps F) (env : ggml_env).
Variables (f : family) (Nx Ny ne00 typeA A B C stride_C nth : Z).
Hypothesis HNx : 1 <= Nx <= LONG_MAX.
Hypothesis Hnth : 1 <= nth <= INT_MAX.
Hypothesis Hc : (Nx + nth - 1) / nth <= INT_MAX.
Hypothesis Hne : Z.rem ne00 QK_K = 0.
Hypothesis Hf : family_of env typeA = Some f.
Hypothesis HNy : 0 <= Ny <= INT_MAX.
Hypothesis Hbs : Nx <= stride_C.

Let c := (Nx + nth - 1) / nth.

Lemma slice_inside ith r :
  0 <= ith < nth -> ith * c <= r < Z.min Nx ((ith + 1) * c) -> 0 <= r < Nx.
Proof.
  intros Hith Hr. assert (0 <= ith * c); [|lia].
  destruct (ceil_div_bounds Nx nth ltac:(lia) ltac:(lia)) as (Hc1 & _).
  apply Z.mul_nonneg_nonneg; subst c; lia.
Qed.

Lemma slice_owner r :
  0 <= r < Nx ->
  0 <= r / c < nth /\ (r / c) * c <= r < Z.min Nx ((r / c + 1) * c) /\
  forall ith, 0 <= ith < nth -> ith * c <= r < Z.min Nx ((ith + 1) * c) -> ith = r / c.
Proof.
  intros Hr.
  destruct (ceil_div_bounds Nx nth ltac:(lia) ltac:(lia)) as (Hc1 & Hlo & Hhi).
  fold c in Hc1, Hlo, Hhi.
  pose proof (Z.div_mod r c ltac:(lia)) as Hdm.
  pose proof (Z.mod_pos_bound r c ltac:(lia)) as Hm.
  assert (Hq0 : 0 <= r / c) by (apply Z.div_pos; lia).
  assert (Hq : r / c < nth) by (apply Z.div_lt_upper_bound; lia).
  split; [lia|]. split; [nia|].
  intros ith Hith Hin.
  assert ((ith + 1) * c = ith * c + c) by ring.
  apply (Z.div_unique r c ith (r - ith * c)); lia.
Qed.

Lemma worker_log ith :
  0 <= ith < nth ->
  iqk_mul_mat log_store hp env Nx Ny ne00 typeA A B C stride_C ith nth []
  = Some (true, entry_writes hp env f Nx Ny ne00 typeA A B C stride_C ith nth) /\
  NoDup (map fst (entry_writes hp env f Nx Ny ne00 typeA A B C stride_C ith nth)) /\
  forall a v,
    In (a, v) (entry_writes hp env f Nx Ny ne00 typeA A B C stride_C ith nth) <->
    exists r col p,
      ith * c <= r < Z.min Nx ((ith + 1) * c) /\ 0 <= col < Ny /\
      In p (peel Ny) /\ snd p <= col < snd p + fst p /\
      a = C + r + col * stride_C /\
      v = value_of hp f (fst p) (Z.quot (to_int ne00) QK_K)
            (Q8 (fst p) (B + snd p * ggml_row_size env (GGML_TYPE_Q8_K env) ne00)
                (ggml_row_size env (GGML_TYPE_Q8_K env) ne00))
            (A + ggml_row_size env typeA ne00 * r) (ggml_row_size env typeA ne00)
            0 (col - snd p).
Proof.
  intros Hith.
  assert (ENy : to_int Ny = Ny) by (apply to_int_id; unfold INT_MAX in *; lia).
  assert (HNy' : 0 <= to_int Ny) by lia.
  assert (Hn0 : nth <> 0) by lia.
  destruct (row_slice_in_range Nx ith nth HNx Hnth Hc Hith) as [Es Bs]. fold c in Es, Bs.
  assert (El : to_int (Z.min Nx ((ith + 1) * c) - ith * c) = Z.min Nx ((ith + 1) * c) - ith * c)
    by (apply to_int_id; unfold INT_MAX in *; lia).
  assert (H0 : 0 <= ith * c).
  { destruct (ceil_div_bounds Nx nth ltac:(lia) ltac:(lia)) as (Hc1 & _).
    apply Z.mul_nonneg_nonneg; subst c; lia. }
  split; [|split].
  - rewrite (iqk_mul_mat_replays log_store hp env f) by assumption.
    now rewrite replay_log.
  - unfold entry_writes. rewrite Es. apply NoDup_keys_flat_map.
    + apply NoDup_peel.
    + intros p _. apply NoDup_tile_writes. rewrite El. lia.
    + intros p p' [a v] [a' v'] Hp Hp' Hb Hb' E. cbn [fst] in E. subst a'.
      apply in_tile_writes in Hb. destruct Hb as (ix & iy & Hix & Hiy & Ea & _).
      apply in_tile_writes in Hb'. destruct Hb' as (ix' & iy' & Hix' & Hiy' & Ea' & _).
      rewrite El in Hix, Hix'.
      assert (E' : ix + (snd p + iy) * stride_C = ix' + (snd p' + iy') * stride_C) by lia.
      destruct (tile_address_inj stride_C Nx ix (snd p + iy) ix' (snd p' + iy')
                  Hbs ltac:(lia) ltac:(lia) E') as [_ Ecol].
      apply (peel_piece_unique (to_int Ny) p p' (snd p + iy)); try assumption; lia.
  - intros a v. rewrite in_entry_writes, Es, ENy. cbn [fst snd]. rewrite El. split.
    + intros (p & ix & iy & Hp & Hix & Hiy & -> & ->).
      destruct (peel_piece Ny p ltac:(lia) Hp) as (_ & Hs & Hl & _).
      exists (ith * c + ix), (snd p + iy), p. repeat split; try assumption; try lia.
      rewrite value_of_row. replace (snd p + iy - snd p) with iy by ring. f_equal. ring.
    + intros (r & col & p & Hr & Hcol & Hp & Hpc & -> & ->).
      exists p, (r - ith * c), (col - snd p). repeat split; try assumption; try lia.
      rewrite (value_of_row hp f (fst p) _ _ (A + ggml_row_size env typeA ne00 * (ith * c))).
      f_equal. ring.
Qed.

Lemma workers_partition_lemma :
  (forall ith, 0 <= ith < nth ->
     exists w,
       iqk_mul_mat log_store hp env Nx Ny ne00 typeA A B C stride_C ith nth [] = Some (true, w) /\
       NoDup (map fst w) /\
       forall a v, In (a, v) w <->
         exists r col p,
           ith * c <= r < Z.min Nx ((ith + 1) * c) /\ 0 <= col < Ny /\
           In p (peel Ny) /\ snd p <= col < snd p + fst p /\
           a = C + r + col * stride_C /\
           v = value_of hp f (fst p) (Z.quot (to_int ne00) QK_K)
                 (Q8 (fst p) (B + snd p * ggml_row_size env (GGML_TYPE_Q8_K env) ne00)
                     (ggml_row_size env (GGML_TYPE_Q8_K env) ne00))
                 (A + ggml_row_size env typeA ne00 * r) (ggml_row_size env typeA ne00)
                 0 (col - snd p)) /\
  (forall ith r, 0 <= ith < nth -> ith * c <= r < Z.min Nx ((ith + 1) * c) -> 0 <= r < Nx) /\
  (forall r, 0 <= r < Nx ->
     exists ith, 0 <= ith < nth /\ ith * c <= r < Z.min Nx ((ith + 1) * c) /\
       forall ith', 0 <= ith' < nth -> ith' * c <= r < Z.min Nx ((ith' + 1) * c) ->
                    ith' = ith) /\
  (forall r col, 0 <= r < Nx -> 0 <= col < Ny ->
     exists ith, 0 <= ith < nth /\ ith * c <= r < Z.min Nx ((ith + 1) * c) /\
       forall ith' w, 0 <= ith' < nth ->
         iqk_mul_mat log_store hp env Nx Ny ne00 typeA A B C stride_C ith' nth [] = Some (true, w) ->
         (In (C + r + col * stride_C) (map fst w) <-> ith' = ith)).
Proof.
  split; [|split; [|split]].
  - intros ith Hith. destruct (worker_log ith Hith) as (E & D & I).
    eexists. split; [exact E|]. split; [exact D|exact I].
  - apply slice_inside.
  - intros r Hr. destruct (slice_owner r Hr) as (Hq & Hin & Hu).
    exists (r / c). split; [exact Hq|]. split; [exact Hin|]. exact Hu.
  - intros r col Hr Hcol. destruct (slice_owner r Hr) as (Hq & Hin & Hu).
    exists (r / c). split; [exact Hq|]. split; [exact Hin|].
    intros ith' w Hith' Ew.
    destruct (worker_log ith' Hith') as (E & _ & I).
    rewrite E in Ew. injection Ew as <-. split.
    + intros Ha. apply in_map_iff in Ha. destruct Ha as ([a v] & Ea & Ha).
      cbn [fst] in Ea. subst a. apply I in Ha.
      destruct Ha as (r' & col' & p & Hr' & Hcol' & Hp & Hpc & Ea & _).
      pose proof (slice_inside ith' r' Hith' Hr') as Hr'N.
      assert (E' : r + col * stride_C = r' + col' * stride_C) by lia.
      destruct (tile_address_inj stride_C Nx r col r' col' Hbs Hr Hr'N E') as [-> _].
      now apply Hu.
    + intros ->. destruct (peel_cover Ny col Hcol) as (p & Hp & Hpc).
      apply in_map_iff.
      eexists (_, _). split; [reflexivity|]. apply I.
      exists r, col, p. split; [exact Hin|]. split; [exact Hcol|]. split; [exact Hp|].
      split; [exact Hpc|]. split; reflexivity.
Qed.

End Workers.

(** C7 (as amended).  For a supported type, [ne00] a multiple of [QK_K],
    [1 <= Nx <= LONG_MAX], [1 <= nth <= INT_MAX], a slice length
    [c = ceil(Nx / nth)] that fits the [int] row count of the kernels,
    [0 <= Ny <= INT_MAX] and [Nx <= stride_C]: the call of the entry point
    for the worker [ith] of [0, nth) returns true and writes, each address
    once, exactly the entries [C + r + col * stride_C] for the rows [r] of
    [ith * c, min(Nx, (ith + 1) * c)) and the columns [col] of [0, Ny),
    with the value that the kernel of the piece of the column peeling that
    holds [col] computes from row [r] of [A], the blocks at
    [A + row_size * r]; these row slices stay inside [0, Nx) and every row
    of [0, Nx) is in the slice of exactly one worker; and every entry of
    [C], row [r] of [0, Nx) and column [col] of [0, Ny), is written by the
    worker whose slice has row [r] and by no other worker. *)
Theorem row_slices_partition {F : Type} `{FloatOps F} (hp : Heaps F) (env : ggml_env)
  (f : family) (Nx Ny ne00 typeA A B C stride_C nth : Z) :
  1 <= Nx <= LONG_MAX -> 1 <= nth <= INT_MAX -> (Nx + nth - 1) / nth <= INT_MAX ->
  Z.rem ne00 QK_K = 0 -> family_of env typeA = Some f ->
  0 <= Ny <= INT_MAX -> Nx <= stride_C ->
  let c := (Nx + nth - 1) / nth in
  (forall ith, 0 <= ith < nth ->
     exists w,
       iqk_mul_mat log_store hp env Nx Ny ne00 typeA A B C stride_C ith nth [] = Some (true, w) /\
       NoDup (map fst w) /\
       forall a v, In (a, v) w <->
         exists r col p,
           ith * c <= r < Z.min Nx ((ith + 1) * c) /\ 0 <= col < Ny /\
           In p (peel Ny) /\ snd p <= col < snd p + fst p /\
           a = C + r + col * stride_C /\
           v = value_of hp f (fst p) (Z.quot (to_int ne00) QK_K)
                 (Q8 (fst p) (B + snd p * ggml_row_size env (GGML_TYPE_Q8_K env) ne00)
                     (ggml_row_size env (GGML_TYPE_Q8_K env) ne00))
                 (A + ggml_row_size env typeA ne00 * r) (ggml_row_size env typeA ne00)
                 0 (col - snd p)) /\
  (forall ith r, 0 <= ith < nth -> ith * c <= r < Z.min Nx ((ith + 1) * c) -> 0 <= r < Nx) /\
  (forall r, 0 <= r < Nx ->
     exists ith, 0 <= ith < nth /\ ith * c <= r < Z.min Nx ((ith + 1) * c) /\
       forall ith', 0 <= ith' < nth -> ith' * c <= r < Z.min Nx ((ith' + 1) * c) ->
                    ith' = ith) /\
  (forall r col, 0 <= r < Nx -> 0 <= col < Ny ->
     exists ith, 0 <= ith < nth /\ ith * c <= r < Z.min Nx ((ith + 1) * c) /\
       forall ith' w, 0 <= ith' < nth ->
         iqk_mul_mat log_store hp env Nx Ny ne00 typeA A B C stride_C ith' nth [] = Some (true, w) ->
         (In (C + r + col * stride_C) (map fst w) <-> ith' = ith)).
Proof.
  intros HNx Hnth Hc Hne Hf HNy Hbs. now apply workers_partition_lemma.
Qed.

(** Six rows over two workers, eleven columns of Q6_K: each worker returns
    true and writes no address twice, and the entry of row 4 and column 9
    is written by one worker only. *)
Lemma row_slices_partition_witness :
  1 <= 6 <= LONG_MAX /\ 1 <= 2 <= INT_MAX /\ (6 + 2 - 1) / 2 <= INT_MAX /\
  Z.rem 256 QK_K = 0 /\ family_of ggml_h 14 = Some Q6_K /\ 0 <= 11 <= INT_MAX /\ 6 <= 6 /\
  (forall ith, 0 <= ith < 2 ->
     exists w,
       iqk_mul_mat log_store corr_demo ggml_h 6 11 256 14 0 5000 100 6 ith 2 [] = Some (true, w) /\
       NoDup (map fst w)) /\
  (exists ith, 0 <= ith < 2 /\
     forall ith' w, 0 <= ith' < 2 ->
       iqk_mul_mat log_store corr_demo ggml_h 6 11 256 14 0 5000 100 6 ith' 2 [] = Some (true, w) ->
       (In (100 + 4 + 9 * 6) (map fst w) <-> ith' = ith)).
Proof.
  assert (H1 : 1 <= 6 <= LONG_MAX) by (unfold LONG_MAX; lia).
  assert (H2 : 1 <= 2 <= INT_MAX) by (unfold INT_MAX; lia).
  assert (H3 : (6 + 2 - 1) / 2 <= INT_MAX) by (vm_compute; discriminate).
  assert (H4 : Z.rem 256 QK_K = 0) by reflexivity.
  assert (H5 : family_of ggml_h 14 = Some Q6_K) by reflexivity.
  assert (H6 : 0 <= 11 <= INT_MAX) by (unfold INT_MAX; lia).
  assert (H7 : 6 <= 6) by lia.
  destruct (row_slices_partition corr_demo ggml_h Q6_K 6 11 256 14 0 5000 100 6 2
              H1 H2 H3 H4 H5 H6 H7) as (W & _ & _ & U).
  split; [exact H1|]. split; [exact H2|]. split; [exact H3|]. split; [exact H4|].
  split; [exact H5|]. split; [exact H6|]. split; [exact H7|]. split.
  - intros ith Hith. destruct (W ith Hith) as (w & E & D & _).
    exists w. split; [exact E|exact D].
  - destruct (U 4 9 ltac:(lia) ltac:(lia)) as (ith & Hith & _ & Hu).
    exists ith. split; [exact Hith|exact Hu].
Defined.

(** C7 (as stated) fails: with [Nx = 2^31] rows and a single worker the
    slice length [2^31] does not fit the [int] row count of the kernels; it
    is converted to [-2^31], the row loops do not run, and row 0 of the
    claimed slice is not processed: the call of the entry point returns
    true and writes nothing. *)
Lemma row_slices_counterexample :
  let Nx := 2147483648 in
  let c := (Nx + 1 - 1) / 1 in
  1 <= Nx /\ 1 <= 1 /\ 0 * c <= 0 < Z.min Nx ((0 + 1) * c) /\
  row_slice Nx 0 1 = (0, 2147483648) /\
  to_int (snd (row_slice Nx 0 1)) = -2147483648 /\
  worker_rows Nx 0 1 = [] /\
  ~ In 0 (worker_rows Nx 0 1) /\
  iqk_mul_mat log_store corr_demo ggml_h Nx 1 256 14 0 5000 100 Nx 0 1 [] = Some (true, []).
Proof.
  vm_compute. repeat split; try congruence; auto.
Qed.
